(** * flexiGIF: LZW trie, flexible parsing, block emission, bit reader, decoder

    A shallow embedding of the LZW core of flexiGIF
    (LzwEncoder.cpp, LzwDecoder.cpp, BinaryInputBuffer.cpp and the two
    [writeOptimized] container writers), followed by the properties the
    specification states about it.

    Conventions.
    - [unsigned int] values are [Z] with the 32-bit wrap-around written
      with [u32]; [unsigned char] counters use [u8]; [unsigned long long]
      uses [u64].
    - [std::vector<bool>] is [list bool], pushed at the back.
    - [std::vector<std::array<int,256>>] (the trie) is a finite map from
      (code, byte) to child code; an absent key is the source's
      [Unknown] (-1) entry.
    - a C++ [throw "..."] is [Err "..."]; the functions that can throw
      return [outcome]. *)

From Stdlib Require Import ZArith List Lia Bool String.
From stdpp Require Import base option list gmap.

Local Open Scope Z_scope.
Import ListNotations.

(** ** Machine integers *)

Definition u8  (x : Z) : Z := x mod 256.
Definition u32 (x : Z) : Z := x mod 4294967296.
Definition u64 (x : Z) : Z := x mod 18446744073709551616.

(** ** Results of fallible code *)

Inductive outcome (A : Type) : Type :=
| Ok  (a : A)
| Err (msg : string).
Arguments Ok {A} a.
Arguments Err {A} msg.

Definition rbind {A B : Type} (k : A -> outcome B) (r : outcome A) : outcome B :=
  match r with
  | Ok a => k a
  | Err m => Err m
  end.

(** [x ← r; k] sequences fallible steps; the first [Err] is the outcome. *)
#[global] Instance outcome_bind : MBind outcome := @rbind.
#[global] Instance outcome_ret : MRet outcome := @Ok.

Definition isOk {A : Type} (r : outcome A) : bool :=
  match r with Ok _ => true | Err _ => false end.

(** ** Raw data and bit streams *)

(** [m_data[i]]; indices outside the vector (undefined in the source)
    read as 0. *)
Definition at_ (data : list Z) (i : Z) : Z :=
  if i <? 0 then 0 else nth (Z.to_nat i) data 0.

(** [v.size()] *)
Definition size_ (data : list Z) : Z := Z.of_nat (length data).

(** ** LzwEncoder: dictionary trie *)

Module LzwEncoder.

(** [const int Unknown = -1] *)
Definition Unknown : Z := -1.

(** [m_dictionary[code][byte]] *)
Definition child (d : gmap (Z * Z) Z) (code byte : Z) : Z :=
  default Unknown (d !! (code, byte)).

(** [m_dictionary[code][byte] = v] *)
Definition setChild (d : gmap (Z * Z) Z) (code byte v : Z) : gmap (Z * Z) Z :=
  <[(code, byte) := v]> d.

(** The members of the encoder object. *)
Record BestBlock := mkBest {
  bb_length    : Z;
  bb_bits      : Z;
  bb_totalBits : Z;
  bb_tokens    : Z;
  bb_nongreedy : Z;
  bb_partial   : bool
}.

(** [BestBlock()] *)
Definition noBlock : BestBlock := mkBest 0 0 0 0 0 false.

Record Encoder := mkEncoder {
  m_data          : list Z;
  m_best          : list BestBlock;
  m_dictionary    : gmap (Z * Z) Z;
  m_dictSize      : Z;
  m_maxDictionary : Z;
  m_maxCodeLength : Z;
  m_isGif         : bool
}.

(** [LzwEncoder::LzwEncoder(data, isGif)] *)
Definition new (data : list Z) (isGif : bool) : Encoder :=
  let maxCodeLength := if isGif then 12 else 16 in
  mkEncoder data [] ∅ 0 (Z.shiftl 1 maxCodeLength - 1) maxCodeLength isGif.

Definition withDict (e : Encoder) (d : gmap (Z * Z) Z) (n : Z) : Encoder :=
  mkEncoder (m_data e) (m_best e) d n
            (m_maxDictionary e) (m_maxCodeLength e) (m_isGif e).

Definition withBest (e : Encoder) (b : list BestBlock) : Encoder :=
  mkEncoder (m_data e) b (m_dictionary e) (m_dictSize e)
            (m_maxDictionary e) (m_maxCodeLength e) (m_isGif e).

(** *** addCode *)

(** The [for (i = 1; i < length; i++)] walk of [addCode]: [n] iterations
    left, [from] the next index to read. *)
Fixpoint addCodeWalk (data : list Z) (d : gmap (Z * Z) Z)
         (n : nat) (from code : Z) : Z * Z :=
  match n with
  | O => (from, code)
  | S k =>
      let oneByte := at_ data from in
      addCodeWalk data d k (u32 (from + 1)) (child d code oneByte)
  end.

(** [int LzwEncoder::addCode(unsigned int from, unsigned int length)]:
    returns the code and the updated encoder. *)
Definition addCode (e : Encoder) (from length : Z) : Z * Encoder :=
  let code0 := at_ (m_data e) from in
  let '(from', code) :=
    addCodeWalk (m_data e) (m_dictionary e)
                (Z.to_nat (length - 1)) (u32 (from + 1)) code0 in
  if from' <? size_ (m_data e) then
    let lastByte := at_ (m_data e) from' in
    if m_dictSize e <? m_maxDictionary e then
      let d' :=
        if child (m_dictionary e) code lastByte =? Unknown
        then setChild (m_dictionary e) code lastByte (m_dictSize e)
        else m_dictionary e in
      (code, withDict e d' (u32 (m_dictSize e + 1)))
    else (code, e)
  else (code, e).

(** *** findMatch *)

(** The [for (length = 1; length < maxLength; length++)] loop of
    [findMatch]: [n] iterations left. *)
Fixpoint findMatchLoop (data : list Z) (d : gmap (Z * Z) Z)
         (maxLength : Z) (n : nat) (from code length : Z) : Z :=
  match n with
  | O => maxLength
  | S k =>
      let oneByte := at_ data from in
      let code' := child d code oneByte in
      if code' =? Unknown then length
      else findMatchLoop data d maxLength k (u32 (from + 1)) code' (length + 1)
  end.

(** [unsigned int LzwEncoder::findMatch(unsigned int from, unsigned int maxLength)] *)
Definition findMatch (e : Encoder) (from maxLength : Z) : Z :=
  let code := at_ (m_data e) from in
  findMatchLoop (m_data e) (m_dictionary e) maxLength
                (Z.to_nat (maxLength - 1)) (u32 (from + 1)) code 1.


(** *** Bit output *)

(** [static void add(BitStream& stream, unsigned int token, unsigned char numBits)]:
    the [numBits] low bits of [token], least significant first. *)
Fixpoint addBits (n : nat) (token : Z) : list bool :=
  match n with
  | O => []
  | S k => negb (Z.land token 1 =? 0) :: addBits k (Z.shiftr token 1)
  end.

Definition add (stream : list bool) (token numBits : Z) : list bool :=
  stream ++ addBits (Z.to_nat numBits) token.

(** The [do { token >>= 1; result++; } while (token != 0)] loop of
    [getMinBits]; a 32-bit token is exhausted after 32 shifts. *)
Fixpoint getMinBitsLoop (fuel : nat) (token result : Z) : Z :=
  match fuel with
  | O => result
  | S k =>
      let token' := Z.shiftr token 1 in
      let result' := u8 (result + 1) in
      if token' =? 0 then result' else getMinBitsLoop k token' result'
  end.

(** [static unsigned char getMinBits(unsigned int token)] *)
Definition getMinBits (token : Z) : Z := getMinBitsLoop 32 token 0.

(** *** Settings *)

Record OptimizationSettings := mkSettings {
  minCodeSize         : Z;
  startWithClearCode  : bool;
  verbose             : bool;
  greedy              : bool;
  minNonGreedyMatch   : Z;
  minImprovement      : Z;
  maxDictionary       : Z;
  maxTokens           : Z;
  splitRuns           : bool;
  alignment           : Z;
  readOnlyBest        : bool;
  avoidNonGreedyAgain : bool
}.

Definition setAlignment (s : OptimizationSettings) (a : Z) : OptimizationSettings :=
  mkSettings (minCodeSize s) (startWithClearCode s) (verbose s) (greedy s)
             (minNonGreedyMatch s) (minImprovement s) (maxDictionary s)
             (maxTokens s) (splitRuns s) a (readOnlyBest s)
             (avoidNonGreedyAgain s).

Definition setGreedy (s : OptimizationSettings) (g : bool) : OptimizationSettings :=
  mkSettings (minCodeSize s) (startWithClearCode s) (verbose s) g
             (minNonGreedyMatch s) (minImprovement s) (maxDictionary s)
             (maxTokens s) (splitRuns s) (alignment s) (readOnlyBest s)
             (avoidNonGreedyAgain s).

Definition setAvoidNonGreedyAgain (s : OptimizationSettings) (b : bool)
  : OptimizationSettings :=
  mkSettings (minCodeSize s) (startWithClearCode s) (verbose s) (greedy s)
             (minNonGreedyMatch s) (minImprovement s) (maxDictionary s)
             (maxTokens s) (splitRuns s) (alignment s) (readOnlyBest s) b.

Definition setReadOnlyBest (s : OptimizationSettings) (b : bool)
  : OptimizationSettings :=
  mkSettings (minCodeSize s) (startWithClearCode s) (verbose s) (greedy s)
             (minNonGreedyMatch s) (minImprovement s) (maxDictionary s)
             (maxTokens s) (splitRuns s) (alignment s) b
             (avoidNonGreedyAgain s).

Definition setSplitRuns (s : OptimizationSettings) (b : bool)
  : OptimizationSettings :=
  mkSettings (minCodeSize s) (startWithClearCode s) (verbose s) (greedy s)
             (minNonGreedyMatch s) (minImprovement s) (maxDictionary s)
             (maxTokens s) b (alignment s) (readOnlyBest s)
             (avoidNonGreedyAgain s).

Definition setLimits (s : OptimizationSettings) (maxDict maxTok : Z)
  : OptimizationSettings :=
  mkSettings (minCodeSize s) (startWithClearCode s) (verbose s) (greedy s)
             (minNonGreedyMatch s) (minImprovement s) maxDict
             maxTok (splitRuns s) (alignment s) (readOnlyBest s)
             (avoidNonGreedyAgain s).

(** *** Flexible (non-greedy) parsing *)

(** The scan [for (scan = 1; scan + 1 < lastMatchByte && allTheSame; scan++)]
    of the run check. *)
Fixpoint sameScan (data : list Z) (i lastMatchByte : Z)
         (n : nat) (scan : Z) (allTheSame : bool) : bool :=
  match n with
  | O => allTheSame
  | S k =>
      if (scan + 1 <? lastMatchByte) && allTheSame
      then sameScan data i lastMatchByte k (scan + 1)
                    (at_ data i =? at_ data (u32 (i + scan)))
      else allTheSame
  end.

(** [allTheSame] as computed when [splitRuns] is off. *)
Definition allTheSame (data : list Z) (i matchLength : Z) : bool :=
  let lastMatchByte := u32 (matchLength - 1) in
  sameScan data i lastMatchByte (Z.to_nat lastMatchByte) 1
           (at_ data i =? at_ data (u32 (i + lastMatchByte))).

(** [for (shorter = matchLength - 1; shorter > 0; shorter--)]:
    [n] iterations left; returns the final [(best, choice)]. *)
Fixpoint shorterLoop (e : Encoder) (i remaining atLeast : Z)
         (n : nat) (shorter best choice : Z) : Z * Z :=
  match n with
  | O => (best, choice)
  | S k =>
      let next := findMatch e (u32 (i + shorter)) (u32 (remaining - shorter)) in
      let sum := u32 (shorter + next) in
      if (atLeast <=? sum) && (best <? sum)
      then shorterLoop e i remaining atLeast k (shorter - 1) sum shorter
      else shorterLoop e i remaining atLeast k (shorter - 1) best choice
  end.

(** The lookahead of the [if (tryNonGreedy) { ... }] block, for a greedy
    match of [matchLength] bytes at [i]: the length finally chosen. *)
Definition flexibleChoice (e : Encoder) (s : OptimizationSettings)
           (i remaining matchLength : Z) : Z :=
  let second := findMatch e (u32 (i + matchLength)) (u32 (remaining - matchLength)) in
  let best := u32 (matchLength + second) in
  let atLeast := u32 (best + minImprovement s) in
  snd (shorterLoop e i remaining atLeast (Z.to_nat (matchLength - 1))
                   (matchLength - 1) best matchLength).

(** Match finding of one emission point: the greedy match, the decision
    whether the lookahead runs, and the lookahead.  Returns the match
    length and whether a non-greedy match was taken.  The source's run
    check assigns [tryNonGreedy = false] inside the block that the flag
    already opened and never reads the flag again, so it is evaluated
    here and its outcome is not used either. *)
Definition chooseMatch (e : Encoder) (s : OptimizationSettings)
           (i remaining : Z) : Z * bool :=
  let matchLength := findMatch e i remaining in
  let tryNonGreedy := negb (greedy s) in
  let tryNonGreedy :=
    if (matchLength =? 1) || (matchLength <? minNonGreedyMatch s)
    then false else tryNonGreedy in
  let tryNonGreedy :=
    if size_ (m_data e) <=? u32 (i + matchLength + 4)
    then false else tryNonGreedy in
  if tryNonGreedy then
    let _unused :=
      if negb (splitRuns s) && allTheSame (m_data e) i matchLength
      then false else tryNonGreedy in
    let choice := flexibleChoice e s i remaining matchLength in
    if choice <? matchLength then (choice, true) else (matchLength, false)
  else (matchLength, false).


(** *** optimizePartial *)

(** [m_best[idx]]; reads outside the vector (undefined in the source)
    give a default-constructed block. *)
Definition bestAt (best : list BestBlock) (idx : Z) : BestBlock :=
  default noBlock (best !! Z.to_nat idx).

(** [(x & (x - 1)) == 0] *)
Definition isPowerOfTwo (x : Z) : bool := Z.land x (x - 1) =? 0.

(** Local variables of [optimizePartial] that live across iterations
    of its main loop, together with the encoder object.  [l_tokens] is
    a log of the [(code, codeSize)] arguments of the [add] calls made
    inside the loop; the source has no such variable, and nothing
    reads it back. *)
Record Loop := mkLoop {
  l_enc         : Encoder;
  l_numBits     : Z;
  l_numTokens   : Z;
  l_numNonGreedyMatches : Z;
  l_matchLength : Z;
  l_codeSize    : Z;
  l_result      : list bool;
  l_tokens      : list (Z * Z)
}.

(** "need one more bit per code ?" *)
Definition nextCodeSize (e : Encoder) (codeSize : Z) : Z :=
  if m_dictSize e <? m_maxDictionary e then
    let threshold := u32 (m_dictSize e - 1) in
    if isPowerOfTwo threshold && (codeSize <? m_maxCodeLength e) then
      let codeSize' := u8 (codeSize + 1) in
      if negb (m_isGif e) && (threshold =? 256) then u8 (codeSize' - 1)
      else codeSize'
    else codeSize
  else codeSize.

(** The "match finding" and "LZW code generation" parts of one
    iteration, entered when [matchLength == 0].  [None] is the
    source's [break]. *)
Definition emitToken (s : OptimizationSettings) (from length : Z)
           (emitBitStream : bool) (i : Z) (st : Loop) : option Loop :=
  let e := l_enc st in
  if (0 <? maxDictionary s) && (maxDictionary s <=? m_dictSize e) then None
  else if (0 <? maxTokens s) && (maxTokens s <=? l_numTokens st) then None
  else
    let remaining := u32 (length + from - i) in
    let '(matchLength, nonGreedy) := chooseMatch e s i remaining in
    let codeSize := nextCodeSize e (l_codeSize st) in
    let '(code, e') := addCode e i matchLength in
    Some (mkLoop e'
                 (u32 (l_numBits st + codeSize))
                 (u32 (l_numTokens st + 1))
                 (if nonGreedy then u32 (l_numNonGreedyMatches st + 1)
                  else l_numNonGreedyMatches st)
                 matchLength
                 codeSize
                 (if emitBitStream then add (l_result st) code codeSize
                  else l_result st)
                 (if emitBitStream then l_tokens st ++ [(code, codeSize)]
                  else l_tokens st)).

(** The "cost evaluation" part of one iteration: the new [m_best].
    Every [continue] of the source returns [m_best] unchanged. *)
Definition costEvaluation (s : OptimizationSettings) (from fromAligned : Z)
           (i : Z) (st : Loop) : list BestBlock :=
  let e := l_enc st in
  let best := m_best e in
  let numBytes := u32 (i - from + 1) in
  let codeSize := l_codeSize st in
  if readOnlyBest s then best else
  let isLastByte := u32 (i + 1) =? size_ (m_data e) in
  let next := u32 (i + 1) in
  let nextAligned :=
    if 1 <? alignment s
    then u32 (next + alignment s - 1) / alignment s else next in
  if negb isLastByte && (bb_totalBits (bestAt best nextAligned) =? 0)
  then best else
  if (1 <? alignment s) && negb (numBytes mod alignment s =? 0)
     && negb isLastByte
  then best else
  let add0 := codeSize in
  let threshold := u32 (m_dictSize e - 1) in
  let add1 :=
    if isPowerOfTwo threshold && (codeSize <? m_maxCodeLength e)
    then u32 (add0 + 1) else add0 in
  let record (add : Z) : list BestBlock :=
    let isPartial := 0 <? l_matchLength st in
    let trueBits := u32 (l_numBits st + add) in
    let totalBits := u64 (trueBits + bb_totalBits (bestAt best nextAligned)) in
    let b := bestAt best fromAligned in
    if (bb_totalBits b =? 0) || (totalBits <=? bb_totalBits b)
    then <[Z.to_nat fromAligned :=
             mkBest numBytes trueBits totalBits (l_numTokens st)
                    (l_numNonGreedyMatches st) isPartial]> best
    else best in
  if m_isGif e then record add1
  else
    if negb isLastByte && (codeSize <? 16) then best else
    let add2 := if isLastByte then 0 else add1 in
    let add3 :=
      if negb (l_numBits st mod 8 =? 0)
      then u32 (add2 + (8 - l_numBits st mod 8)) else add2 in
    let add4 :=
      if negb isLastByte then
        let tokensPlusClear := u32 (l_numTokens st + 1) in
        let mod8 := Z.land tokensPlusClear 7 in
        let gap := if mod8 =? 0 then 0 else 8 - mod8 in
        u32 (add3 + u32 (codeSize * gap))
      else add3 in
    record add4.

Definition setEnc (st : Loop) (e : Encoder) : Loop :=
  mkLoop e (l_numBits st) (l_numTokens st) (l_numNonGreedyMatches st)
         (l_matchLength st) (l_codeSize st) (l_result st) (l_tokens st).

Definition setMatchLength (st : Loop) (m : Z) : Loop :=
  mkLoop (l_enc st) (l_numBits st) (l_numTokens st)
         (l_numNonGreedyMatches st) m (l_codeSize st) (l_result st)
         (l_tokens st).

(** One iteration of [for (i = from; i <= lastPos; i++)]; [None] is
    [break]. *)
Definition iteration (s : OptimizationSettings) (from length : Z)
           (emitBitStream : bool) (fromAligned : Z) (i : Z) (st : Loop)
  : option Loop :=
  st1 ← (if l_matchLength st =? 0
         then emitToken s from length emitBitStream i st
         else Some st);
  let st2 := setMatchLength st1 (u32 (l_matchLength st1 - 1)) in
  let best' := costEvaluation s from fromAligned i st2 in
  Some (setEnc st2 (withBest (l_enc st2) best')).

Fixpoint processInput (s : OptimizationSettings) (from length : Z)
         (emitBitStream : bool) (fromAligned : Z)
         (n : nat) (i : Z) (st : Loop) : Loop :=
  match n with
  | O => st
  | S k =>
      match iteration s from length emitBitStream fromAligned i st with
      | None => st
      | Some st' =>
          processInput s from length emitBitStream fromAligned k (u32 (i + 1)) st'
      end
  end.


(** [while (result.size() % 8 != 0) result.push_back(0);] -- at most
    seven pushes. *)
Fixpoint fillByte (fuel : nat) (result : list bool) : list bool :=
  match fuel with
  | O => result
  | S k =>
      if Z.of_nat (length result) mod 8 =? 0 then result
      else fillByte k (result ++ [false])
  end.

(** [for (bit = 0; bit < 8*numZeros; bit++) result.push_back(0);] *)
Definition pushZeros (result : list bool) (n : Z) : list bool :=
  result ++ repeat false (Z.to_nat n).

(** The block after the main loop: "end of block: emit either clear or
    endOfStream code", for [emitBitStream == true]. *)
Definition endOfBlock (e : Encoder) (clear endOfStream : Z) (isFinal : bool)
           (numTokens : Z) (result : list bool) : outcome (list bool) :=
  let codeSize := getMinBits (u32 (m_dictSize e - 1)) in
  if m_isGif e then
    Ok (add result (if isFinal then endOfStream else clear) codeSize)
  else
    let result1 := if isFinal then result else add result clear codeSize in
    let numTokens1 := if isFinal then numTokens else u32 (numTokens + 1) in
    let result2 := fillByte 8 result1 in
    if isFinal then Ok result2
    else if negb (codeSize =? 16)
    then Err "flexiGIF currently only supports restarts with code size = 16"
    else
      let mod8 := Z.land numTokens1 7 in
      let gap := if mod8 =? 0 then 0 else 8 - mod8 in
      let numZeros := u32 (codeSize * gap) / 8 in
      Ok (pushZeros result2 (u32 (8 * numZeros))).

(** The state with which the main loop of [optimizePartial] starts. *)
Definition initLoop (e : Encoder) (s : OptimizationSettings) : Loop :=
  let clear := u32 (Z.shiftl 1 (minCodeSize s)) in
  let dictSize := if m_isGif e then u32 (clear + 2) else u32 (clear + 1) in
  mkLoop (withDict e ∅ dictSize) 0 0 0 0 (getMinBits dictSize) [] [].

(** The block length: [m_data.size() - from], cut to [maxLength]
    unless that is 0. *)
Definition blockLength (e : Encoder) (from maxLength : Z) : Z :=
  let length := u32 (size_ (m_data e) - from) in
  if (maxLength <? length) && negb (maxLength =? 0) then maxLength else length.

(** The state in which the main loop of [optimizePartial] ends. *)
Definition runBlock (e : Encoder) (s : OptimizationSettings)
           (from length : Z) (emitBitStream : bool) : Loop :=
  let fromAligned := from / alignment s in
  let lastPos := u32 (from + length - 1) in
  processInput s from length emitBitStream fromAligned
               (Z.to_nat (lastPos - from + 1)) from (initLoop e s).

(** "allocate memory": [if (m_best.empty()) m_best.resize(m_data.size() /
    optimize.alignment + 1 + 1);].  The division by an alignment of 0
    is undefined in the source and an error here. *)
Definition allocateBest (e : Encoder) (s : OptimizationSettings) : outcome Encoder :=
  match m_best e with
  | [] =>
      if alignment s =? 0 then Err "undefined: division by zero"
      else Ok (withBest e
                 (repeat noBlock
                    (Z.to_nat (size_ (m_data e) / alignment s + 1 + 1))))
  | _ => Ok e
  end.

(** [if (optimize.alignment == 0) optimize.alignment = 1;] *)
Definition fixAlignment (s : OptimizationSettings) : OptimizationSettings :=
  if alignment s =? 0 then setAlignment s 1 else s.

(** [BitStream LzwEncoder::optimizePartial(from, maxLength, emitBitStream,
    isFinal, optimize)].

    A block of length 0 at offset 0 makes [lastPos] wrap around, and
    the loop then reads [m_data] outside its bounds; that undefined
    execution is an error here. *)
Definition optimizePartial (e : Encoder) (from maxLength : Z)
           (emitBitStream isFinal : bool) (s : OptimizationSettings)
  : outcome (list bool * Encoder) :=
  e1 ← allocateBest e s;
  let length := blockLength e1 from maxLength in
  let s := fixAlignment s in
  let fromAligned := from / alignment s in
  if negb (from mod alignment s =? 0)
  then Err "non-aligned block start is forbidden"
  else if greedy s && avoidNonGreedyAgain s && negb emitBitStream
          && (bb_nongreedy (bestAt (m_best e1) fromAligned) =? 0)
          && (0 <? bb_length (bestAt (m_best e1) fromAligned))
  then Ok ([], e1)
  else if u32 (from + length) =? 0
  then Err "undefined: read outside m_data"
  else
    let clear := u32 (Z.shiftl 1 (minCodeSize s)) in
    let endOfStream := u32 (clear + 1) in
    let st := runBlock e1 s from length emitBitStream in
    if emitBitStream then
      bits ← endOfBlock (l_enc st) clear endOfStream isFinal
                        (l_numTokens st) (l_result st);
      Ok (bits, l_enc st)
    else Ok (l_result st, l_enc st).

(** *** optimize and merge *)

(** The loop over [restarts] in [merge]: [idx] is the loop index and
    [count] is [restarts.size()]. *)
Fixpoint mergeLoop (e : Encoder) (s : OptimizationSettings)
         (count : Z) (rest : list Z) (idx pos : Z) (result : list bool)
  : outcome (list bool * Encoder) :=
  match rest with
  | [] => Ok (result, e)
  | r :: rest' =>
      if r =? 0 then mergeLoop e s count rest' (idx + 1) pos result
      else
        let isFinal := idx =? count - 1 in
        let length := u32 (r - pos) in
        s1 ← (match m_best e with
              | [] => Ok s
              | _ =>
                  if alignment s =? 0 then Err "undefined: division by zero"
                  else
                    let g := bb_nongreedy (bestAt (m_best e) (pos / alignment s)) =? 0 in
                    let s' := setGreedy s g in
                    Ok (if g then setAvoidNonGreedyAgain s' true else s')
              end);
        let s2 := setReadOnlyBest s1 true in
        '(block, e') ← optimizePartial e pos length true isFinal s2;
        if (match block with [] => true | _ => false end) && (0 <? length)
        then Err "optimization failed due to an internal error"
        else mergeLoop e' s2 count rest' (idx + 1) r (result ++ block)
  end.

(** [BitStream LzwEncoder::merge(std::vector<unsigned int> restarts,
    OptimizationSettings optimize)] *)
Definition merge (e : Encoder) (restarts : list Z) (s : OptimizationSettings)
  : outcome (list bool * Encoder) :=
  let result :=
    if startWithClearCode s && m_isGif e
    then repeat false (Z.to_nat (minCodeSize s)) ++ [true]
    else [] in
  match restarts with
  | [] => Ok (result, e)
  | _ =>
      let restarts' :=
        if List.last restarts 0 <? size_ (m_data e)
        then restarts ++ [u32 (size_ (m_data e))] else restarts in
      mergeLoop e s (Z.of_nat (length restarts')) restarts' 0 0 result
  end.

(** The [while (pos < m_data.size())] loop of [optimize]; each
    iteration advances [pos], so [m_data.size()] iterations suffice
    ([fuel] is that bound).  The division [pos / optimize.alignment]
    by an alignment of 0 is undefined in the source and an error
    here, as in [allocateBest]. *)
Fixpoint findRestarts (e : Encoder) (s : OptimizationSettings) (fuel : nat)
         (pos aligned : Z) (restarts : list Z) : outcome (list Z) :=
  if size_ (m_data e) <=? pos then Ok restarts
  else
    match fuel with
    | O => Err "undefined: restart search does not advance"
    | S k =>
        let length := bb_length (bestAt (m_best e) aligned) in
        if length =? 0
        then Err "you need to choose a smaller alignment value or increase the token limit because there is a gap between two blocks"
        else
          let pos' := u32 (pos + length) in
          if alignment s =? 0 then Err "undefined: division by zero"
          else
            findRestarts e s k pos' (pos' / alignment s) (restarts ++ [pos'])
    end.

(** [BitStream LzwEncoder::optimize(OptimizationSettings optimize)] *)
Definition optimize (e : Encoder) (s : OptimizationSettings)
  : outcome (list bool * Encoder) :=
  restarts ← findRestarts e s (length (m_data e)) 0 0 [];
  merge e restarts s.

End LzwEncoder.

(** ** BinaryInputBuffer: the bit reader *)

Module BinaryInputBuffer.

(** The members of the reader.  The 1024-byte read cache in front of
    the file ([m_cache], [m_cacheOffset], [m_cacheSize]) hands out the
    bytes of the file in order; [m_stream] is the list of bytes not yet
    handed out. *)
Record Buffer := mkBuffer {
  m_stream        : list Z;
  m_read          : Z;
  m_bitsLeft      : Z;
  m_bitBuffer     : Z;
  m_bitBufferSize : Z
}.

(** The reader as its constructor leaves it for a file with the given
    bytes. *)
Definition open (file : list Z) : Buffer :=
  mkBuffer file 0 (u32 (8 * size_ file)) 0 0.

(** [unsigned int getNumBitsLeft() const] *)
Definition getNumBitsLeft (b : Buffer) : Z := m_bitsLeft b.

(** [unsigned char getBufferedByte()]; past the end of the file the
    source hands out whatever the cache holds, which is an error here. *)
Definition getBufferedByte (b : Buffer) : outcome (Z * Buffer) :=
  match m_stream b with
  | [] => Err "undefined: read past the end of the file"
  | byte :: rest =>
      Ok (byte, mkBuffer rest (u32 (m_read b + 1)) (m_bitsLeft b)
                         (m_bitBuffer b) (m_bitBufferSize b))
  end.

(** [while (m_bitBufferSize < numBits) { ... }] of [peekBits]; with
    [numBits <= 16] two bytes always suffice. *)
Fixpoint fillBitBuffer (fuel : nat) (numBits : Z) (b : Buffer) : outcome Buffer :=
  match fuel with
  | O => Ok b
  | S k =>
      if m_bitBufferSize b <? numBits then
        '(byte, b1) ← getBufferedByte b;
        fillBitBuffer k numBits
          (mkBuffer (m_stream b1) (m_read b1) (m_bitsLeft b1)
                    (u32 (Z.lor (m_bitBuffer b1)
                                (Z.shiftl byte (m_bitBufferSize b1))))
                    (u8 (m_bitBufferSize b1 + 8)))
      else Ok b
  end.

(** [unsigned int peekBits(unsigned char numBits)]; a failed [assert]
    is an error. *)
Definition peekBits (numBits : Z) (b : Buffer) : outcome (Z * Buffer) :=
  if negb (numBits <=? 16) then Err "assertion failed: numBits <= 16"
  else if negb (numBits <=? m_bitsLeft b)
  then Err "assertion failed: numBits <= m_bitsLeft"
  else
    b1 ← fillBitBuffer 2 numBits b;
    let bitMask := u32 (Z.shiftl 1 numBits - 1) in
    Ok (Z.land (m_bitBuffer b1) bitMask, b1).

(** [void removeBits(unsigned char numBits)] *)
Definition removeBits (numBits : Z) (b : Buffer) : outcome Buffer :=
  b1 ← (if m_bitBufferSize b <? numBits
        then '(_, b') ← peekBits numBits b; Ok b'
        else Ok b);
  Ok (mkBuffer (m_stream b1) (m_read b1)
               (u32 (m_bitsLeft b1 - numBits))
               (Z.shiftr (m_bitBuffer b1) numBits)
               (u8 (m_bitBufferSize b1 - numBits))).

(** [unsigned int getBits(unsigned char numBits)] *)
Definition getBits (numBits : Z) (b : Buffer) : outcome (Z * Buffer) :=
  '(result, b1) ← peekBits numBits b;
  b2 ← removeBits numBits b1;
  Ok (result, b2).

(** [unsigned char getByte()] *)
Definition getByte (b : Buffer) : outcome (Z * Buffer) :=
  '(v, b1) ← getBits 8 b;
  Ok (u8 v, b1).

End BinaryInputBuffer.

(** ** LzwDecoder *)

Module LzwDecoder.

Import BinaryInputBuffer.

(** [const int NoPrevious = -1] and
    [const unsigned int NoEndOfStream = 0xFFFFFFFF] *)
Definition NoPrevious : Z := -1.
Definition NoEndOfStream : Z := 4294967295.

(** [struct BackReference] *)
Record BackReference := mkRef {
  br_length   : Z;
  br_previous : Z;
  br_last     : Z;
  br_pos      : Z
}.

(** A value-initialised [BackReference], as [std::vector]'s sizing
    constructor and [resize] create them. *)
Definition zeroRef : BackReference := mkRef 0 0 0 0.

(** [lut[code]]; indices outside the vector (undefined in the source)
    read as [zeroRef]. *)
Definition lutAt (lut : list BackReference) (code : Z) : BackReference :=
  if code <? 0 then zeroRef else default zeroRef (lut !! Z.to_nat code).

(** [lut.resize(n)] *)
Definition resize (n : Z) (lut : list BackReference) : list BackReference :=
  take (Z.to_nat n) lut ++ repeat zeroRef (Z.to_nat n - length lut)%nat.

(** The members of the decoder object. *)
Record Decoder := mkDecoder {
  m_input    : Buffer;
  m_bytes    : list Z;
  m_isGif    : bool;
  m_codeSize : Z;
  m_bitsLeftInCurrentBlock : Z;
  m_numBitsOriginalLZW     : Z
}.

Definition setInput (d : Decoder) (b : Buffer) : Decoder :=
  mkDecoder b (m_bytes d) (m_isGif d) (m_codeSize d)
            (m_bitsLeftInCurrentBlock d) (m_numBitsOriginalLZW d).

Definition setBytes (d : Decoder) (bytes : list Z) : Decoder :=
  mkDecoder (m_input d) bytes (m_isGif d) (m_codeSize d)
            (m_bitsLeftInCurrentBlock d) (m_numBitsOriginalLZW d).

Definition setBitsLeftInCurrentBlock (d : Decoder) (n : Z) : Decoder :=
  mkDecoder (m_input d) (m_bytes d) (m_isGif d) (m_codeSize d)
            n (m_numBitsOriginalLZW d).

Definition setNumBitsOriginalLZW (d : Decoder) (n : Z) : Decoder :=
  mkDecoder (m_input d) (m_bytes d) (m_isGif d) (m_codeSize d)
            (m_bitsLeftInCurrentBlock d) n.

(** [m_input.getBits(n)] on the decoder's reader *)
Definition inputBits (n : Z) (d : Decoder) : outcome (Z * Decoder) :=
  '(v, b) ← getBits n (m_input d);
  Ok (v, setInput d b).

(** [m_input.getByte()] on the decoder's reader *)
Definition inputByte (d : Decoder) : outcome (Z * Decoder) :=
  '(v, b) ← getByte (m_input d);
  Ok (v, setInput d b).

(** [unsigned int LzwDecoder::getLzwBits(unsigned char numBits)] *)
Definition getLzwBits (numBits : Z) (d : Decoder) : outcome (Z * Decoder) :=
  if numBits =? 0 then Ok (0, d)
  else
    let d := setNumBitsOriginalLZW d (u32 (m_numBitsOriginalLZW d + numBits)) in
    if negb (m_isGif d) then inputBits numBits d
    else if numBits <=? m_bitsLeftInCurrentBlock d then
      inputBits numBits
        (setBitsLeftInCurrentBlock d (u32 (m_bitsLeftInCurrentBlock d - numBits)))
    else
      '(low, shift, numBits1, d1) ←
        (if 0 <? m_bitsLeftInCurrentBlock d then
           '(low, d') ← inputBits (u8 (m_bitsLeftInCurrentBlock d)) d;
           Ok (low, u8 (m_bitsLeftInCurrentBlock d),
               u8 (numBits - m_bitsLeftInCurrentBlock d), d')
         else Ok (0, 0, numBits, d));
      '(blockSize, d2) ← inputByte d1;
      let d3 := setBitsLeftInCurrentBlock d2 (u32 (8 * blockSize)) in
      if m_bitsLeftInCurrentBlock d3 <? numBits1
      then Err "too few bits available in unlzw"
      else
        '(v, d4) ← inputBits numBits1 d3;
        let high := u32 (Z.shiftl v shift) in
        Ok (Z.lor low high,
            setBitsLeftInCurrentBlock d4
              (u32 (m_bitsLeftInCurrentBlock d4 - numBits1))).

(** [while (length-- > 0) { *pos-- = lut[code].last; code = lut[code].previous; }]:
    the bytes written, first byte first. *)
Fixpoint walkBack (lut : list BackReference) (n : nat) (code : Z)
         (written : list Z) : list Z :=
  match n with
  | O => written
  | S k =>
      walkBack lut k (br_previous (lutAt lut code))
               (br_last (lutAt lut code) :: written)
  end.

(** [void LzwDecoder::decode(Bytes& buffer, unsigned int code, const
    std::vector<BackReference>& lut) const] *)
Definition decode (buffer : list Z) (code : Z) (lut : list BackReference) : list Z :=
  if br_length (lutAt lut code) =? 1
  then buffer ++ [br_last (lutAt lut code)]
  else buffer ++ walkBack lut (Z.to_nat (br_length (lutAt lut code))) code [].

(** Constants of one [decompress] call. *)
Record Params := mkParams {
  p_minCodeSize : Z;
  p_maxCodeSize : Z
}.

Definition clearCode (p : Params) : Z := u32 (Z.shiftl 1 (p_minCodeSize p)).
Definition endOfStreamCode (p : Params) (isGif : bool) : Z :=
  if isGif then u32 (clearCode p + 1) else NoEndOfStream.
Definition maxColor (p : Params) : Z := u32 (clearCode p - 1).
Definition MaxToken (p : Params) : Z := u32 (Z.shiftl 1 (p_maxCodeSize p)).

(** "set initial contents": the literals, then value-initialised
    entries for the control codes. *)
Definition initialLut (p : Params) (isGif : bool) : list BackReference :=
  map (fun i => mkRef 1 NoPrevious (u8 (Z.of_nat i)) NoPrevious)
      (seq 0 (Z.to_nat (maxColor p + 1)))
  ++ repeat zeroRef (if isGif then 2%nat else 1%nat).

(** Local variables of [decompress] that live across iterations of its
    main loop, together with the decoder object.  The counters
    [numTokensTotal], [numBitsBlock], [numBitsTotal] and [uptoLastBlock]
    only feed the verbose output and are left out. *)
Record Loop := mkLoop {
  l_dec       : Decoder;
  l_lut       : list BackReference;
  l_codeSize  : Z;
  l_prevToken : Z;
  l_token     : Z;
  l_numTokensBlock : Z
}.

(** [while (gap-- > 0) m_input.getBits(codeSize);] *)
Fixpoint skipGap (gap : nat) (codeSize : Z) (d : Decoder) : outcome Decoder :=
  match gap with
  | O => Ok d
  | S k => '(_, d') ← inputBits codeSize d; skipGap k codeSize d'
  end.

(** The body of [while (token == clear) { ... }] inside the main loop.
    The body ends with a [token] that is at most [maxColor], or throws,
    so the loop runs its body at most once. *)
Definition restart (p : Params) (st : Loop) : outcome Loop :=
  let d := l_dec st in
  '(lut, d1) ←
    (if m_isGif d then Ok (resize (u32 (clearCode p + 2)) (l_lut st), d)
     else
       let lut := resize (u32 (clearCode p + 1)) (l_lut st) in
       d' ← (if negb (m_numBitsOriginalLZW d mod 8 =? 0)
             then
               let skipBits := u32 (8 - m_numBitsOriginalLZW d mod 8) in
               '(_, d') ← getLzwBits (u8 skipBits) d; Ok d'
             else Ok d);
       let mod8 := Z.land (l_numTokensBlock st) 7 in
       let gap := if mod8 =? 0 then 0 else 8 - mod8 in
       d'' ← skipGap (Z.to_nat gap) (l_codeSize st) d';
       Ok (lut, d''));
  let codeSize := u8 (p_minCodeSize p + 1) in
  '(token, d2) ← getLzwBits codeSize d1;
  if maxColor p <? token
  then Err "block starts with an undefined value/color"
  else Ok (mkLoop (setBytes d2 (m_bytes d2 ++ [u8 token]))
                  lut codeSize NoPrevious token 1).

(** "look up token in dictionary": the bytes after decoding the token
    and the last byte of the new table entry.  [bytes] is [m_bytes]
    and [addPos] its size before the token. *)
Definition lookUpToken (p : Params) (lut : list BackReference)
           (prevToken token : Z) (bytes : list Z) : outcome (list Z * Z) :=
  let addPos := u32 (size_ bytes) in
  if Z.of_nat (length lut) <=? token then
    if negb (token =? Z.of_nat (length lut))
    then Err "unknown token found"
    else if MaxToken p <=? Z.of_nat (length lut)
    then Err "dictionary too large"
    else
      let bytes' := decode bytes prevToken lut in
      let addLast := at_ bytes' addPos in
      Ok (bytes' ++ [addLast], addLast)
  else
    let bytes' := decode bytes token lut in
    Ok (bytes', at_ bytes' addPos).

(** One iteration of [while (token != endOfStream)], entered with the
    loop condition true.  [inl] goes on with the next iteration
    (including [continue]); [inr] is [break]. *)
Definition iteration (p : Params) (st : Loop) : outcome (Loop + Loop) :=
  let d := l_dec st in
  let lut := l_lut st in
  let powerOfTwo := u32 (Z.shiftl 1 (l_codeSize st)) in
  let codeSize :=
    if (Z.of_nat (length lut) =? powerOfTwo) && (l_codeSize st <? p_maxCodeSize p)
    then u8 (l_codeSize st + 1) else l_codeSize st in
  if negb (m_isGif d) && (getNumBitsLeft (m_input d) <? codeSize)
  then Ok (inr (mkLoop d lut codeSize (l_prevToken st) (l_token st)
                       (l_numTokensBlock st)))
  else
    let prevToken := l_token st in
    '(token, d1) ← getLzwBits codeSize d;
    if Z.of_nat (length lut) <? token then Err "invalid token"
    else
      let numTokensBlock := u32 (l_numTokensBlock st + 1) in
      let st1 := mkLoop d1 lut codeSize prevToken token numTokensBlock in
      if token =? clearCode p then
        st2 ← restart p st1; Ok (inl st2)
      else if token =? endOfStreamCode p (m_isGif d) then Ok (inr st1)
      else
        let addLength := br_length (lutAt lut prevToken) + 1 in
        let addPos := u32 (size_ (m_bytes d1)) in
        '(bytes, addLast) ← lookUpToken p lut prevToken token (m_bytes d1);
        let lut' :=
          if Z.of_nat (length lut) <? MaxToken p
          then lut ++ [mkRef addLength prevToken addLast addPos]
          else lut in
        Ok (inl (mkLoop (setBytes d1 bytes) lut' codeSize prevToken token
                        numTokensBlock)).

(** [while (token != endOfStream) { ... }]: every iteration that does
    not throw or stop reads at least one bit, so a [fuel] above the
    number of bits left always reaches the end. *)
Fixpoint mainLoop (p : Params) (fuel : nat) (st : Loop) : outcome Loop :=
  if l_token st =? endOfStreamCode p (m_isGif (l_dec st)) then Ok st
  else
    match fuel with
    | O => Err "undefined: decoding does not advance"
    | S k =>
        r ← iteration p st;
        match r with
        | inl st' => mainLoop p k st'
        | inr st' => Ok st'
        end
    end.


(** [while (token == clear) token = getLzwBits(codeSize);] before the
    main loop; every iteration reads [codeSize] bits. *)
Fixpoint skipClear (p : Params) (fuel : nat) (codeSize token : Z) (d : Decoder)
  : outcome (Z * Decoder) :=
  if token =? clearCode p then
    match fuel with
    | O => Err "undefined: decoding does not advance"
    | S k =>
        '(token', d') ← getLzwBits codeSize d;
        skipClear p k codeSize token' d'
    end
  else Ok (token, d).

(** [while (unusedBits > 8) { getLzwBits(8); unusedBits -= 8; }] *)
Fixpoint skipWasted (fuel : nat) (unusedBits : Z) (d : Decoder)
  : outcome (Z * Decoder) :=
  match fuel with
  | O => Ok (unusedBits, d)
  | S k =>
      if 8 <? unusedBits then
        '(_, d') ← getLzwBits 8 d;
        skipWasted k (u32 (unusedBits - 8)) d'
      else Ok (unusedBits, d)
  end.

(** The part of [decompress] before the main loop, on a fresh decoder
    object: "pass through first token".  The result is the state with
    which the main loop starts. *)
Definition firstToken (input : Buffer) (isGif : bool)
           (minCodeSize maxCodeSize : Z) : outcome Loop :=
  let p := mkParams minCodeSize maxCodeSize in
  let fuel := S (Z.to_nat (getNumBitsLeft input)) in
  let d0 := mkDecoder input [] isGif minCodeSize 0 0 in
  let lut := initialLut p isGif in
  let codeSize := u8 (minCodeSize + 1) in
  let prevToken := NoPrevious in
  '(token0, d1) ← getLzwBits codeSize d0;
  '(token, d2) ← skipClear p fuel codeSize token0 d1;
  if Z.of_nat (length lut) <=? token then Err "invalid token"
  else
    let d3 :=
      if negb (token =? endOfStreamCode p isGif)
      then setBytes d2 (m_bytes d2 ++ [u8 token]) else d2 in
    Ok (mkLoop d3 lut codeSize prevToken token 1).

(** [void LzwDecoder::decompress(expectedNumberOfBytes, minCodeSize,
    maxCodeSize)], run by the constructor on a fresh decoder object.
    The result is the object after the call; [m_bytes] is what
    [getBytes()] returns. *)
Definition decompress (input : Buffer) (isGif : bool)
           (minCodeSize maxCodeSize : Z) : outcome Decoder :=
  let p := mkParams minCodeSize maxCodeSize in
  let fuel := S (Z.to_nat (getNumBitsLeft input)) in
  st0 ← firstToken input isGif minCodeSize maxCodeSize;
  st ← mainLoop p fuel st0;
  let d4 := l_dec st in
  let unusedBits := m_bitsLeftInCurrentBlock d4 in
  '(unusedBits1, d5) ←
    (if 8 <=? unusedBits then skipWasted 255 unusedBits d4
     else Ok (unusedBits, d4));
  '(_, d6) ← getLzwBits (u8 unusedBits1) d5;
  d7 ← (if isGif then
          '(b, d') ← inputByte d6;
          if negb (b =? 0) then Err "LZW data is not properly terminated"
          else Ok d'
        else Ok d6);
  Ok (setNumBitsOriginalLZW d7 (u32 (m_numBitsOriginalLZW d7 - unusedBits1))).

End LzwDecoder.

(** ** Container writers and the driver *)

Module Container.

(** "create one byte": up to eight bits, least significant first. *)
Fixpoint oneByte (n : nat) (bit : Z) (bits : list bool) : Z :=
  match n, bits with
  | S k, b :: rest =>
      Z.lor (if b then u8 (Z.shiftl 1 bit) else 0) (oneByte k (bit + 1) rest)
  | _, _ => 0
  end.

(** "merge single bits, write to disk": [count] bytes from [bits]. *)
Fixpoint packBytes (count : nat) (bits : list bool) : list Z :=
  match count with
  | O => []
  | S k => oneByte 8 0 bits :: packBytes k (drop 8 bits)
  end.

(** The [while (pos < current.size())] loop of
    [GifImage::writeOptimized]: blocks of at most 255 bytes, each after
    its length byte.  Every iteration writes at least one bit. *)
Fixpoint gifBlocks (fuel : nat) (bits : list bool) : list Z :=
  match fuel, bits with
  | S k, _ :: _ =>
      let bitsCurrentBlock := Z.min (Z.of_nat (length bits)) (255 * 8) in
      let blockSize := u8 ((bitsCurrentBlock + 7) / 8) in
      blockSize :: packBytes (Z.to_nat blockSize) bits
        ++ gifBlocks k (drop (8 * Z.to_nat blockSize) bits)
  | _, _ => []
  end.

(** What [GifImage::writeOptimized] writes for one frame after the
    frame's header and its [codeSize] byte: the blocks and the empty
    block. *)
Definition gifFrameData (bits : list bool) : list Z :=
  gifBlocks (length bits) bits ++ [0].

(** The body that [Compress::writeOptimized] writes after the two magic
    bytes and the settings byte. *)
Definition compressBody (bits : list bool) : list Z :=
  packBytes (Z.to_nat ((Z.of_nat (length bits) + 7) / 8)) bits.

End Container.

(** The part of [main] (flexiGIF.cpp) that drives the encoder. *)
Module Driver.

Import LzwEncoder.

(** "look for optimal block boundaries": [for (int i = pos; i >= 0; i--)]
    with the cost estimation of every aligned [i]; [n] is [i + 1]. *)
Fixpoint estimateCosts (e : Encoder) (s : OptimizationSettings)
         (smartGreedy : bool) (n : nat) : outcome Encoder :=
  match n with
  | O => Ok e
  | S i =>
      e2 ← (if negb (Z.of_nat i mod alignment s =? 0) then Ok e
            else
              '(_, e1) ← optimizePartial e (Z.of_nat i) 0 false true s;
              if smartGreedy && negb (greedy s) then
                '(_, e2) ← optimizePartial e1 (Z.of_nat i) 0 false true
                                           (setGreedy s true);
                Ok e2
              else Ok e1);
      estimateCosts e2 s smartGreedy i
  end.

(** One GIF frame: estimate, then [optimize]. *)
Definition recompressFrame (pixels : list Z) (codeSize : Z)
           (s : OptimizationSettings) (smartGreedy : bool) : outcome (list bool) :=
  let e := new pixels true in
  let s := mkSettings codeSize (startWithClearCode s) (verbose s) (greedy s)
                      (minNonGreedyMatch s) (minImprovement s) (maxDictionary s)
                      (maxTokens s) (splitRuns s) (alignment s)
                      (readOnlyBest s) (avoidNonGreedyAgain s) in
  e1 ← estimateCosts e s smartGreedy (length pixels);
  '(bits, _) ← optimize e1 s;
  Ok bits.

(** The defaults that [main] sets before it parses the command line. *)
Definition defaultSettings : OptimizationSettings :=
  mkSettings 0 true false true 2 1 0 20000 false 1 false false.

(** A frame written by [GifImage::writeOptimized] and read back by
    [LzwDecoder] (as [GifImage]'s constructor does after the frame's
    [codeSize] byte); the file's trailer byte 0x3B follows the frame. *)
Definition readBackFrame (bits : list bool) (codeSize : Z) : outcome (list Z) :=
  d ← LzwDecoder.decompress
        (BinaryInputBuffer.open (Container.gifFrameData bits ++ [59]))
        true codeSize 12;
  Ok (LzwDecoder.m_bytes d).

(** A .Z body written by [Compress::writeOptimized] and read back by
    [LzwDecoder] (as [Compress]'s constructor does after the magic and
    settings bytes). *)
Definition readBackZ (bits : list bool) (maxBits : Z) : outcome (list Z) :=
  d ← LzwDecoder.decompress
        (BinaryInputBuffer.open (Container.compressBody bits))
        false 8 maxBits;
  Ok (LzwDecoder.m_bytes d).

End Driver.

(** ** Definitions used to state the properties *)

Module Statements.

Import LzwEncoder.

(** The index at which [addCode] looks for the byte that follows the
    string. *)
Definition followIndex (e : Encoder) (from length : Z) : Z :=
  fst (addCodeWalk (m_data e) (m_dictionary e) (Z.to_nat (length - 1))
                   (u32 (from + 1)) (at_ (m_data e) from)).

(** Following the specification of [find_match]: "walk the trie
    byte-by-byte from B[from] using B[from+1..] as lookup keys until a
    missing child is found; returns the number of matched bytes".
    [walk] counts the keys for which the walk finds a child. *)
Fixpoint walk (d : gmap (Z * Z) Z) (code : Z) (keys : list Z) : Z :=
  match keys with
  | [] => 0
  | k :: rest =>
      if child d code k =? Unknown then 0
      else 1 + walk d (child d code k) rest
  end.

(** The keys are the bytes after [B[from]], as far as [max_len]
    allows. *)
Definition spec_find_match (B : list Z) (d : gmap (Z * Z) Z)
           (from max_len : Z) : Z :=
  1 + walk d (at_ B from)
           (take (Z.to_nat (max_len - 1)) (drop (Z.to_nat (from + 1)) B)).

(** The number of zero bits that complete a stream of [n] bits to a
    byte boundary. *)
Definition padding (n : Z) : Z := (8 - n mod 8) mod 8.

Definition zeros (n : Z) : list bool := repeat false (Z.to_nat n).

Definition bitLength (bits : list bool) : Z := Z.of_nat (length bits).

(** The state in which the main loop of an emitting
    [optimizePartial(from, maxLength, true, _, s)] call ends. *)
Definition blockRun (e : Encoder) (from maxLength : Z) (s : OptimizationSettings)
  : outcome Loop :=
  e1 ← allocateBest e s;
  Ok (runBlock e1 (fixAlignment s) from (blockLength e1 from maxLength) true).

(** The bit stream of a result, without the encoder object. *)
Definition bitsOf (r : outcome (list bool * Encoder)) : outcome (list bool) :=
  '(bits, _) ← r; Ok bits.

(** The bits that [add] pushes for a logged token. *)
Definition tokenBits (t : Z * Z) : list bool := addBits (Z.to_nat (snd t)) (fst t).

(** The settings of [main] for a .Z file: the defaults, no leading
    clear code, [minCodeSize] 8 and the higher token limit. *)
Definition compressSettings : OptimizationSettings :=
  mkSettings 8 false false true 2 1 0 100000 false 1 false false.

(** The default settings of [main] for a GIF frame with the given
    code size. *)
Definition gifSettings (codeSize : Z) : OptimizationSettings :=
  mkSettings codeSize true false true 2 1 0 20000 false 1 false false.

(** A reader in a consistent state: the bit buffer holds fewer than
    256 bits ([unsigned char]), and the bits left are those of the
    bytes not yet read plus those in the bit buffer. *)
Definition wfBuffer (b : BinaryInputBuffer.Buffer) : Prop :=
  0 <= BinaryInputBuffer.m_bitBufferSize b < 256
  /\ BinaryInputBuffer.m_bitsLeft b
     = 8 * size_ (BinaryInputBuffer.m_stream b)
       + BinaryInputBuffer.m_bitBufferSize b
  /\ BinaryInputBuffer.m_bitsLeft b < 4294967296.

(** The states that the main loop of [decompress] passes through,
    starting from a given one. *)
Inductive reaches (p : LzwDecoder.Params)
  : LzwDecoder.Loop -> LzwDecoder.Loop -> Prop :=
| reaches_here st : reaches p st st
| reaches_next st st1 st2 :
    LzwDecoder.iteration p st = Ok (inl st1) ->
    reaches p st1 st2 -> reaches p st st2
| reaches_stop st st1 :
    LzwDecoder.iteration p st = Ok (inr st1) -> reaches p st st1.

(** The number of entries of the decoder's table after a reset. *)
Definition baseSize (p : LzwDecoder.Params) (isGif : bool) : Z :=
  LzwDecoder.clearCode p + (if isGif then 2 else 1).

(** The table is within its bounds, and the flavour is the given one. *)
Definition lutBounded (p : LzwDecoder.Params) (isGif : bool)
           (st : LzwDecoder.Loop) : Prop :=
  LzwDecoder.m_isGif (LzwDecoder.l_dec st) = isGif
  /\ baseSize p isGif <= Z.of_nat (length (LzwDecoder.l_lut st))
     <= LzwDecoder.MaxToken p.

(** The code size with which an iteration of the decoder's main loop
    reads its token ("one more bit per code ?"). *)
Definition readCodeSize (p : LzwDecoder.Params) (st : LzwDecoder.Loop) : Z :=
  if (Z.of_nat (length (LzwDecoder.l_lut st))
      =? u32 (Z.shiftl 1 (LzwDecoder.l_codeSize st)))
     && (LzwDecoder.l_codeSize st <? LzwDecoder.p_maxCodeSize p)
  then u8 (LzwDecoder.l_codeSize st + 1) else LzwDecoder.l_codeSize st.

End Statements.

(** ** Values of bit and byte sequences *)

Module Values.

(** The number that a sequence of bits spells, first bit least
    significant -- the order in which [add] pushes the bits of a token
    and in which the writers and the reader pack them into bytes. *)
Fixpoint bitsVal (bits : list bool) : Z :=
  match bits with
  | [] => 0
  | b :: rest => Z.b2z b + 2 * bitsVal rest
  end.

(** The number that a sequence of bytes spells, first byte least
    significant. *)
Fixpoint bytesVal (bytes : list Z) : Z :=
  match bytes with
  | [] => 0
  | x :: rest => x + 256 * bytesVal rest
  end.

End Values.

(** ** The content of a reader *)

Module ReaderContent.

Import BinaryInputBuffer Values.

(** The bits that a reader has still to hand out, as one number: the
    bits in the bit buffer, then the bytes not yet read. *)
Definition content (b : Buffer) : Z :=
  m_bitBuffer b + 2 ^ m_bitBufferSize b * bytesVal (m_stream b).

(** A consistent reader whose bit buffer holds no more than its
    [m_bitBufferSize] bits and whose file consists of bytes. *)
Definition goodBuffer (b : Buffer) : Prop :=
  Statements.wfBuffer b
  /\ 0 <= m_bitBuffer b < 2 ^ m_bitBufferSize b
  /\ Forall (fun x => 0 <= x < 256) (m_stream b).

(** [getBits] with the given widths, one call after the other. *)
Fixpoint readCodes (widths : list Z) (b : Buffer) : outcome (list Z * Buffer) :=
  match widths with
  | [] => Ok ([], b)
  | w :: ws =>
      '(v, b1) ← getBits w b;
      '(vs, b2) ← readCodes ws b1;
      Ok (v :: vs, b2)
  end.

End ReaderContent.

(** ** What the main loop of optimizePartial keeps *)

Module EncoderInvariant.

Import LzwEncoder.

(** Every child code stored in the trie is a code below [D]. *)
Definition trieBelow (d : gmap (Z * Z) Z) (D : Z) : Prop :=
  forall c b v, d !! (c, b) = Some v -> 0 <= v < D.

(** A logged token: a code below [D] that fits its width, the width
    being at most [maxLen]. *)
Definition tokenFits (maxLen D : Z) (t : Z * Z) : Prop :=
  0 <= fst t < D /\ fst t < 2 ^ snd t /\ 1 <= snd t <= maxLen.

(** The number of dictionary entries right after a reset. *)
Definition freshDictSize (e : Encoder) (s : OptimizationSettings) : Z :=
  2 ^ minCodeSize s + (if m_isGif e then 2 else 1).

(** The state [st] of the loop over the block [from .. from+length) of
    the encoder [e0], before the iteration for index [next]. *)
Record blockInv (e0 : Encoder) (s : OptimizationSettings)
       (from length next : Z) (st : Loop) : Prop := mkBlockInv {
  inv_data    : m_data (l_enc st) = m_data e0;
  inv_gif     : m_isGif (l_enc st) = m_isGif e0;
  inv_maxDict : m_maxDictionary (l_enc st) = m_maxDictionary e0;
  inv_maxLen  : m_maxCodeLength (l_enc st) = m_maxCodeLength e0;
  inv_size    : freshDictSize e0 s <= m_dictSize (l_enc st) <= m_maxDictionary e0;
  inv_trie    : trieBelow (m_dictionary (l_enc st)) (m_dictSize (l_enc st));
  inv_width   : m_dictSize (l_enc st) - 1 <= 2 ^ l_codeSize st;
  inv_cs      : 1 <= l_codeSize st <= m_maxCodeLength e0;
  inv_z       : m_isGif e0 = false -> 9 <= l_codeSize st;
  inv_match   : 0 <= l_matchLength st <= from + length - next;
  inv_tokens  : Forall (tokenFits (m_maxCodeLength e0) (m_dictSize (l_enc st)))
                       (l_tokens st)
}.

(** What the loop over the block [from .. from+length) relies on: the
    code sizes as the constructor and [main] set them up, values of
    the data below the clear code, and a block inside the data. *)
Definition blockReady (e : Encoder) (s : OptimizationSettings)
           (from length : Z) : Prop :=
  2 <= minCodeSize s < m_maxCodeLength e
  /\ m_maxCodeLength e <= 16
  /\ m_maxDictionary e = 2 ^ m_maxCodeLength e - 1
  /\ (m_isGif e = false -> 8 <= minCodeSize s)
  /\ Forall (fun x => 0 <= x < 2 ^ minCodeSize s) (m_data e)
  /\ 0 <= from /\ 1 <= length
  /\ from + length <= size_ (m_data e)
  /\ size_ (m_data e) < 4294967296.

(** What a change of [m_best] by a run that starts at the aligned
    offset [fa] may be: the length stays, every other entry stays, and
    nothing changes in a read-only run. *)
Definition frameOf (readOnly : bool) (fa : Z) (old new : list BestBlock) : Prop :=
  List.length new = List.length old
  /\ (forall k, k <> Z.to_nat fa -> new !! k = old !! k)
  /\ (readOnly = true -> new = old).

(** No recorded block reaches beyond the data: entry [k] of the cost
    table belongs to offset [k * a], and a block recorded there ends
    at or before [size]. *)
Definition tableFits (a size : Z) (best : list BestBlock) : Prop :=
  forall (k : nat) b, best !! k = Some b ->
    bb_length b = 0
    \/ (0 < bb_length b /\ Z.of_nat k * a + bb_length b <= size).

(** A list of offsets that grows strictly, starting above [lo]. *)
Fixpoint increasingFrom (lo : Z) (l : list Z) : Prop :=
  match l with
  | [] => True
  | x :: rest => lo < x /\ increasingFrom x rest
  end.

End EncoderInvariant.

(** ** GIF data sub-blocks *)

Module GifFraming.

Import BinaryInputBuffer LzwDecoder Values ReaderContent.

(** A sequence of data sub-blocks: each block after its length byte. *)
Definition frames (blocks : list (list Z)) : list Z :=
  flat_map (fun blk => size_ blk :: blk) blocks.

(** What [getLzwBits] relies on in the blocks it reads: bytes, between
    1 and 255 of them in a block, and at least two in every block but
    the last. *)
Fixpoint goodBlocks (blocks : list (list Z)) : Prop :=
  match blocks with
  | [] => True
  | blk :: rest =>
      Forall (fun x => 0 <= x < 256) blk
      /\ (match rest with [] => 1 | _ => 2 end) <= size_ blk <= 255
      /\ goodBlocks rest
  end.

(** The decoder [d] stands inside a sequence of sub-blocks: [r] bits
    of the current block, of value [low], are unread, and the blocks
    [blocks] and then the bytes [tail] follow in the file. *)
Definition inFrames (d : Decoder) (r low : Z) (blocks : list (list Z))
           (tail : list Z) : Prop :=
  m_isGif d = true
  /\ goodBuffer (m_input d)
  /\ m_bitsLeftInCurrentBlock d = r
  /\ 0 <= r <= 2040 /\ 0 <= low < 2 ^ r
  /\ content (m_input d) = low + 2 ^ r * bytesVal (frames blocks ++ tail)
  /\ m_bitsLeft (m_input d) = r + 8 * size_ (frames blocks ++ tail)
  /\ goodBlocks blocks.

(** The LZW data still to be read: its value, least significant bit
    first, and its number of bits. *)
Definition payload (r low : Z) (blocks : list (list Z)) : Z :=
  low + 2 ^ r * bytesVal (concat blocks).

Definition payloadBits (r : Z) (blocks : list (list Z)) : Z :=
  r + 8 * size_ (concat blocks).

(** [getLzwBits] with the given widths, one call after the other. *)
Fixpoint readLzw (widths : list Z) (d : Decoder) : outcome (list Z * Decoder) :=
  match widths with
  | [] => Ok ([], d)
  | w :: ws =>
      '(v, d1) ← getLzwBits w d;
      '(vs, d2) ← readLzw ws d1;
      Ok (v :: vs, d2)
  end.

(** The bytes of a packed bit stream in blocks of 255. *)
Fixpoint chunks (fuel : nat) (bytes : list Z) : list (list Z) :=
  match fuel, bytes with
  | S k, _ :: _ => take 255 bytes :: chunks k (drop 255 bytes)
  | _, _ => []
  end.

End GifFraming.

(** ** GifImage: the row order of interlaced images *)

Module GifImage.

Import BinaryInputBuffer.

(** The bytes from [v.begin() + first] up to [v.begin() + last];
    iterators outside the vector are undefined in the source and an
    error here. *)
Definition range (v : list Z) (first last : Z) : outcome (list Z) :=
  if (first <=? last) && (last <=? size_ v)
  then Ok (take (Z.to_nat (last - first)) (drop (Z.to_nat first) v))
  else Err "undefined: read outside the image".

(** [for (unsigned int y = start; y < m_height; y += step)
       interlaced.insert(interlaced.end(), current.begin() + y * m_width,
                         current.begin() + y * m_width + m_width);] *)
Fixpoint copyRows (fuel : nat) (width height : Z) (current : list Z)
         (y step : Z) (interlaced : list Z) : outcome (list Z) :=
  if y <? height then
    match fuel with
    | O => Err "undefined: the loop does not advance"
    | S k =>
        row ← range current (u32 (y * width)) (u32 (y * width) + width);
        copyRows k width height current (u32 (y + step)) step
                 (interlaced ++ row)
    end
  else Ok interlaced.

(** [for (unsigned int y = 0; y < m_height; y++) switch (y % 8) { ... }]
    of the de-interlacing branch. *)
Fixpoint restoreRows (fuel : nat) (width height : Z) (interlaced : list Z)
         (y pass0 pass1 pass2 pass3 : Z) (current : list Z)
  : outcome (list Z) :=
  if y <? height then
    match fuel with
    | O => Err "undefined: the loop does not advance"
    | S k =>
        let m := y mod 8 in
        if m =? 0 then
          row ← range interlaced (u32 (pass0 * width))
                      (u32 (u32 (pass0 + 1) * width));
          restoreRows k width height interlaced (u32 (y + 1))
                      (u32 (pass0 + 1)) pass1 pass2 pass3 (current ++ row)
        else if m =? 4 then
          row ← range interlaced (u32 (pass1 * width))
                      (u32 (u32 (pass1 + 1) * width));
          restoreRows k width height interlaced (u32 (y + 1))
                      pass0 (u32 (pass1 + 1)) pass2 pass3 (current ++ row)
        else if (m =? 2) || (m =? 6) then
          row ← range interlaced (u32 (pass2 * width))
                      (u32 (u32 (pass2 + 1) * width));
          restoreRows k width height interlaced (u32 (y + 1))
                      pass0 pass1 (u32 (pass2 + 1)) pass3 (current ++ row)
        else
          row ← range interlaced (u32 (pass3 * width))
                      (u32 (u32 (pass3 + 1) * width));
          restoreRows k width height interlaced (u32 (y + 1))
                      pass0 pass1 pass2 (u32 (pass3 + 1)) (current ++ row)
    end
  else Ok current.

(** "re-order lines" of the interlacing branch: the four loops over
    the passes. *)
Definition interlaceRows (width height : Z) (current : list Z)
  : outcome (list Z) :=
  let fuel := Z.to_nat height in
  i1 ← copyRows fuel width height current 0 8 [];
  i2 ← copyRows fuel width height current 4 8 i1;
  i3 ← copyRows fuel width height current 2 4 i2;
  copyRows fuel width height current 1 2 i3.

(** "re-order lines" of the de-interlacing branch: the offsets of the
    passes and the loop over the rows. *)
Definition deinterlaceRows (width height : Z) (interlaced : list Z)
  : outcome (list Z) :=
  let fuel := Z.to_nat height in
  let pass0 := 0 in
  let pass1 := u32 (height + 8 - 1) / 8 in
  let pass2 := u32 (pass1 + u32 (height + 8 - 5) / 8) in
  let pass3 := u32 (pass2 + u32 (height + 4 - 1) / 4) in
  restoreRows fuel width height interlaced 0 pass0 pass1 pass2 pass3 [].

(** The members that [setInterlacing] uses: the image size, the number
    of frames, [m_frames.front().posInterlaced], [m_rawHeader], and
    the pixels of the frame. *)
Record Image := mkImage {
  m_width       : Z;
  m_height      : Z;
  m_numFrames   : Z;
  m_isAnimated  : bool;
  posInterlaced : Z;
  m_rawHeader   : list Z;
  pixels        : list Z
}.

(** [m_rawHeader[posInterlaced] = f] and [current = p] *)
Definition withPixels (g : Image) (f : Z) (p : list Z) : Image :=
  mkImage (m_width g) (m_height g) (m_numFrames g) (m_isAnimated g)
          (posInterlaced g)
          (<[Z.to_nat (posInterlaced g) := f]> (m_rawHeader g)) p.

(** [void GifImage::setInterlacing(bool makeInterlaced)].  A
    [posInterlaced] outside [m_rawHeader] makes
    [m_rawHeader[posInterlaced]] undefined in the source, which is an
    error here. *)
Definition setInterlacing (g : Image) (makeInterlaced : bool) : outcome Image :=
  if negb (m_numFrames g =? 1)
  then Err "code doesn't work yet for animated GIFs"
  else if posInterlaced g =? 0 then Err "interlaced bit not found"
  else if m_isAnimated g then Err "interlacing in animation not supported yet"
  else if m_height g <=? 1 then Ok g
  else
    match m_rawHeader g !! Z.to_nat (posInterlaced g) with
    | None => Err "undefined: read outside m_rawHeader"
    | Some flags =>
        let mask := 64 in
        let isInterlaced := negb (Z.land flags mask =? 0) in
        if Bool.eqb isInterlaced makeInterlaced then Ok g
        else if makeInterlaced then
          i ← interlaceRows (m_width g) (m_height g) (pixels g);
          Ok (withPixels g (u8 (Z.lor flags mask)) i)
        else
          c ← deinterlaceRows (m_width g) (m_height g) (pixels g);
          Ok (withPixels g (Z.land flags 191) c)
    end.

(** *** The constructor, up to the header of the first frame *)

(** [bool BinaryInputBuffer::getBool()] *)
Definition getBool (b : Buffer) : outcome (bool * Buffer) :=
  '(v, b1) ← getBits 1 b;
  Ok (v =? 1, b1).

(** [unsigned short GifImage::getWord()] *)
Definition getWord (b : Buffer) : outcome (Z * Buffer) :=
  '(low, b1) ← getByte b;
  '(high, b2) ← getByte b1;
  Ok ((low + Z.shiftl high 8) mod 65536, b2).

(** [for (unsigned int i = 0; i < size; i++) { color.red = getByte();
    color.green = getByte(); color.blue = getByte(); ... }] *)
Fixpoint readColors (n : nat) (b : Buffer)
  : outcome (list (Z * Z * Z) * Buffer) :=
  match n with
  | O => Ok ([], b)
  | S k =>
      '(red, b1) ← getByte b;
      '(green, b2) ← getByte b1;
      '(blue, b3) ← getByte b2;
      '(rest, b4) ← readColors k b3;
      Ok ((red, green, blue) :: rest, b4)
  end.

(** [for (unsigned int i = 0; i < NumBytes; i++) m_version[i] =
    m_input.getByte();] *)
Fixpoint readBytes (n : nat) (b : Buffer) : outcome (list Z * Buffer) :=
  match n with
  | O => Ok ([], b)
  | S k =>
      '(x, b1) ← getByte b;
      '(rest, b2) ← readBytes k b1;
      Ok (x :: rest, b2)
  end.

(** [void GifImage::parseSignature()]: "GIF", then "87a" or "89a". *)
Definition parseSignature (b : Buffer) : outcome (list Z * Buffer) :=
  '(v, b1) ← readBytes 6 b;
  if negb (at_ v 0 =? 71) || negb (at_ v 1 =? 73) || negb (at_ v 2 =? 70)
  then Err "invalid file signature"
  else if negb (at_ v 3 =? 56)
          || (negb (at_ v 4 =? 55) && negb (at_ v 4 =? 57))
          || negb (at_ v 5 =? 97)
  then Err "invalid GIF version, only 87a and 89a supported"
  else Ok (v, b1).

(** What [parseGlobalDescriptor] stores. *)
Record GlobalDescriptor := mkGlobal {
  g_width  : Z;
  g_height : Z;
  g_colorDepth : Z;
  g_isSorted : bool;
  g_backgroundColor : Z;
  g_aspectRatio : Z;
  g_colorMap : list (Z * Z * Z)
}.

(** [void GifImage::parseGlobalDescriptor()] *)
Definition parseGlobalDescriptor (b : Buffer)
  : outcome (GlobalDescriptor * Buffer) :=
  '(width, b1) ← getWord b;
  '(height, b2) ← getWord b1;
  '(depth, b3) ← getBits 3 b2;
  let colorDepth := u8 (depth + 1) in
  let size := u32 (Z.shiftl 1 colorDepth) in
  '(isSorted, b4) ← getBool b3;
  b5 ← removeBits 3 b4;
  '(hasGlobalColorMap, b6) ← getBool b5;
  let size := if (hasGlobalColorMap : bool) then size else 0 in
  '(background, b7) ← getByte b6;
  '(aspect, b8) ← getByte b7;
  '(colors, b9) ← readColors (Z.to_nat size) b8;
  Ok (mkGlobal width height colorDepth isSorted background aspect colors, b9).

(** "read all its parts" of [parseExtensions]: the loop over the parts
    of one extension; every part reads its length byte, so the number
    of bits left bounds the number of parts ([fuel]). *)
Fixpoint readParts (fuel : nat) (data : list Z) (b : Buffer)
  : outcome (list Z * Buffer) :=
  match fuel with
  | O => Err "undefined: the loop does not advance"
  | S k =>
      '(len, b1) ← getByte b;
      if len =? 0 then Ok (data, b1)
      else
        '(part, b2) ← readBytes (Z.to_nat len) b1;
        readParts k (data ++ part) b2
  end.

(** [void GifImage::parseExtensions(Frame& frame)]: the extensions of
    the frame and the new [m_isAnimated]. *)
Fixpoint parseExtensions (fuel : nat) (isAnimated : bool)
         (extensions : list (Z * list Z)) (b : Buffer)
  : outcome (bool * list (Z * list Z) * Buffer) :=
  match fuel with
  | O => Err "undefined: the loop does not advance"
  | S k =>
      '(marker, b1) ← peekBits 8 b;
      if negb (u8 marker =? 33) then Ok (isAnimated, extensions, b1)
      else
        b2 ← removeBits 8 b1;
        '(identifier, b3) ← getBits 8 b2;
        let isAnimated := if identifier =? 249 then true else isAnimated in
        '(data, b4) ← readParts (S (Z.to_nat (m_bitsLeft b3))) [] b3;
        parseExtensions k isAnimated (extensions ++ [(identifier, data)]) b4
  end.

(** What [parseLocalDescriptor] stores in the frame. *)
Record LocalDescriptor := mkLocal {
  f_offsetLeft    : Z;
  f_offsetTop     : Z;
  f_width         : Z;
  f_height        : Z;
  f_posInterlaced : Z;
  f_isSorted      : bool;
  f_isInterlaced  : bool;
  f_localColorMap : list (Z * Z * Z)
}.

(** [void GifImage::parseLocalDescriptor(Frame& frame)] *)
Definition parseLocalDescriptor (b : Buffer)
  : outcome (LocalDescriptor * Buffer) :=
  '(identifier, b1) ← getByte b;
  if negb (identifier =? 44)
  then Err "expected local descriptor, but not found"
  else
    '(offsetLeft, b2) ← getWord b1;
    '(offsetTop, b3) ← getWord b2;
    '(width, b4) ← getWord b3;
    '(height, b5) ← getWord b4;
    let posInterlaced := m_read b5 in
    '(bits, b6) ← getBits 3 b5;
    let size := u32 (Z.shiftl 1 (bits + 1)) in
    b7 ← removeBits 2 b6;
    '(isSorted, b8) ← getBool b7;
    '(isInterlaced, b9) ← getBool b8;
    '(hasLocalColorMap, b10) ← getBool b9;
    let size := if (hasLocalColorMap : bool) then size else 0 in
    '(colors, b11) ← readColors (Z.to_nat size) b10;
    Ok (mkLocal offsetLeft offsetTop width height posInterlaced isSorted
                isInterlaced colors, b11).

(** The constructor [GifImage::GifImage(filename)] for a file with the
    given bytes, up to the header of the first frame: the global
    descriptor, [numBytesHeader] (the size that [m_rawHeader] gets),
    [m_isAnimated], and the local descriptor of the first frame;
    [None] when the file has no frame. *)
Definition firstFrameHeader (file : list Z)
  : outcome (option (GlobalDescriptor * Z * bool * LocalDescriptor)) :=
  let b := open file in
  if m_bitsLeft b =? 0 then Err "file not found or empty"
  else
    '(_, b1) ← parseSignature b;
    '(global, b2) ← parseGlobalDescriptor b1;
    let numBytesHeader := m_read b2 in
    '(marker, b3) ← peekBits 8 b2;
    if u8 marker =? 59 then Ok None
    else
      '(isAnimated, _, b4) ←
        parseExtensions (S (Z.to_nat (m_bitsLeft b3))) false [] b3;
      '(frame, _) ← parseLocalDescriptor b4;
      Ok (Some (global, numBytesHeader, isAnimated, frame)).

End GifImage.

Module Interlacing.

(** Row [y] of an image with rows of [w] bytes. *)
Definition rowOf (img : list Z) (w y : Z) : list Z :=
  take (Z.to_nat w) (drop (Z.to_nat (y * w)) img).

(** [n] row numbers from [y] on, [step] apart. *)
Fixpoint seqZ (y step : Z) (n : nat) : list Z :=
  match n with
  | O => []
  | S k => y :: seqZ (y + step) step k
  end.

(** The row order of an interlaced image of [h] rows: every 8th row
    from 0, every 8th from 4, every 4th from 2, every 2nd from 1. *)
Definition interlacedOrder (h : Z) : list Z :=
  seqZ 0 8 (Z.to_nat ((h + 7) / 8))
  ++ seqZ 4 8 (Z.to_nat ((h + 3) / 8))
  ++ seqZ 2 4 (Z.to_nat ((h + 1) / 4))
  ++ seqZ 1 2 (Z.to_nat (h / 2)).

(** The place of row [y] in the interlaced order. *)
Definition placeOf (h y : Z) : Z :=
  if y mod 8 =? 0 then y / 8
  else if y mod 8 =? 4 then (h + 7) / 8 + y / 8
  else if y mod 4 =? 2 then (h + 7) / 8 + (h + 3) / 8 + y / 4
  else (h + 7) / 8 + (h + 3) / 8 + (h + 1) / 4 + y / 2.

End Interlacing.

(** ** What the decoder keeps *)

Module DecoderInvariant.

Import LzwDecoder.

(** Bytes below [c]. *)
Definition literalBytes (c : Z) (bytes : list Z) : Prop :=
  Forall (fun b => 0 <= b < c) bytes.

(** A table whose entries all end in a byte below [c]. *)
Definition literalLut (c : Z) (lut : list BackReference) : Prop :=
  Forall (fun r => 0 <= br_last r < c) lut.

(** Every byte of the output and every last byte of a table entry is
    below [c]. *)
Definition literalState (c : Z) (st : Loop) : Prop :=
  literalBytes c (m_bytes (l_dec st)) /\ literalLut c (l_lut st).

End DecoderInvariant.

(** ** Compress: the header of a .Z file *)

Module Compress.

Import BinaryInputBuffer.

Definition MagicByte1 : Z := 31.
Definition MagicByte2 : Z := 157.

(** What the constructor found: a .Z file with its settings byte, the
    maximum code size and the reader at the start of the LZW data, or
    the bytes of a file that is loaded as it is. *)
Inductive Loaded :=
| Compressed (settings maxBits : Z) (input : Buffer)
| Uncompressed (data : list Z).

(** The part of [Compress::Compress(filename,
    loadAsUncompressedIfWrongMagicBytes)] before the decoder runs.  A
    [throw] is an error here; the constructor itself catches it and
    leaves [m_data] empty. *)
Definition load (file : list Z) (loadAsUncompressedIfWrongMagicBytes : bool)
  : outcome Loaded :=
  let input := open file in
  if m_bitsLeft input =? 0 then Err "file not found or empty"
  else
    '(byte1, in1) ← getByte input;
    '(byte2, in2) ← getByte in1;
    let isZ := (byte1 =? MagicByte1) || (byte2 =? MagicByte2) in
    if isZ then
      '(settings, in3) ← getByte in2;
      if Z.land settings 128 =? 0 then Err "only .Z block mode supported"
      else if negb (Z.land settings 96 =? 0)
      then Err "unknown .Z format flag found"
      else Ok (Compressed settings (Z.land settings 31) in3)
    else if negb loadAsUncompressedIfWrongMagicBytes
    then Err "file is not a .Z compressed file (magic bytes don't match)"
    else Ok (Uncompressed file).

End Compress.

(** ** The strings of the decoder's table *)

Module LzwStrings.

Import LzwDecoder.

(** The string of a code: what [decode] appends for it. *)
Definition strOf (lut : list BackReference) (code : Z) : list Z :=
  walkBack lut (Z.to_nat (br_length (lutAt lut code))) code [].

(** A code that stands for a string: a literal or an entry after the
    [f] control codes (clear and end of stream for a GIF, clear for a
    .Z file). *)
Definition dataCode (c f : Z) (lut : list BackReference) (code : Z) : Prop :=
  0 <= code < c \/ c + f <= code < Z.of_nat (length lut).

(** The table of the decoder for the clear code [c]: literals, the
    control codes, and entries that extend an earlier data code by one
    byte. *)
Definition wfLut (c f : Z) (lut : list BackReference) : Prop :=
  c + f <= Z.of_nat (length lut)
  /\ forall (v : nat) r, lut !! v = Some r ->
       if Z.of_nat v <? c
       then br_length r = 1 /\ br_last r = Z.of_nat v
       else if Z.of_nat v <? c + f then True
       else dataCode c f lut (br_previous r)
            /\ br_previous r < Z.of_nat v
            /\ br_length r = br_length (lutAt lut (br_previous r)) + 1
            /\ 2 <= br_length r.

End LzwStrings.


(** ** The encoder's trie against the decoder's table *)

Module LzwParse.

Import LzwEncoder LzwDecoder LzwStrings.

(** The bytes [data[a .. b)]. *)
Definition slice (data : list Z) (a b : Z) : list Z :=
  take (Z.to_nat (b - a)) (drop (Z.to_nat a) data).

(** Every child in the trie of the encoder is an entry of the table
    [lut] that extends its parent by the byte of the edge. *)
Definition trieSound (c f : Z) (lut : list BackReference)
           (trie : gmap (Z * Z) Z) : Prop :=
  forall c0 b v, trie !! (c0, b) = Some v ->
    dataCode c f lut c0
    /\ c + f <= v < Z.of_nat (length lut)
    /\ br_previous (lutAt lut v) = c0
    /\ br_last (lutAt lut v) = b.

End LzwParse.


(** ** What the decoder has read: GIF frames *)

Module Synchrony.

Import BinaryInputBuffer LzwDecoder Values ReaderContent GifFraming.
Import LzwStrings LzwParse.

(** The table after the entry that the decoder appends with its next
    token: the string of [tok] and then the byte [x].  A table of
    [M] entries ([MaxToken]) is full. *)
Definition pending (M : Z) (lut : list BackReference) (tok x pos : Z)
  : list BackReference :=
  if Z.of_nat (length lut) <? M
  then lut ++ [mkRef (br_length (lutAt lut tok) + 1) tok x pos] else lut.

(** The width with which the decoder reads its next token, for a
    table of [len] entries and the code size [cs] ("one more bit per
    code ?" with the [maxCodeSize] [mx]). *)
Definition nextWidth (mx len cs : Z) : Z :=
  if (len =? 2 ^ cs) && (cs <? mx) then cs + 1 else cs.

(** Whatever follows the bits [bits] in the sub-blocks of a frame with
    code size [k], [decompress] gets through its first token and [n]
    iterations of its main loop with those bits, and then has the table
    [lut], the code size [cs], the token [tok] and the output
    [bytes]. *)
Definition consumed (k : Z) (n : nat) (bits : list bool)
           (lut : list BackReference) (cs tok : Z) (bytes : list Z) : Prop :=
  forall input blocks tail rest,
    inFrames (mkDecoder input [] true k 0 0) 0 0 blocks tail ->
    payload 0 0 blocks = bitsVal (bits ++ rest) ->
    Z.of_nat (length (bits ++ rest)) <= payloadBits 0 blocks ->
    exists st0 dst r low blocks',
      firstToken input true k 12 = Ok st0
      /\ (forall fuel,
            mainLoop (mkParams k 12) (n + fuel) st0
            = mainLoop (mkParams k 12) fuel dst)
      /\ l_lut dst = lut /\ l_codeSize dst = cs /\ l_token dst = tok
      /\ m_bytes (l_dec dst) = bytes
      /\ inFrames (l_dec dst) r low blocks' tail
      /\ payload r low blocks' = bitsVal rest
      /\ payloadBits r blocks' = payloadBits 0 blocks - Z.of_nat (length bits).

End Synchrony.


(** ** What the decoder has read: .Z files *)

Module ZSynchrony.

Import BinaryInputBuffer LzwDecoder Values ReaderContent.
Import LzwStrings LzwParse Synchrony.

(** The constants of the [decompress] call for a .Z file. *)
Definition pZ : Params := mkParams 8 16.

(** The decoder [d] reads the body of a .Z file: [bits] bits are left,
    with the value [v]. *)
Definition inBody (d : Decoder) (bits v : Z) : Prop :=
  m_isGif d = false /\ m_bitsLeftInCurrentBlock d = 0
  /\ goodBuffer (m_input d)
  /\ content (m_input d) = v /\ m_bitsLeft (m_input d) = bits.

(** Whatever follows the bits [bits] in the body of a .Z file,
    [decompress] gets through its first token and [n] iterations of
    its main loop with those bits, and then has the table [lut], the
    code size [cs], the token [tok] and the output [bytes]. *)
Definition consumedZ (n : nat) (bits : list bool)
           (lut : list BackReference) (cs tok : Z) (bytes : list Z) : Prop :=
  forall input rest,
    goodBuffer input ->
    content input = bitsVal (bits ++ rest) ->
    m_bitsLeft input = Z.of_nat (length (bits ++ rest)) ->
    exists st0 dst,
      firstToken input false 8 16 = Ok st0
      /\ (forall fuel,
            mainLoop pZ (n + fuel) st0 = mainLoop pZ fuel dst)
      /\ l_lut dst = lut /\ l_codeSize dst = cs /\ l_token dst = tok
      /\ m_bytes (l_dec dst) = bytes
      /\ inBody (l_dec dst) (Z.of_nat (length rest)) (bitsVal rest).

End ZSynchrony.


(** ** Encoder and decoder side by side *)

Module ParseSync.

Import LzwDecoder LzwEncoder EncoderInvariant.
Import LzwStrings LzwParse Synchrony.

(** What the decoder has done with the bits read so far: the number
    of iterations of its main loop, the bits, and then its table, code
    size, token and output ([consumed] for the sub-blocks of a GIF
    frame, [consumedZ] for the body of a .Z file). *)
Definition Reading : Type :=
  nat -> list bool -> list BackReference -> Z -> Z -> list Z -> Prop.

(** The decoder's table [L] with the entry that follows the match
    ending at [e], unless the data ends there. *)
Definition afterMatch (M : Z) (data : list Z) (L : list BackReference)
           (tok e : Z) : list BackReference :=
  if e <? size_ data then pending M L tok (at_ data e) e else L.

(** The encoder in state [st], whose last match ends at [e], and the
    decoder that has read what the encoder wrote after the bits [pre]
    agree: the encoder has written a token, the decoder has the bytes
    up to [e], reads with the
    encoder's code size, and its table, with the entry it appends
    next, holds the strings of the encoder's trie.  [f] is the number
    of control codes and [mx] the maximum code size. *)
Definition synced (R : Reading) (f mx : Z) (data : list Z) (k : Z)
           (pre : list bool) (e : Z) (st : Loop) : Prop :=
  exists (n : nat) L tok,
    l_result st <> []
    /\ (n <= length (pre ++ l_result st))%nat
    /\ R n (pre ++ l_result st) L (l_codeSize st) tok
         (take (Z.to_nat e) data)
    /\ wfLut (2 ^ k) f L /\ dataCode (2 ^ k) f L tok
    /\ Z.of_nat (length L) <= 2 ^ mx
    /\ 2 ^ (l_codeSize st - 1) < Z.of_nat (length L) <= 2 ^ l_codeSize st
    /\ trieSound (2 ^ k) f (afterMatch (2 ^ mx) data L tok e)
                 (m_dictionary (l_enc st))
    /\ m_dictSize (l_enc st)
       <= Z.of_nat (length (afterMatch (2 ^ mx) data L tok e))
    /\ (m_dictSize (l_enc st) < 2 ^ mx - 1 ->
        Z.of_nat (length (afterMatch (2 ^ mx) data L tok e))
        = m_dictSize (l_enc st)).

(** The encoder before its first token. *)
Definition fresh (f k : Z) (st : Loop) : Prop :=
  m_dictionary (l_enc st) = ∅
  /\ m_dictSize (l_enc st) = 2 ^ k + f
  /\ l_codeSize st = k + 1
  /\ l_result st = []
  /\ l_matchLength st = 0.

(** What the main loop of [optimizePartial] keeps for the block
    [from .. from+blen), before the iteration for index [i]. *)
Definition syncInv (R : Reading) (f mx : Z) (e0 : Encoder)
           (s : OptimizationSettings) (from blen : Z) (pre : list bool)
           (i : Z) (st : Loop) : Prop :=
  blockInv e0 s from blen i st
  /\ 0 <= l_numTokens st <= i - from
  /\ ((i = from /\ fresh f (minCodeSize s) st)
      \/ (from < i /\ synced R f mx (m_data e0) (minCodeSize s) pre
                             (i + l_matchLength st) st)).

(** The decoder is about to read the first token of the block of a
    GIF frame that starts at [pos]: after the bits [bits] and whatever
    literal comes next, it has a fresh table, the first code size, and
    has written the data up to [pos] and that literal. *)
Definition blockStart (data : list Z) (k : Z) (bits : list bool) (pos : Z)
  : Prop :=
  exists (n0 : nat) L0,
    (n0 <= length bits)%nat
    /\ wfLut (2 ^ k) 2 L0 /\ Z.of_nat (length L0) = 2 ^ k + 2
    /\ forall code, 0 <= code < 2 ^ k ->
         consumed k n0 (bits ++ Statements.tokenBits (code, k + 1)) L0
                  (k + 1) code (take (Z.to_nat pos) data ++ [code]).

End ParseSync.


(** ** The blocks of merge *)

Module Restarts.

Import LzwEncoder.

(** The restarts that [merge] loops over cut the data of [N] bytes
    into blocks, from [pos] on: entries that are 0 are skipped and are
    not the last entry, the others increase up to [N], each block
    starts at a multiple of the alignment [a] and is no longer than
    the token limit [mt], unless that is 0. *)
Fixpoint blocksFrom (a mt N pos : Z) (restarts : list Z) : bool :=
  match restarts with
  | [] => pos =? N
  | r :: rest =>
      if r =? 0
      then negb (match rest with [] => true | _ => false end)
           && blocksFrom a mt N pos rest
      else (pos <? r) && (pos mod a =? 0)
           && ((mt =? 0) || (r - pos <=? mt))
           && blocksFrom a mt N r rest
  end.

(** A GIF encoder as [GifImage] sets it up, over the pixels [data]. *)
Definition gifEncoder (data : list Z) (e : Encoder) : Prop :=
  m_isGif e = true /\ m_maxCodeLength e = 12 /\ m_maxDictionary e = 4095
  /\ m_data e = data.

(** The settings [s] differ from [s0] in the flags only. *)
Definition sameLimits (s0 s : OptimizationSettings) : Prop :=
  minCodeSize s = minCodeSize s0 /\ alignment s = alignment s0
  /\ maxDictionary s = maxDictionary s0 /\ maxTokens s = maxTokens s0.

(** The encoder [e'] has the kind and the limits of [e]. *)
Definition sameKind (e e' : Encoder) : Prop :=
  m_isGif e' = m_isGif e /\ m_maxCodeLength e' = m_maxCodeLength e
  /\ m_maxDictionary e' = m_maxDictionary e.

End Restarts.


(** ** What the reader has counted *)

Module GifHeader.

Import BinaryInputBuffer.

(** [m_read] counts the bytes taken from a file of [N] bytes. *)
Definition counted (N : Z) (b : Buffer) : Prop :=
  m_read b + size_ (m_stream b) = N /\ 0 <= m_read b.

(** The reader [b'] comes after [b]. *)
Definition later (N : Z) (b b' : Buffer) : Prop :=
  counted N b -> counted N b' /\ m_read b <= m_read b'.

End GifHeader.


(** ** The segments of a .Z stream *)

Module CompressStream.

Import LzwEncoder Statements.

(** The restarts that the loop of [merge] walks through: the given
    ones, followed by the end of the data when they stop before it. *)
Definition mergeRestarts (e : Encoder) (restarts : list Z) : list Z :=
  match restarts with
  | [] => []
  | _ =>
      if List.last restarts 0 <? size_ (m_data e)
      then restarts ++ [u32 (size_ (m_data e))] else restarts
  end.

(** The segments of that loop, entered with the index [idx] and the
    offset [pos]: for every restart that is not 0 its index in the
    list, the offset at which its block starts, and the restart
    itself, at which the block ends. *)
Fixpoint segmentsOf (idx pos : Z) (rest : list Z) : list (Z * Z * Z) :=
  match rest with
  | [] => []
  | r :: rest' =>
      if r =? 0 then segmentsOf (idx + 1) pos rest'
      else (idx, pos, r) :: segmentsOf (idx + 1) r rest'
  end.

(** Following the specification: "gap = (8 - (tokens+1) mod 8) mod 8",
    the number of dummy codes after the clear code. *)
Definition gapOf (tokens : Z) : Z := (8 - (tokens + 1) mod 8) mod 8.

(** A closed segment: the bits of the tokens of the run [st]; then,
    unless the segment is the final one, the clear code in 16 bits,
    zero bits up to the byte boundary and [16 * gap] further zero
    bits; and for the final segment zero bits up to the byte boundary
    only. *)
Definition closedSegment (clear : Z) (isFinal : bool) (st : Loop) : list bool :=
  let body := l_result st in
  if isFinal then body ++ zeros (padding (bitLength body))
  else body ++ addBits 16 clear
            ++ zeros (padding (bitLength body + 16))
            ++ zeros (16 * gapOf (l_numTokens st)).

(** The run [st] is the main loop of the segment [(idx, pos, r)] of a
    [merge] call with [count] restarts: an emitting run over the block
    from [pos] to [r], of an encoder object with the data and the kind
    of [e] and settings with the code size of [s]; and when the
    segment is not the one of the last restart, the run ends with a
    dictionary whose codes take 16 bits. *)
Definition segmentRun (e : Encoder) (s : OptimizationSettings) (count : Z)
           (sg : Z * Z * Z) (st : Loop) : Prop :=
  let '(idx, pos, r) := sg in
  exists ek sk,
    m_data ek = m_data e /\ m_isGif ek = m_isGif e
    /\ minCodeSize sk = minCodeSize s
    /\ blockRun ek pos (u32 (r - pos)) sk = Ok st
    /\ (idx <> count - 1 ->
        getMinBits (u32 (m_dictSize (l_enc st) - 1)) = 16).

(** The bit stream that the runs [runs] of the segments [sgs] make. *)
Fixpoint streamOf (clear count : Z) (sgs : list (Z * Z * Z)) (runs : list Loop)
  : list bool :=
  match sgs, runs with
  | (idx, _, _) :: sgs', st :: runs' =>
      closedSegment clear (idx =? count - 1) st
      ++ streamOf clear count sgs' runs'
  | _, _ => []
  end.

(** Whether no two-byte window of [l] is a key of [seen] or occurs
    twice. *)
Fixpoint freshPairs (seen : gmap (Z * Z) unit) (l : list Z) : bool :=
  match l with
  | a :: tl =>
      match tl with
      | b :: _ =>
          match seen !! (a, b) with
          | Some _ => false
          | None => freshPairs (<[ (a, b) := tt ]> seen) tl
          end
      | [] => true
      end
  | [] => true
  end.

(** Sample data in which no two-byte window occurs twice: for every
    byte [a] from 0 on, the bytes above it, each after [a]. *)
Definition pairsFrom (a : nat) : list Z :=
  flat_map (fun b => [Z.of_nat a; Z.of_nat b]) (seq (S a) (255 - a)).

Definition sampleData (n : Z) : list Z :=
  take (Z.to_nat n) (flat_map pairsFrom (seq 0 255)).

End CompressStream.


(** * Properties *)

(** ** Machine integers *)

Lemma u32_small x : 0 <= x < 4294967296 -> u32 x = x.
Proof. intros H. unfold u32. now apply Z.mod_small. Qed.

Lemma u32_range x : 0 <= u32 x < 4294967296.
Proof. unfold u32. apply Z.mod_pos_bound. lia. Qed.

Lemma u8_small x : 0 <= x < 256 -> u8 x = x.
Proof. intros H. unfold u8. now apply Z.mod_small. Qed.

Lemma u32_mod8 x : u32 x mod 8 = x mod 8.
Proof.
  unfold u32. apply Z.mod_mod_divide.
  exists 536870912. reflexivity.
Qed.

Lemma land7_mod8 x : Z.land x 7 = x mod 8.
Proof. change 7 with (Z.ones 3). rewrite Z.land_ones by lia. reflexivity. Qed.

Lemma Ok_inj {A : Type} (a b : A) : Ok a = Ok b -> a = b.
Proof. intros H. congruence. Qed.

(** ** The trie: addCode and findMatch *)

Module TrieProps.

Import LzwEncoder Statements.

Lemma child_setChild_same d c b v : child (setChild d c b v) c b = v.
Proof. unfold child, setChild. now rewrite lookup_insert_eq. Qed.

Lemma child_setChild_other d c b v c' b' :
  (c', b') <> (c, b) -> child (setChild d c b v) c' b' = child d c' b'.
Proof.
  intros Hne. unfold child, setChild.
  rewrite lookup_insert_ne; [reflexivity | congruence].
Qed.

(** The walk of [addCode] reads [n] bytes. *)
Lemma addCodeWalk_from data d n : forall from code,
  0 <= from -> from + Z.of_nat n < 4294967296 ->
  fst (addCodeWalk data d n from code) = from + Z.of_nat n.
Proof.
  induction n as [|n IH]; intros from code Hfrom Hlt.
  - simpl. lia.
  - cbn [addCodeWalk]. rewrite u32_small by lia.
    rewrite IH by lia. lia.
Qed.

Lemma followIndex_eq e from len :
  0 <= from -> 1 <= len -> from + len < 4294967296 ->
  followIndex e from len = from + len.
Proof.
  intros Hf Hl Hlt. unfold followIndex.
  rewrite u32_small by lia.
  rewrite addCodeWalk_from by lia. lia.
Qed.

Lemma addCode_code e from len :
  fst (addCode e from len) =
  snd (addCodeWalk (m_data e) (m_dictionary e) (Z.to_nat (len - 1))
                   (u32 (from + 1)) (at_ (m_data e) from)).
Proof.
  unfold addCode.
  destruct (addCodeWalk _ _ _ _ _) as [from' code]. cbn [snd].
  destruct (from' <? size_ (m_data e)); [|reflexivity].
  destruct (m_dictSize e <? m_maxDictionary e); reflexivity.
Qed.

(** What [addCode] does to the encoder, by cases. *)
Lemma addCode_state e from len :
  let from' := followIndex e from len in
  let code := fst (addCode e from len) in
  let e' := snd (addCode e from len) in
  if (from' <? size_ (m_data e)) && (m_dictSize e <? m_maxDictionary e) then
    m_dictSize e' = u32 (m_dictSize e + 1) /\
    m_dictionary e' =
      (if child (m_dictionary e) code (at_ (m_data e) from') =? Unknown
       then setChild (m_dictionary e) code (at_ (m_data e) from') (m_dictSize e)
       else m_dictionary e)
  else e' = e.
Proof.
  cbv zeta. rewrite addCode_code. unfold followIndex, addCode.
  destruct (addCodeWalk _ _ _ _ _) as [from' code]. cbn [fst snd].
  destruct (from' <? size_ (m_data e)); cbn [andb]; [|reflexivity].
  destruct (m_dictSize e <? m_maxDictionary e); cbn [snd]; [|reflexivity].
  split; reflexivity.
Qed.

(** C2 -- A call [addCode(from, len)] never overwrites a child entry
    that is already set: a slot that held a code keeps it, and the only
    slot that can change is the (empty) slot of the returned code under
    the byte [m_data[from+len]], which receives the current dictionary
    size.  Whenever [from + len] is inside the data and the dictionary
    size is below its cap, the size counter advances by one -- also
    when the slot was occupied, in which case the trie is unchanged and
    the counter runs ahead of the last code stored in it. *)
Theorem addCode_never_overwrites_counter_advances
        (e : Encoder) (from len : Z) :
  0 <= from -> 1 <= len -> from + len <= size_ (m_data e) ->
  size_ (m_data e) < 4294967296 ->
  0 <= m_dictSize e -> m_maxDictionary e < 4294967296 ->
  let code := fst (addCode e from len) in
  let e' := snd (addCode e from len) in
  let lastByte := at_ (m_data e) (from + len) in
  (forall c b, child (m_dictionary e) c b <> Unknown ->
               child (m_dictionary e') c b = child (m_dictionary e) c b)
  /\ (forall c b, child (m_dictionary e') c b <> child (m_dictionary e) c b ->
                  (c, b) = (code, lastByte)
                  /\ child (m_dictionary e) c b = Unknown
                  /\ child (m_dictionary e') c b = m_dictSize e)
  /\ (from + len < size_ (m_data e) -> m_dictSize e < m_maxDictionary e ->
      m_dictSize e' = m_dictSize e + 1)
  /\ (from + len < size_ (m_data e) -> m_dictSize e < m_maxDictionary e ->
      child (m_dictionary e) code lastByte <> Unknown ->
      m_dictionary e' = m_dictionary e /\ m_dictSize e' = m_dictSize e + 1).
Proof.
  intros Hfrom Hlen Hwin Hsize Hds Hmax code e' lastByte.
  pose proof (addCode_state e from len) as Hst. cbv zeta in Hst.
  fold code e' in Hst.
  rewrite followIndex_eq in Hst by lia. fold lastByte in Hst.
  destruct (Z.ltb_spec (from + len) (size_ (m_data e))) as [Hin|Hout];
    cbn [andb] in Hst.
  - destruct (Z.ltb_spec (m_dictSize e) (m_maxDictionary e)) as [Hroom|Hfull].
    + destruct Hst as [Hn Hd]. rewrite u32_small in Hn by lia.
      destruct (Z.eqb_spec (child (m_dictionary e) code lastByte) Unknown)
        as [Hempty|Hset].
      * assert (Hother : forall c b, (c, b) <> (code, lastByte) ->
                  child (m_dictionary e') c b = child (m_dictionary e) c b).
        { intros c b Hne. rewrite Hd. now apply child_setChild_other. }
        assert (Hsame : child (m_dictionary e') code lastByte = m_dictSize e).
        { rewrite Hd. apply child_setChild_same. }
        split; [|split; [|split]].
        -- intros c b Hcb. apply Hother. congruence.
        -- intros c b Hcb.
           destruct (decide ((c, b) = (code, lastByte))) as [Heq|Hne].
           ++ inversion Heq; subst c b. auto.
           ++ exfalso. apply Hcb. now apply Hother.
        -- intros _ _. exact Hn.
        -- intros _ _ Hocc. congruence.
      * split; [|split; [|split]].
        -- intros c b _. now rewrite Hd.
        -- intros c b Hcb. exfalso. apply Hcb. now rewrite Hd.
        -- intros _ _. exact Hn.
        -- intros _ _ _. split; [exact Hd | exact Hn].
    + rewrite Hst. split; [|split; [|split]]; try congruence; intros; lia.
  - rewrite Hst. split; [|split; [|split]]; try congruence; intros; lia.
Qed.


(** The slot is occupied, the counter advances all the same. *)
Lemma addCode_never_overwrites_counter_advances_witness :
  let e := mkEncoder [0; 0; 0] [] {[ (0, 0) := 6 ]} 7 4095 12 true in
  m_dictionary (snd (addCode e 0 1)) = m_dictionary e
  /\ m_dictSize (snd (addCode e 0 1)) = 8.
Proof.
  intro e.
  destruct (addCode_never_overwrites_counter_advances e 0 1)
    as (_ & _ & _ & H); [lia | lia | vm_compute; discriminate | reflexivity
                        | vm_compute; discriminate | reflexivity |].
  apply H; [reflexivity | reflexivity | vm_compute; discriminate].
Defined.

Lemma at_drop (data : list Z) (from : Z) :
  0 <= from < size_ data ->
  drop (Z.to_nat from) data = at_ data from :: drop (S (Z.to_nat from)) data.
Proof.
  intros [H0 Hlt]. unfold size_ in Hlt.
  destruct (lookup_lt_is_Some_2 data (Z.to_nat from)) as [x Hx]; [lia|].
  rewrite (drop_S _ _ _ Hx). f_equal.
  unfold at_. destruct (Z.ltb_spec from 0); [lia|].
  now rewrite nth_lookup, Hx.
Qed.

(** The loop of [findMatch] against the walk of the specification. *)
Lemma findMatchLoop_walk data d maxLength n : forall from code len,
  0 <= from -> from + Z.of_nat n <= size_ data -> size_ data < 4294967296 ->
  len + Z.of_nat n = maxLength ->
  findMatchLoop data d maxLength n from code len
  = len + walk d code (take n (drop (Z.to_nat from) data)).
Proof.
  induction n as [|n IH]; intros from code len Hfrom Hwin Hsize Hlen.
  - simpl. lia.
  - cbn [findMatchLoop]. rewrite at_drop by lia.
    cbn [take walk].
    destruct (child d code (at_ data from) =? Unknown); [lia|].
    rewrite u32_small by lia.
    rewrite IH by lia.
    replace (Z.to_nat (from + 1)) with (S (Z.to_nat from)) by lia.
    lia.
Qed.

Lemma walk_bounds d keys : forall code,
  0 <= walk d code keys <= Z.of_nat (length keys).
Proof.
  induction keys as [|k rest IH]; intros code; cbn [walk length].
  - lia.
  - destruct (child d code k =? Unknown); [lia|].
    specialize (IH (child d code k)). lia.
Qed.

(** [findMatch] never returns more than [maxLength]; this needs no
    assumption about the data. *)
Lemma findMatchLoop_le data d maxLength n : forall from code len,
  len + Z.of_nat n = maxLength -> 
  len <= findMatchLoop data d maxLength n from code len <= maxLength.
Proof.
  induction n as [|n IH]; intros from code len Hlen; cbn [findMatchLoop].
  - lia.
  - destruct (child d code (at_ data from) =? Unknown); [lia|].
    specialize (IH (u32 (from + 1)) (child d code (at_ data from)) (len + 1)).
    lia.
Qed.

Lemma findMatch_zero e from : findMatch e from 0 = 0.
Proof. reflexivity. Qed.

Lemma findMatch_range e from maxLength :
  1 <= maxLength -> 1 <= findMatch e from maxLength <= maxLength.
Proof.
  intros H. unfold findMatch. apply findMatchLoop_le. lia.
Qed.

Lemma findMatch_nonneg_le e from maxLength :
  0 <= maxLength -> 0 <= findMatch e from maxLength <= maxLength.
Proof.
  intros H. destruct (Z.eq_dec maxLength 0) as [->|Hne].
  - rewrite findMatch_zero. lia.
  - pose proof (findMatch_range e from maxLength). lia.
Qed.

(** C7 -- For a call [findMatch(from, maxLength)] whose window
    [from .. from+maxLength) lies inside the data and has at least one
    byte, the result is the number of bytes matched by walking the trie
    from [m_data[from]] with the following bytes as keys until a child
    is missing, and it is at least 1 and at most [maxLength].  With
    [maxLength = 0] the result is 0. *)
Theorem findMatch_walks_trie (e : Encoder) (from maxLength : Z) :
  0 <= from -> 0 <= maxLength ->
  from + maxLength <= size_ (m_data e) -> size_ (m_data e) < 4294967296 ->
  (maxLength = 0 -> findMatch e from maxLength = 0)
  /\ (1 <= maxLength ->
      findMatch e from maxLength
      = spec_find_match (m_data e) (m_dictionary e) from maxLength
      /\ 1 <= findMatch e from maxLength <= maxLength).
Proof.
  intros Hfrom Hmax Hwin Hsize. split.
  - intros ->. apply findMatch_zero.
  - intros H1. split; [|now apply findMatch_range].
    unfold findMatch, spec_find_match.
    rewrite u32_small by lia.
    rewrite findMatchLoop_walk by lia. reflexivity.
Qed.

(** The trie holds "01" and "10"; at offset 2 of 0,1,0,1,0 the walk
    matches "01" and finds no child for the third byte. *)
Lemma findMatch_walks_trie_witness :
  let e := mkEncoder [0; 1; 0; 1; 0] [] {[ (0, 1) := 6; (1, 0) := 7 ]}
                     8 4095 12 true in
  findMatch e 2 3 = spec_find_match (m_data e) (m_dictionary e) 2 3
  /\ findMatch e 2 3 = 2.
Proof.
  intro e.
  destruct (findMatch_walks_trie e 2 3) as [_ H];
    [lia | lia | vm_compute; discriminate | reflexivity |].
  destruct (H ltac:(lia)) as [Heq _].
  split; [exact Heq | reflexivity].
Defined.

(** C7, as stated, fails: a call with [maxLength = 0] at an index
    inside the data returns 0, which is not at least 1. *)
Lemma findMatch_zero_length_returns_zero :
  let e := new [0; 1; 2] true in
  0 <= 0 < size_ (m_data e)
  /\ findMatch e 0 0 = 0
  /\ ~ (1 <= findMatch e 0 0).
Proof.
  intro e. split; [|split].
  - vm_compute. split; [discriminate | reflexivity].
  - reflexivity.
  - vm_compute. intros H. apply H. reflexivity.
Qed.

End TrieProps.

(** ** Flexible parsing *)

Module FlexibleProps.

Import LzwEncoder Statements TrieProps.

Section ShorterLoop.

Variables (e : Encoder) (i remaining atLeast best0 L : Z).

(** [sum] of the loop body for a candidate length [x]. *)
Let sumAt (x : Z) : Z :=
  u32 (x + findMatch e (u32 (i + x)) (u32 (remaining - x))).

(** What the loop knows when the candidates above [sh] are done. *)
Let Inv (sh best choice : Z) : Prop :=
  sh < L
  /\ best0 <= best
  /\ ((choice = L /\ best = best0)
      \/ (sh < choice < L /\ sumAt choice = best
          /\ atLeast <= best /\ best0 < best))
  /\ (forall x, sh < x < L -> sumAt x < atLeast \/ sumAt x <= best).

Lemma shorterLoop_inv n : forall sh best choice,
  sh = Z.of_nat n -> Inv sh best choice ->
  Inv 0 (fst (shorterLoop e i remaining atLeast n sh best choice))
        (snd (shorterLoop e i remaining atLeast n sh best choice)).
Proof.
  induction n as [|n IH]; intros sh best choice Hsh HI.
  - simpl. now replace 0 with sh by lia.
  - cbn [shorterLoop].
    change (u32 (sh + findMatch e (u32 (i + sh)) (u32 (remaining - sh))))
      with (sumAt sh).
    destruct HI as (HL & Hb0 & Hch & Hall).
    assert (Hkeep : ~ (atLeast <= sumAt sh /\ best < sumAt sh) ->
                    Inv (sh - 1) best choice).
    { intros Hno. split; [lia|]. split; [exact Hb0|]. split.
      - destruct Hch as [Hc|(Hr & Hrest)]; [now left|].
        right. split; [lia | exact Hrest].
      - intros x Hx. destruct (Z.eq_dec x sh) as [->|Hne]; [lia|].
        apply Hall. lia. }
    assert (Htake : atLeast <= sumAt sh -> best < sumAt sh ->
                    Inv (sh - 1) (sumAt sh) sh).
    { intros Hge Hgt. split; [lia|]. split; [lia|]. split.
      - right. split; [lia|]. split; [reflexivity|]. lia.
      - intros x Hx. destruct (Z.eq_dec x sh) as [->|Hne]; [lia|].
        destruct (Hall x) as [?|?]; lia. }
    destruct (Z.leb_spec atLeast (sumAt sh)) as [Hge|Hlt]; cbn [andb].
    + destruct (Z.ltb_spec best (sumAt sh)) as [Hgt|Hle].
      * apply IH; [lia | now apply Htake].
      * apply IH; [lia | apply Hkeep; lia].
    + apply IH; [lia | apply Hkeep; lia].
Qed.

End ShorterLoop.

(** C3 (amended) -- At an emission point where the lookahead runs,
    with greedy match length [L],
    [best_pair = L + findMatch(i+L, remaining-L)] and the threshold
    [atLeast = (best_pair + minImprovement) mod 2^32] that the source
    computes in unsigned 32-bit arithmetic: the chosen length is [L]
    itself or a shorter [x] in [1 .. L-1] whose pair sum
    [x + findMatch(i+x, remaining-x)] is at least [atLeast] and greater
    than [best_pair]; and when no shorter length has such a sum, [L] is
    kept.  A non-greedy match is counted exactly when the chosen length
    is shorter than [L].  The threshold is the plain sum
    [best_pair + minImprovement] whenever that sum is below 2^32. *)
Theorem nongreedy_selection_rule (e : Encoder) (s : OptimizationSettings)
        (i remaining : Z) :
  0 <= i -> 1 <= remaining ->
  i + remaining <= size_ (m_data e) -> size_ (m_data e) < 4294967296 ->
  let L := findMatch e i remaining in
  let next x := findMatch e (i + x) (remaining - x) in
  let best_pair := L + next L in
  let atLeast := u32 (best_pair + minImprovement s) in
  greedy s = false -> L <> 1 -> minNonGreedyMatch s <= L ->
  i + L + 4 < size_ (m_data e) ->
  let chosen := fst (chooseMatch e s i remaining) in
  (chosen = L
   \/ (1 <= chosen < L
       /\ chosen + next chosen >= atLeast
       /\ chosen + next chosen > best_pair))
  /\ ((forall x, 1 <= x < L ->
         ~ (x + next x >= atLeast /\ x + next x > best_pair)) ->
      chosen = L)
  /\ (snd (chooseMatch e s i remaining) = true <-> chosen < L)
  /\ (0 <= minImprovement s -> best_pair + minImprovement s < 4294967296 ->
      atLeast = best_pair + minImprovement s).
Proof.
  intros Hi Hrem Hwin Hsize L next best_pair atLeast Hgreedy HL1 Hmin Hfar
         chosen.
  pose proof (findMatch_range e i remaining Hrem) as HLr. fold L in HLr.
  assert (Hnext : forall x, 0 <= x <= remaining -> 0 <= next x <= remaining - x).
  { intros x Hx. apply findMatch_nonneg_le. lia. }
  pose proof (Hnext L ltac:(lia)) as HnL.
  (* the wrap-arounds of the pair sums are identities here *)
  assert (HsumAt : forall x, 0 <= x <= remaining ->
            u32 (x + findMatch e (u32 (i + x)) (u32 (remaining - x)))
            = x + next x).
  { intros x Hx. rewrite (u32_small (i + x)), (u32_small (remaining - x)) by lia.
    fold (next x). pose proof (Hnext x Hx). apply u32_small. lia. }
  set (choice := flexibleChoice e s i remaining L).
  assert (Hchosen : chooseMatch e s i remaining
                    = if choice <? L then (choice, true) else (L, false)).
  { unfold chooseMatch. fold L. rewrite Hgreedy. cbn [negb].
    destruct (Z.eqb_spec L 1) as [?|_]; [contradiction|].
    destruct (Z.ltb_spec L (minNonGreedyMatch s)) as [?|_]; [lia|].
    cbn [orb]. rewrite (u32_small (i + L + 4)) by lia.
    destruct (Z.leb_spec (size_ (m_data e)) (i + L + 4)) as [?|_]; [lia|].
    reflexivity. }
  assert (Hbp : u32 (L + findMatch e (u32 (i + L)) (u32 (remaining - L)))
                = best_pair) by (apply HsumAt; lia).
  assert (Hfc : choice
                = snd (shorterLoop e i remaining atLeast
                         (Z.to_nat (L - 1)) (L - 1) best_pair L)).
  { unfold choice, flexibleChoice. cbv zeta. rewrite Hbp. reflexivity. }
  pose proof (shorterLoop_inv e i remaining atLeast best_pair L
                (Z.to_nat (L - 1)) (L - 1) best_pair L) as HI.
  cbv zeta in HI. rewrite <- Hfc in HI.
  destruct HI as (_ & _ & Hch & Hall).
  { lia. }
  { repeat split; first [lia | intros x Hx; lia | (left; lia)]. }
  assert (Hcases : choice = L
                   \/ (1 <= choice < L
                       /\ choice + next choice >= atLeast
                       /\ choice + next choice > best_pair)).
  { destruct Hch as [[Hc _]|(Hr & Hs & Hge & Hgt)]; [now left|right].
    rewrite HsumAt in Hs by lia. lia. }
  assert (Hfst : chosen = choice).
  { unfold chosen. rewrite Hchosen.
    destruct (Z.ltb_spec choice L); cbn [fst]; lia. }
  rewrite Hfst. split; [exact Hcases|split; [|split]].
  - intros Hnone. destruct Hcases as [?|(Hr & Hge & Hgt)]; [assumption|].
    exfalso. apply (Hnone choice Hr). split; assumption.
  - rewrite Hchosen. destruct (Z.ltb_spec choice L); cbn [snd];
      split; intros; try lia; try reflexivity; discriminate.
  - intros Himp Hnowrap. apply u32_small. lia.
Qed.

(** The dictionary holds a, aa, ab, aaa, abb (a = 0, b = 1); at the
    start of "aaabb..." the greedy pair is aaa + b and the pair aa + abb
    is longer by one. *)
Lemma nongreedy_selection_rule_witness :
  let e := mkEncoder [0; 0; 0; 1; 1; 2; 2; 2; 2; 2] []
             {[ (0, 0) := 6; (0, 1) := 7; (6, 0) := 8; (7, 1) := 9 ]}
             10 4095 12 true in
  let s := mkSettings 2 true false false 2 1 0 0 false 1 false false in
  fst (chooseMatch e s 0 10) = 2
  /\ snd (chooseMatch e s 0 10) = true
  /\ 2 + findMatch e (0 + 2) (10 - 2) >= 3 + findMatch e (0 + 3) (10 - 3) + 1.
Proof.
  intros e s.
  destruct (nongreedy_selection_rule e s 0 10) as (Hrule & _ & Hcount & _);
    [lia | lia | vm_compute; discriminate | reflexivity
    | reflexivity | vm_compute; discriminate | vm_compute; discriminate
    | reflexivity |].
  assert (H2 : fst (chooseMatch e s 0 10) = 2) by reflexivity.
  split; [exact H2|split].
  - apply Hcount. rewrite H2. reflexivity.
  - destruct Hrule as [Hkeep|(_ & Hge & _)].
    + rewrite H2 in Hkeep. vm_compute in Hkeep. discriminate Hkeep.
    + rewrite H2 in Hge. exact Hge.
Defined.

(** C3, as stated, fails: the threshold is computed in unsigned 32-bit
    arithmetic.  With the dictionary and the data of the example above
    and [minImprovement = 4294967295] the threshold
    [best_pair + minImprovement = 4 + 4294967295] wraps around to 3;
    the shorter length 2 is chosen with the pair sum 5, which is
    greater than [best_pair = 4] and far below
    [best_pair + minImprovement]. *)
Lemma nongreedy_rule_fails_when_threshold_wraps :
  let e := mkEncoder [0; 0; 0; 1; 1; 2; 2; 2; 2; 2] []
             {[ (0, 0) := 6; (0, 1) := 7; (6, 0) := 8; (7, 1) := 9 ]}
             10 4095 12 true in
  let s := mkSettings 2 true false false 2 4294967295 0 0 false 1
                      false false in
  let L := findMatch e 0 10 in
  let next x := findMatch e (0 + x) (10 - x) in
  let best_pair := L + next L in
  L = 3 /\ best_pair = 4
  /\ chooseMatch e s 0 10 = (2, true)
  /\ 2 + next 2 = 5
  /\ ~ (2 + next 2 >= best_pair + minImprovement s).
Proof. vm_compute. repeat split. intros H. now apply H. Qed.

(** The run check has no part in the choice: [splitRuns] does not
    change the match that is taken. *)
Lemma chooseMatch_ignores_splitRuns e s b i remaining :
  chooseMatch e (setSplitRuns s b) i remaining = chooseMatch e s i remaining.
Proof. reflexivity. Qed.

(** The lookahead does call [findMatch] with [maxLength = 0]: in a
    block of three bytes followed by more data, the greedy match at
    offset 1 ends the block, and the match after it has no byte left. *)
Lemma lookahead_second_match_has_no_room :
  let e0 := new [0; 0; 0; 0; 0; 0; 0; 0; 0; 0] true in
  let s := mkSettings 2 true false false 2 1 0 0 false 1 false false in
  let st := initLoop e0 s in
  let e1 := snd (addCode (l_enc st) 0 1) in
  let remaining := u32 (3 + 0 - 1) in
  let matchLength := findMatch e1 1 remaining in
  matchLength = 2
  /\ u32 (remaining - matchLength) = 0
  /\ findMatch e1 (u32 (1 + matchLength)) (u32 (remaining - matchLength)) = 0.
Proof. vm_compute. repeat split. Qed.

End FlexibleProps.

(** ** Closing a block: optimizePartial and merge *)

Module BlockProps.

Import LzwEncoder Statements.

Lemma padding_step n :
  0 <= n -> n mod 8 <> 0 -> padding n = padding (n + 1) + 1.
Proof.
  intros Hn Hm. unfold padding.
  rewrite <- (Zplus_mod_idemp_l n 1 8).
  pose proof (Z.mod_pos_bound n 8 ltac:(lia)) as Hb.
  assert (Hcases : n mod 8 = 1 \/ n mod 8 = 2 \/ n mod 8 = 3 \/ n mod 8 = 4
                   \/ n mod 8 = 5 \/ n mod 8 = 6 \/ n mod 8 = 7) by lia.
  destruct Hcases as [H|[H|[H|[H|[H|[H|H]]]]]]; rewrite H; reflexivity.
Qed.

Lemma padding_range n : 0 <= padding n < 8.
Proof. unfold padding. apply Z.mod_pos_bound. lia. Qed.

Lemma padding_zero n : n mod 8 = 0 -> padding n = 0.
Proof. intros H. unfold padding. rewrite H. reflexivity. Qed.

(** The fill loop pushes exactly the padding. *)
Lemma fillByte_padding fuel : forall result,
  padding (bitLength result) <= Z.of_nat fuel ->
  fillByte fuel result = result ++ zeros (padding (bitLength result)).
Proof.
  induction fuel as [|fuel IH]; intros result Hfuel.
  - pose proof (padding_range (bitLength result)).
    replace (padding (bitLength result)) with 0 by lia.
    unfold zeros. simpl. now rewrite app_nil_r.
  - cbn [fillByte]. fold (bitLength result).
    destruct (Z.eqb_spec (bitLength result mod 8) 0) as [H0|Hne].
    + rewrite padding_zero by assumption. unfold zeros. simpl.
      now rewrite app_nil_r.
    + assert (Hlen : bitLength (result ++ [false]) = bitLength result + 1).
      { unfold bitLength. rewrite length_app. simpl. lia. }
      assert (Hpos : 0 <= bitLength result) by (unfold bitLength; lia).
      pose proof (padding_step (bitLength result) Hpos Hne) as Hstep.
      rewrite IH.
      * rewrite Hlen, Hstep.
        pose proof (padding_range (bitLength result + 1)) as Hr.
        unfold zeros.
        replace (Z.to_nat (padding (bitLength result + 1) + 1))
          with (S (Z.to_nat (padding (bitLength result + 1)))) by lia.
        rewrite <- app_assoc. reflexivity.
      * rewrite Hlen. rewrite Hstep in Hfuel. lia.
Qed.

Lemma fillByte_8 result :
  fillByte 8 result = result ++ zeros (padding (bitLength result)).
Proof.
  apply fillByte_padding. pose proof (padding_range (bitLength result)). lia.
Qed.

(** What a successful emitting call of [optimizePartial] returns:
    the bits of the main loop, closed by [endOfBlock]. *)
Lemma optimizePartial_emit e from maxLength isFinal s bits e' :
  optimizePartial e from maxLength true isFinal s = Ok (bits, e') ->
  exists e1,
    allocateBest e s = Ok e1
    /\ let st := runBlock e1 (fixAlignment s) from
                          (blockLength e1 from maxLength) true in
       e' = l_enc st
       /\ endOfBlock (l_enc st)
                     (u32 (Z.shiftl 1 (minCodeSize (fixAlignment s))))
                     (u32 (u32 (Z.shiftl 1 (minCodeSize (fixAlignment s))) + 1))
                     isFinal (l_numTokens st) (l_result st) = Ok bits.
Proof.
  unfold optimizePartial. intros H.
  destruct (allocateBest e s) as [e1|m] eqn:Halloc; [|discriminate H].
  exists e1. split; [reflexivity|].
  cbn [mbind outcome_bind rbind] in H. cbv zeta in H.
  destruct (negb (from mod alignment (fixAlignment s) =? 0)); [discriminate H|].
  rewrite !andb_false_r in H. cbn [andb] in H.
  destruct (u32 (from + blockLength e1 from maxLength) =? 0); [discriminate H|].
  cbv zeta.
  destruct (endOfBlock _ _ _ _ _ _) as [b|m]; [|discriminate H].
  cbn in H. inversion H; subst. split; reflexivity.
Qed.

Lemma blockLength_allocateBest e s e1 from maxLength :
  allocateBest e s = Ok e1 ->
  blockLength e1 from maxLength = blockLength e from maxLength.
Proof.
  unfold allocateBest. intros H.
  destruct (m_best e); [destruct (alignment s =? 0)|];
    inversion H; reflexivity.
Qed.

Lemma isGif_allocateBest e s e1 :
  allocateBest e s = Ok e1 -> m_isGif e1 = m_isGif e.
Proof.
  unfold allocateBest. intros H.
  destruct (m_best e); [destruct (alignment s =? 0)|];
    inversion H; reflexivity.
Qed.


Lemma minCodeSize_fixAlignment s : minCodeSize (fixAlignment s) = minCodeSize s.
Proof. unfold fixAlignment. now destruct (alignment s =? 0). Qed.

Lemma isGif_addCode e from len : m_isGif (snd (addCode e from len)) = m_isGif e.
Proof.
  unfold addCode. destruct (addCodeWalk _ _ _ _ _) as [from' code].
  destruct (from' <? size_ (m_data e)); [|reflexivity].
  destruct (m_dictSize e <? m_maxDictionary e); reflexivity.
Qed.

Lemma isGif_iteration s from len emit fromAligned i st st' :
  iteration s from len emit fromAligned i st = Some st' ->
  m_isGif (l_enc st') = m_isGif (l_enc st).
Proof.
  unfold iteration. intros H.
  destruct (l_matchLength st =? 0).
  - unfold emitToken in H.
    destruct ((0 <? maxDictionary s) && (maxDictionary s <=? m_dictSize (l_enc st)));
      [discriminate H|].
    destruct ((0 <? maxTokens s) && (maxTokens s <=? l_numTokens st));
      [discriminate H|].
    destruct (chooseMatch _ _ _ _) as [matchLength nonGreedy].
    pose proof (isGif_addCode (l_enc st) i matchLength) as Hadd.
    destruct (addCode (l_enc st) i matchLength) as [code e2].
    cbn in H. inversion H; subst. cbn. exact Hadd.
  - cbn in H. inversion H; subst. reflexivity.
Qed.

Lemma isGif_processInput s from len emit fromAligned n : forall i st,
  m_isGif (l_enc (processInput s from len emit fromAligned n i st))
  = m_isGif (l_enc st).
Proof.
  induction n as [|n IH]; intros i st; cbn [processInput]; [reflexivity|].
  destruct (iteration s from len emit fromAligned i st) as [st'|] eqn:Hit;
    [|reflexivity].
  rewrite IH. now apply isGif_iteration in Hit.
Qed.

Lemma isGif_runBlock e s from len emit :
  m_isGif (l_enc (runBlock e s from len emit)) = m_isGif e.
Proof. unfold runBlock. now rewrite isGif_processInput. Qed.

Lemma length_addBits n : forall token, length (addBits n token) = n.
Proof. induction n as [|n IH]; intros token; simpl; [|rewrite IH]; reflexivity. Qed.

(** The token log is what the bit stream of the main loop is made of. *)
Lemma iteration_token_bits s from len emit fromAligned i st st' :
  iteration s from len emit fromAligned i st = Some st' ->
  l_result st = flat_map tokenBits (l_tokens st) ->
  l_result st' = flat_map tokenBits (l_tokens st').
Proof.
  unfold iteration. intros H Hinv.
  destruct (l_matchLength st =? 0).
  - unfold emitToken in H.
    destruct ((0 <? maxDictionary s) && (maxDictionary s <=? m_dictSize (l_enc st)));
      [discriminate H|].
    destruct ((0 <? maxTokens s) && (maxTokens s <=? l_numTokens st));
      [discriminate H|].
    destruct (chooseMatch _ _ _ _) as [matchLength nonGreedy].
    destruct (addCode (l_enc st) i matchLength) as [code e2].
    cbn in H. inversion H; subst. cbn [l_result l_tokens setEnc setMatchLength].
    destruct emit; [|exact Hinv].
    unfold add. rewrite flat_map_app, Hinv. cbn [flat_map].
    now rewrite app_nil_r.
  - cbn in H. inversion H; subst. exact Hinv.
Qed.

Lemma processInput_token_bits s from len emit fromAligned n : forall i st,
  l_result st = flat_map tokenBits (l_tokens st) ->
  let st' := processInput s from len emit fromAligned n i st in
  l_result st' = flat_map tokenBits (l_tokens st').
Proof.
  induction n as [|n IH]; intros i st Hinv; cbn [processInput]; [exact Hinv|].
  destruct (iteration s from len emit fromAligned i st) as [st1|] eqn:Hit;
    [|exact Hinv].
  apply IH. eapply iteration_token_bits; eassumption.
Qed.

Lemma runBlock_token_bits e s from len emit :
  let st := runBlock e s from len emit in
  l_result st = flat_map tokenBits (l_tokens st).
Proof. unfold runBlock. now apply processInput_token_bits. Qed.

(** The emitting call, in terms of [blockRun]. *)
Lemma optimizePartial_blockRun e from maxLength isFinal s bits e' :
  optimizePartial e from maxLength true isFinal s = Ok (bits, e') ->
  exists st,
    blockRun e from maxLength s = Ok st
    /\ e' = l_enc st
    /\ m_isGif (l_enc st) = m_isGif e
    /\ endOfBlock (l_enc st) (u32 (Z.shiftl 1 (minCodeSize s)))
                  (u32 (u32 (Z.shiftl 1 (minCodeSize s)) + 1))
                  isFinal (l_numTokens st) (l_result st) = Ok bits.
Proof.
  intros H. apply optimizePartial_emit in H as (e1 & Halloc & He' & Hend).
  eexists. unfold blockRun. rewrite Halloc. split; [reflexivity|].
  rewrite minCodeSize_fixAlignment in Hend.
  split; [exact He'|]. split; [|exact Hend].
  rewrite isGif_runBlock. now apply isGif_allocateBest in Halloc.
Qed.

(** C4, as stated, fails: the final segment of a .Z stream does get
    the padding to the byte boundary.  For the one-byte input "A" the
    stream is the 9-bit token 65 followed by seven zero bits. *)
Lemma compress_final_block_is_padded :
  bitsOf (merge (new [65] false) [1] compressSettings)
  = Ok (addBits 9 65 ++ repeat false 7)
  /\ bitsOf (merge (new [65] false) [1] compressSettings) <> Ok (addBits 9 65).
Proof. split; [reflexivity | vm_compute; discriminate]. Qed.

(** C5 -- In .Z mode, the cost evaluation of an iteration that is not
    at the last byte of the data leaves [m_best] unchanged while the
    code size is below 16; and an emitting [optimizePartial] call for a
    segment that is not the final one throws "flexiGIF currently only
    supports restarts with code size = 16" whenever the code size for
    the closing clear code is not 16.  A call that returns a bit
    stream has therefore closed its segment with a 16-bit clear
    code. *)
Theorem compress_restart_needs_16_bits
        (e : Encoder) (s : OptimizationSettings) (from maxLength : Z)
        (fromAligned i : Z) (st : Loop) :
  m_isGif e = false -> m_isGif (l_enc st) = false ->
  (u32 (i + 1) <> size_ (m_data (l_enc st)) -> l_codeSize st < 16 ->
   costEvaluation s from fromAligned i st = m_best (l_enc st))
  /\ (forall stEnd,
        blockRun e from maxLength s = Ok stEnd ->
        from mod alignment (fixAlignment s) = 0 ->
        u32 (from + blockLength e from maxLength) <> 0 ->
        getMinBits (u32 (m_dictSize (l_enc stEnd) - 1)) <> 16 ->
        optimizePartial e from maxLength true false s
        = Err "flexiGIF currently only supports restarts with code size = 16")
  /\ (forall bits e',
        optimizePartial e from maxLength true false s = Ok (bits, e') ->
        getMinBits (u32 (m_dictSize e' - 1)) = 16).
Proof.
  intros Hz Hzst. split; [|split].
  - intros Hnotlast Hsmall. unfold costEvaluation.
    destruct (readOnlyBest s); [reflexivity|].
    destruct (Z.eqb_spec (u32 (i + 1)) (size_ (m_data (l_enc st))))
      as [?|_]; [contradiction|].
    cbn [negb andb].
    destruct (bb_totalBits _ =? 0); [reflexivity|].
    rewrite andb_true_r.
    destruct ((1 <? alignment s) && _); [reflexivity|].
    rewrite Hzst.
    destruct (Z.ltb_spec (l_codeSize st) 16) as [_|?]; [reflexivity | lia].
  - intros stEnd Hrun Haligned Hlen Hwidth.
    unfold blockRun in Hrun. unfold optimizePartial.
    destruct (allocateBest e s) as [e1|m] eqn:Halloc; [|discriminate Hrun].
    cbn [mbind outcome_bind rbind] in Hrun |- *. cbv zeta.
    apply Ok_inj in Hrun.
    rewrite (blockLength_allocateBest _ _ _ from maxLength Halloc) in Hrun |- *.
    rewrite Haligned. change (negb (0 =? 0)) with false. cbv iota.
    rewrite !andb_false_r. cbn [andb].
    destruct (Z.eqb_spec (u32 (from + blockLength e from maxLength)) 0)
      as [?|_]; [contradiction|].
    rewrite Hrun. unfold endOfBlock.
    assert (Hgif : m_isGif (l_enc stEnd) = false).
    { rewrite <- Hrun, isGif_runBlock.
      now rewrite (isGif_allocateBest _ _ _ Halloc). }
    rewrite Hgif. cbv zeta iota.
    destruct (Z.eqb_spec (getMinBits (u32 (m_dictSize (l_enc stEnd) - 1))) 16)
      as [?|_]; [contradiction|].
    reflexivity.
  - intros bits e' H.
    apply optimizePartial_blockRun in H as (st' & _ & -> & Hgif & Hend).
    unfold endOfBlock in Hend. rewrite Hgif, Hz in Hend.
    cbv zeta iota in Hend.
    destruct (Z.eqb_spec (getMinBits (u32 (m_dictSize (l_enc st') - 1))) 16)
      as [H16|_]; [exact H16|].
    change (negb false) with true in Hend. discriminate Hend.
Qed.


(** A three-byte .Z input: after the first token the code size is 9,
    so the cost evaluation at offset 0 records nothing although a path
    from offset 1 is known; and closing a first segment of one byte
    throws. *)
Lemma compress_restart_needs_16_bits_witness :
  let e := withBest (new [65; 66; 67] false)
             [noBlock; mkBest 2 24 24 2 0 false; mkBest 1 16 16 1 0 false;
              noBlock; noBlock] in
  let s := compressSettings in
  let st := default (initLoop e s) (emitToken s 0 3 false 0 (initLoop e s)) in
  l_codeSize st = 9
  /\ costEvaluation s 0 0 0 st = m_best e
  /\ optimizePartial e 0 1 true false s
     = Err "flexiGIF currently only supports restarts with code size = 16".
Proof.
  intros e s st.
  destruct (compress_restart_needs_16_bits e s 0 1 0 0 st eq_refl eq_refl)
    as (Hdp & Herr & _).
  split; [reflexivity|]. split.
  - apply Hdp; vm_compute; [discriminate | reflexivity].
  - eapply Herr;
      [vm_compute; reflexivity | reflexivity
      | vm_compute; discriminate | vm_compute; discriminate].
Defined.

(** The scoring pass over a short .Z input: the code size stays at 9,
    and every block recorded in [m_best] runs to the end of the data. *)
Lemma compress_scoring_records_whole_blocks :
  (e ← Driver.estimateCosts (new [65; 66; 67; 65; 66] false)
                            compressSettings false 5;
   Ok (map bb_length (m_best e)))
  = Ok [5; 4; 3; 2; 1; 0; 0].
Proof. reflexivity. Qed.

(** [merge] gives up on the same input when the first restart is at
    offset 1. *)
Lemma merge_compress_early_restart_fails :
  bitsOf (merge (new [65; 66; 67] false) [1; 3] compressSettings)
  = Err "flexiGIF currently only supports restarts with code size = 16".
Proof. reflexivity. Qed.

(** C8 (amended) -- [merge] with an empty list of restarts returns
    normally: the bit stream holds the leading clear code
    ([minCodeSize] zero bits and a one bit) when the stream is a GIF
    and [startWithClearCode] is set, and is empty otherwise; the
    encoder object is unchanged. *)
Theorem merge_empty_restarts (e : Encoder) (s : OptimizationSettings) :
  merge e [] s
  = Ok (if startWithClearCode s && m_isGif e
        then repeat false (Z.to_nat (minCodeSize s)) ++ [true] else [],
        e).
Proof. reflexivity. Qed.

(** C8, as stated, fails: with no restarts [merge] returns a bit
    stream, not an error. *)
Lemma merge_empty_restarts_is_no_error :
  let e := new [0; 1; 2] true in
  merge e [] (gifSettings 2) = Ok ([false; false; true], e)
  /\ forall msg, merge e [] (gifSettings 2) <> Err msg.
Proof. intro e. split; [reflexivity | intros msg H; discriminate H]. Qed.

(** C6 (amended) -- For the pixels 0,1,0,1,0,1 with code size 2 and
    greedy parsing the tokens are 0, 1, 6, 6: the codes 4 and 5 are the
    clear and the end-of-stream code, 6 stands for "01", 7 for "10",
    and 8 for "010" is entered into the trie and not used.  The frame's
    bit stream is the leading clear code, these tokens and the
    end-of-stream code in 4 bits, and it is read back as the
    pixels. *)
Theorem scenario_010101 :
  let B := [0; 1; 0; 1; 0; 1] in
  exists st,
    blockRun (new B true) 0 0 (gifSettings 2) = Ok st
    /\ map fst (l_tokens st) = [0; 1; 6; 6]
    /\ l_result st = flat_map tokenBits (l_tokens st)
    /\ child (m_dictionary (l_enc st)) 0 1 = 6
    /\ child (m_dictionary (l_enc st)) 1 0 = 7
    /\ child (m_dictionary (l_enc st)) 6 0 = 8
    /\ Driver.recompressFrame B 2 Driver.defaultSettings false
       = Ok (addBits 3 4 ++ l_result st ++ addBits 4 5)
    /\ (bits ← Driver.recompressFrame B 2 Driver.defaultSettings false;
        Driver.readBackFrame bits 2) = Ok B.
Proof.
  intro B. eexists. split; [vm_compute; reflexivity|].
  vm_compute. repeat split.
Qed.

(** C6, as stated, fails: the tokens are not 0, 1, 4, 6 -- neither for
    a GIF frame, nor in .Z mode with the same code size (where they
    are 0, 1, 5, 5). *)
Lemma scenario_010101_tokens_are_not_0_1_4_6 :
  let B := [0; 1; 0; 1; 0; 1] in
  let tokens isGif :=
    st ← blockRun (new B isGif) 0 0 (gifSettings 2);
    Ok (map fst (l_tokens st)) in
  tokens true = Ok [0; 1; 6; 6]
  /\ tokens false = Ok [0; 1; 5; 5]
  /\ tokens true <> Ok [0; 1; 4; 6]
  /\ tokens false <> Ok [0; 1; 4; 6].
Proof.
  intros B tokens.
  assert (Hgif : tokens true = Ok [0; 1; 6; 6]) by reflexivity.
  assert (Hz : tokens false = Ok [0; 1; 5; 5]) by reflexivity.
  repeat split; try assumption.
  - rewrite Hgif. discriminate.
  - rewrite Hz. discriminate.
Qed.

End BlockProps.

(** ** The bit reader *)

Module ReaderProps.

Import BinaryInputBuffer Statements.

(** Filling the bit buffer succeeds, keeps the reader consistent and
    the number of bits left, and ends with enough bits in the buffer. *)
Lemma fillBitBuffer_ok n fuel : forall b,
  wfBuffer b -> 0 <= n <= 16 -> n <= m_bitsLeft b ->
  n <= m_bitBufferSize b + 8 * Z.of_nat fuel ->
  exists b1,
    fillBitBuffer fuel n b = Ok b1
    /\ wfBuffer b1
    /\ m_bitsLeft b1 = m_bitsLeft b
    /\ n <= m_bitBufferSize b1.
Proof.
  induction fuel as [|fuel IH]; intros b (Hsz & Hleft & Hmax) Hn Hle Hfuel.
  - exists b. cbn [fillBitBuffer]. repeat split; try assumption; lia.
  - cbn [fillBitBuffer].
    destruct (Z.ltb_spec (m_bitBufferSize b) n) as [Hlt|Hge].
    + unfold getBufferedByte.
      destruct (m_stream b) as [|byte rest] eqn:Hs.
      { exfalso. unfold size_ in Hleft. simpl in Hleft. lia. }
      cbn [mbind outcome_bind rbind m_stream m_read m_bitsLeft m_bitBuffer
           m_bitBufferSize].
      unfold size_ in Hleft. cbn [length] in Hleft.
      set (b' := mkBuffer rest (u32 (m_read b + 1)) (m_bitsLeft b)
                   (u32 (Z.lor (m_bitBuffer b) (Z.shiftl byte (m_bitBufferSize b))))
                   (u8 (m_bitBufferSize b + 8))).
      assert (Hsz' : m_bitBufferSize b' = m_bitBufferSize b + 8).
      { unfold b'. cbn [m_bitBufferSize]. apply u8_small. lia. }
      assert (Hwf' : wfBuffer b').
      { unfold wfBuffer. rewrite Hsz'. unfold b', size_.
        cbn [m_stream m_bitsLeft]. repeat split; lia. }
      destruct (IH b' Hwf' Hn) as (b1 & Hfill & Hwf1 & Hbits & Hsize).
      * unfold b'. cbn [m_bitsLeft]. lia.
      * rewrite Hsz'. lia.
      * exists b1. split; [exact Hfill|]. split; [exact Hwf1|].
        split; [exact Hbits | exact Hsize].
    + exists b. repeat split; try assumption; lia.
Qed.

Lemma fillBitBuffer_enough n fuel b :
  n <= m_bitBufferSize b -> fillBitBuffer fuel n b = Ok b.
Proof.
  intros H. destruct fuel; cbn [fillBitBuffer]; [reflexivity|].
  destruct (Z.ltb_spec (m_bitBufferSize b) n); [lia | reflexivity].
Qed.

(** Every reader that [open] creates for a file below 512 MB is
    consistent, and [getBits] keeps it so. *)
Lemma wfBuffer_open file : 8 * size_ file < 4294967296 -> wfBuffer (open file).
Proof.
  intros H. unfold wfBuffer, open.
  cbn [m_bitBufferSize m_bitsLeft m_stream].
  assert (0 <= size_ file) by (unfold size_; lia).
  rewrite u32_small by lia. lia.
Qed.

Lemma wfBuffer_getBits n b v b2 :
  wfBuffer b -> 0 <= n -> getBits n b = Ok (v, b2) -> wfBuffer b2.
Proof.
  intros Hwf Hn H. unfold getBits, peekBits in H.
  destruct (Z.leb_spec n 16) as [H16|?]; [|discriminate H].
  destruct (Z.leb_spec n (m_bitsLeft b)) as [Hle|?]; [|discriminate H].
  cbn [negb] in H.
  destruct (fillBitBuffer_ok n 2 b Hwf ltac:(lia) Hle)
    as (b1 & Hfill & ((Hs0 & Hs1) & Hl & Hm) & Hbits & Hsize).
  { destruct Hwf as ((? & ?) & _). lia. }
  rewrite Hfill in H. cbn [mbind outcome_bind rbind] in H.
  unfold removeBits in H.
  destruct (Z.ltb_spec (m_bitBufferSize b1) n) as [?|_]; [lia|].
  cbn [mbind outcome_bind rbind] in H. apply Ok_inj in H.
  inversion H; subst. unfold wfBuffer.
  cbn [m_bitBufferSize m_bitsLeft m_stream].
  rewrite u8_small, u32_small by lia. lia.
Qed.

(** C9 -- On a consistent reader with at least [n <= 16] bits left,
    [peekBits(n)] succeeds and leaves the number of bits left
    unchanged; a second [peekBits(n)] returns the same value and
    changes nothing; and [getBits(n)] returns that same value and
    leaves [n] bits less. *)
Theorem peekBits_does_not_consume (b : Buffer) (n : Z) :
  wfBuffer b -> 0 <= n <= 16 -> n <= m_bitsLeft b ->
  exists v b1 b2,
    peekBits n b = Ok (v, b1)
    /\ m_bitsLeft b1 = m_bitsLeft b
    /\ peekBits n b1 = Ok (v, b1)
    /\ getBits n b = Ok (v, b2)
    /\ m_bitsLeft b2 = m_bitsLeft b - n.
Proof.
  intros Hwf Hn Hle.
  destruct (fillBitBuffer_ok n 2 b Hwf Hn Hle) as (b1 & Hfill & Hwf1 & Hbits & Hsize).
  { destruct Hwf as ((? & ?) & _). lia. }
  assert (Hpeek : peekBits n b
                  = Ok (Z.land (m_bitBuffer b1) (u32 (Z.shiftl 1 n - 1)), b1)).
  { unfold peekBits.
    destruct (Z.leb_spec n 16) as [_|?]; [|lia].
    destruct (Z.leb_spec n (m_bitsLeft b)) as [_|?]; [|lia].
    cbn [negb]. now rewrite Hfill. }
  assert (Hpeek1 : peekBits n b1
                   = Ok (Z.land (m_bitBuffer b1) (u32 (Z.shiftl 1 n - 1)), b1)).
  { unfold peekBits.
    destruct (Z.leb_spec n 16) as [_|?]; [|lia].
    destruct (Z.leb_spec n (m_bitsLeft b1)) as [_|?]; [|lia].
    cbn [negb]. now rewrite fillBitBuffer_enough. }
  eexists _, b1, _. split; [exact Hpeek|]. split; [exact Hbits|].
  split; [exact Hpeek1|].
  unfold getBits. rewrite Hpeek.
  cbn [mbind outcome_bind rbind]. unfold removeBits.
  destruct (Z.ltb_spec (m_bitBufferSize b1) n) as [?|_]; [lia|].
  cbn [mbind outcome_bind rbind]. split; [reflexivity|].
  cbn [m_bitsLeft]. destruct Hwf as (_ & _ & Hmax).
  rewrite Hbits. apply u32_small. lia.
Qed.

(** Twelve bits of the two bytes AB CD: the value is 0xDAB, and four
    bits are left after [getBits]. *)
Lemma peekBits_does_not_consume_witness :
  let b := open [171; 205] in
  exists b1 b2,
    peekBits 12 b = Ok (3499, b1)
    /\ m_bitsLeft b1 = 16
    /\ peekBits 12 b1 = Ok (3499, b1)
    /\ getBits 12 b = Ok (3499, b2)
    /\ m_bitsLeft b2 = 4.
Proof.
  intro b.
  destruct (peekBits_does_not_consume b 12) as (v & b1 & b2 & H1 & H2 & H3 & H4 & H5).
  - unfold wfBuffer. vm_compute. repeat split; discriminate.
  - lia.
  - vm_compute. discriminate.
  - exists b1, b2.
    assert (Hv : v = 3499).
    { vm_compute in H1. apply Ok_inj in H1. congruence. }
    subst v. repeat split; assumption.
Defined.

End ReaderProps.

(** ** The decoder's lookup table *)

Module DecoderProps.

Import BinaryInputBuffer LzwDecoder Statements.

(** Take successful steps of the [outcome] monad apart. *)
Ltac ok_step H :=
  match type of H with
  | mbind _ ?r = Ok _ =>
      let E := fresh "E" in
      destruct r as [?|?] eqn:E;
      [ repeat match goal with x : (_ * _)%type |- _ => destruct x end;
        cbn [mbind outcome_bind rbind] in H
      | discriminate H ]
  end.

Lemma isGif_inputBits n d v d' :
  inputBits n d = Ok (v, d') -> LzwDecoder.m_isGif d' = LzwDecoder.m_isGif d.
Proof.
  unfold inputBits. intros H. ok_step H.
  apply Ok_inj in H. inversion H; subst. reflexivity.
Qed.

Lemma isGif_inputByte d v d' :
  inputByte d = Ok (v, d') -> LzwDecoder.m_isGif d' = LzwDecoder.m_isGif d.
Proof.
  unfold inputByte. intros H. ok_step H.
  apply Ok_inj in H. inversion H; subst. reflexivity.
Qed.

Lemma isGif_getLzwBits n d v d' :
  getLzwBits n d = Ok (v, d') -> LzwDecoder.m_isGif d' = LzwDecoder.m_isGif d.
Proof.
  unfold getLzwBits. intros H.
  destruct (n =? 0).
  { apply Ok_inj in H. inversion H; subst. reflexivity. }
  cbv zeta in H.
  set (d0 := setNumBitsOriginalLZW d (u32 (m_numBitsOriginalLZW d + n))) in H.
  change (LzwDecoder.m_isGif d) with (LzwDecoder.m_isGif d0).
  clearbody d0.
  destruct (negb (LzwDecoder.m_isGif d0)).
  { apply isGif_inputBits in H. exact H. }
  destruct (n <=? m_bitsLeftInCurrentBlock d0).
  { apply isGif_inputBits in H. exact H. }
  destruct (0 <? m_bitsLeftInCurrentBlock d0).
  - ok_step H. ok_step E. apply isGif_inputBits in E0.
    apply Ok_inj in E. inversion E; subst. clear E.
    ok_step H. apply isGif_inputByte in E.
    destruct (_ <? _); [discriminate H|].
    ok_step H. apply isGif_inputBits in E1.
    apply Ok_inj in H. inversion H; subst.
    cbn in *. congruence.
  - cbn [mbind outcome_bind rbind] in H.
    ok_step H. apply isGif_inputByte in E.
    destruct (_ <? _); [discriminate H|].
    ok_step H. apply isGif_inputBits in E0.
    apply Ok_inj in H. inversion H; subst.
    cbn in *. congruence.
Qed.

Lemma isGif_skipGap codeSize gap : forall d d',
  skipGap gap codeSize d = Ok d' -> LzwDecoder.m_isGif d' = LzwDecoder.m_isGif d.
Proof.
  induction gap as [|gap IH]; intros d d' H; cbn [skipGap] in H.
  - apply Ok_inj in H. now subst.
  - ok_step H. apply isGif_inputBits in E. apply IH in H. congruence.
Qed.


(** A value read with [n] bits is below [2^n]. *)
Lemma land_mask_lt x n : 0 <= n <= 16 -> 0 <= Z.land x (u32 (Z.shiftl 1 n - 1)) < 2 ^ n.
Proof.
  intros Hn. rewrite Z.shiftl_1_l.
  assert (Hp : 0 < 2 ^ n <= 2 ^ 16).
  { split; [apply Z.pow_pos_nonneg; lia | apply Z.pow_le_mono_r; lia]. }
  change (2 ^ 16) with 65536 in Hp.
  rewrite u32_small by lia.
  replace (2 ^ n - 1) with (Z.ones n) by (rewrite Z.ones_equiv; lia).
  rewrite Z.land_ones by lia. apply Z.mod_pos_bound. lia.
Qed.

Lemma getBits_lt n b v b' :
  0 <= n -> getBits n b = Ok (v, b') -> 0 <= v < 2 ^ n.
Proof.
  intros Hn H. unfold getBits, peekBits in H.
  destruct (Z.leb_spec n 16) as [H16|?]; [|discriminate H].
  cbn [negb] in H.
  destruct (negb (n <=? m_bitsLeft b)); [discriminate H|].
  ok_step H. ok_step E. ok_step H.
  apply Ok_inj in E. inversion E; subst.
  apply Ok_inj in H. inversion H; subst.
  apply land_mask_lt. lia.
Qed.

Lemma inputBits_lt n d v d' :
  0 <= n -> inputBits n d = Ok (v, d') -> 0 <= v < 2 ^ n.
Proof.
  intros Hn H. unfold inputBits in H. ok_step H.
  apply Ok_inj in H. inversion H; subst. eapply getBits_lt; eassumption.
Qed.

Lemma lor_lt_pow2 a b n :
  0 <= n -> 0 <= a < 2 ^ n -> 0 <= b < 2 ^ n -> 0 <= Z.lor a b < 2 ^ n.
Proof.
  intros Hn Ha Hb.
  assert (Hnn : 0 <= Z.lor a b) by (apply Z.lor_nonneg; lia).
  split; [exact Hnn|].
  destruct (Z.eq_dec (Z.lor a b) 0) as [->|Hnz]; [apply Z.pow_pos_nonneg; lia|].
  assert (Hn0 : 0 < n).
  { destruct (Z.eq_dec n 0) as [->|?]; [|lia].
    change (2 ^ 0) with 1 in *.
    assert (a = 0) by lia. assert (b = 0) by lia. subst.
    now contradiction Hnz. }
  apply Z.log2_lt_pow2; [lia|].
  rewrite Z.log2_lor by lia.
  apply Z.max_lub_lt.
  - destruct (Z.eq_dec a 0) as [->|?]; [cbn; lia|]. apply Z.log2_lt_pow2; lia.
  - destruct (Z.eq_dec b 0) as [->|?]; [cbn; lia|]. apply Z.log2_lt_pow2; lia.
Qed.

Lemma getLzwBits_lt n d v d' :
  0 <= n <= 16 -> getLzwBits n d = Ok (v, d') -> 0 <= v < 2 ^ n.
Proof.
  intros Hn H. unfold getLzwBits in H.
  destruct (Z.eqb_spec n 0) as [->|Hn0].
  { apply Ok_inj in H. inversion H; subst. cbn. lia. }
  cbv zeta in H.
  set (d0 := setNumBitsOriginalLZW d (u32 (m_numBitsOriginalLZW d + n))) in H.
  clearbody d0.
  assert (Hp : 2 ^ n <= 2 ^ 16) by (apply Z.pow_le_mono_r; lia).
  change (2 ^ 16) with 65536 in Hp.
  destruct (negb (LzwDecoder.m_isGif d0)).
  { eapply inputBits_lt; [|eassumption]; lia. }
  destruct (Z.leb_spec n (m_bitsLeftInCurrentBlock d0)) as [?|Hshort].
  { eapply inputBits_lt; [|eassumption]; lia. }
  destruct (Z.ltb_spec 0 (m_bitsLeftInCurrentBlock d0)) as [Hpos|Hnone].
  - ok_step H. ok_step E.
    apply Ok_inj in E. inversion E; subst. clear E.
    ok_step H.
    destruct (_ <? _); [discriminate H|].
    ok_step H. apply Ok_inj in H. inversion H; subst. clear H.
    set (k := m_bitsLeftInCurrentBlock d0) in *.
    clearbody k. assert (Hk8 : u8 k = k) by (apply u8_small; lia).
    assert (Hnk8 : u8 (n - k) = n - k) by (apply u8_small; lia).
    rewrite ?Hk8, ?Hnk8 in *.
    assert (Hlow : 0 <= z0 < 2 ^ k)
      by (eapply inputBits_lt; [|exact E0]; lia).
    assert (Hhigh : 0 <= z1 < 2 ^ (n - k))
      by (eapply inputBits_lt; [|exact E1]; lia).
    assert (Hpow : 2 ^ n = 2 ^ (n - k) * 2 ^ k).
    { rewrite <- Z.pow_add_r by lia. f_equal. lia. }
    assert (Hk : 0 < 2 ^ k) by (apply Z.pow_pos_nonneg; lia).
    assert (Hsh : 0 <= Z.shiftl z1 k < 2 ^ n).
    { rewrite Z.shiftl_mul_pow2 by lia. nia. }
    rewrite (u32_small (Z.shiftl z1 k)) by lia.
    apply lor_lt_pow2; [lia | | exact Hsh].
    split; [lia|]. apply Z.lt_le_trans with (2 ^ k); [lia|].
    apply Z.pow_le_mono_r; lia.
  - cbn [mbind outcome_bind rbind] in H.
    ok_step H. destruct (_ <? _); [discriminate H|].
    ok_step H. apply Ok_inj in H. inversion H; subst. clear H.
    assert (Hv : 0 <= z0 < 2 ^ n)
      by (eapply inputBits_lt; [|exact E0]; lia).
    cbn [Z.lor]. rewrite Z.shiftl_0_r.
    rewrite u32_small by lia. exact Hv.
Qed.

(** The errors of the reader and of a reset are not the table's
    "dictionary too large". *)
Ltac err_bind H lem :=
  match type of H with
  | mbind _ ?r = Err _ =>
      let E := fresh "E" in
      destruct r as [?|?] eqn:E;
      [ repeat match goal with x : (_ * _)%type |- _ => destruct x end;
        cbn [mbind outcome_bind rbind] in H
      | cbn [mbind outcome_bind rbind] in H;
        injection H as <-; eapply lem; exact E ]
  end.

Ltac err_here H := injection H as <-; discriminate.

Lemma fillBitBuffer_err fuel n : forall b m,
  fillBitBuffer fuel n b = Err m -> m <> "dictionary too large"%string.
Proof.
  induction fuel as [|fuel IH]; intros b m H; cbn [fillBitBuffer] in H.
  - discriminate H.
  - destruct (_ <? _); [|discriminate H].
    unfold getBufferedByte in H. destruct (m_stream b).
    + cbn in H. err_here H.
    + cbn [mbind outcome_bind rbind] in H. eapply IH. exact H.
Qed.

Lemma peekBits_err n b m : peekBits n b = Err m -> m <> "dictionary too large"%string.
Proof.
  unfold peekBits. intros H.
  destruct (negb (n <=? 16)); [err_here H|].
  destruct (negb (n <=? m_bitsLeft b)); [err_here H|].
  err_bind H fillBitBuffer_err. discriminate H.
Qed.

Lemma removeBits_err n b m : removeBits n b = Err m -> m <> "dictionary too large"%string.
Proof.
  unfold removeBits. intros H.
  destruct (_ <? _) in H; cbn [mbind outcome_bind rbind] in H;
    [|discriminate H].
  destruct (peekBits n b) as [[v b']|m1] eqn:E; cbn in H; [discriminate H|].
  injection H as <-. eapply peekBits_err. exact E.
Qed.

Lemma getBits_err n b m : getBits n b = Err m -> m <> "dictionary too large"%string.
Proof.
  unfold getBits. intros H.
  err_bind H peekBits_err. err_bind H removeBits_err. discriminate H.
Qed.

Lemma inputBits_err n d m : inputBits n d = Err m -> m <> "dictionary too large"%string.
Proof.
  unfold inputBits. intros H. err_bind H getBits_err. discriminate H.
Qed.

Lemma inputByte_err d m : inputByte d = Err m -> m <> "dictionary too large"%string.
Proof.
  unfold inputByte, getByte. intros H.
  destruct (getBits 8 (m_input d)) as [[v b1]|m1] eqn:E; [discriminate H|].
  cbn in H. injection H as <-. eapply getBits_err. exact E.
Qed.

Lemma getLzwBits_err n d m : getLzwBits n d = Err m -> m <> "dictionary too large"%string.
Proof.
  unfold getLzwBits. intros H.
  destruct (n =? 0); [discriminate H|]. cbv zeta in H.
  set (d0 := setNumBitsOriginalLZW d (u32 (m_numBitsOriginalLZW d + n))) in H.
  clearbody d0.
  destruct (negb (LzwDecoder.m_isGif d0)); [eapply inputBits_err; exact H|].
  destruct (_ <=? _); [eapply inputBits_err; exact H|].
  destruct (0 <? _).
  - destruct (inputBits (u8 (m_bitsLeftInCurrentBlock d0)) d0)
      as [[low d']|m1] eqn:E0.
    2:{ cbn in H. injection H as <-. eapply inputBits_err. exact E0. }
    cbn [mbind outcome_bind rbind] in H.
    err_bind H inputByte_err.
    destruct (_ <? _) in H; [err_here H|].
    err_bind H inputBits_err. discriminate H.
  - cbn [mbind outcome_bind rbind] in H.
    err_bind H inputByte_err.
    destruct (_ <? _) in H; [err_here H|].
    err_bind H inputBits_err. discriminate H.
Qed.

Lemma skipGap_err gap cs : forall d m,
  skipGap gap cs d = Err m -> m <> "dictionary too large"%string.
Proof.
  induction gap as [|gap IH]; intros d m H; cbn [skipGap] in H.
  - discriminate H.
  - err_bind H inputBits_err. eapply IH. exact H.
Qed.

Lemma restart_err p st m : restart p st = Err m -> m <> "dictionary too large"%string.
Proof.
  unfold restart. cbv zeta. intros H.
  assert (Hend : forall lut d1,
            ('(token, d2) ← getLzwBits (u8 (p_minCodeSize p + 1)) d1;
             if maxColor p <? token
             then Err "block starts with an undefined value/color"
             else Ok (mkLoop (setBytes d2 (m_bytes d2 ++ [u8 token]))
                             lut (u8 (p_minCodeSize p + 1)) NoPrevious token 1))
            = Err m -> m <> "dictionary too large"%string).
  { intros lut d1 H1. err_bind H1 getLzwBits_err.
    destruct (maxColor p <? z); [err_here H1 | discriminate H1]. }
  destruct (LzwDecoder.m_isGif (l_dec st)).
  - cbn [mbind outcome_bind rbind] in H. eapply Hend. exact H.
  - destruct (negb (_ =? 0)) in H.
    + destruct (getLzwBits _ (l_dec st)) as [[x d']|m1] eqn:E.
      2:{ cbn in H. injection H as <-. eapply getLzwBits_err. exact E. }
      cbn [mbind outcome_bind rbind] in H.
      destruct (skipGap _ _ d') as [d''|m1] eqn:E1.
      2:{ cbn in H. injection H as <-. eapply skipGap_err. exact E1. }
      cbn [mbind outcome_bind rbind] in H. eapply Hend. exact H.
    + cbn [mbind outcome_bind rbind] in H.
      destruct (skipGap _ _ (l_dec st)) as [d''|m1] eqn:E1.
      2:{ cbn in H. injection H as <-. eapply skipGap_err. exact E1. }
      cbn [mbind outcome_bind rbind] in H. eapply Hend. exact H.
Qed.


Section Bounds.

Variable p : Params.
Variable isGif : bool.
Hypothesis Hmin : 1 <= p_minCodeSize p < p_maxCodeSize p.
Hypothesis Hmax : p_maxCodeSize p <= 16.

Lemma clearCode_pow : clearCode p = 2 ^ p_minCodeSize p.
Proof.
  unfold clearCode. rewrite Z.shiftl_1_l. apply u32_small.
  split; [apply Z.pow_nonneg; lia|].
  apply Z.lt_le_trans with (2 ^ 16); [|change (2 ^ 16) with 65536; lia].
  apply Z.pow_lt_mono_r; lia.
Qed.

Lemma MaxToken_pow : MaxToken p = 2 ^ p_maxCodeSize p.
Proof.
  unfold MaxToken. rewrite Z.shiftl_1_l. apply u32_small.
  split; [apply Z.pow_nonneg; lia|].
  apply Z.le_lt_trans with (2 ^ 16); [|reflexivity].
  apply Z.pow_le_mono_r; lia.
Qed.

Lemma clear_and_MaxToken :
  2 <= clearCode p /\ clearCode p + 2 <= MaxToken p /\ MaxToken p <= 65536.
Proof.
  rewrite clearCode_pow, MaxToken_pow.
  assert (H1 : 2 ^ 1 <= 2 ^ p_minCodeSize p) by (apply Z.pow_le_mono_r; lia).
  assert (H2 : 2 ^ (p_minCodeSize p + 1) <= 2 ^ p_maxCodeSize p)
    by (apply Z.pow_le_mono_r; lia).
  assert (H3 : 2 ^ p_maxCodeSize p <= 2 ^ 16) by (apply Z.pow_le_mono_r; lia).
  rewrite Z.pow_add_r in H2 by lia.
  change (2 ^ 1) with 2 in *. change (2 ^ 16) with 65536 in H3. lia.
Qed.

Lemma baseSize_bounds : 3 <= baseSize p isGif <= MaxToken p.
Proof.
  pose proof clear_and_MaxToken. unfold baseSize. destruct isGif; lia.
Qed.

Lemma length_resize n lut : length (resize n lut) = Z.to_nat n.
Proof.
  unfold resize. rewrite length_app, length_take, repeat_length. lia.
Qed.

Lemma length_initialLut :
  Z.of_nat (length (initialLut p isGif)) = baseSize p isGif.
Proof.
  pose proof clear_and_MaxToken as (Hc & Hm & Hm').
  unfold initialLut, baseSize, maxColor.
  rewrite length_app, length_map, length_seq, repeat_length.
  rewrite u32_small by lia. destruct isGif; lia.
Qed.

(** A reset leaves a table of the base size. *)
Lemma restart_bounded st st' :
  LzwDecoder.m_isGif (l_dec st) = isGif ->
  restart p st = Ok st' -> lutBounded p isGif st'
  /\ Z.of_nat (length (l_lut st')) = baseSize p isGif.
Proof.
  intros Hgif H. unfold restart in H. cbv zeta in H.
  pose proof clear_and_MaxToken as (Hc & Hm & Hm').
  pose proof baseSize_bounds as Hb.
  ok_step H.
  assert (Hl : Z.of_nat (length l) = baseSize p isGif
               /\ LzwDecoder.m_isGif d = isGif).
  { rewrite Hgif in E. unfold baseSize. destruct isGif.
    - apply Ok_inj in E. inversion E; subst.
      rewrite length_resize, u32_small by lia. split; [lia | assumption].
    - cbv zeta in E. ok_step E. ok_step E.
      apply Ok_inj in E. inversion E; subst.
      rewrite length_resize, u32_small by lia. split; [lia|].
      apply isGif_skipGap in E1. rewrite E1.
      destruct (negb (m_numBitsOriginalLZW (l_dec st) mod 8 =? 0)).
      + ok_step E0. apply isGif_getLzwBits in E2.
        apply Ok_inj in E0. subst. congruence.
      + apply Ok_inj in E0. now subst. }
  destruct Hl as [Hl Hd].
  ok_step H. apply isGif_getLzwBits in E0.
  destruct (maxColor p <? z); [discriminate H|].
  apply Ok_inj in H. subst st'. unfold lutBounded.
  cbn [l_dec l_lut setBytes LzwDecoder.m_isGif].
  split; [split; [congruence | lia] | exact Hl].
Qed.

(** One iteration keeps the table within its bounds, and the table
    grows only from a size below [MaxToken]. *)
Lemma iteration_bounded st r :
  lutBounded p isGif st ->
  iteration p st = Ok r ->
  let st' := match r with inl x => x | inr x => x end in
  lutBounded p isGif st'
  /\ ((length (l_lut st) < length (l_lut st'))%nat ->
      Z.of_nat (length (l_lut st)) < MaxToken p).
Proof.
  intros (Hgif & Hlo & Hhi) H.
  pose proof baseSize_bounds as Hb.
  unfold iteration in H. cbv zeta in H.
  fold (readCodeSize p st) in H.
  destruct (negb (LzwDecoder.m_isGif (l_dec st))
            && (getNumBitsLeft (m_input (l_dec st)) <? readCodeSize p st)).
  { apply Ok_inj in H. subst r. cbn. unfold lutBounded. cbn.
    split; [split; [assumption | lia] | lia]. }
  ok_step H. apply isGif_getLzwBits in E.
  destruct (Z.of_nat (length (l_lut st)) <? z); [discriminate H|].
  destruct (z =? clearCode p).
  { ok_step H. apply Ok_inj in H. subst r. cbn [l_lut].
    apply restart_bounded in E0 as [Hbd Hsz]; [|cbn; congruence].
    split; [exact Hbd|]. intros Hgrow. lia. }
  destruct (z =? endOfStreamCode p (LzwDecoder.m_isGif (l_dec st))).
  { apply Ok_inj in H. subst r. cbn. unfold lutBounded. cbn.
    split; [split; [congruence | lia] | lia]. }
  ok_step H. apply Ok_inj in H. subst r. cbn [l_lut l_dec].
  unfold lutBounded. cbn [l_lut l_dec setBytes LzwDecoder.m_isGif].
  destruct (Z.ltb_spec (Z.of_nat (length (l_lut st))) (MaxToken p)) as [Hlt|Hge].
  - rewrite length_app. cbn [length].
    split; [split; [congruence | lia] | intros _; exact Hlt].
  - split; [split; [congruence | lia] | lia].
Qed.

(** The width of the next read is between 0 and [maxCodeSize]. *)
Lemma readCodeSize_bounded st :
  0 <= l_codeSize st <= p_maxCodeSize p -> 0 <= readCodeSize p st <= p_maxCodeSize p.
Proof.
  intros Hw. unfold readCodeSize.
  destruct (_ =? _); cbn [andb]; [|lia].
  destruct (Z.ltb_spec (l_codeSize st) (p_maxCodeSize p)); [|lia].
  rewrite u8_small by lia. lia.
Qed.

Lemma restart_width st st' : restart p st = Ok st' -> 0 <= l_codeSize st' <= p_maxCodeSize p.
Proof.
  intros H. unfold restart in H. cbv zeta in H.
  ok_step H. ok_step H.
  destruct (_ <? _); [discriminate H|].
  apply Ok_inj in H. subst st'. cbn [l_codeSize].
  rewrite u8_small by lia. lia.
Qed.

Lemma iteration_width st r :
  0 <= l_codeSize st <= p_maxCodeSize p -> iteration p st = Ok r ->
  let st' := match r with inl x => x | inr x => x end in
  0 <= l_codeSize st' <= p_maxCodeSize p.
Proof.
  intros Hw H. pose proof (readCodeSize_bounded st Hw) as Hr.
  unfold iteration in H. cbv zeta in H. fold (readCodeSize p st) in H.
  destruct (negb _ && _).
  { apply Ok_inj in H. subst r. exact Hr. }
  ok_step H.
  destruct (_ <? z); [discriminate H|].
  destruct (z =? clearCode p).
  { ok_step H. apply Ok_inj in H. subst r. eapply restart_width. exact E0. }
  destruct (z =? endOfStreamCode p _).
  { apply Ok_inj in H. subst r. exact Hr. }
  ok_step H. apply Ok_inj in H. subst r. exact Hr.
Qed.

(** A token read by the main loop is below [MaxToken], so that the
    look-up with the table at [MaxToken] never sees the token that
    equals the table size. *)
Lemma iteration_never_too_large st :
  lutBounded p isGif st -> 0 <= l_codeSize st <= p_maxCodeSize p ->
  iteration p st <> Err "dictionary too large".
Proof.
  intros (Hgif & Hlo & Hhi) Hw H.
  pose proof (readCodeSize_bounded st Hw) as Hr.
  unfold iteration in H. cbv zeta in H. fold (readCodeSize p st) in H.
  destruct (negb _ && _); [discriminate H|].
  destruct (getLzwBits (readCodeSize p st) (l_dec st)) as [[token d1]|m] eqn:E.
  2:{ cbn in H. injection H as H. now apply getLzwBits_err in E. }
  cbn [mbind outcome_bind rbind] in H.
  apply getLzwBits_lt in E; [|lia].
  assert (Htok : token < MaxToken p).
  { rewrite MaxToken_pow.
    apply Z.lt_le_trans with (2 ^ readCodeSize p st); [lia|].
    apply Z.pow_le_mono_r; lia. }
  destruct (_ <? token); [discriminate H|].
  destruct (token =? clearCode p).
  { destruct (restart p _) as [st2|m] eqn:E0; [discriminate H|].
    cbn in H. injection H as H. now apply restart_err in E0. }
  destruct (token =? endOfStreamCode p _); [discriminate H|].
  unfold lookUpToken in H. cbv zeta in H.
  destruct (Z.leb_spec (Z.of_nat (length (l_lut st))) token) as [Hle|Hgt].
  - destruct (Z.eqb_spec token (Z.of_nat (length (l_lut st)))) as [Heq|Hne];
      cbn [negb] in H.
    + destruct (Z.leb_spec (MaxToken p) (Z.of_nat (length (l_lut st))));
        [lia | discriminate H].
    + discriminate H.
  - discriminate H.
Qed.

End Bounds.


Lemma firstToken_start input isGif minCodeSize maxCodeSize st0 :
  firstToken input isGif minCodeSize maxCodeSize = Ok st0 ->
  l_lut st0 = initialLut (mkParams minCodeSize maxCodeSize) isGif
  /\ LzwDecoder.m_isGif (l_dec st0) = isGif.
Proof.
  unfold firstToken. cbv zeta. intros H.
  ok_step H. apply isGif_getLzwBits in E. cbn in E.
  ok_step H.
  assert (Hd : LzwDecoder.m_isGif d0 = isGif).
  { clear H. revert E0 E. generalize (u8 (minCodeSize + 1)).
    generalize (S (Z.to_nat (getNumBitsLeft input))) as fuel.
    intros fuel. revert z d.
    induction fuel as [|fuel IH]; intros tok d cs H Hd; cbn [skipClear] in H.
    - destruct (tok =? _); [discriminate H|].
      apply Ok_inj in H. congruence.
    - destruct (tok =? _).
      + ok_step H. apply isGif_getLzwBits in E.
        eapply IH; [exact H | congruence].
      + apply Ok_inj in H. congruence. }
  destruct (_ <=? z0); [discriminate H|].
  apply Ok_inj in H. subst st0. cbn [l_lut l_dec]. split; [reflexivity|].
  destruct (negb _); cbn; exact Hd.
Qed.

(** The main loop starts with the width [minCodeSize + 1]. *)
Lemma firstToken_width input isGif minCodeSize maxCodeSize st0 :
  0 <= minCodeSize < 255 ->
  firstToken input isGif minCodeSize maxCodeSize = Ok st0 ->
  l_codeSize st0 = minCodeSize + 1.
Proof.
  unfold firstToken. cbv zeta. intros Hmin H.
  ok_step H. ok_step H.
  destruct (_ <=? z0); [discriminate H|].
  apply Ok_inj in H. subst st0. cbn [l_codeSize]. apply u8_small. lia.
Qed.

(** C10 (amended) -- For code sizes with
    [1 <= minCodeSize < maxCodeSize <= 16], throughout the decoder's
    main loop the lookup table holds at most [MaxToken = 2^maxCodeSize]
    entries: this holds in every state the loop passes through; an
    iteration makes the table longer only when it held fewer than
    [MaxToken] entries; every token that an iteration reads is below
    [MaxToken], so that the token equal to the size of a full table
    cannot occur and no iteration throws "dictionary too large".  For
    GIF ([maxCodeSize = 12]) [MaxToken] is 4096, one more than the
    encoder's cap. *)
Theorem lut_never_exceeds_MaxToken
        (input : Buffer) (isGif : bool) (minCodeSize maxCodeSize : Z)
        (st0 st : Loop) :
  let p := mkParams minCodeSize maxCodeSize in
  1 <= minCodeSize < maxCodeSize -> maxCodeSize <= 16 ->
  firstToken input isGif minCodeSize maxCodeSize = Ok st0 ->
  reaches p st0 st ->
  Z.of_nat (length (l_lut st)) <= MaxToken p
  /\ (forall r, iteration p st = Ok r ->
        let st' := match r with inl x => x | inr x => x end in
        (length (l_lut st) < length (l_lut st'))%nat ->
        Z.of_nat (length (l_lut st)) < MaxToken p)
  /\ (forall token d1,
        getLzwBits (readCodeSize p st) (l_dec st) = Ok (token, d1) ->
        0 <= token < MaxToken p)
  /\ iteration p st <> Err "dictionary too large"
  /\ (maxCodeSize = 12 ->
      MaxToken p = 4096
      /\ MaxToken p = LzwEncoder.m_maxDictionary (LzwEncoder.new [] true) + 1).
Proof.
  intros p Hmin Hmax Hfirst Hreach.
  assert (Hpmin : 1 <= p_minCodeSize p < p_maxCodeSize p) by (cbn; lia).
  assert (Hpmax : p_maxCodeSize p <= 16) by (cbn; lia).
  assert (Hinv : lutBounded p isGif st
                 /\ 0 <= l_codeSize st <= p_maxCodeSize p).
  { assert (Hw0 : l_codeSize st0 = minCodeSize + 1)
      by (apply (firstToken_width input isGif minCodeSize maxCodeSize);
          [lia | exact Hfirst]).
    apply firstToken_start in Hfirst as [Hlut Hgif]. fold p in Hlut.
    assert (H0 : lutBounded p isGif st0
                 /\ 0 <= l_codeSize st0 <= p_maxCodeSize p).
    { split; [|cbn; lia]. split; [exact Hgif|]. rewrite Hlut.
      rewrite (length_initialLut p isGif) by (cbn; lia).
      pose proof (baseSize_bounds p isGif Hpmin Hpmax).
      lia. }
    clear Hlut Hgif Hw0.
    induction Hreach as [st|st st1 st2 Hit _ IH|st st1 Hit].
    - exact H0.
    - apply IH. destruct H0 as [Hb Hw]. split.
      + apply (iteration_bounded p isGif Hpmin Hpmax st (inl st1) Hb Hit).
      + eapply (iteration_width p) with (r := inl st1); eassumption.
    - destruct H0 as [Hb Hw]. split.
      + apply (iteration_bounded p isGif Hpmin Hpmax st (inr st1) Hb Hit).
      + eapply (iteration_width p) with (r := inr st1); eassumption. }
  destruct Hinv as [Hinv Hw].
  split; [apply Hinv|]. split; [|split; [|split]].
  - intros r Hit.
    apply (iteration_bounded p isGif Hpmin Hpmax st r Hinv Hit).
  - intros token d1 Hread.
    assert (Hr : 0 <= readCodeSize p st <= p_maxCodeSize p)
      by (eapply readCodeSize_bounded; eassumption).
    apply getLzwBits_lt in Hread; [|lia].
    split; [lia|]. rewrite (MaxToken_pow p Hpmax).
    apply Z.lt_le_trans with (2 ^ readCodeSize p st); [lia|].
    apply Z.pow_le_mono_r; lia.
  - eapply iteration_never_too_large; eassumption.
  - intros ->. split; reflexivity.
Qed.

(** C10, as stated, fails: neither the GIF reader nor the .Z reader
    checks the code sizes it finds in the file, and with
    [minCodeSize = maxCodeSize] the table is larger than
    [2^maxCodeSize] from the start: 4098 entries against 4096 for a
    GIF frame with the code size byte 12, and 257 entries against 256
    for a .Z file whose header asks for 8 bits. *)
Lemma lut_exceeds_MaxToken_when_code_sizes_meet :
  (exists st0,
      firstToken (open [2; 0; 0; 0]) true 12 12 = Ok st0
      /\ Z.of_nat (length (l_lut st0)) = 4098
      /\ MaxToken (mkParams 12 12) = 4096)
  /\ (exists st0,
        firstToken (open [0; 0]) false 8 8 = Ok st0
        /\ Z.of_nat (length (l_lut st0)) = 257
        /\ MaxToken (mkParams 8 8) = 256).
Proof.
  split.
  - assert (H : (st0 ← firstToken (open [2; 0; 0; 0]) true 12 12;
                 Ok (Z.of_nat (length (l_lut st0)))) = Ok 4098)
      by (vm_compute; reflexivity).
    destruct (firstToken (open [2; 0; 0; 0]) true 12 12) as [st0|m];
      [|discriminate H].
    exists st0. split; [reflexivity|].
    split; [now apply Ok_inj in H | reflexivity].
  - assert (H : (st0 ← firstToken (open [0; 0]) false 8 8;
                 Ok (Z.of_nat (length (l_lut st0)))) = Ok 257)
      by (vm_compute; reflexivity).
    destruct (firstToken (open [0; 0]) false 8 8) as [st0|m];
      [|discriminate H].
    exists st0. split; [reflexivity|].
    split; [now apply Ok_inj in H | reflexivity].
Qed.

(** The frame 03 44 6C 05 00 (the pixels 0,1,0,1,0,1 with code size 2):
    the first iteration of the main loop adds the seventh table
    entry. *)
Lemma lut_never_exceeds_MaxToken_witness :
  let input := open [3; 68; 108; 5; 0; 59] in
  exists st0 st1,
    firstToken input true 2 12 = Ok st0
    /\ iteration (mkParams 2 12) st0 = Ok (inl st1)
    /\ length (l_lut st0) = 6%nat
    /\ length (l_lut st1) = 7%nat
    /\ Z.of_nat (length (l_lut st1)) <= 4096.
Proof.
  intro input.
  destruct (firstToken input true 2 12) as [st0|] eqn:H0;
    [|vm_compute in H0; discriminate H0].
  destruct (iteration (mkParams 2 12) st0) as [[st1|st1]|] eqn:H1.
  - exists st0, st1.
    split; [first [exact H0 | reflexivity]|].
    split; [first [exact H1 | reflexivity]|].
    destruct (lut_never_exceeds_MaxToken input true 2 12 st0 st1
                ltac:(lia) ltac:(lia) H0
                (reaches_next _ _ _ _ H1 (reaches_here _ _)))
      as (Hle & _).
    vm_compute in H0. apply Ok_inj in H0. subst st0.
    vm_compute in H1. apply Ok_inj in H1.
    injection H1 as H1. subst st1.
    split; [reflexivity|]. split; [reflexivity|]. exact Hle.
  - exfalso. vm_compute in H0. apply Ok_inj in H0. subst st0.
    vm_compute in H1. discriminate H1.
  - exfalso. vm_compute in H0. apply Ok_inj in H0. subst st0.
    vm_compute in H1. discriminate H1.
Defined.

End DecoderProps.

(** ** Round trip *)

Module RoundTrip.

Import LzwEncoder Statements.

(** C1 -- The round trip fails for the eleven pixels
    0,0,1,1,2,2,3,3,0,2,0 with code size 2 and the default settings.
    The encoder emits eleven literal tokens; [addCode] does not count
    the entry of the last token, so [m_dictSize - 1] is 15 and the
    end-of-stream code goes out in 4 bits, which completes the sixth
    byte of the stream.  The decoder has appended its sixteenth table
    entry after the last token, reads the next code with 5 bits, finds
    the block used up and throws.  With one more zero bit after the
    stream the same decoder returns the pixels. *)
Theorem roundtrip_fails_when_table_reaches_16 :
  let B := [0; 0; 1; 1; 2; 2; 3; 3; 0; 2; 0] in
  exists bits st,
    Driver.recompressFrame B 2 Driver.defaultSettings false = Ok bits
    /\ bitsOf (merge (new B true) [11] (gifSettings 2)) = Ok bits
    /\ blockRun (new B true) 0 0 (gifSettings 2) = Ok st
    /\ map fst (l_tokens st) = B
    /\ m_dictSize (l_enc st) = 16
    /\ bits = addBits 3 4 ++ l_result st ++ addBits 4 5
    /\ Container.gifFrameData bits = [6; 4; 18; 34; 51; 32; 80; 0]
    /\ Driver.readBackFrame bits 2 = Err "too few bits available in unlzw"
    /\ Driver.readBackFrame (bits ++ [false]) 2 = Ok B.
Proof.
  intro B. eexists. eexists.
  split; [vm_compute; reflexivity|].
  split; [vm_compute; reflexivity|].
  split; [vm_compute; reflexivity|].
  vm_compute. repeat split.
Qed.

End RoundTrip.

(** ** Bit output: getMinBits and add *)

Module BitOutputProps.

Import LzwEncoder Statements Values.

Lemma shiftr1_div2 x : Z.shiftr x 1 = x / 2.
Proof. rewrite Z.shiftr_div_pow2 by lia. reflexivity. Qed.

Lemma land1_mod2 x : Z.land x 1 = x mod 2.
Proof. change 1 with (Z.ones 1). rewrite Z.land_ones by lia. reflexivity. Qed.

(** The loop of [getMinBits], entered with a token below [2^(S fuel)]. *)
Lemma getMinBitsLoop_spec fuel : forall token result,
  0 <= token < 2 ^ Z.of_nat (S fuel) -> 0 <= result ->
  result + Z.of_nat (S fuel) < 256 ->
  let w := getMinBitsLoop (S fuel) token result - result in
  1 <= w <= Z.of_nat (S fuel)
  /\ token < 2 ^ w
  /\ (1 <= token -> 2 ^ (w - 1) <= token).
Proof.
  induction fuel as [|fuel IH]; intros token result Htok Hres Hfit.
  - cbn [getMinBitsLoop]. rewrite shiftr1_div2, u8_small by lia.
    change (2 ^ Z.of_nat 1) with 2 in Htok.
    assert (Hdiv : token / 2 = 0) by (apply Z.div_small; lia).
    rewrite Hdiv. cbn [Z.eqb]. cbv zeta.
    replace (result + 1 - result) with 1 by lia.
    change (2 ^ 1) with 2. change (2 ^ (1 - 1)) with 1. lia.
  - remember (S fuel) as k eqn:Hk.
    cbn [getMinBitsLoop]. rewrite shiftr1_div2, u8_small by lia.
    assert (Hpow : 2 ^ Z.of_nat (S k) = 2 * 2 ^ Z.of_nat k).
    { rewrite Nat2Z.inj_succ, Z.pow_succ_r by lia. reflexivity. }
    rewrite Hpow in Htok.
    assert (Hq : 0 <= token / 2 < 2 ^ Z.of_nat k).
    { split; [apply Z.div_pos; lia|].
      apply Z.div_lt_upper_bound; lia. }
    pose proof (Z.div_mod token 2 ltac:(lia)) as Hdm.
    pose proof (Z.mod_pos_bound token 2 ltac:(lia)) as Hm.
    destruct (Z.eqb_spec (token / 2) 0) as [H0|Hne]; cbv zeta.
    + replace (result + 1 - result) with 1 by lia.
      change (2 ^ 1) with 2. change (2 ^ (1 - 1)) with 1. lia.
    + subst k.
      specialize (IH (token / 2) (result + 1) Hq ltac:(lia) ltac:(lia)).
      cbv zeta in IH.
      set (w' := getMinBitsLoop (S fuel) (token / 2) (result + 1) - (result + 1)) in *.
      replace (getMinBitsLoop (S fuel) (token / 2) (result + 1) - result)
        with (w' + 1) by (unfold w'; lia).
      destruct IH as (Hw & Hlt & Hge).
      rewrite Z.pow_add_r by lia. change (2 ^ 1) with 2.
      replace (w' + 1 - 1) with (w' - 1 + 1) by lia.
      rewrite Z.pow_add_r by lia. change (2 ^ 1) with 2.
      specialize (Hge ltac:(lia)). lia.
Qed.

(** X1 -- For a 32-bit token, [getMinBits] returns the number of bits
    of its binary representation: a width [w] between 1 and 32 with
    [token < 2^w], and with [2^(w-1) <= token] unless the token is 0
    (for which the width is 1). *)
Theorem getMinBits_is_bit_length (token : Z) :
  0 <= token < 4294967296 ->
  let w := getMinBits token in
  1 <= w <= 32
  /\ token < 2 ^ w
  /\ (1 <= token -> 2 ^ (w - 1) <= token).
Proof.
  intros Htok. unfold getMinBits.
  pose proof (getMinBitsLoop_spec 31 token 0) as H.
  cbv zeta in H. rewrite Z.sub_0_r in H.
  change (Z.of_nat 32) with 32 in H.
  apply H; [change (2 ^ 32) with 4294967296; lia | lia | lia].
Qed.

(** The largest code of a full GIF dictionary needs 12 bits. *)
Lemma getMinBits_is_bit_length_witness :
  getMinBits 4094 = 12 /\ 4094 < 2 ^ getMinBits 4094
  /\ 2 ^ (getMinBits 4094 - 1) <= 4094.
Proof.
  destruct (getMinBits_is_bit_length 4094 ltac:(lia)) as (_ & Hlt & Hge).
  split; [reflexivity|]. split; [exact Hlt | apply Hge; lia].
Defined.

Lemma length_addBits' n : forall token, length (addBits n token) = n.
Proof. induction n as [|n IH]; intros token; simpl; [|rewrite IH]; reflexivity. Qed.

Lemma bitsVal_addBits n : forall token,
  bitsVal (addBits n token) = token mod 2 ^ Z.of_nat n.
Proof.
  induction n as [|n IH]; intros token.
  - simpl. now rewrite Z.mod_1_r.
  - cbn [addBits bitsVal]. rewrite IH, shiftr1_div2, land1_mod2.
    rewrite Nat2Z.inj_succ, Z.pow_succ_r by lia.
    rewrite (Z.rem_mul_r token 2 (2 ^ Z.of_nat n)) by lia.
    pose proof (Z.mod_pos_bound token 2 ltac:(lia)) as Hm.
    destruct (Z.eqb_spec (token mod 2) 0) as [H0|Hne]; cbn [negb Z.b2z]; lia.
Qed.

Lemma bitsVal_app l1 : forall l2,
  bitsVal (l1 ++ l2) = bitsVal l1 + 2 ^ Z.of_nat (length l1) * bitsVal l2.
Proof.
  induction l1 as [|b l1 IH]; intros l2.
  - cbn [app bitsVal length]. change (2 ^ Z.of_nat 0) with 1. lia.
  - cbn [app bitsVal length]. rewrite IH.
    rewrite Nat2Z.inj_succ, Z.pow_succ_r by lia. lia.
Qed.

Lemma bitsVal_range l : 0 <= bitsVal l < 2 ^ Z.of_nat (length l).
Proof.
  induction l as [|b l IH]; cbn [bitsVal length].
  - change (2 ^ Z.of_nat 0) with 1. lia.
  - rewrite Nat2Z.inj_succ, Z.pow_succ_r by lia.
    destruct b; cbn [Z.b2z]; lia.
Qed.

(** X2 -- [add(stream, token, numBits)] appends exactly [numBits] bits
    to the stream, and these bits spell, least significant bit first,
    the token reduced modulo [2^numBits]; a token below [2^numBits] is
    written without loss. *)
Theorem add_appends_low_bits (stream : list bool) (token numBits : Z) :
  0 <= numBits ->
  exists bits,
    add stream token numBits = stream ++ bits
    /\ Z.of_nat (length bits) = numBits
    /\ bitsVal bits = token mod 2 ^ numBits
    /\ (0 <= token < 2 ^ numBits -> bitsVal bits = token).
Proof.
  intros Hn. exists (addBits (Z.to_nat numBits) token).
  split; [reflexivity|]. rewrite length_addBits', bitsVal_addBits.
  rewrite Z2Nat.id by lia. split; [reflexivity|]. split; [reflexivity|].
  intros Hsmall. now apply Z.mod_small.
Qed.

(** The end-of-stream code 5 in four bits after one bit. *)
Lemma add_appends_low_bits_witness :
  add [true] 5 4 = [true; true; false; true; false]
  /\ exists bits, add [true] 5 4 = [true] ++ bits /\ bitsVal bits = 5.
Proof.
  split; [reflexivity|].
  destruct (add_appends_low_bits [true] 5 4 ltac:(lia))
    as (bits & Heq & _ & _ & Hval).
  exists bits. split; [exact Heq|]. apply Hval. vm_compute. split; discriminate || reflexivity.
Defined.

End BitOutputProps.

(** ** The reader hands out the bits least significant first *)

Module ReaderContentProps.

Import BinaryInputBuffer Statements Values ReaderContent BitOutputProps.

Lemma land_low_shifted a b s :
  0 <= a < 2 ^ s -> 0 <= s -> Z.land a (Z.shiftl b s) = 0.
Proof.
  intros Ha Hs. apply Z.bits_inj'. intros i Hi.
  rewrite Z.land_spec, Z.bits_0.
  destruct (Z.lt_ge_cases i s) as [Hlt|Hge].
  - rewrite (Z.shiftl_spec_low b s i Hlt). apply andb_false_r.
  - rewrite <- (Z.mod_small a (2 ^ s)) by lia.
    rewrite Z.mod_pow2_bits_high by lia. reflexivity.
Qed.

Lemma lor_shiftl_add a b s :
  0 <= a < 2 ^ s -> 0 <= s -> Z.lor a (Z.shiftl b s) = a + b * 2 ^ s.
Proof.
  intros Ha Hs. pose proof (land_low_shifted a b s Ha Hs) as H0.
  rewrite <- Z.lxor_lor by exact H0.
  rewrite <- Z.add_nocarry_lxor by exact H0.
  now rewrite Z.shiftl_mul_pow2.
Qed.

Lemma lor_add_mul a b s :
  0 <= a < 2 ^ s -> 0 <= s -> Z.lor a (2 ^ s * b) = a + 2 ^ s * b.
Proof.
  intros Ha Hs. rewrite (Z.mul_comm (2 ^ s) b).
  rewrite <- (lor_shiftl_add a b s Ha Hs).
  now rewrite Z.shiftl_mul_pow2.
Qed.

Lemma bytesVal_nonneg l : Forall (fun x => 0 <= x < 256) l -> 0 <= bytesVal l.
Proof.
  induction 1 as [|x l Hx _ IH]; cbn [bytesVal]; lia.
Qed.

(** Filling the bit buffer changes neither the content nor the bits
    left, and ends with enough bits in the buffer. *)
Lemma fillBitBuffer_content n fuel : forall b,
  goodBuffer b -> 0 <= n <= 16 -> n <= m_bitsLeft b ->
  n <= m_bitBufferSize b + 8 * Z.of_nat fuel ->
  exists b1,
    fillBitBuffer fuel n b = Ok b1
    /\ goodBuffer b1
    /\ content b1 = content b
    /\ m_bitsLeft b1 = m_bitsLeft b
    /\ n <= m_bitBufferSize b1.
Proof.
  induction fuel as [|fuel IH];
    intros b (((Hs0 & Hs1) & Hleft & Hmax) & Hbuf & Hbytes) Hn Hle Hfuel.
  - exists b. cbn [fillBitBuffer]. unfold goodBuffer, wfBuffer.
    repeat split; try assumption; lia.
  - cbn [fillBitBuffer].
    destruct (Z.ltb_spec (m_bitBufferSize b) n) as [Hlt|Hge].
    + unfold getBufferedByte.
      destruct (m_stream b) as [|byte rest] eqn:Hstream.
      { exfalso. unfold size_ in Hleft. simpl in Hleft. lia. }
      cbn [mbind outcome_bind rbind m_stream m_read m_bitsLeft m_bitBuffer
           m_bitBufferSize].
      unfold size_ in Hleft. cbn [length] in Hleft.
      inversion Hbytes as [|? ? Hbyte Hrest]; subst.
      set (b' := mkBuffer rest (u32 (m_read b + 1)) (m_bitsLeft b)
                   (u32 (Z.lor (m_bitBuffer b) (Z.shiftl byte (m_bitBufferSize b))))
                   (u8 (m_bitBufferSize b + 8))).
      assert (Hsz' : m_bitBufferSize b' = m_bitBufferSize b + 8).
      { unfold b'. cbn [m_bitBufferSize]. apply u8_small. lia. }
      assert (Hpow : 2 ^ (m_bitBufferSize b + 8) = 2 ^ m_bitBufferSize b * 256).
      { rewrite Z.pow_add_r by lia. reflexivity. }
      assert (Hp0 : 0 < 2 ^ m_bitBufferSize b) by (apply Z.pow_pos_nonneg; lia).
      assert (Hp16 : 2 ^ m_bitBufferSize b <= 2 ^ 16)
        by (apply Z.pow_le_mono_r; lia).
      change (2 ^ 16) with 65536 in Hp16.
      assert (Hbb' : m_bitBuffer b'
                     = m_bitBuffer b + byte * 2 ^ m_bitBufferSize b).
      { unfold b'. cbn [m_bitBuffer].
        rewrite lor_shiftl_add by lia. apply u32_small. nia. }
      assert (Hgood' : goodBuffer b').
      { unfold goodBuffer, wfBuffer. rewrite Hsz', Hbb', Hpow.
        unfold b', size_. cbn [m_stream m_bitsLeft].
        repeat split; try lia; try assumption; nia. }
      assert (Hc' : content b' = content b).
      { unfold content. rewrite Hsz', Hbb', Hpow, Hstream.
        unfold b'. cbn [m_stream bytesVal]. ring. }
      destruct (IH b' Hgood' Hn) as (b1 & Hfill & Hg1 & Hc1 & Hbits & Hsize).
      * unfold b'. cbn [m_bitsLeft]. lia.
      * rewrite Hsz'. lia.
      * exists b1. split; [exact Hfill|]. split; [exact Hg1|].
        split; [congruence|]. split; [exact Hbits | exact Hsize].
    + exists b. unfold goodBuffer, wfBuffer.
      repeat split; try assumption; lia.
Qed.

(** What [getBits] returns and leaves, in terms of the content. *)
Lemma getBits_content (b : Buffer) (n : Z) :
  goodBuffer b -> 0 <= n <= 16 -> n <= m_bitsLeft b ->
  exists b2,
    getBits n b = Ok (content b mod 2 ^ n, b2)
    /\ content b2 = content b / 2 ^ n
    /\ goodBuffer b2
    /\ m_bitsLeft b2 = m_bitsLeft b - n.
Proof.
  intros Hgood Hn Hle.
  destruct (fillBitBuffer_content n 2 b Hgood Hn Hle)
    as (b1 & Hfill & Hg1 & Hc1 & Hbits & Hsize).
  { destruct Hgood as (((? & ?) & _) & _). lia. }
  destruct Hg1 as (((Hs0 & Hs1) & Hleft & Hmax) & Hbuf & Hbytes).
  pose proof (bytesVal_nonneg _ Hbytes) as Hbv.
  assert (Hpn : 0 < 2 ^ n) by (apply Z.pow_pos_nonneg; lia).
  assert (Hsplit : 2 ^ m_bitBufferSize b1 = 2 ^ n * 2 ^ (m_bitBufferSize b1 - n)).
  { rewrite <- Z.pow_add_r by lia. f_equal. lia. }
  assert (Hmask : u32 (Z.shiftl 1 n - 1) = Z.ones n).
  { rewrite Z.ones_equiv, Z.shiftl_1_l, <- Z.sub_1_r.
    apply u32_small.
    assert (2 ^ n <= 2 ^ 16) by (apply Z.pow_le_mono_r; lia).
    change (2 ^ 16) with 65536 in *. lia. }
  assert (Hv : Z.land (m_bitBuffer b1) (u32 (Z.shiftl 1 n - 1))
               = content b mod 2 ^ n).
  { rewrite Hmask, Z.land_ones by lia. rewrite <- Hc1. unfold content.
    rewrite Hsplit, <- Z.mul_assoc.
    rewrite (Z.mul_comm (2 ^ n)), Z.mod_add by lia. reflexivity. }
  unfold getBits, peekBits.
  destruct (Z.leb_spec n 16) as [_|?]; [|lia].
  destruct (Z.leb_spec n (m_bitsLeft b)) as [_|?]; [|lia].
  cbn [negb]. rewrite Hfill. cbn [mbind outcome_bind rbind].
  unfold removeBits.
  destruct (Z.ltb_spec (m_bitBufferSize b1) n) as [?|_]; [lia|].
  cbn [mbind outcome_bind rbind]. rewrite Hv.
  eexists. split; [reflexivity|].
  assert (Hsr : Z.shiftr (m_bitBuffer b1) n = m_bitBuffer b1 / 2 ^ n)
    by (apply Z.shiftr_div_pow2; lia).
  assert (Hq : 0 <= m_bitBuffer b1 / 2 ^ n < 2 ^ (m_bitBufferSize b1 - n)).
  { split; [apply Z.div_pos; lia|].
    apply Z.div_lt_upper_bound; [lia|]. rewrite <- Hsplit. lia. }
  split; [|split].
  - unfold content at 1. cbn [m_bitBuffer m_bitBufferSize m_stream].
    rewrite u8_small, Hsr by lia. rewrite <- Hc1. unfold content.
    rewrite Hsplit, <- Z.mul_assoc.
    rewrite (Z.mul_comm (2 ^ n)), Z.div_add by lia. reflexivity.
  - unfold goodBuffer, wfBuffer.
    cbn [m_bitBuffer m_bitBufferSize m_stream m_bitsLeft].
    rewrite u8_small, u32_small, Hsr by lia.
    repeat split; try lia; assumption.
  - cbn [m_bitsLeft]. rewrite Hbits. apply u32_small. lia.
Qed.

(** X3 -- On a consistent reader with at least [n <= 16] bits left,
    [getBits(n)] returns the [n] lowest bits of the reader's content
    (the bits are handed out least significant first, bytes in file
    order), and what remains is the content shifted right by [n]
    bits, with [n] bits less left. *)
Theorem getBits_reads_low_bits (b : Buffer) (n : Z) :
  goodBuffer b -> 0 <= n <= 16 -> n <= m_bitsLeft b ->
  exists b2,
    getBits n b = Ok (content b mod 2 ^ n, b2)
    /\ content b2 = content b / 2 ^ n
    /\ goodBuffer b2
    /\ m_bitsLeft b2 = m_bitsLeft b - n.
Proof. exact (getBits_content b n). Qed.

Lemma goodBuffer_open file :
  Forall (fun x => 0 <= x < 256) file -> 8 * size_ file < 4294967296 ->
  goodBuffer (open file) /\ content (open file) = bytesVal file
  /\ m_bitsLeft (open file) = 8 * size_ file.
Proof.
  intros Hbytes Hsize.
  assert (0 <= size_ file) by (unfold size_; lia).
  unfold goodBuffer, wfBuffer, content, open.
  cbn [m_bitBuffer m_bitBufferSize m_stream m_bitsLeft].
  rewrite u32_small by lia. change (2 ^ 0) with 1.
  repeat split; try lia; assumption.
Qed.

(** Twelve bits of the two bytes AB CD, then the remaining four. *)
Lemma getBits_reads_low_bits_witness :
  let b := open [171; 205] in
  exists b2,
    getBits 12 b = Ok (3499, b2) /\ content b2 = 12 /\ m_bitsLeft b2 = 4.
Proof.
  intro b.
  destruct (goodBuffer_open [171; 205]) as (Hg & Hc & Hl).
  { repeat constructor; lia. }
  { vm_compute. reflexivity. }
  destruct (getBits_reads_low_bits b 12 Hg ltac:(lia)) as (b2 & H1 & H2 & _ & H4).
  { vm_compute. discriminate. }
  exists b2. unfold b in *. rewrite Hc in H1, H2. rewrite Hl in H4.
  split; [exact H1|]. split; [exact H2 | exact H4].
Defined.

End ReaderContentProps.

(** ** Packing bits into bytes, and reading them back *)

Module WriterProps.

Import LzwEncoder BinaryInputBuffer Container Statements Values ReaderContent
       BitOutputProps ReaderContentProps.

Lemma oneByte_val n : forall bit bits,
  0 <= bit -> bit + Z.of_nat n <= 8 ->
  oneByte n bit bits = 2 ^ bit * bitsVal (take n bits).
Proof.
  induction n as [|n IH]; intros bit bits Hbit Hfit.
  - destruct bits; cbn; lia.
  - destruct bits as [|b rest].
    + cbn. lia.
    + cbn [oneByte take bitsVal].
      rewrite IH by lia.
      assert (Hp : 0 < 2 ^ bit) by (apply Z.pow_pos_nonneg; lia).
      assert (Hp1 : 2 ^ (bit + 1) = 2 * 2 ^ bit).
      { rewrite Z.pow_add_r by lia. change (2 ^ 1) with 2. lia. }
      assert (H8 : 2 ^ bit <= 2 ^ 7) by (apply Z.pow_le_mono_r; lia).
      change (2 ^ 7) with 128 in H8.
      rewrite lor_add_mul.
      * rewrite Hp1. destruct b; cbn [Z.b2z].
        -- rewrite Z.shiftl_1_l, u8_small by lia. lia.
        -- lia.
      * rewrite Hp1. destruct b.
        -- rewrite Z.shiftl_1_l, u8_small by lia. lia.
        -- lia.
      * lia.
Qed.

Lemma bitsVal_take8_drop8 m (bits : list bool) :
  bitsVal (take (8 + m) bits)
  = bitsVal (take 8 bits) + 256 * bitsVal (take m (drop 8 bits)).
Proof.
  rewrite <- (take_take_drop bits 8 m), bitsVal_app, length_take.
  destruct (Nat.le_gt_cases 8 (length bits)) as [Hge|Hlt].
  - replace (Z.of_nat (8 `min` length bits)) with 8 by lia. reflexivity.
  - rewrite (drop_ge bits 8) by lia. rewrite take_nil. cbn [bitsVal]. lia.
Qed.

(** Packing [count] bytes. *)
Lemma packBytes_val count : forall bits,
  length (packBytes count bits) = count
  /\ Forall (fun x => 0 <= x < 256) (packBytes count bits)
  /\ bytesVal (packBytes count bits) = bitsVal (take (8 * count) bits).
Proof.
  induction count as [|count IH]; intros bits.
  - cbn. repeat split; constructor.
  - cbn [packBytes length bytesVal].
    destruct (IH (drop 8 bits)) as (Hlen & Hall & Hval).
    assert (Hone : oneByte 8 0 bits = bitsVal (take 8 bits)).
    { rewrite oneByte_val by lia. change (2 ^ 0) with 1. lia. }
    pose proof (bitsVal_range (take 8 bits)) as Hr.
    assert (Hl8 : 2 ^ Z.of_nat (length (take 8 bits)) <= 2 ^ 8).
    { apply Z.pow_le_mono_r; [lia|]. rewrite length_take. lia. }
    change (2 ^ 8) with 256 in Hl8.
    split; [now rewrite Hlen|]. split.
    + constructor; [rewrite Hone; lia | exact Hall].
    + rewrite Hone, Hval.
      replace (8 * S count)%nat with (8 + 8 * count)%nat by lia.
      now rewrite bitsVal_take8_drop8.
Qed.

(** The bytes of a packed bit stream. *)
Lemma compressBody_bytes (bits : list bool) :
  Z.of_nat (length (compressBody bits)) = (Z.of_nat (length bits) + 7) / 8
  /\ Forall (fun x => 0 <= x < 256) (compressBody bits)
  /\ bytesVal (compressBody bits) = bitsVal bits.
Proof.
  unfold compressBody.
  set (count := Z.to_nat ((Z.of_nat (length bits) + 7) / 8)).
  destruct (packBytes_val count bits) as (Hlen & Hall & Hval).
  assert (Hq : 0 <= (Z.of_nat (length bits) + 7) / 8)
    by (apply Z.div_pos; lia).
  split; [rewrite Hlen; unfold count; lia|]. split; [exact Hall|].
  rewrite Hval. rewrite take_ge; [reflexivity|].
  assert (Z.of_nat (length bits) <= 8 * ((Z.of_nat (length bits) + 7) / 8)).
  { pose proof (Z.div_mod (Z.of_nat (length bits) + 7) 8 ltac:(lia)).
    pose proof (Z.mod_pos_bound (Z.of_nat (length bits) + 7) 8 ltac:(lia)).
    lia. }
  unfold count. lia.
Qed.

(** X4 -- The body that [Compress::writeOptimized] writes for a bit
    stream has one byte for every eight bits, rounded up; every byte
    is below 256; and the bytes spell, first byte least significant,
    the same number as the bits: the stream is packed least
    significant bit first and the last byte is filled with zero
    bits. *)
Theorem compressBody_packs_bits (bits : list bool) :
  Z.of_nat (length (compressBody bits)) = (Z.of_nat (length bits) + 7) / 8
  /\ Forall (fun x => 0 <= x < 256) (compressBody bits)
  /\ bytesVal (compressBody bits) = bitsVal bits.
Proof. exact (compressBody_bytes bits). Qed.

Lemma content_tokenBits (c w X : Z) (rest : list bool) :
  0 <= w -> 0 <= c < 2 ^ w ->
  X = bitsVal (tokenBits (c, w) ++ rest) ->
  X mod 2 ^ w = c /\ X / 2 ^ w = bitsVal rest.
Proof.
  intros Hw Hc ->. unfold tokenBits. cbn [fst snd].
  rewrite bitsVal_app, length_addBits', bitsVal_addBits.
  rewrite Z2Nat.id by lia. rewrite (Z.mod_small c) by lia.
  assert (0 < 2 ^ w) by (apply Z.pow_pos_nonneg; lia).
  rewrite (Z.mul_comm (2 ^ w)). split.
  - rewrite Z.mod_add by lia. apply Z.mod_small. lia.
  - rewrite Z.div_add by lia. rewrite Z.div_small by lia. lia.
Qed.

(** Reading tokens back from any reader whose content starts with
    their bits. *)
Lemma readCodes_tokens toks : forall b rest,
  goodBuffer b ->
  Forall (fun t => 0 <= snd t <= 16 /\ 0 <= fst t < 2 ^ snd t) toks ->
  content b = bitsVal (flat_map tokenBits toks ++ rest) ->
  Z.of_nat (length (flat_map tokenBits toks)) <= m_bitsLeft b ->
  exists b',
    readCodes (map snd toks) b = Ok (map fst toks, b')
    /\ goodBuffer b'
    /\ content b' = bitsVal rest.
Proof.
  induction toks as [|[c w] toks IH]; intros b rest Hgood Hall Hcont Hleft.
  - exists b. cbn in *. auto.
  - inversion Hall as [|? ? [Hw Hc] Hall']; subst. cbn [fst snd] in Hw, Hc.
    cbn [flat_map] in Hcont, Hleft. rewrite <- app_assoc in Hcont.
    rewrite length_app in Hleft.
    assert (Hlw : Z.of_nat (length (tokenBits (c, w))) = w).
    { unfold tokenBits. cbn [fst snd]. rewrite length_addBits'. lia. }
    destruct (content_tokenBits c w (content b) _ ltac:(lia) Hc Hcont)
      as [Hmod Hdiv].
    destruct (getBits_content b w Hgood Hw ltac:(lia))
      as (b1 & Hget & Hc1 & Hg1 & Hl1).
    rewrite Hmod in Hget. rewrite Hdiv in Hc1.
    destruct (IH b1 rest Hg1 Hall' Hc1 ltac:(lia)) as (b' & Hread & Hg' & Hc').
    exists b'. cbn [map readCodes fst snd]. rewrite Hget.
    cbn [mbind outcome_bind rbind]. rewrite Hread.
    cbn [mbind outcome_bind rbind]. auto.
Qed.

(** X5 -- Tokens that [add] has pushed into a bit stream, each below
    [2^width] with a width of at most 16, come back unchanged when the
    stream is packed into bytes by [Compress::writeOptimized] and read
    with [getBits] in the same widths; the reader is then left with
    the bits that followed them. *)
Theorem tokens_written_are_read_back
        (toks : list (Z * Z)) (rest : list bool) :
  Forall (fun t => 0 <= snd t <= 16 /\ 0 <= fst t < 2 ^ snd t) toks ->
  Z.of_nat (length (flat_map tokenBits toks ++ rest)) + 7 < 4294967296 ->
  exists b',
    readCodes (map snd toks)
              (open (compressBody (flat_map tokenBits toks ++ rest)))
    = Ok (map fst toks, b')
    /\ content b' = bitsVal rest.
Proof.
  intros Hall Hsize.
  set (bits := flat_map tokenBits toks ++ rest) in *.
  destruct (compressBody_bytes bits) as (Hlen & Hbytes & Hval).
  pose proof (Z.div_mod (Z.of_nat (length bits) + 7) 8 ltac:(lia)) as Hdm.
  pose proof (Z.mod_pos_bound (Z.of_nat (length bits) + 7) 8 ltac:(lia)) as Hm.
  destruct (goodBuffer_open (compressBody bits) Hbytes) as (Hg & Hc & Hl).
  { unfold size_. rewrite Hlen. lia. }
  destruct (readCodes_tokens toks (open (compressBody bits)) rest Hg Hall)
    as (b' & Hread & _ & Hc').
  - rewrite Hc, Hval. reflexivity.
  - rewrite Hl. unfold size_. rewrite Hlen.
    unfold bits in Hdm, Hm |- *. rewrite length_app in Hdm, Hm |- *. lia.
  - exists b'. split; assumption.
Qed.

(** The tokens 0, 1, 6, 6 of the pixels 0,1,0,1,0,1 and the
    end-of-stream code. *)
Lemma tokens_written_are_read_back_witness :
  let toks := [(0, 3); (1, 3); (6, 3); (6, 4); (5, 4)] in
  exists b',
    readCodes [3; 3; 3; 4; 4] (open (compressBody (flat_map tokenBits toks)))
    = Ok ([0; 1; 6; 6; 5], b').
Proof.
  intro toks.
  destruct (tokens_written_are_read_back toks []) as (b' & Hread & _).
  - repeat constructor; cbn; lia.
  - vm_compute. reflexivity.
  - exists b'. rewrite app_nil_r in Hread. exact Hread.
Defined.

End WriterProps.

(** ** The main loop of optimizePartial: dictionary cap and code widths *)

Module EncoderLoopProps.

Import LzwEncoder Statements Values EncoderInvariant BitOutputProps TrieProps.

Lemma isPowerOfTwo_pow2 c : 0 <= c -> isPowerOfTwo (2 ^ c) = true.
Proof.
  intros Hc. unfold isPowerOfTwo. apply Z.eqb_eq.
  rewrite Z.sub_1_r, <- Z.ones_equiv, Z.land_ones by lia.
  apply Z.mod_same. apply Z.pow_nonzero; lia.
Qed.

Lemma child_valid d D c b :
  trieBelow d D -> child d c b <> Unknown -> 0 <= child d c b < D.
Proof.
  intros Ht Hne. unfold child in *.
  destruct (d !! (c, b)) as [v|] eqn:Hl; cbn in *; [|contradiction].
  exact (Ht c b v Hl).
Qed.

Lemma at_valid (data : list Z) (P : Z -> Prop) i :
  Forall P data -> P 0 -> P (at_ data i).
Proof.
  intros Hall H0. unfold at_. destruct (i <? 0); [exact H0|].
  rewrite nth_lookup.
  destruct (data !! Z.to_nat i) as [x|] eqn:Hl; cbn; [|exact H0].
  rewrite Forall_forall in Hall. apply Hall.
  eapply list_elem_of_lookup_2. exact Hl.
Qed.

(** Walking no further than [findMatch] got stays inside the trie. *)
Lemma walk_valid data d D maxLength m : forall n from code len,
  trieBelow d D -> 0 <= code < D ->
  len + Z.of_nat n = maxLength ->
  Z.of_nat m <= findMatchLoop data d maxLength n from code len - len ->
  0 <= snd (addCodeWalk data d m from code) < D.
Proof.
  induction m as [|m IH]; intros n from code len Ht Hc Hlen Hm.
  - exact Hc.
  - destruct n as [|n]; cbn [findMatchLoop] in Hm; [lia|].
    cbn [addCodeWalk].
    destruct (Z.eqb_spec (child d code (at_ data from)) Unknown) as [|Hne];
      [lia|].
    apply (IH n (u32 (from + 1)) _ (len + 1)); try assumption; try lia.
    now apply child_valid.
Qed.

Lemma shorterLoop_choice e i remaining atLeast L n : forall sh best choice,
  sh = Z.of_nat n -> sh < L -> 1 <= choice <= L ->
  1 <= snd (shorterLoop e i remaining atLeast n sh best choice) <= L.
Proof.
  induction n as [|n IH]; intros sh best choice Hsh HL Hc.
  - exact Hc.
  - cbn [shorterLoop].
    destruct ((atLeast <=? _) && (best <? _)); apply IH; lia.
Qed.

(** The match that is taken has at least one byte and is not longer
    than the greedy match. *)
Lemma chooseMatch_bounds e s i remaining :
  1 <= remaining ->
  1 <= fst (chooseMatch e s i remaining) <= findMatch e i remaining.
Proof.
  intros Hrem. pose proof (findMatch_range e i remaining Hrem) as HL.
  unfold chooseMatch. cbv zeta.
  set (L := findMatch e i remaining) in *.
  match goal with |- context [if ?c then _ else (L, false)] => destruct c end;
    [|cbn; lia].
  assert (Hch : 1 <= flexibleChoice e s i remaining L <= L).
  { unfold flexibleChoice. cbv zeta.
    apply shorterLoop_choice; lia. }
  destruct (flexibleChoice e s i remaining L <? L); cbn [fst]; lia.
Qed.

Lemma addCode_fields e from len :
  let e' := snd (addCode e from len) in
  m_data e' = m_data e /\ m_best e' = m_best e
  /\ m_maxDictionary e' = m_maxDictionary e
  /\ m_maxCodeLength e' = m_maxCodeLength e
  /\ m_isGif e' = m_isGif e.
Proof.
  unfold addCode. destruct (addCodeWalk _ _ _ _ _) as [from' code].
  destruct (from' <? size_ (m_data e)); [|cbn; auto].
  destruct (m_dictSize e <? m_maxDictionary e); cbn; auto.
Qed.

(** [addCode] keeps the dictionary within its cap and the trie below
    the dictionary size. *)
Lemma addCode_size_trie e from len lo :
  lo <= m_dictSize e <= m_maxDictionary e -> 0 <= lo ->
  m_maxDictionary e < 4294967296 ->
  trieBelow (m_dictionary e) (m_dictSize e) ->
  let e' := snd (addCode e from len) in
  m_dictSize e <= m_dictSize e' <= m_dictSize e + 1
  /\ m_dictSize e' <= m_maxDictionary e
  /\ trieBelow (m_dictionary e') (m_dictSize e').
Proof.
  intros Hsz Hlo Hmax Ht. cbv zeta.
  pose proof (addCode_state e from len) as Hst. cbv zeta in Hst.
  destruct ((followIndex e from len <? size_ (m_data e))
            && (m_dictSize e <? m_maxDictionary e)) eqn:Hc.
  - destruct Hst as [Hn Hd].
    apply andb_true_iff in Hc as [_ Hroom]. apply Z.ltb_lt in Hroom.
    rewrite u32_small in Hn by lia. rewrite Hn, Hd.
    split; [lia|]. split; [lia|].
    destruct (child (m_dictionary e) _ _ =? Unknown).
    + intros c b v Hl. unfold setChild in Hl.
      destruct (decide ((fst (addCode e from len),
                         at_ (m_data e) (followIndex e from len)) = (c, b)))
        as [Heq|Hne].
      * rewrite Heq, lookup_insert_eq in Hl. inversion Hl; subst. lia.
      * rewrite lookup_insert_ne in Hl by exact Hne.
        specialize (Ht c b v Hl). lia.
    + intros c b v Hl. specialize (Ht c b v Hl). lia.
  - rewrite Hst. split; [lia|]. split; [lia | exact Ht].
Qed.

(** A token between [2^k] and [2^(k+1)] needs [k+1] bits. *)
Lemma getMinBits_between k token :
  0 <= k < 32 -> 2 ^ k <= token < 2 ^ (k + 1) -> getMinBits token = k + 1.
Proof.
  intros Hk Htok. unfold getMinBits.
  assert (Hk1 : 2 ^ (k + 1) <= 2 ^ 32) by (apply Z.pow_le_mono_r; lia).
  assert (Hk0 : 0 < 2 ^ k) by (apply Z.pow_pos_nonneg; lia).
  pose proof (getMinBitsLoop_spec 31 token 0) as H.
  cbv zeta in H. rewrite Z.sub_0_r in H.
  change (Z.of_nat 32) with 32 in H.
  destruct H as (Hw & Hlt & Hge); [lia | lia | lia |].
  set (w := getMinBitsLoop 32 token 0) in *.
  specialize (Hge ltac:(lia)).
  assert (k < w) by (apply (Z.pow_lt_mono_r_iff 2); lia).
  assert (w - 1 < k + 1) by (apply (Z.pow_lt_mono_r_iff 2); lia).
  lia.
Qed.

Ltac loop_fields :=
  cbn [l_enc l_numBits l_numTokens l_numNonGreedyMatches l_matchLength
       l_codeSize l_result l_tokens setEnc setMatchLength withBest withDict
       m_data m_best m_dictionary m_dictSize m_maxDictionary
       m_maxCodeLength m_isGif].

Section Block.

Variables (e0 : Encoder) (s : OptimizationSettings) (from length : Z).
Variable emit : bool.

Hypothesis Hmin : 2 <= minCodeSize s < m_maxCodeLength e0.
Hypothesis Hlen : m_maxCodeLength e0 <= 16.
Hypothesis Hdict : m_maxDictionary e0 = 2 ^ m_maxCodeLength e0 - 1.
Hypothesis Hz : m_isGif e0 = false -> 8 <= minCodeSize s.
Hypothesis Hdata : Forall (fun x => 0 <= x < 2 ^ minCodeSize s) (m_data e0).
Hypothesis Hfrom : 0 <= from.
Hypothesis Hlength : 1 <= length.
Hypothesis Hend : from + length <= size_ (m_data e0).
Hypothesis Hsize : size_ (m_data e0) < 4294967296.

Lemma pow_min_bounds :
  4 <= 2 ^ minCodeSize s /\ 2 * 2 ^ minCodeSize s <= 2 ^ m_maxCodeLength e0
  /\ 2 ^ m_maxCodeLength e0 <= 65536.
Proof.
  split; [|split].
  - change 4 with (2 ^ 2). apply Z.pow_le_mono_r; lia.
  - replace (2 * 2 ^ minCodeSize s) with (2 ^ (minCodeSize s + 1))
      by (rewrite Z.pow_add_r by lia; change (2 ^ 1) with 2; lia).
    apply Z.pow_le_mono_r; lia.
  - change 65536 with (2 ^ 16). apply Z.pow_le_mono_r; lia.
Qed.

Lemma freshDictSize_bounds :
  2 ^ minCodeSize s + 1 <= freshDictSize e0 s <= 2 ^ minCodeSize s + 2
  /\ freshDictSize e0 s <= m_maxDictionary e0.
Proof.
  pose proof pow_min_bounds. unfold freshDictSize. rewrite Hdict.
  destruct (m_isGif e0); lia.
Qed.

(** The loop starts within the invariant. *)
Lemma initLoop_inv : blockInv e0 s from length from (initLoop e0 s).
Proof.
  pose proof pow_min_bounds as (Hp4 & Hp2 & Hp16).
  pose proof freshDictSize_bounds as (Hb & Hbm).
  assert (Hclear : u32 (Z.shiftl 1 (minCodeSize s)) = 2 ^ minCodeSize s).
  { rewrite Z.shiftl_mul_pow2, Z.mul_1_l by lia. apply u32_small. lia. }
  assert (Hbase : (if m_isGif e0
                   then u32 (u32 (Z.shiftl 1 (minCodeSize s)) + 2)
                   else u32 (u32 (Z.shiftl 1 (minCodeSize s)) + 1))
                  = freshDictSize e0 s).
  { rewrite Hclear. unfold freshDictSize.
    destruct (m_isGif e0); rewrite u32_small by lia; reflexivity. }
  assert (Hcs : getMinBits (freshDictSize e0 s) = minCodeSize s + 1).
  { apply getMinBits_between; [lia|].
    rewrite Z.pow_add_r by lia. change (2 ^ 1) with 2. lia. }
  unfold initLoop. cbv zeta. rewrite Hbase.
  constructor; loop_fields; try reflexivity.
  - lia.
  - intros c b v Hl. rewrite lookup_empty in Hl. discriminate.
  - rewrite Hcs, Z.pow_add_r by lia. change (2 ^ 1) with 2. lia.
  - rewrite Hcs. lia.
  - intros Hg. rewrite Hcs. specialize (Hz Hg). lia.
  - lia.
  - constructor.
Qed.

(** The width of the next token covers every code of the dictionary. *)
Lemma nextCodeSize_fits next st :
  blockInv e0 s from length next st ->
  let c' := nextCodeSize (l_enc st) (l_codeSize st) in
  m_dictSize (l_enc st) <= 2 ^ c'
  /\ l_codeSize st <= c' <= m_maxCodeLength e0.
Proof.
  intros [Hd Hg Hmd Hml Hsz Ht Hw Hcs Hz9 Hm Htok]. cbv zeta.
  pose proof pow_min_bounds as (Hp4 & Hp2 & Hp16).
  pose proof freshDictSize_bounds as (Hb & Hbm).
  unfold nextCodeSize. rewrite Hmd, Hml, Hg.
  set (D := m_dictSize (l_enc st)) in *.
  set (c := l_codeSize st) in *.
  assert (Hc0 : 0 < 2 ^ c) by (apply Z.pow_pos_nonneg; lia).
  destruct (Z.ltb_spec D (m_maxDictionary e0)) as [Hroom|Hfull].
  - cbv zeta. rewrite (u32_small (D - 1)) by lia.
    destruct (isPowerOfTwo (D - 1)) eqn:Hpow; cbn [andb].
    + destruct (Z.ltb_spec c (m_maxCodeLength e0)) as [Hlt|Hge].
      * rewrite (u8_small (c + 1)) by lia.
        destruct (m_isGif e0) eqn:Hgif; cbn [negb andb].
        -- rewrite Z.pow_add_r by lia. change (2 ^ 1) with 2. lia.
        -- destruct (Z.eqb_spec (D - 1) 256) as [H256|Hne].
           ++ rewrite u8_small by lia. replace (c + 1 - 1) with c by lia.
              specialize (Hz9 eq_refl).
              assert (2 ^ 9 <= 2 ^ c) by (apply Z.pow_le_mono_r; lia).
              change (2 ^ 9) with 512 in *. lia.
           ++ rewrite Z.pow_add_r by lia. change (2 ^ 1) with 2. lia.
      * assert (c = m_maxCodeLength e0) as Hceq by lia.
        rewrite Hceq. lia.
    + assert (D - 1 <> 2 ^ c).
      { intros Heq. rewrite Heq, isPowerOfTwo_pow2 in Hpow by lia.
        discriminate. }
      lia.
  - assert (HD : D = 2 ^ m_maxCodeLength e0 - 1) by lia.
    split; [|lia].
    destruct (Z.eq_dec c (m_maxCodeLength e0)) as [->|Hne]; [lia|].
    assert (Hle : 2 ^ c <= 2 ^ (m_maxCodeLength e0 - 1))
      by (apply Z.pow_le_mono_r; lia).
    assert (H2 : 2 ^ m_maxCodeLength e0 = 2 * 2 ^ (m_maxCodeLength e0 - 1)).
    { replace (m_maxCodeLength e0) with (m_maxCodeLength e0 - 1 + 1) at 1 by lia.
      rewrite Z.pow_add_r by lia. change (2 ^ 1) with 2. lia. }
    assert (H4 : 2 ^ 2 <= 2 ^ (m_maxCodeLength e0 - 1))
      by (apply Z.pow_le_mono_r; lia).
    change (2 ^ 2) with 4 in H4. lia.
Qed.

(** A token is emitted within the invariant, and its match has at
    least one byte. *)
Lemma emitToken_inv i st st' :
  from <= i < from + length ->
  blockInv e0 s from length i st ->
  emitToken s from length emit i st = Some st' ->
  blockInv e0 s from length i st' /\ 1 <= l_matchLength st'.
Proof.
  intros Hi Hinv Hemit.
  pose proof (nextCodeSize_fits i st Hinv) as Hnext. cbv zeta in Hnext.
  destruct Hinv as [Hd Hg Hmd Hml Hsz Ht Hw Hcs Hz9 Hm Htok].
  pose proof pow_min_bounds as (Hp4 & Hp2 & Hp16).
  pose proof freshDictSize_bounds as (Hb & Hbm).
  unfold emitToken in Hemit. cbv zeta in Hemit.
  destruct ((0 <? maxDictionary s) && _); [discriminate|].
  destruct ((0 <? maxTokens s) && _); [discriminate|].
  rewrite (u32_small (length + from - i)) in Hemit by lia.
  set (remaining := length + from - i) in *.
  pose proof (chooseMatch_bounds (l_enc st) s i remaining ltac:(unfold remaining; lia))
    as Hml_b.
  pose proof (findMatch_range (l_enc st) i remaining ltac:(unfold remaining; lia))
    as HL.
  destruct (chooseMatch (l_enc st) s i remaining) as [ml ng] eqn:Hcm.
  cbn [fst] in Hml_b.
  pose proof (addCode_fields (l_enc st) i ml) as Hf. cbv zeta in Hf.
  pose proof (addCode_size_trie (l_enc st) i ml (freshDictSize e0 s)
                ltac:(rewrite Hmd; lia) ltac:(lia) ltac:(rewrite Hmd; lia) Ht)
    as Hst. cbv zeta in Hst.
  pose proof (addCode_code (l_enc st) i ml) as Hcode.
  assert (Hvalid : 0 <= fst (addCode (l_enc st) i ml) < m_dictSize (l_enc st)).
  { rewrite Hcode.
    apply (walk_valid (m_data (l_enc st)) (m_dictionary (l_enc st)) _
             remaining (Z.to_nat (ml - 1)) (Z.to_nat (remaining - 1)) _ _ 1).
    - exact Ht.
    - rewrite Hd.
      apply (at_valid (m_data e0) (fun x => 0 <= x < m_dictSize (l_enc st))).
      + eapply Forall_impl; [exact Hdata|]. cbn. intros x Hx. lia.
      + lia.
    - lia.
    - unfold findMatch in Hml_b, HL. lia. }
  destruct (addCode (l_enc st) i ml) as [code e'] eqn:Hac.
  cbn [fst snd] in *.
  destruct Hf as (Hf1 & Hf2 & Hf3 & Hf4 & Hf5).
  destruct Hst as (Hgrow & Hcap & Htrie').
  destruct Hnext as (Hfit & Hcs').
  set (c' := nextCodeSize (l_enc st) (l_codeSize st)) in *.
  injection Hemit as <-.
  split; [|loop_fields; lia].
  constructor; loop_fields; try congruence.
  - rewrite Hmd in Hcap. lia.
  - exact Htrie'.
  - lia.
  - lia.
  - intros Hgif. specialize (Hz9 Hgif). lia.
  - unfold remaining in *. lia.
  - assert (Hold : Forall (tokenFits (m_maxCodeLength e0) (m_dictSize e'))
                          (l_tokens st)).
    { eapply Forall_impl; [exact Htok|].
      intros t (H1 & H2 & H3). repeat split; lia. }
    destruct emit; [|exact Hold].
    apply Forall_app. split; [exact Hold|].
    constructor; [|constructor].
    repeat split; cbn [fst snd]; lia.
Qed.

(** One iteration keeps the invariant. *)
Lemma iteration_inv fromAligned i st st' :
  from <= i < from + length ->
  blockInv e0 s from length i st ->
  iteration s from length emit fromAligned i st = Some st' ->
  blockInv e0 s from length (i + 1) st'.
Proof.
  intros Hi Hinv Hit. unfold iteration in Hit.
  assert (Hst1 : exists st1,
             (if l_matchLength st =? 0
              then emitToken s from length emit i st else Some st) = Some st1
             /\ blockInv e0 s from length i st1 /\ 1 <= l_matchLength st1).
  { destruct (Z.eqb_spec (l_matchLength st) 0) as [H0|Hne].
    - destruct (emitToken s from length emit i st) as [st1|] eqn:He;
        [|discriminate].
      exists st1. split; [reflexivity|]. now apply emitToken_inv with st.
    - exists st. split; [reflexivity|]. split; [exact Hinv|].
      destruct Hinv. lia. }
  destruct Hst1 as (st1 & Heq & Hinv1 & Hm1).
  rewrite Heq in Hit. cbn in Hit. injection Hit as <-.
  destruct Hinv1 as [Hd Hg Hmd Hml Hsz Ht Hw Hcs Hz9 Hm Htok].
  constructor; loop_fields; try assumption.
  rewrite u32_small by lia. lia.
Qed.

(** The loop keeps the invariant. *)
Lemma processInput_inv fromAligned n : forall i st,
  from <= i -> i + Z.of_nat n <= from + length ->
  blockInv e0 s from length i st ->
  exists j, i <= j <= i + Z.of_nat n /\
    blockInv e0 s from length j
      (processInput s from length emit fromAligned n i st).
Proof.
  induction n as [|n IH]; intros i st Hi Hn Hinv.
  - exists i. split; [lia | exact Hinv].
  - cbn [processInput].
    destruct (iteration s from length emit fromAligned i st) as [st'|] eqn:Hit.
    + rewrite u32_small by lia.
      destruct (IH (i + 1) st' ltac:(lia) ltac:(lia)) as (j & Hj & Hinvj).
      { apply (iteration_inv fromAligned i st st'); [lia | exact Hinv | exact Hit]. }
      exists j. split; [lia | exact Hinvj].
    + exists i. split; [lia | exact Hinv].
Qed.

Lemma runBlock_inv :
  exists j, from <= j <= from + length /\
    blockInv e0 s from length j (runBlock e0 s from length emit).
Proof.
  unfold runBlock. cbv zeta.
  rewrite (u32_small (from + length - 1)) by lia.
  destruct (processInput_inv (from / alignment s)
              (Z.to_nat (from + length - 1 - from + 1)) from
              (initLoop e0 s) ltac:(lia) ltac:(lia) initLoop_inv)
    as (j & Hj & Hinv).
  exists j. split; [lia|]. exact Hinv.
Qed.

End Block.

Lemma blockReady_runBlock e s from length emit :
  blockReady e s from length ->
  exists j, from <= j <= from + length /\
    blockInv e s from length j (runBlock e s from length emit).
Proof.
  intros (H1 & H2 & H3 & H4 & H5 & H6 & H7 & H8 & H9).
  now apply runBlock_inv.
Qed.

(** X6 -- While a block is encoded the dictionary never grows beyond
    [m_maxDictionary] (4095 entries for GIF, 65535 for .Z) and never
    falls below the entries of a fresh dictionary, and every child
    code stored in the trie is the code of an entry: at least 0 and
    below [m_dictSize]. *)
Theorem runBlock_dictionary_within_cap e s from length emit :
  blockReady e s from length ->
  let st := runBlock e s from length emit in
  freshDictSize e s <= m_dictSize (l_enc st) <= m_maxDictionary e
  /\ m_maxDictionary (l_enc st) = m_maxDictionary e
  /\ forall c b, child (m_dictionary (l_enc st)) c b <> Unknown ->
       0 <= child (m_dictionary (l_enc st)) c b < m_dictSize (l_enc st).
Proof.
  intros Hready. cbv zeta.
  destruct (blockReady_runBlock e s from length emit Hready) as (j & _ & Hinv).
  destruct Hinv as [Hd Hg Hmd Hml Hsz Ht Hw Hcs Hz9 Hm Htok].
  split; [exact Hsz|]. split; [exact Hmd|].
  intros c b Hne. now apply child_valid.
Qed.

(** The pixels 0,1,0,1,0,1 with code size 2: six entries after the
    block, four of them stored in the trie. *)
Lemma runBlock_dictionary_within_cap_witness :
  let st := runBlock (new [0; 1; 0; 1; 0; 1] true) (gifSettings 2) 0 6 true in
  6 <= m_dictSize (l_enc st) <= 4095.
Proof.
  intro st.
  destruct (runBlock_dictionary_within_cap
              (new [0; 1; 0; 1; 0; 1] true) (gifSettings 2) 0 6 true)
    as (Hsz & _).
  - unfold blockReady. cbn.
    repeat split; try lia; try discriminate; repeat constructor; lia.
  - exact Hsz.
Defined.

(** X7 -- Every token that the main loop emits is the code of a
    dictionary entry and fits the width it is written with: the code
    is at least 0, below [m_dictSize] and below [2^width], and the
    width is between 1 and [m_maxCodeLength]. *)
Theorem runBlock_tokens_fit_their_width e s from length emit :
  blockReady e s from length ->
  let st := runBlock e s from length emit in
  Forall (fun t => 0 <= fst t < m_dictSize (l_enc st)
                   /\ fst t < 2 ^ snd t
                   /\ 1 <= snd t <= m_maxCodeLength e)
         (l_tokens st).
Proof.
  intros Hready. cbv zeta.
  destruct (blockReady_runBlock e s from length emit Hready) as (j & _ & Hinv).
  destruct Hinv as [Hd Hg Hmd Hml Hsz Ht Hw Hcs Hz9 Hm Htok].
  exact Htok.
Qed.

(** The four tokens of the pixels 0,1,0,1,0,1 with code size 2. *)
Lemma runBlock_tokens_fit_their_width_witness :
  let st := runBlock (new [0; 1; 0; 1; 0; 1] true) (gifSettings 2) 0 6 true in
  l_tokens st = [(0, 3); (1, 3); (6, 3); (6, 4)]
  /\ Forall (fun t => fst t < 2 ^ snd t) (l_tokens st).
Proof.
  intro st. split; [vm_compute; reflexivity|].
  pose proof (runBlock_tokens_fit_their_width
                (new [0; 1; 0; 1; 0; 1] true) (gifSettings 2) 0 6 true) as H.
  eapply Forall_impl; [apply H|].
  - unfold blockReady. cbn.
    repeat split; try lia; try discriminate; repeat constructor; lia.
  - cbn. intros t (_ & Ht & _). exact Ht.
Defined.

(** *** The counters of the loop *)

Lemma getMinBitsLoop_nonneg fuel : forall token result,
  0 <= result -> 0 <= getMinBitsLoop fuel token result.
Proof.
  induction fuel as [|fuel IH]; intros token result Hr; cbn [getMinBitsLoop].
  - exact Hr.
  - cbv zeta. pose proof (Z.mod_pos_bound (result + 1) 256 ltac:(lia)).
    destruct (Z.shiftr token 1 =? 0); [unfold u8; lia|].
    apply IH. unfold u8. lia.
Qed.

Lemma nextCodeSize_nonneg e c : 0 <= c -> 0 <= nextCodeSize e c.
Proof.
  intros Hc. unfold nextCodeSize. cbv zeta.
  pose proof (Z.mod_pos_bound (c + 1) 256 ltac:(lia)).
  pose proof (Z.mod_pos_bound (u8 (c + 1) - 1) 256 ltac:(lia)).
  destruct (m_dictSize e <? m_maxDictionary e); [|exact Hc].
  destruct (isPowerOfTwo _ && _); [|exact Hc].
  destruct (negb (m_isGif e) && _); unfold u8 in *; lia.
Qed.

Lemma u32_add_l a b : u32 (u32 a + b) = u32 (a + b).
Proof. unfold u32. apply Z.add_mod_idemp_l. lia. Qed.

Lemma iteration_counts s from len fromAligned i st st' :
  iteration s from len true fromAligned i st = Some st' ->
  0 <= l_codeSize st ->
  l_numBits st = u32 (bitLength (l_result st)) ->
  l_numTokens st = u32 (Z.of_nat (List.length (l_tokens st))) ->
  0 <= l_codeSize st'
  /\ l_numBits st' = u32 (bitLength (l_result st'))
  /\ l_numTokens st' = u32 (Z.of_nat (List.length (l_tokens st'))).
Proof.
  unfold iteration. intros H Hc Hb Ht.
  destruct (l_matchLength st =? 0).
  - unfold emitToken in H. cbv zeta in H.
    destruct ((0 <? maxDictionary s) && _); [discriminate H|].
    destruct ((0 <? maxTokens s) && _); [discriminate H|].
    destruct (chooseMatch _ _ _ _) as [ml ng].
    destruct (addCode _ _ _) as [code e'].
    cbn in H. injection H as <-. loop_fields.
    pose proof (nextCodeSize_nonneg (l_enc st) (l_codeSize st) Hc) as Hn.
    split; [exact Hn|]. split.
    + rewrite Hb, u32_add_l. f_equal. unfold bitLength, add.
      rewrite length_app, length_addBits'. lia.
    + rewrite Ht, u32_add_l. f_equal. rewrite length_app. cbn. lia.
  - cbn in H. injection H as <-. loop_fields. auto.
Qed.

Lemma processInput_counts s from len fromAligned n : forall i st,
  0 <= l_codeSize st ->
  l_numBits st = u32 (bitLength (l_result st)) ->
  l_numTokens st = u32 (Z.of_nat (List.length (l_tokens st))) ->
  let st' := processInput s from len true fromAligned n i st in
  0 <= l_codeSize st'
  /\ l_numBits st' = u32 (bitLength (l_result st'))
  /\ l_numTokens st' = u32 (Z.of_nat (List.length (l_tokens st'))).
Proof.
  induction n as [|n IH]; intros i st Hc Hb Ht; cbn [processInput]; [auto|].
  destruct (iteration s from len true fromAligned i st) as [st1|] eqn:Hit;
    [|auto].
  destruct (iteration_counts _ _ _ _ _ _ _ Hit Hc Hb Ht) as (Hc1 & Hb1 & Ht1).
  now apply IH.
Qed.

(** X8 -- In an emitting run over a block, the counters of the main
    loop agree with what was written: [numBits] is the number of bits
    pushed to the result and [numTokens] the number of tokens emitted
    (both as 32-bit counters). *)
Theorem runBlock_counts_bits_and_tokens e s from length :
  let st := runBlock e s from length true in
  l_numBits st = u32 (bitLength (l_result st))
  /\ l_numTokens st = u32 (Z.of_nat (List.length (l_tokens st))).
Proof.
  cbv zeta. unfold runBlock. cbv zeta.
  apply (processInput_counts s from length (from / alignment s)
           (Z.to_nat (u32 (from + length - 1) - from + 1)) from (initLoop e s)).
  - unfold initLoop. cbv zeta. loop_fields.
    apply getMinBitsLoop_nonneg. lia.
  - reflexivity.
  - reflexivity.
Qed.

(** *** Reading an emitted GIF block back *)

Lemma iteration_token_count s from len emit fromAligned i st st' :
  iteration s from len emit fromAligned i st = Some st' ->
  (List.length (l_tokens st') <= List.length (l_tokens st) + 1)%nat.
Proof.
  unfold iteration. intros H.
  destruct (l_matchLength st =? 0).
  - unfold emitToken in H. cbv zeta in H.
    destruct ((0 <? maxDictionary s) && _); [discriminate H|].
    destruct ((0 <? maxTokens s) && _); [discriminate H|].
    destruct (chooseMatch _ _ _ _) as [ml ng].
    destruct (addCode _ _ _) as [code e'].
    cbn in H. injection H as <-. loop_fields.
    destruct emit; [rewrite length_app; cbn|]; lia.
  - cbn in H. injection H as <-. loop_fields. lia.
Qed.

Lemma processInput_token_count s from len emit fromAligned n : forall i st,
  (List.length (l_tokens (processInput s from len emit fromAligned n i st))
   <= List.length (l_tokens st) + n)%nat.
Proof.
  induction n as [|n IH]; intros i st; cbn [processInput]; [lia|].
  destruct (iteration s from len emit fromAligned i st) as [st1|] eqn:Hit;
    [|lia].
  apply iteration_token_count in Hit.
  specialize (IH (u32 (i + 1)) st1). lia.
Qed.

Lemma tokenBits_length_16 toks :
  Forall (fun t => 0 <= snd t <= 16) toks ->
  Z.of_nat (List.length (flat_map tokenBits toks))
  <= 16 * Z.of_nat (List.length toks).
Proof.
  induction 1 as [|t toks Ht _ IH]; [cbn; lia|].
  cbn [flat_map]. rewrite length_app. unfold tokenBits at 1.
  rewrite length_addBits'. cbn [List.length]. lia.
Qed.

End EncoderLoopProps.

(** ** An emitted GIF block, packed and read back *)

Module BlockReadBack.

Import LzwEncoder BinaryInputBuffer Container Statements Values.
Import ReaderContent EncoderInvariant.
Import BitOutputProps ReaderContentProps WriterProps EncoderLoopProps.

(** The width of the closing code covers the clear and the
    end-of-stream code. *)
Lemma closing_width D k :
  2 <= k < 16 -> 2 ^ k + 1 <= D - 1 < 65536 ->
  let w := getMinBits (u32 (D - 1)) in
  1 <= w <= 16 /\ 2 ^ k + 1 < 2 ^ w.
Proof.
  intros Hk HD. cbv zeta. rewrite u32_small by lia. unfold getMinBits.
  pose proof (getMinBitsLoop_spec 31 (D - 1) 0) as H.
  cbv zeta in H. rewrite Z.sub_0_r in H. change (Z.of_nat 32) with 32 in H.
  assert (0 < 2 ^ k) by (apply Z.pow_pos_nonneg; lia).
  destruct H as (Hw & Hlt & Hge);
    [change (2 ^ 32) with 4294967296; lia | lia | lia |].
  set (w := getMinBitsLoop 32 (D - 1) 0) in *.
  specialize (Hge ltac:(lia)).
  assert (w - 1 < 16).
  { apply (Z.pow_lt_mono_r_iff 2); [lia | lia |].
    change (2 ^ 16) with 65536. lia. }
  lia.
Qed.

(** X9 -- The bits of an emitted GIF block -- the tokens of the main
    loop followed by the closing code, which is the end-of-stream code
    for the final block and the clear code otherwise -- are produced
    without error; packed into bytes and read with [getBits], using
    for each token the width it was written with and for the closing
    code the width of [m_dictSize - 1], they give back the codes of
    the tokens and the closing code. *)
Theorem gif_block_reads_back e s from length isFinal :
  blockReady e s from length -> m_isGif e = true ->
  16 * (length + 1) + 7 < 4294967296 ->
  let st := runBlock e s from length true in
  let clear := u32 (Z.shiftl 1 (minCodeSize s)) in
  let endOfStream := u32 (clear + 1) in
  exists bits b',
    endOfBlock (l_enc st) clear endOfStream isFinal
               (l_numTokens st) (l_result st) = Ok bits
    /\ readCodes (map snd (l_tokens st)
                  ++ [getMinBits (u32 (m_dictSize (l_enc st) - 1))])
                 (open (compressBody bits))
       = Ok (map fst (l_tokens st)
             ++ [if isFinal then endOfStream else clear], b').
Proof.
  intros Hready Hgif Hsmall. cbv zeta.
  pose proof (BlockProps.runBlock_token_bits e s from length true) as Hbits.
  cbv zeta in Hbits.
  pose proof (processInput_token_count s from length true (from / alignment s)
                (Z.to_nat (u32 (from + length - 1) - from + 1)) from
                (initLoop e s)) as Hcount.
  change (processInput _ _ _ _ _ _ _ _) with (runBlock e s from length true)
    in Hcount.
  destruct (blockReady_runBlock e s from length true Hready) as (j & _ & Hinv).
  destruct Hready as (H1 & H2 & H3 & H4 & H5 & H6 & H7 & H8 & H9).
  rewrite (u32_small (from + length - 1)) in Hcount by lia.
  change (List.length (l_tokens (initLoop e s))) with 0%nat in Hcount.
  set (st := runBlock e s from length true) in *.
  destruct Hinv as [Hd Hg Hmd Hml Hsz Ht Hw Hcs Hz9 Hm Htok].
  destruct (pow_min_bounds e s H1 H2) as (Hp4 & Hp2 & Hp16).
  destruct (freshDictSize_bounds e s H1 H2 H3 H4) as (Hb & Hbm).
  assert (Hbase : freshDictSize e s = 2 ^ minCodeSize s + 2)
    by (unfold freshDictSize; now rewrite Hgif).
  assert (Hclear : u32 (Z.shiftl 1 (minCodeSize s)) = 2 ^ minCodeSize s).
  { rewrite Z.shiftl_mul_pow2, Z.mul_1_l by lia. apply u32_small. lia. }
  rewrite Hclear, (u32_small (2 ^ minCodeSize s + 1)) by lia.
  destruct (closing_width (m_dictSize (l_enc st)) (minCodeSize s)
              ltac:(lia) ltac:(lia)) as (Hcw & Hcfit).
  set (w := getMinBits (u32 (m_dictSize (l_enc st) - 1))) in *.
  set (closing := if isFinal then 2 ^ minCodeSize s + 1 else 2 ^ minCodeSize s).
  set (toks := l_tokens st ++ [(closing, w)]).
  assert (Hend : endOfBlock (l_enc st) (2 ^ minCodeSize s)
                   (2 ^ minCodeSize s + 1) isFinal
                   (l_numTokens st) (l_result st)
                 = Ok (flat_map tokenBits toks)).
  { unfold endOfBlock. cbv zeta. rewrite Hg, Hgif. fold w. fold closing.
    unfold toks. rewrite flat_map_app, <- Hbits. cbn [flat_map].
    rewrite app_nil_r. reflexivity. }
  assert (Hall : Forall (fun t => 0 <= snd t <= 16 /\ 0 <= fst t < 2 ^ snd t)
                        toks).
  { unfold toks. apply Forall_app. split.
    - eapply Forall_impl; [exact Htok|].
      intros t (Ha & Hb' & Hc). lia.
    - constructor; [|constructor]. cbn [fst snd].
      unfold closing. destruct isFinal; lia. }
  assert (Hlen : Z.of_nat (List.length (flat_map tokenBits toks))
                 <= 16 * (length + 1)).
  { etransitivity.
    - apply tokenBits_length_16.
      eapply Forall_impl; [exact Hall|]. intros t Ht'. cbn beta in *. lia.
    - unfold toks. rewrite length_app. cbn [List.length]. lia. }
  set (bits := flat_map tokenBits toks) in *.
  destruct (compressBody_bytes bits) as (Hblen & Hbytes & Hval).
  pose proof (Z.div_mod (Z.of_nat (List.length bits) + 7) 8 ltac:(lia)) as Hdm.
  pose proof (Z.mod_pos_bound (Z.of_nat (List.length bits) + 7) 8 ltac:(lia))
    as Hmod.
  destruct (goodBuffer_open (compressBody bits) Hbytes) as (Hgood & Hc & Hl).
  { unfold size_. rewrite Hblen. lia. }
  destruct (readCodes_tokens toks (open (compressBody bits)) [] Hgood Hall)
    as (b' & Hread & _ & _).
  - rewrite Hc, Hval, app_nil_r. reflexivity.
  - rewrite Hl. unfold size_. rewrite Hblen. fold bits. lia.
  - exists bits, b'. split; [exact Hend|].
    unfold toks in Hread. rewrite !map_app in Hread. exact Hread.
Qed.

(** The final block of the pixels 0,1,0,1,0,1 with code size 2: the
    tokens 0, 1, 6, 6 and the end-of-stream code 5. *)
Lemma gif_block_reads_back_witness :
  exists bits b',
    endOfBlock (l_enc (runBlock (new [0; 1; 0; 1; 0; 1] true) (gifSettings 2)
                                0 6 true))
               4 5 true 4
               (l_result (runBlock (new [0; 1; 0; 1; 0; 1] true)
                                   (gifSettings 2) 0 6 true))
    = Ok bits
    /\ readCodes [3; 3; 3; 4; 4] (open (compressBody bits))
       = Ok ([0; 1; 6; 6; 5], b').
Proof.
  destruct (gif_block_reads_back (new [0; 1; 0; 1; 0; 1] true) (gifSettings 2)
              0 6 true) as (bits & b' & Hend & Hread).
  - unfold blockReady. cbn.
    repeat split; try lia; try discriminate; repeat constructor; lia.
  - reflexivity.
  - lia.
  - exists bits, b'. split; [exact Hend | exact Hread].
Defined.

End BlockReadBack.

(** ** The cost table [m_best] *)

Module BestTableProps.

Import LzwEncoder Statements EncoderInvariant EncoderLoopProps.

Lemma frameOf_refl ro fa best : frameOf ro fa best best.
Proof. repeat split. Qed.

Lemma frameOf_trans ro fa a b c :
  frameOf ro fa a b -> frameOf ro fa b c -> frameOf ro fa a c.
Proof.
  intros (H1 & H2 & H3) (H4 & H5 & H6). repeat split.
  - congruence.
  - intros k Hk. rewrite (H5 k Hk). now apply H2.
  - intros Hro. rewrite (H6 Hro). now apply H3.
Qed.

Lemma frameOf_record fa best (c : bool) x :
  frameOf false fa best (if c then <[Z.to_nat fa := x]> best else best).
Proof.
  destruct c; [|apply frameOf_refl]. repeat split.
  - apply length_insert.
  - intros k Hk. apply list_lookup_insert_ne. congruence.
  - discriminate.
Qed.

Lemma costEvaluation_frame s from fa i st :
  frameOf (readOnlyBest s) fa (m_best (l_enc st)) (costEvaluation s from fa i st).
Proof.
  unfold costEvaluation. cbv zeta.
  destruct (readOnlyBest s); [apply frameOf_refl|].
  destruct (negb _ && (bb_totalBits _ =? 0)); [apply frameOf_refl|].
  destruct ((1 <? alignment s) && _ && _); [apply frameOf_refl|].
  destruct (m_isGif (l_enc st)); [apply frameOf_record|].
  destruct (negb _ && (l_codeSize st <? 16)); [apply frameOf_refl|].
  apply frameOf_record.
Qed.

Lemma emitToken_best s from len emit i st st' :
  emitToken s from len emit i st = Some st' ->
  m_best (l_enc st') = m_best (l_enc st) /\ m_data (l_enc st') = m_data (l_enc st).
Proof.
  unfold emitToken. cbv zeta. intros H.
  destruct ((0 <? maxDictionary s) && _); [discriminate H|].
  destruct ((0 <? maxTokens s) && _); [discriminate H|].
  destruct (chooseMatch _ _ _ _) as [ml ng].
  pose proof (addCode_fields (l_enc st) i ml) as Hf. cbv zeta in Hf.
  destruct (addCode (l_enc st) i ml) as [code e'].
  injection H as <-. loop_fields. cbn [snd] in Hf. tauto.
Qed.

Lemma iteration_frame s from len emit fa i st st' :
  iteration s from len emit fa i st = Some st' ->
  frameOf (readOnlyBest s) fa (m_best (l_enc st)) (m_best (l_enc st'))
  /\ m_data (l_enc st') = m_data (l_enc st).
Proof.
  unfold iteration. intros H.
  assert (Hst1 : exists st1,
            (if l_matchLength st =? 0 then emitToken s from len emit i st
             else Some st) = Some st1
            /\ m_best (l_enc st1) = m_best (l_enc st)
            /\ m_data (l_enc st1) = m_data (l_enc st)).
  { destruct (l_matchLength st =? 0).
    - destruct (emitToken s from len emit i st) as [st1|] eqn:He;
        [|discriminate H].
      exists st1. split; [reflexivity|]. now apply emitToken_best in He.
    - exists st. auto. }
  destruct Hst1 as (st1 & Heq & Hb & Hd). rewrite Heq in H. cbn in H.
  injection H as <-. loop_fields. split; [|exact Hd].
  rewrite <- Hb.
  apply (costEvaluation_frame s from fa i
           (setMatchLength st1 (u32 (l_matchLength st1 - 1)))).
Qed.

Lemma processInput_frame s from len emit fa n : forall i st,
  let st' := processInput s from len emit fa n i st in
  frameOf (readOnlyBest s) fa (m_best (l_enc st)) (m_best (l_enc st'))
  /\ m_data (l_enc st') = m_data (l_enc st).
Proof.
  induction n as [|n IH]; intros i st; cbn [processInput].
  - split; [apply frameOf_refl | reflexivity].
  - destruct (iteration s from len emit fa i st) as [st1|] eqn:Hit.
    + apply iteration_frame in Hit as (Hf & Hd).
      destruct (IH (u32 (i + 1)) st1) as (Hf' & Hd').
      split; [eapply frameOf_trans; eassumption | congruence].
    + split; [apply frameOf_refl | reflexivity].
Qed.

Lemma runBlock_frame e s from len emit :
  let st := runBlock e s from len emit in
  frameOf (readOnlyBest s) (from / alignment s) (m_best e) (m_best (l_enc st))
  /\ m_data (l_enc st) = m_data e.
Proof.
  cbv zeta. unfold runBlock. cbv zeta.
  apply (processInput_frame s from len emit (from / alignment s) _ from
           (initLoop e s)).
Qed.

(** X10 -- A run of the main loop over the block that starts at [from]
    writes no entry of the cost table other than its own,
    [m_best[from / alignment]]: the table keeps its length and every
    other entry, and the data is never changed. *)
Theorem runBlock_writes_only_its_entry e s from len emit (k : nat) :
  k <> Z.to_nat (from / alignment s) ->
  let st := runBlock e s from len emit in
  m_best (l_enc st) !! k = m_best e !! k
  /\ List.length (m_best (l_enc st)) = List.length (m_best e)
  /\ m_data (l_enc st) = m_data e.
Proof.
  intros Hk. cbv zeta.
  destruct (runBlock_frame e s from len emit) as ((Hlen & Hother & _) & Hd).
  split; [now apply Hother|]. split; assumption.
Qed.

(** Scoring the block at offset 2 of 0,1,0,1,0,1 leaves entry 4 as it
    was. *)
Lemma runBlock_writes_only_its_entry_witness :
  let e := withBest (new [0; 1; 0; 1; 0; 1] true) (repeat noBlock 8) in
  m_best (l_enc (runBlock e (gifSettings 2) 2 4 false)) !! 4%nat = Some noBlock
  /\ bb_length (bestAt (m_best (l_enc (runBlock e (gifSettings 2) 2 4 false))) 2)
     = 4.
Proof.
  intro e. split; [|vm_compute; reflexivity].
  destruct (runBlock_writes_only_its_entry e (gifSettings 2) 2 4 false 4)
    as (H & _).
  - vm_compute. discriminate.
  - rewrite H. reflexivity.
Defined.

Lemma allocateBest_nonempty e s e1 :
  m_best e <> [] -> allocateBest e s = Ok e1 -> e1 = e.
Proof.
  unfold allocateBest. destruct (m_best e); [contradiction|].
  intros _ H. now apply Ok_inj in H.
Qed.

Lemma readOnlyBest_fixAlignment s :
  readOnlyBest (fixAlignment s) = readOnlyBest s.
Proof. unfold fixAlignment. destruct (alignment s =? 0); reflexivity. Qed.

Lemma optimizePartial_readOnly e from maxLength isFinal s bits e' :
  m_best e <> [] -> readOnlyBest s = true ->
  optimizePartial e from maxLength true isFinal s = Ok (bits, e') ->
  m_best e' = m_best e /\ m_data e' = m_data e.
Proof.
  intros Hne Hro H.
  apply BlockProps.optimizePartial_emit in H as (e1 & Halloc & He' & _).
  apply (allocateBest_nonempty e s e1 Hne) in Halloc. subst e1 e'.
  destruct (runBlock_frame e (fixAlignment s) from (blockLength e from maxLength)
              true) as ((_ & _ & Hsame) & Hd).
  split; [|exact Hd]. apply Hsame. now rewrite readOnlyBest_fixAlignment.
Qed.

Lemma mergeLoop_readOnly rest : forall e s count idx pos result bits e',
  m_best e <> [] ->
  mergeLoop e s count rest idx pos result = Ok (bits, e') ->
  m_best e' = m_best e /\ m_data e' = m_data e.
Proof.
  induction rest as [|r rest IH]; intros e s count idx pos result bits e' Hne H.
  - cbn in H. apply Ok_inj in H. injection H as _ <-. auto.
  - cbn [mergeLoop] in H.
    destruct (r =? 0); [now apply IH in H|].
    cbv zeta in H.
    destruct (match m_best e with
              | [] => Ok s
              | _ => _
              end) as [s1|msg] eqn:Hs1; [|discriminate H].
    cbn in H.
    destruct (optimizePartial e pos (u32 (r - pos)) true (idx =? count - 1)
                (setReadOnlyBest s1 true)) as [[block e1]|msg] eqn:Hop;
      [|discriminate H].
    cbn in H.
    apply optimizePartial_readOnly in Hop as (Hb & Hd);
      [|exact Hne|reflexivity].
    destruct ((match block with [] => true | _ => false end) && _);
      [discriminate H|].
    apply IH in H as (Hb' & Hd'); [|congruence].
    split; congruence.
Qed.

(** X11 -- [merge] only reads the cost table: when [m_best] has been
    allocated, a successful [merge] returns the encoder with [m_best]
    and [m_data] exactly as they were. *)
Theorem merge_leaves_best_unchanged e restarts s bits e' :
  m_best e <> [] ->
  merge e restarts s = Ok (bits, e') ->
  m_best e' = m_best e /\ m_data e' = m_data e.
Proof.
  intros Hne H. unfold merge in H. cbv zeta in H.
  destruct restarts as [|r rs].
  - apply Ok_inj in H. injection H as _ <-. auto.
  - now apply mergeLoop_readOnly in H.
Qed.

(** Merging the one block of 0,1,0,1,0,1 with an allocated table. *)
Lemma merge_leaves_best_unchanged_witness :
  let e := withBest (new [0; 1; 0; 1; 0; 1] true) (repeat noBlock 8) in
  exists bits e', merge e [6] (gifSettings 2) = Ok (bits, e')
                  /\ m_best e' = repeat noBlock 8.
Proof.
  intro e.
  destruct (merge e [6] (gifSettings 2)) as [[bits e']|msg] eqn:Hm;
    [|vm_compute in Hm; discriminate Hm].
  exists bits, e'. split; [reflexivity|].
  destruct (merge_leaves_best_unchanged e [6] (gifSettings 2) bits e') as (H & _).
  - vm_compute. discriminate.
  - exact Hm.
  - exact H.
Defined.

End BestTableProps.

(** ** The restart search of optimize *)

Module RestartProps.

Import LzwEncoder Statements EncoderInvariant.

Lemma last_cons_default (x : Z) l d : List.last (x :: l) d = List.last l x.
Proof.
  revert x d. induction l as [|y l IH]; intros x d; [reflexivity|].
  change (List.last (x :: y :: l) d) with (List.last (y :: l) d).
  now rewrite !IH.
Qed.

Lemma bestAt_length_bound best idx :
  Forall (fun b => 0 <= bb_length b < 2147483648) best ->
  0 <= bb_length (bestAt best idx) < 2147483648.
Proof.
  intros Hall. unfold bestAt.
  destruct (best !! Z.to_nat idx) as [b|] eqn:Hl; cbn.
  - rewrite Forall_forall in Hall. apply Hall.
    eapply list_elem_of_lookup_2. exact Hl.
  - lia.
Qed.

Lemma findRestarts_steps e s fuel : forall pos aligned acc,
  size_ (m_data e) < 2147483648 ->
  Forall (fun b => 0 <= bb_length b < 2147483648) (m_best e) ->
  0 <= pos -> size_ (m_data e) - pos <= Z.of_nat fuel ->
  match findRestarts e s fuel pos aligned acc with
  | Ok rs => exists new, rs = acc ++ new /\ increasingFrom pos new
                         /\ size_ (m_data e) <= List.last new pos
                         /\ (new <> [] -> alignment s <> 0)
  | Err msg =>
      msg = "you need to choose a smaller alignment value or increase the token limit because there is a gap between two blocks"%string
      \/ (alignment s = 0 /\ msg = "undefined: division by zero"%string)
  end.
Proof.
  induction fuel as [|fuel IH]; intros pos aligned acc Hsize Hall Hpos Hfuel.
  - cbn [findRestarts].
    destruct (Z.leb_spec (size_ (m_data e)) pos) as [Hdone|Hmore]; [|lia].
    exists []. rewrite app_nil_r. cbn. repeat split; auto.
  - cbn [findRestarts].
    destruct (Z.leb_spec (size_ (m_data e)) pos) as [Hdone|Hmore].
    + exists []. rewrite app_nil_r. cbn. repeat split; auto.
    + cbv zeta.
      pose proof (bestAt_length_bound (m_best e) aligned Hall) as Hlen.
      destruct (Z.eqb_spec (bb_length (bestAt (m_best e) aligned)) 0)
        as [H0|Hne]; [now left|].
      destruct (Z.eqb_spec (alignment s) 0) as [Ha0|Ha]; [now right|].
      set (len := bb_length (bestAt (m_best e) aligned)) in *.
      rewrite (u32_small (pos + len)) by lia.
      specialize (IH (pos + len) ((pos + len) / alignment s)
                     (acc ++ [pos + len]) Hsize Hall ltac:(lia) ltac:(lia)).
      destruct (findRestarts e s fuel (pos + len) _ _) as [rs|msg];
        [|exact IH].
      destruct IH as (new & -> & Hinc & Hlast & _).
      exists ((pos + len) :: new). rewrite <- app_assoc. cbn [app].
      split; [reflexivity|]. split; [|split].
      * cbn [increasingFrom]. split; [lia | exact Hinc].
      * rewrite last_cons_default. exact Hlast.
      * intros _. exact Ha.
Qed.



(** With an alignment of 0 the same search stops at the division of
    its first step. *)
Lemma findRestarts_alignment_zero :
  let best := [mkBest 2 0 0 0 0 false; noBlock; mkBest 4 0 0 0 0 false] in
  let e := withBest (new [0; 1; 0; 1; 0; 1] true) best in
  findRestarts e (setAlignment (gifSettings 2) 0) 6 0 0 []
  = Err "undefined: division by zero".
Proof. reflexivity. Qed.

End RestartProps.

(** ** GIF data sub-blocks: writer and reader *)

Module GifFramingProps.

Import BinaryInputBuffer LzwDecoder Container Statements Values.
Import ReaderContent GifFraming.
Import BitOutputProps ReaderContentProps WriterProps.

Lemma split_low low X r n :
  0 <= low < 2 ^ r -> 0 <= n <= r ->
  (low + 2 ^ r * X) mod 2 ^ n = low mod 2 ^ n
  /\ (low + 2 ^ r * X) / 2 ^ n = low / 2 ^ n + 2 ^ (r - n) * X.
Proof.
  intros Hlow Hn.
  assert (Hpos : 0 < 2 ^ n) by (apply Z.pow_pos_nonneg; lia).
  assert (Hr : 2 ^ r = 2 ^ (r - n) * 2 ^ n).
  { rewrite <- Z.pow_add_r by lia. f_equal. lia. }
  rewrite Hr.
  replace (low + 2 ^ (r - n) * 2 ^ n * X) with (low + (2 ^ (r - n) * X) * 2 ^ n)
    by ring.
  split.
  - apply Z.mod_add. lia.
  - apply Z.div_add. lia.
Qed.

Lemma split_high low X r n :
  0 <= low < 2 ^ r -> 0 <= r <= n ->
  (low + 2 ^ r * X) mod 2 ^ n = low + 2 ^ r * (X mod 2 ^ (n - r))
  /\ (low + 2 ^ r * X) / 2 ^ n = X / 2 ^ (n - r).
Proof.
  intros Hlow Hn.
  assert (HA : 0 < 2 ^ r) by (apply Z.pow_pos_nonneg; lia).
  assert (HB : 0 < 2 ^ (n - r)) by (apply Z.pow_pos_nonneg; lia).
  assert (Hn2 : 2 ^ n = 2 ^ r * 2 ^ (n - r)).
  { rewrite <- Z.pow_add_r by lia. f_equal. lia. }
  pose proof (Z.div_mod X (2 ^ (n - r)) ltac:(lia)) as Hdm.
  pose proof (Z.mod_pos_bound X (2 ^ (n - r)) ltac:(lia)) as Hm.
  set (A := 2 ^ r) in *. set (B := 2 ^ (n - r)) in *.
  set (q := X / B) in *. set (m := X mod B) in *.
  rewrite Hn2.
  assert (Hrange : 0 <= low + A * m < A * B) by nia.
  assert (Heq : low + A * X = A * B * q + (low + A * m)) by (rewrite Hdm; ring).
  split.
  - symmetry. apply (Z.mod_unique_pos _ _ q); assumption.
  - symmetry. apply (Z.div_unique_pos _ _ q (low + A * m)); assumption.
Qed.

Lemma size_app (l1 l2 : list Z) : size_ (l1 ++ l2) = size_ l1 + size_ l2.
Proof. unfold size_. rewrite length_app. lia. Qed.

Lemma bytesVal_app l1 : forall l2,
  bytesVal (l1 ++ l2) = bytesVal l1 + 2 ^ (8 * size_ l1) * bytesVal l2.
Proof.
  induction l1 as [|x l1 IH]; intros l2.
  - cbn [app bytesVal]. change (2 ^ (8 * size_ [])) with 1. lia.
  - cbn [app bytesVal]. rewrite IH.
    replace (8 * size_ (x :: l1)) with (8 + 8 * size_ l1)
      by (unfold size_; cbn [length]; lia).
    rewrite Z.pow_add_r by (unfold size_; lia).
    change (2 ^ 8) with 256. ring.
Qed.

Lemma bytesVal_lt l :
  Forall (fun x => 0 <= x < 256) l -> 0 <= bytesVal l < 2 ^ (8 * size_ l).
Proof.
  induction 1 as [|x l Hx _ IH].
  - cbn [bytesVal]. change (2 ^ (8 * size_ [])) with 1. lia.
  - cbn [bytesVal].
    replace (8 * size_ (x :: l)) with (8 + 8 * size_ l)
      by (unfold size_; cbn [length]; lia).
    rewrite Z.pow_add_r by (unfold size_; lia).
    change (2 ^ 8) with 256. lia.
Qed.

Lemma inputBits_content n d :
  goodBuffer (m_input d) -> 0 <= n <= 16 -> n <= m_bitsLeft (m_input d) ->
  exists b2,
    inputBits n d = Ok (content (m_input d) mod 2 ^ n, setInput d b2)
    /\ content b2 = content (m_input d) / 2 ^ n
    /\ goodBuffer b2
    /\ m_bitsLeft b2 = m_bitsLeft (m_input d) - n.
Proof.
  intros Hg Hn Hle.
  destruct (getBits_content (m_input d) n Hg Hn Hle) as (b2 & Hget & H1 & H2 & H3).
  exists b2. unfold inputBits. rewrite Hget. cbn. auto.
Qed.

Lemma inputByte_content d :
  goodBuffer (m_input d) -> 8 <= m_bitsLeft (m_input d) ->
  exists b2,
    inputByte d = Ok (content (m_input d) mod 256, setInput d b2)
    /\ content b2 = content (m_input d) / 256
    /\ goodBuffer b2
    /\ m_bitsLeft b2 = m_bitsLeft (m_input d) - 8.
Proof.
  intros Hg Hle.
  destruct (getBits_content (m_input d) 8 Hg ltac:(lia) Hle)
    as (b2 & Hget & H1 & H2 & H3).
  exists b2. unfold inputByte, getByte. rewrite Hget.
  change (2 ^ 8) with 256 in *.
  pose proof (Z.mod_pos_bound (content (m_input d)) 256 ltac:(lia)).
  cbn. rewrite u8_small by lia. auto.
Qed.

Ltac dec_fields :=
  unfold setInput, setBytes, setBitsLeftInCurrentBlock, setNumBitsOriginalLZW;
  cbn [m_input m_bytes m_isGif m_codeSize m_bitsLeftInCurrentBlock
       m_numBitsOriginalLZW].

Lemma frames_cons blk rest tail :
  frames (blk :: rest) ++ tail = size_ blk :: (blk ++ frames rest ++ tail).
Proof. unfold frames. cbn [flat_map]. now rewrite <- !app_assoc. Qed.

Lemma getLzwBits_inFrames d r low blocks tail n :
  inFrames d r low blocks tail -> 1 <= n <= 16 -> n <= payloadBits r blocks ->
  exists d' r' low' blocks',
    getLzwBits n d = Ok (payload r low blocks mod 2 ^ n, d')
    /\ inFrames d' r' low' blocks' tail
    /\ payload r' low' blocks' = payload r low blocks / 2 ^ n
    /\ payloadBits r' blocks' = payloadBits r blocks - n
    /\ m_numBitsOriginalLZW d' = u32 (m_numBitsOriginalLZW d + n)
    /\ m_bytes d' = m_bytes d.
Proof.
  intros (Hgif & Hgood & Hr & Hr0 & Hlow & Hcont & Hleft & Hblocks) Hn Hbits.
  destruct d as [inp bytes gif cs r0 num]. cbn [m_input m_bytes m_isGif m_codeSize m_bitsLeftInCurrentBlock m_numBitsOriginalLZW] in *.
  subst gif r0.
  unfold getLzwBits, payload, payloadBits in *.
  destruct (Z.eqb_spec n 0) as [|_]; [lia|].
  cbv zeta. dec_fields. cbn [negb].
  destruct (Z.leb_spec n r) as [Hin|Hcross].
  - (* inside the current block *)
    rewrite (u32_small (r - n)) by lia.
    assert (Hle : n <= m_bitsLeft inp) by (unfold size_ in *; lia).
    destruct (inputBits_content n
                (mkDecoder inp bytes true cs (r - n) (u32 (num + n)))
                Hgood ltac:(lia) Hle)
      as (b2 & Hget & Hc2 & Hg2 & Hl2).
    rewrite Hget. dec_fields. cbn [m_input] in *.
    rewrite Hcont in *.
    destruct (split_low low (bytesVal (frames blocks ++ tail)) r n Hlow ltac:(lia))
      as (Hm1 & Hd1).
    destruct (split_low low (bytesVal (concat blocks)) r n Hlow ltac:(lia))
      as (Hm2 & Hd2).
    exists (mkDecoder b2 bytes true cs (r - n) (u32 (num + n))), (r - n),
           (low / 2 ^ n), blocks.
    rewrite Hm1, Hm2, Hd2. split; [reflexivity|].
    assert (Hpn : 0 < 2 ^ n) by (apply Z.pow_pos_nonneg; lia).
    assert (Hlow' : 0 <= low / 2 ^ n < 2 ^ (r - n)).
    { split; [apply Z.div_pos; lia|].
      apply Z.div_lt_upper_bound; [lia|].
      rewrite <- Z.pow_add_r by lia. replace (n + (r - n)) with r by lia. lia. }
    split; [|dec_fields; repeat split; lia].
    unfold inFrames. dec_fields.
    split; [reflexivity|]. split; [exact Hg2|].
    repeat split; try lia; try assumption.
  - (* across a block border *)
    destruct blocks as [|blk rest].
    { cbn in Hbits. change (size_ []) with 0 in Hbits. lia. }
    cbn [goodBlocks] in Hblocks. destruct Hblocks as (Hblk & Hsz & Hrest).
    rewrite frames_cons in Hcont, Hleft.
    cbn [concat] in *. rewrite size_app in Hbits.
    set (X := bytesVal (size_ blk :: blk ++ frames rest ++ tail)) in *.
    (* the bits left in the current block *)
    assert (Hfirst : exists d1,
      (if 0 <? r
       then '(low0, d') ← inputBits (u8 r)
                          (mkDecoder inp bytes true cs r (u32 (num + n)));
            Ok (low0, u8 r, u8 (n - r), d')
       else Ok (0, 0, n, mkDecoder inp bytes true cs r (u32 (num + n))))
      = Ok (low, r, n - r, d1)
      /\ goodBuffer (m_input d1) /\ content (m_input d1) = X
      /\ m_bitsLeft (m_input d1)
         = 8 * size_ (size_ blk :: blk ++ frames rest ++ tail)
      /\ m_isGif d1 = true /\ m_bytes d1 = bytes /\ m_codeSize d1 = cs
      /\ m_numBitsOriginalLZW d1 = u32 (num + n)).
    { destruct (Z.ltb_spec 0 r) as [Hpos|Hzero].
      - rewrite (u8_small r), (u8_small (n - r)) by lia.
        assert (Hle : r <= m_bitsLeft inp) by (unfold size_ in *; lia).
        destruct (inputBits_content r
                    (mkDecoder inp bytes true cs r (u32 (num + n)))
                    Hgood ltac:(lia) Hle)
          as (b1 & Hget & Hc1 & Hg1 & Hl1).
        rewrite Hget. cbn [m_input] in *.
        destruct (split_low low X r r Hlow ltac:(lia)) as (Hm & Hd).
        rewrite Hcont, Hm, Hd in *.
        rewrite Z.mod_small, Z.div_small, Z.sub_diag in * by lia.
        exists (mkDecoder b1 bytes true cs r (u32 (num + n))). dec_fields.
        split; [reflexivity|]. split; [exact Hg1|].
        change (2 ^ 0) with 1 in *.
        repeat split; try assumption; try lia.
      - assert (r = 0) by lia. subst r.
        change (2 ^ 0) with 1 in *. assert (low = 0) by lia. subst low.
        exists (mkDecoder inp bytes true cs 0 (u32 (num + n))). dec_fields.
        rewrite Z.sub_0_r. split; [reflexivity|]. split; [exact Hgood|].
        repeat split; try assumption; lia. }
    destruct Hfirst as (d1 & Hfirst & Hg1 & Hc1 & Hl1 & Hgif1 & Hb1 & Hcs1 & Hnum1).
    rewrite Hfirst. clear Hfirst.
    destruct d1 as [inp1 bytes1 gif1 cs1 r1 num1].
    cbn [m_input m_bytes m_isGif m_codeSize m_bitsLeftInCurrentBlock
         m_numBitsOriginalLZW] in *.
    subst gif1 bytes1 cs1 num1.
    cbn [mbind outcome_bind rbind].
    (* the length byte of the next block *)
    set (Y := bytesVal (blk ++ frames rest ++ tail)) in *.
    assert (HX : X = size_ blk + 256 * Y) by reflexivity.
    assert (Hsz0 : 1 <= size_ blk <= 255) by (destruct rest; lia).
    assert (Hsize : size_ (size_ blk :: blk ++ frames rest ++ tail)
                    = 1 + size_ blk + size_ (frames rest ++ tail)).
    { unfold size_. cbn [length]. rewrite length_app. lia. }
    assert (Hrestpos : 0 <= size_ (frames rest ++ tail)) by (unfold size_; lia).
    assert (Hcat : 0 <= size_ (concat rest)) by (unfold size_; lia).
    destruct (inputByte_content
                (mkDecoder inp1 bytes true cs r1 (u32 (num + n))) Hg1
                ltac:(cbn [m_input]; lia))
      as (b2 & Hbyte & Hc2 & Hg2 & Hl2).
    cbn [m_input] in Hbyte, Hc2, Hl2.
    assert (Hmod : content inp1 mod 256 = size_ blk).
    { rewrite Hc1, HX.
      replace (size_ blk + 256 * Y) with (size_ blk + Y * 256) by ring.
      rewrite Z.mod_add by lia. apply Z.mod_small. lia. }
    assert (Hdiv : content inp1 / 256 = Y).
    { rewrite Hc1, HX.
      replace (size_ blk + 256 * Y) with (size_ blk + Y * 256) by ring.
      rewrite Z.div_add by lia. rewrite Z.div_small by lia. lia. }
    rewrite Hmod in Hbyte. rewrite Hdiv in Hc2.
    rewrite Hbyte. cbn [mbind outcome_bind rbind]. dec_fields.
    rewrite (u32_small (8 * size_ blk)) by lia.
    assert (Henough : n - r <= 8 * size_ blk).
    { destruct rest as [|b0 rest0]; [|lia].
      change (size_ (concat [])) with 0 in Hbits. lia. }
    destruct (Z.ltb_spec (8 * size_ blk) (n - r)) as [Hbad|_]; [lia|].
    (* the remaining bits of the token *)
    destruct (inputBits_content (n - r)
                (mkDecoder b2 bytes true cs (8 * size_ blk) (u32 (num + n)))
                Hg2 ltac:(lia) ltac:(cbn [m_input]; lia))
      as (b3 & Hhigh & Hc3 & Hg3 & Hl3).
    cbn [m_input] in Hhigh, Hc3, Hl3.
    rewrite Hc2 in Hhigh, Hc3.
    rewrite Hhigh. cbn [mbind outcome_bind rbind]. dec_fields.
    pose proof (bytesVal_lt blk Hblk) as HlowB.
    assert (HY : Y = bytesVal blk + 2 ^ (8 * size_ blk) * bytesVal (frames rest ++ tail)).
    { unfold Y. now rewrite bytesVal_app. }
    destruct (split_low (bytesVal blk) (bytesVal (frames rest ++ tail))
                (8 * size_ blk) (n - r) HlowB ltac:(lia)) as (HmY & HdY).
    rewrite <- HY in HmY, HdY.
    set (Z0 := bytesVal (blk ++ concat rest)) in *.
    assert (HZ : Z0 = bytesVal blk + 2 ^ (8 * size_ blk) * bytesVal (concat rest)).
    { unfold Z0. now rewrite bytesVal_app. }
    destruct (split_low (bytesVal blk) (bytesVal (concat rest))
                (8 * size_ blk) (n - r) HlowB ltac:(lia)) as (HmZ & HdZ).
    rewrite <- HZ in HmZ, HdZ.
    destruct (split_high low Z0 r n Hlow ltac:(lia)) as (HmP & HdP).
    assert (Hpnr : 0 < 2 ^ (n - r)) by (apply Z.pow_pos_nonneg; lia).
    pose proof (Z.mod_pos_bound (bytesVal blk) (2 ^ (n - r)) Hpnr) as Hv.
    set (v := bytesVal blk mod 2 ^ (n - r)) in *.
    assert (Hvn : v * 2 ^ r < 2 ^ 16).
    { assert (2 ^ (n - r) * 2 ^ r <= 2 ^ 16).
      { rewrite <- Z.pow_add_r by lia. apply Z.pow_le_mono_r; lia. }
      assert (0 < 2 ^ r) by (apply Z.pow_pos_nonneg; lia). nia. }
    assert (Hlow' : 0 <= bytesVal blk / 2 ^ (n - r) < 2 ^ (8 * size_ blk - (n - r))).
    { split; [apply Z.div_pos; lia|].
      apply Z.div_lt_upper_bound; [lia|].
      rewrite <- Z.pow_add_r by lia.
      replace (n - r + (8 * size_ blk - (n - r))) with (8 * size_ blk) by lia.
      lia. }
    exists (mkDecoder b3 bytes true cs (8 * size_ blk - (n - r)) (u32 (num + n))),
           (8 * size_ blk - (n - r)), (bytesVal blk / 2 ^ (n - r)), rest.
    split.
    { f_equal. f_equal.
      - rewrite HmP, HmZ, HmY.
        rewrite Z.shiftl_mul_pow2 by lia.
        assert (0 < 2 ^ r) by (apply Z.pow_pos_nonneg; lia).
        change (2 ^ 16) with 65536 in Hvn.
        rewrite u32_small by nia.
        rewrite <- Z.shiftl_mul_pow2 by lia.
        rewrite lor_shiftl_add by lia. ring.
      - rewrite u32_small by lia. reflexivity. }
    split.
    { unfold inFrames. dec_fields.
      split; [reflexivity|]. split; [exact Hg3|].
      repeat split; try lia; try assumption. }
    dec_fields. rewrite HdP, HdZ, size_app.
    repeat split; lia.
Qed.


(** X13 -- Reading through GIF sub-blocks of at least two bytes is
    transparent: for a decoder that stands inside a sequence of
    sub-blocks in which every block but the last holds at least two
    bytes (one read opens at most one further block), with enough LZW
    data left, [getLzwBits(n)] with [1 <= n <= 16] succeeds and
    returns the next [n] bits of the LZW data, whether or not they
    cross a block border; the length byte of the next block is
    skipped, the data left is the old data without those [n] bits,
    [m_numBitsOriginalLZW] grows by [n] and [m_bytes] is untouched. *)
Theorem getLzwBits_reads_through_blocks d r low blocks tail n :
  inFrames d r low blocks tail -> 1 <= n <= 16 -> n <= payloadBits r blocks ->
  exists d' r' low' blocks',
    getLzwBits n d = Ok (payload r low blocks mod 2 ^ n, d')
    /\ inFrames d' r' low' blocks' tail
    /\ payload r' low' blocks' = payload r low blocks / 2 ^ n
    /\ payloadBits r' blocks' = payloadBits r blocks - n
    /\ m_numBitsOriginalLZW d' = u32 (m_numBitsOriginalLZW d + n)
    /\ m_bytes d' = m_bytes d.
Proof. exact (getLzwBits_inFrames d r low blocks tail n). Qed.

(** Sub-blocks of one byte are not read through: twelve bits of the
    blocks AB and CD need a second block to be opened in one read,
    and the read throws with data left. *)
Lemma getLzwBits_one_byte_blocks :
  getLzwBits 12 (mkDecoder (open [1; 171; 1; 205; 0]) [] true 2 0 0)
  = Err "too few bits available in unlzw".
Proof. reflexivity. Qed.

(** Twelve bits at the start of the block AB CD. *)
Lemma getLzwBits_reads_through_blocks_witness :
  exists d',
    getLzwBits 12 (mkDecoder (open [2; 171; 205; 0]) [] true 2 0 0)
    = Ok (3499, d').
Proof.
  destruct (goodBuffer_open [2; 171; 205; 0]) as (Hg & Hc & Hl);
    [repeat constructor; lia | vm_compute; reflexivity |].
  destruct (getLzwBits_reads_through_blocks
              (mkDecoder (open [2; 171; 205; 0]) [] true 2 0 0)
              0 0 [[171; 205]] [0] 12)
    as (d' & r' & low' & blocks' & Hget & _).
  - unfold inFrames.
    cbn [m_isGif m_input m_bitsLeftInCurrentBlock goodBlocks].
    split; [reflexivity|]. split; [exact Hg|]. split; [reflexivity|].
    split; [lia|]. split; [change (2 ^ 0) with 1; lia|].
    split; [rewrite Hc; vm_compute; reflexivity|].
    split; [rewrite Hl; vm_compute; reflexivity|].
    split; [repeat constructor; lia|].
    split; [unfold size_; cbn; lia | exact I].
  - lia.
  - vm_compute. discriminate.
  - exists d'. exact Hget.
Defined.

Lemma packBytes_app a : forall b bits,
  packBytes (a + b) bits = packBytes a bits ++ packBytes b (drop (8 * a) bits).
Proof.
  induction a as [|a IH]; intros b bits.
  - reflexivity.
  - cbn [Nat.add packBytes app]. rewrite IH. rewrite drop_drop.
    replace (8 + 8 * a)%nat with (8 * S a)%nat by lia. reflexivity.
Qed.

Lemma length_packBytes count bits : length (packBytes count bits) = count.
Proof. apply (packBytes_val count bits). Qed.

Lemma chunks_nil fuel : chunks fuel [] = [].
Proof. destruct fuel; reflexivity. Qed.

Lemma gifBlocks_nil fuel : gifBlocks fuel [] = [].
Proof. destruct fuel; reflexivity. Qed.

(** The blocks that the writer makes are the packed bytes in chunks of
    255, each after its length byte. *)
Lemma gifBlocks_frames fuel : forall bits,
  (length bits <= fuel)%nat ->
  gifBlocks fuel bits = frames (chunks fuel (compressBody bits)).
Proof.
  induction fuel as [|fuel IH]; intros bits Hlen.
  - destruct bits; [reflexivity | cbn in Hlen; lia].
  - destruct bits as [|b0 bits0] eqn:Hbits; [reflexivity|].
    rewrite <- Hbits in *. 
    assert (Hpos : (1 <= length bits)%nat) by (subst bits; cbn; lia).
    assert (Hgb : gifBlocks (S fuel) bits =
              let bitsCurrentBlock := Z.min (Z.of_nat (length bits)) (255 * 8) in
              let blockSize := u8 ((bitsCurrentBlock + 7) / 8) in
              blockSize :: packBytes (Z.to_nat blockSize) bits
                ++ gifBlocks fuel (drop (8 * Z.to_nat blockSize) bits)).
    { subst bits. reflexivity. }
    rewrite Hgb. cbv zeta. clear Hgb.
    set (len := Z.of_nat (length bits)) in *.
    pose proof (Z.div_mod (len + 7) 8 ltac:(lia)) as Hdm.
    pose proof (Z.mod_pos_bound (len + 7) 8 ltac:(lia)) as Hm.
    destruct (Z.le_gt_cases len 2040) as [Hsmall|Hbig].
    + rewrite Z.min_l by lia.
      rewrite u8_small by lia.
      set (m := (len + 7) / 8) in *.
      assert (Hcb : compressBody bits = packBytes (Z.to_nat m) bits) by reflexivity.
      rewrite Hcb.
      rewrite (drop_ge bits) by (unfold len in *; lia).
      rewrite gifBlocks_nil, app_nil_r.
      assert (Hne : exists x l, packBytes (Z.to_nat m) bits = x :: l).
      { destruct (Z.to_nat m) as [|k] eqn:Hk; [lia|]. cbn [packBytes]. eauto. }
      destruct Hne as (x & l & Hxl).
      assert (Hch : chunks (S fuel) (packBytes (Z.to_nat m) bits)
                    = take 255 (packBytes (Z.to_nat m) bits)
                      :: chunks fuel (drop 255 (packBytes (Z.to_nat m) bits))).
      { rewrite Hxl. reflexivity. }
      rewrite Hch.
      rewrite take_ge by (rewrite length_packBytes; lia).
      rewrite drop_ge by (rewrite length_packBytes; lia).
      rewrite chunks_nil. unfold frames. cbn [flat_map]. rewrite app_nil_r.
      unfold size_. rewrite length_packBytes. f_equal. lia.
    + rewrite Z.min_r by lia. change (u8 ((255 * 8 + 7) / 8)) with 255.
      change (Z.to_nat 255) with 255%nat.
      set (rest := drop (8 * 255) bits).
      assert (Hrl : Z.of_nat (length rest) = len - 2040).
      { unfold rest. rewrite length_drop. unfold len in *. lia. }
      assert (Hcb : compressBody bits
                    = packBytes 255 bits ++ compressBody rest).
      { unfold compressBody. fold len. rewrite Hrl.
        replace (Z.to_nat ((len + 7) / 8))
          with (255 + Z.to_nat ((len - 2040 + 7) / 8))%nat.
        - apply packBytes_app.
        - replace (len + 7) with ((len - 2040 + 7) + 255 * 8) by lia.
          rewrite Z.div_add by lia.
          assert (0 <= (len - 2040 + 7) / 8) by (apply Z.div_pos; lia).
          lia. }
      rewrite Hcb.
      assert (Hch : chunks (S fuel) (packBytes 255 bits ++ compressBody rest)
                    = take 255 (packBytes 255 bits ++ compressBody rest)
                      :: chunks fuel (drop 255 (packBytes 255 bits ++ compressBody rest))).
      { reflexivity. }
      rewrite Hch.
      rewrite take_app_length' by (symmetry; apply length_packBytes).
      rewrite drop_app_length' by (symmetry; apply length_packBytes).
      unfold frames at 1. cbn [flat_map]. fold (frames (chunks fuel (compressBody rest))).
      rewrite <- IH by lia.
      unfold size_. rewrite length_packBytes. reflexivity.
Qed.

Lemma concat_chunks fuel : forall bytes,
  (length bytes <= fuel)%nat -> concat (chunks fuel bytes) = bytes.
Proof.
  induction fuel as [|fuel IH]; intros bytes Hlen.
  - destruct bytes; [reflexivity | cbn in Hlen; lia].
  - destruct bytes as [|x l] eqn:Hb; [reflexivity|]. rewrite <- Hb in *.
    assert (Hch : chunks (S fuel) bytes
                  = take 255 bytes :: chunks fuel (drop 255 bytes))
      by (subst bytes; reflexivity).
    rewrite Hch. cbn [concat].
    rewrite IH; [apply take_drop|].
    rewrite length_drop. assert (1 <= length bytes)%nat by (subst; cbn; lia).
    lia.
Qed.

Lemma goodBlocks_chunks fuel : forall bytes,
  Forall (fun x => 0 <= x < 256) bytes -> goodBlocks (chunks fuel bytes).
Proof.
  induction fuel as [|fuel IH]; intros bytes Hall; [exact I|].
  destruct bytes as [|x l] eqn:Hb; [exact I|]. rewrite <- Hb in *.
  assert (Hpos : (1 <= length bytes)%nat) by (subst; cbn; lia).
  assert (Hch : chunks (S fuel) bytes
                = take 255 bytes :: chunks fuel (drop 255 bytes))
    by (subst bytes; reflexivity).
  rewrite Hch. cbn [goodBlocks].
  split; [now apply Forall_take|].
  split; [|apply IH; now apply Forall_drop].
  unfold size_. rewrite length_take.
  destruct (chunks fuel (drop 255 bytes)) as [|c cs] eqn:Hrest; [lia|].
  assert (drop 255 bytes <> []).
  { intros Hnil. rewrite Hnil, chunks_nil in Hrest. discriminate. }
  assert (255 < length bytes)%nat.
  { destruct (Nat.le_gt_cases (length bytes) 255) as [Hle|Hgt]; [|exact Hgt].
    exfalso. apply H. now apply drop_ge. }
  lia.
Qed.

Lemma frames_bytes blocks :
  goodBlocks blocks -> Forall (fun x => 0 <= x < 256) (frames blocks).
Proof.
  induction blocks as [|blk rest IH]; intros Hg; [constructor|].
  cbn [goodBlocks] in Hg. destruct Hg as (Hblk & Hsz & Hrest).
  unfold frames. cbn [flat_map]. fold (frames rest).
  constructor; [destruct rest; lia|].
  apply Forall_app. split; [exact Hblk | now apply IH].
Qed.

(** Reading tokens through the sub-blocks. *)
Lemma readLzw_tokens toks : forall d r low blocks tail rest,
  inFrames d r low blocks tail ->
  Forall (fun t => 1 <= snd t <= 16 /\ 0 <= fst t < 2 ^ snd t) toks ->
  payload r low blocks = bitsVal (flat_map tokenBits toks ++ rest) ->
  Z.of_nat (length (flat_map tokenBits toks)) <= payloadBits r blocks ->
  exists d' r' low' blocks',
    readLzw (map snd toks) d = Ok (map fst toks, d')
    /\ inFrames d' r' low' blocks' tail
    /\ payload r' low' blocks' = bitsVal rest
    /\ m_bytes d' = m_bytes d.
Proof.
  induction toks as [|[c w] toks IH];
    intros d r low blocks tail rest Hin Hall Hpay Hbits.
  - exists d, r, low, blocks. cbn in *. auto.
  - inversion Hall as [|? ? [Hw Hc] Hall']; subst. cbn [fst snd] in Hw, Hc.
    cbn [flat_map] in Hpay, Hbits. rewrite <- app_assoc in Hpay.
    rewrite length_app in Hbits.
    assert (Hlen : length (tokenBits (c, w)) = Z.to_nat w)
      by (unfold tokenBits; apply length_addBits').
    destruct (getLzwBits_inFrames d r low blocks tail w Hin Hw ltac:(lia))
      as (d1 & r1 & low1 & blocks1 & Hget & Hin1 & Hp1 & Hb1 & _ & Hbytes1).
    destruct (content_tokenBits c w (payload r low blocks)
                (flat_map tokenBits toks ++ rest) ltac:(lia) Hc Hpay)
      as (Hmod & Hdiv).
    rewrite Hmod in Hget. rewrite Hdiv in Hp1.
    destruct (IH d1 r1 low1 blocks1 tail rest Hin1 Hall' Hp1 ltac:(lia))
      as (d' & r' & low' & blocks' & Hread & Hin' & Hp' & Hbytes').
    exists d', r', low', blocks'.
    cbn [readLzw map fst snd]. rewrite Hget. cbn [mbind outcome_bind rbind].
    rewrite Hread. cbn [mbind outcome_bind rbind].
    split; [reflexivity|]. split; [exact Hin'|]. split; [exact Hp'|].
    congruence.
Qed.

(** X14 -- What [GifImage::writeOptimized] writes for the bit stream
    of a frame is the packed bytes of the stream cut into blocks of 255
    bytes, the last one holding between 1 and 255 bytes, each block
    after its length byte, and then the empty block: no byte of the
    stream is lost or added. *)
Theorem writeOptimized_blocks (bits : list bool) :
  let blocks := chunks (length bits) (compressBody bits) in
  gifFrameData bits = frames blocks ++ [0]
  /\ concat blocks = compressBody bits
  /\ goodBlocks blocks
  /\ Forall (fun blk => 1 <= size_ blk <= 255) blocks.
Proof.
  cbv zeta.
  destruct (compressBody_bytes bits) as (Hlen & Hbytes & _).
  assert (Hcount : (length (compressBody bits) <= length bits)%nat).
  { pose proof (Z.div_mod (Z.of_nat (length bits) + 7) 8 ltac:(lia)).
    pose proof (Z.mod_pos_bound (Z.of_nat (length bits) + 7) 8 ltac:(lia)).
    lia. }
  split; [unfold gifFrameData; now rewrite gifBlocks_frames by lia|].
  split; [now apply concat_chunks|].
  pose proof (goodBlocks_chunks (length bits) (compressBody bits) Hbytes) as Hg.
  split; [exact Hg|].
  induction (chunks (length bits) (compressBody bits)) as [|blk rest IH];
    [constructor|].
  cbn [goodBlocks] in Hg. destruct Hg as (_ & Hsz & Hrest).
  constructor; [destruct rest; lia | now apply IH].
Qed.

(** X15 -- Tokens written with [add], followed by any further bits,
    framed into sub-blocks by [GifImage::writeOptimized] and followed
    by any bytes of the file, are read back by successive
    [getLzwBits] calls with the same widths as the same codes. *)
Theorem tokens_pass_gif_blocks (toks : list (Z * Z)) (rest : list bool)
        (tail : list Z) (codeSize : Z) :
  Forall (fun t => 1 <= snd t <= 16 /\ 0 <= fst t < 2 ^ snd t) toks ->
  Forall (fun x => 0 <= x < 256) tail ->
  8 * size_ (gifFrameData (flat_map tokenBits toks ++ rest) ++ tail)
    < 4294967296 ->
  exists d',
    readLzw (map snd toks)
            (mkDecoder (open (gifFrameData (flat_map tokenBits toks ++ rest)
                              ++ tail))
                       [] true codeSize 0 0)
    = Ok (map fst toks, d').
Proof.
  intros Hall Htail Hsize.
  set (bits := flat_map tokenBits toks ++ rest) in *.
  destruct (compressBody_bytes bits) as (Hlen & Hbytes & Hval).
  set (blocks := chunks (length bits) (compressBody bits)).
  assert (Hcount : (length (compressBody bits) <= length bits)%nat).
  { pose proof (Z.div_mod (Z.of_nat (length bits) + 7) 8 ltac:(lia)).
    pose proof (Z.mod_pos_bound (Z.of_nat (length bits) + 7) 8 ltac:(lia)).
    lia. }
  assert (Hfile : gifFrameData bits ++ tail = frames blocks ++ ([0] ++ tail)).
  { unfold gifFrameData. rewrite gifBlocks_frames by lia.
    now rewrite <- app_assoc. }
  assert (Hgood : goodBlocks blocks) by now apply goodBlocks_chunks.
  assert (Hcat : concat blocks = compressBody bits) by now apply concat_chunks.
  rewrite Hfile in *.
  assert (Hfb : Forall (fun x => 0 <= x < 256) (frames blocks ++ [0] ++ tail)).
  { apply Forall_app. split; [now apply frames_bytes|].
    constructor; [lia | exact Htail]. }
  destruct (goodBuffer_open _ Hfb Hsize) as (Hg & Hc & Hl).
  destruct (readLzw_tokens toks
              (mkDecoder (open (frames blocks ++ [0] ++ tail)) [] true
                         codeSize 0 0)
              0 0 blocks ([0] ++ tail) rest)
    as (d' & _ & _ & _ & Hread & _).
  - unfold inFrames.
    cbn [m_input m_isGif m_bitsLeftInCurrentBlock].
    split; [reflexivity|]. split; [exact Hg|].
    change (2 ^ 0) with 1.
    repeat split; try lia; try assumption.
  - exact Hall.
  - unfold payload. rewrite Hcat, Hval. change (2 ^ 0) with 1. fold bits. lia.
  - unfold payloadBits. rewrite Hcat. unfold size_. rewrite Hlen.
    pose proof (Z.div_mod (Z.of_nat (length bits) + 7) 8 ltac:(lia)).
    pose proof (Z.mod_pos_bound (Z.of_nat (length bits) + 7) 8 ltac:(lia)).
    unfold bits in *. rewrite length_app in *. lia.
  - exists d'. exact Hread.
Qed.

(** The tokens 0, 1, 6, 6 and the end-of-stream code 5 in a frame that
    the trailer byte follows. *)
Lemma tokens_pass_gif_blocks_witness :
  let toks := [(0, 3); (1, 3); (6, 3); (6, 4); (5, 4)] in
  exists d',
    readLzw [3; 3; 3; 4; 4]
            (mkDecoder (open (gifFrameData (flat_map tokenBits toks) ++ [59]))
                       [] true 2 0 0)
    = Ok ([0; 1; 6; 6; 5], d').
Proof.
  intro toks.
  destruct (tokens_pass_gif_blocks toks [] [59] 2) as (d' & Hread).
  - repeat constructor; cbn; lia.
  - repeat constructor; lia.
  - vm_compute. reflexivity.
  - exists d'. rewrite app_nil_r in Hread. exact Hread.
Defined.

End GifFramingProps.

(** ** Interlacing and de-interlacing *)

Module InterlacingProps.

Import GifImage Interlacing.

Lemma length_seqZ y step n : length (seqZ y step n) = n.
Proof. revert y. induction n as [|n IH]; intros y; cbn; [|rewrite IH]; reflexivity. Qed.

Lemma nth_seqZ n : forall y step (k : nat) d,
  (k < n)%nat -> nth k (seqZ y step n) d = y + step * Z.of_nat k.
Proof.
  induction n as [|n IH]; intros y step k d Hk; [lia|].
  destruct k as [|k]; cbn [seqZ nth]; [lia|].
  rewrite IH by lia. lia.
Qed.

(** A row that lies inside the image. *)
Lemma range_row img w y :
  0 <= w -> 0 <= y -> (y + 1) * w <= size_ img -> size_ img < 4294967296 ->
  range img (u32 (y * w)) (u32 (y * w) + w) = Ok (rowOf img w y)
  /\ range img (u32 (y * w)) (u32 (u32 (y + 1) * w)) = Ok (rowOf img w y)
  /\ length (rowOf img w y) = Z.to_nat w.
Proof.
  intros Hw Hy Hin Hsize.
  assert (Hyw : 0 <= y * w) by nia.
  assert (Hy1 : 0 <= y + 1 < 4294967296 \/ w = 0) by nia.
  assert (H1 : u32 (u32 (y + 1) * w) = y * w + w).
  { destruct Hy1 as [Hy1| ->].
    - rewrite (u32_small (y + 1)) by lia. rewrite u32_small by nia. ring.
    - rewrite !Z.mul_0_r. reflexivity. }
  rewrite H1. rewrite (u32_small (y * w)) by nia.
  unfold range, rowOf.
  destruct (Z.leb_spec (y * w) (y * w + w)) as [_|]; [|lia].
  destruct (Z.leb_spec (y * w + w) (size_ img)) as [_|]; [|nia].
  cbn [andb]. replace (y * w + w - y * w) with w by lia.
  split; [reflexivity|]. split; [reflexivity|].
  rewrite length_take, length_drop. unfold size_ in *. nia.
Qed.

(** The loop that copies every [step]-th row, for [cnt] rows. *)
Lemma copyRows_rows img w h step cnt : forall fuel y acc,
  0 <= w -> 0 < step -> 0 <= y -> size_ img = h * w ->
  size_ img < 4294967296 -> h + step < 4294967296 ->
  (cnt <= fuel)%nat ->
  h <= y + step * Z.of_nat cnt ->
  ((1 <= cnt)%nat -> y + step * (Z.of_nat cnt - 1) < h) ->
  copyRows fuel w h img y step acc
  = Ok (acc ++ concat (map (rowOf img w) (seqZ y step cnt))).
Proof.
  induction cnt as [|cnt IH];
    intros fuel y acc Hw Hstep Hy Himg Hsize Hh Hfuel Hup Hlow.
  - assert (Hdone : copyRows fuel w h img y step acc = Ok acc).
    { destruct fuel; cbn [copyRows];
        destruct (Z.ltb_spec y h); try reflexivity; lia. }
    rewrite Hdone. cbn. now rewrite app_nil_r.
  - destruct fuel as [|fuel]; [lia|].
    specialize (Hlow ltac:(lia)).
    cbn [copyRows].
    destruct (Z.ltb_spec y h) as [Hyh|]; [|nia].
    destruct (range_row img w y Hw Hy ltac:(nia) Hsize) as (Hr & _ & _).
    rewrite Hr. cbn [mbind outcome_bind rbind].
    rewrite (u32_small (y + step)) by lia.
    rewrite IH; try assumption; try lia.
    cbn [seqZ map concat]. now rewrite <- app_assoc.
Qed.

(** Rows of equal length, one after the other. *)
Lemma rowOf_concat (rows : list (list Z)) w : forall (p : nat),
  0 <= w -> Forall (fun r => length r = Z.to_nat w) rows ->
  (p < length rows)%nat ->
  rowOf (concat rows) w (Z.of_nat p) = nth p rows [].
Proof.
  induction rows as [|r rows IH]; intros p Hw Hall Hp; [cbn in Hp; lia|].
  inversion Hall as [|? ? Hr Hall']; subst.
  unfold rowOf in *. cbn [concat].
  destruct p as [|p].
  - cbn [nth]. change (Z.of_nat 0 * w) with 0.
    change (Z.to_nat 0) with 0%nat. rewrite drop_0.
    rewrite take_app_length'; [reflexivity | now symmetry].
  - cbn [nth]. cbn [length] in Hp.
    replace (Z.to_nat (Z.of_nat (S p) * w))
      with (length r + Z.to_nat (Z.of_nat p * w))%nat by (rewrite Hr; nia).
    rewrite drop_app_add'; [|reflexivity].
    apply IH; [exact Hw | exact Hall' | lia].
Qed.

(** All rows from [y] on, in order, are the image from row [y] on. *)
Lemma concat_rows img w n : forall y,
  0 <= w -> 0 <= y ->
  concat (map (rowOf img w) (seqZ y 1 n))
  = take (n * Z.to_nat w) (drop (Z.to_nat (y * w)) img).
Proof.
  induction n as [|n IH]; intros y Hw Hy; [reflexivity|].
  cbn [seqZ map concat]. rewrite IH by lia. unfold rowOf.
  replace (Z.to_nat ((y + 1) * w)) with (Z.to_nat (y * w) + Z.to_nat w)%nat
    by nia.
  rewrite <- drop_drop. rewrite take_take_drop. f_equal; lia.
Qed.

Lemma seqZ_bound n : forall y step,
  0 <= step ->
  Forall (fun v => y <= v <= y + step * (Z.of_nat n - 1)) (seqZ y step n).
Proof.
  induction n as [|n IH]; intros y step Hs; [constructor|].
  cbn [seqZ]. constructor; [nia|].
  eapply Forall_impl; [apply (IH (y + step) step Hs)|].
  cbn beta. intros v Hv. nia.
Qed.

Lemma order_length h : 0 <= h -> length (interlacedOrder h) = Z.to_nat h.
Proof.
  intros Hh. unfold interlacedOrder. rewrite !length_app, !length_seqZ.
  Z.div_mod_to_equations. lia.
Qed.

Lemma order_bound h :
  0 <= h -> Forall (fun v => 0 <= v < h) (interlacedOrder h).
Proof.
  intros Hh. unfold interlacedOrder.
  repeat (apply Forall_app; split);
    (eapply Forall_impl; [apply seqZ_bound; lia|]);
    cbn beta; intros v Hv.
  - destruct (Z.eq_dec ((h + 7) / 8) 0) as [H0|H0];
      Z.div_mod_to_equations; lia.
  - destruct (Z.eq_dec ((h + 3) / 8) 0) as [H0|H0];
      Z.div_mod_to_equations; lia.
  - destruct (Z.eq_dec ((h + 1) / 4) 0) as [H0|H0];
      Z.div_mod_to_equations; lia.
  - destruct (Z.eq_dec (h / 2) 0) as [H0|H0];
      Z.div_mod_to_equations; lia.
Qed.

Lemma nth_app_plus (l l' : list Z) (a n : nat) d :
  length l = a -> nth (a + n) (l ++ l') d = nth n l' d.
Proof. intros <-. apply app_nth2_plus. Qed.

Lemma order_nth h y :
  0 <= y < h -> nth (Z.to_nat (placeOf h y)) (interlacedOrder h) 0 = y.
Proof.
  intros Hy. unfold placeOf, interlacedOrder.
  set (A := Z.to_nat ((h + 7) / 8)).
  set (B := Z.to_nat ((h + 3) / 8)).
  set (C := Z.to_nat ((h + 1) / 4)).
  set (D := Z.to_nat (h / 2)).
  destruct (Z.eqb_spec (y mod 8) 0) as [H0|H0].
  - rewrite app_nth1 by (rewrite length_seqZ; unfold A; Z.div_mod_to_equations; lia).
    rewrite nth_seqZ by (unfold A; Z.div_mod_to_equations; lia).
    Z.div_mod_to_equations; lia.
  - destruct (Z.eqb_spec (y mod 8) 4) as [H4|H4].
    + replace (Z.to_nat ((h + 7) / 8 + y / 8)) with (A + Z.to_nat (y / 8))%nat
        by (unfold A; Z.div_mod_to_equations; lia).
      rewrite nth_app_plus by apply length_seqZ.
      rewrite app_nth1 by (rewrite length_seqZ; unfold B; Z.div_mod_to_equations; lia).
      rewrite nth_seqZ by (unfold B; Z.div_mod_to_equations; lia).
      Z.div_mod_to_equations; lia.
    + destruct (Z.eqb_spec (y mod 4) 2) as [H2|H2].
      * replace (Z.to_nat ((h + 7) / 8 + (h + 3) / 8 + y / 4))
          with (A + (B + Z.to_nat (y / 4)))%nat
          by (unfold A, B; Z.div_mod_to_equations; lia).
        rewrite nth_app_plus by apply length_seqZ.
        rewrite nth_app_plus by apply length_seqZ.
        rewrite app_nth1 by (rewrite length_seqZ; unfold C; Z.div_mod_to_equations; lia).
        rewrite nth_seqZ by (unfold C; Z.div_mod_to_equations; lia).
        Z.div_mod_to_equations; lia.
      * replace (Z.to_nat ((h + 7) / 8 + (h + 3) / 8 + (h + 1) / 4 + y / 2))
          with (A + (B + (C + Z.to_nat (y / 2))))%nat
          by (unfold A, B, C; Z.div_mod_to_equations; lia).
        rewrite nth_app_plus by apply length_seqZ.
        rewrite nth_app_plus by apply length_seqZ.
        rewrite nth_app_plus by apply length_seqZ.
        rewrite nth_seqZ by (unfold D; Z.div_mod_to_equations; lia).
        Z.div_mod_to_equations; lia.
Qed.

Lemma length_concat_rows (rows : list (list Z)) (n : nat) :
  Forall (fun r => length r = n) rows ->
  length (concat rows) = (length rows * n)%nat.
Proof.
  induction 1 as [|r rows Hr _ IH]; [reflexivity|].
  cbn [concat length]. rewrite length_app, IH, Hr. lia.
Qed.

Section OneImage.

Variables (img : list Z) (w h : Z).
Hypothesis Hw : 0 <= w <= 65535.
Hypothesis Hh : 0 <= h <= 65535.
Hypothesis Himg : size_ img = h * w.

Let inter := concat (map (rowOf img w) (interlacedOrder h)).

Lemma img_small : size_ img < 4294967296.
Proof. rewrite Himg. nia. Qed.

Lemma rows_length :
  Forall (fun r => length r = Z.to_nat w)
         (map (rowOf img w) (interlacedOrder h)).
Proof.
  apply Forall_map. eapply Forall_impl; [apply order_bound; lia|].
  cbn beta. intros y Hy.
  apply (range_row img w y); [lia | lia | rewrite Himg; nia | apply img_small].
Qed.

Lemma size_inter : size_ inter = h * w.
Proof.
  unfold size_, inter.
  rewrite (length_concat_rows _ (Z.to_nat w) rows_length).
  rewrite length_map, order_length by lia. nia.
Qed.

Lemma placeOf_bound y : 0 <= y < h -> 0 <= placeOf h y < h.
Proof.
  intros Hy. unfold placeOf.
  destruct (Z.eqb_spec (y mod 8) 0); [Z.div_mod_to_equations; lia|].
  destruct (Z.eqb_spec (y mod 8) 4); [Z.div_mod_to_equations; lia|].
  destruct (Z.eqb_spec (y mod 4) 2); Z.div_mod_to_equations; lia.
Qed.

(** The row that the interlaced image has at the place of row [y]. *)
Lemma inter_row y :
  0 <= y < h -> rowOf inter w (placeOf h y) = rowOf img w y.
Proof.
  intros Hy. pose proof (placeOf_bound y Hy) as Hp.
  rewrite <- (Z2Nat.id (placeOf h y)) by lia.
  unfold inter. rewrite rowOf_concat; [|lia|apply rows_length|].
  - rewrite (nth_indep _ [] (rowOf img w 0))
      by (rewrite length_map, order_length; lia).
    rewrite map_nth, order_nth by exact Hy. reflexivity.
  - rewrite length_map, order_length; lia.
Qed.

(** Reading the row at the place of row [y]. *)
Lemma range_place y p :
  0 <= y < h -> p = placeOf h y ->
  range inter (u32 (p * w)) (u32 (u32 (p + 1) * w)) = Ok (rowOf img w y).
Proof.
  intros Hy ->. pose proof (placeOf_bound y Hy) as Hp.
  destruct (range_row inter w (placeOf h y)) as (_ & Hr & _);
    [lia | lia | rewrite size_inter; nia | rewrite size_inter; nia |].
  rewrite Hr. now rewrite inter_row.
Qed.

Ltac split_eqb :=
  repeat match goal with
         | |- context [?a =? ?b] => destruct (Z.eqb_spec a b)
         end.

(** With the offsets of the four passes right, the loop restores the
    rows from [y] on. *)
Lemma restoreRows_rows n : forall fuel y p0 p1 p2 p3 acc,
  (n <= fuel)%nat -> 0 <= y -> y + Z.of_nat n = h ->
  p0 = (y + 7) / 8 ->
  p1 = (h + 7) / 8 + (y + 3) / 8 ->
  p2 = (h + 7) / 8 + (h + 3) / 8 + (y + 1) / 4 ->
  p3 = (h + 7) / 8 + (h + 3) / 8 + (h + 1) / 4 + y / 2 ->
  restoreRows fuel w h inter y p0 p1 p2 p3 acc
  = Ok (acc ++ concat (map (rowOf img w) (seqZ y 1 n))).
Proof.
  induction n as [|n IH]; intros fuel y p0 p1 p2 p3 acc Hf Hy Hn H0 H1 H2 H3.
  - assert (Hdone : restoreRows fuel w h inter y p0 p1 p2 p3 acc = Ok acc).
    { destruct fuel; cbn [restoreRows];
        destruct (Z.ltb_spec y h); try reflexivity; lia. }
    rewrite Hdone. cbn. now rewrite app_nil_r.
  - destruct fuel as [|fuel]; [lia|].
    cbn [restoreRows].
    destruct (Z.ltb_spec y h) as [Hyh|]; [|lia].
    cbv zeta. rewrite (u32_small (y + 1)) by lia.
    cbn [seqZ map concat]. rewrite app_assoc.
    destruct (Z.eqb_spec (y mod 8) 0) as [M0|M0].
    { rewrite (range_place y p0) by
        (try lia; unfold placeOf;
         split_eqb; Z.div_mod_to_equations; lia).
      cbn [mbind outcome_bind rbind].
      rewrite (u32_small (p0 + 1)) by (Z.div_mod_to_equations; lia).
      apply IH; try lia; Z.div_mod_to_equations; lia. }
    destruct (Z.eqb_spec (y mod 8) 4) as [M4|M4].
    { rewrite (range_place y p1) by
        (try lia; unfold placeOf;
         split_eqb; Z.div_mod_to_equations; lia).
      cbn [mbind outcome_bind rbind].
      rewrite (u32_small (p1 + 1)) by (Z.div_mod_to_equations; lia).
      apply IH; try lia; Z.div_mod_to_equations; lia. }
    destruct ((y mod 8 =? 2) || (y mod 8 =? 6)) eqn:M26.
    { assert (Hm : y mod 4 = 2).
      { apply orb_true_iff in M26 as [E|E]; apply Z.eqb_eq in E;
          Z.div_mod_to_equations; lia. }
      rewrite (range_place y p2) by
        (try lia; unfold placeOf;
         split_eqb; Z.div_mod_to_equations; lia).
      cbn [mbind outcome_bind rbind].
      rewrite (u32_small (p2 + 1)) by (Z.div_mod_to_equations; lia).
      apply IH; try lia; Z.div_mod_to_equations; lia. }
    { assert (Hm : y mod 2 = 1).
      { apply orb_false_iff in M26 as [E1 E2].
        apply Z.eqb_neq in E1, E2. Z.div_mod_to_equations; lia. }
      rewrite (range_place y p3) by
        (try lia; unfold placeOf;
         split_eqb; Z.div_mod_to_equations; lia).
      cbn [mbind outcome_bind rbind].
      rewrite (u32_small (p3 + 1)) by (Z.div_mod_to_equations; lia).
      apply IH; try lia; Z.div_mod_to_equations; lia. }
Qed.

End OneImage.

(** X17 -- The four loops of the interlacing branch of
    [setInterlacing] store the rows of an image of at least two rows
    in the order of the four GIF passes (every 8th row from row 0,
    every 8th from row 4, every 4th from row 2, every 2nd from row 1):
    the pixel count is unchanged and every row [y] of the image is
    found at its place [placeOf h y] of the result. *)
Theorem interlacing_orders_rows (img : list Z) (w h : Z) :
  0 <= w <= 65535 -> 2 <= h <= 65535 -> size_ img = h * w ->
  exists inter,
    interlaceRows w h img = Ok inter
    /\ inter = concat (map (rowOf img w) (interlacedOrder h))
    /\ size_ inter = size_ img
    /\ forall y, 0 <= y < h -> rowOf inter w (placeOf h y) = rowOf img w y.
Proof.
  intros Hw Hh Hs. unfold interlaceRows. cbv zeta.
  pose proof (img_small img w h ltac:(lia) ltac:(lia) Hs) as Hsmall.
  rewrite (copyRows_rows img w h 8 (Z.to_nat ((h + 7) / 8)))
    by (try lia; Z.div_mod_to_equations; lia).
  cbn [mbind outcome_bind rbind app].
  rewrite (copyRows_rows img w h 8 (Z.to_nat ((h + 3) / 8)))
    by (try lia; Z.div_mod_to_equations; lia).
  cbn [mbind outcome_bind rbind].
  rewrite (copyRows_rows img w h 4 (Z.to_nat ((h + 1) / 4)))
    by (try lia; Z.div_mod_to_equations; lia).
  cbn [mbind outcome_bind rbind].
  rewrite (copyRows_rows img w h 2 (Z.to_nat (h / 2)))
    by (try lia; Z.div_mod_to_equations; lia).
  eexists. split; [reflexivity|].
  assert (Heq : ((concat (map (rowOf img w) (seqZ 0 8 (Z.to_nat ((h + 7) / 8))))
                  ++ concat (map (rowOf img w) (seqZ 4 8 (Z.to_nat ((h + 3) / 8)))))
                 ++ concat (map (rowOf img w) (seqZ 2 4 (Z.to_nat ((h + 1) / 4)))))
                ++ concat (map (rowOf img w) (seqZ 1 2 (Z.to_nat (h / 2))))
                = concat (map (rowOf img w) (interlacedOrder h))).
  { unfold interlacedOrder. rewrite !map_app, !concat_app.
    now rewrite <- !app_assoc. }
  rewrite Heq. split; [reflexivity|]. split.
  - rewrite (size_inter img w h) by (try lia; exact Hs). now rewrite Hs.
  - intros y Hy. apply inter_row; lia.
Qed.

(** With the fourth pass starting one row late, the loop reads the row
    after the last one at the last odd row, if not before. *)
Lemma restoreRows_overrun (inter : list Z) w h n :
  forall fuel y p0 p1 p2 p3 acc,
  1 <= w <= 65535 -> 2 <= h <= 65535 -> size_ inter = h * w ->
  (n <= fuel)%nat -> 0 <= y -> y + Z.of_nat n = h ->
  y <= 2 * (h / 2) - 1 ->
  p3 = h + 1 - h / 2 + y / 2 ->
  restoreRows fuel w h inter y p0 p1 p2 p3 acc
  = Err "undefined: read outside the image".
Proof.
  induction n as [|n IH];
    intros fuel y p0 p1 p2 p3 acc Hw Hh Hs Hf Hy Hn Hlast H3.
  - exfalso. Z.div_mod_to_equations; lia.
  - destruct fuel as [|fuel]; [lia|].
    cbn [restoreRows].
    destruct (Z.ltb_spec y h) as [Hyh|]; [|lia].
    cbv zeta. rewrite (u32_small (y + 1)) by lia.
    destruct (Z.eqb_spec (y mod 8) 0) as [M0|M0].
    { destruct (range inter _ _) as [row|msg] eqn:Hr.
      - cbn [mbind outcome_bind rbind].
        apply IH; try assumption; try lia; Z.div_mod_to_equations; lia.
      - unfold range in Hr. destruct (_ && _); [discriminate|].
        now injection Hr as <-. }
    destruct (Z.eqb_spec (y mod 8) 4) as [M4|M4].
    { destruct (range inter _ _) as [row|msg] eqn:Hr.
      - cbn [mbind outcome_bind rbind].
        apply IH; try assumption; try lia; Z.div_mod_to_equations; lia.
      - unfold range in Hr. destruct (_ && _); [discriminate|].
        now injection Hr as <-. }
    destruct ((y mod 8 =? 2) || (y mod 8 =? 6)) eqn:M26.
    { assert (Hm : y mod 2 = 0).
      { apply orb_true_iff in M26 as [E|E]; apply Z.eqb_eq in E;
          Z.div_mod_to_equations; lia. }
      destruct (range inter _ _) as [row|msg] eqn:Hr.
      - cbn [mbind outcome_bind rbind].
        apply IH; try assumption; try lia; Z.div_mod_to_equations; lia.
      - unfold range in Hr. destruct (_ && _); [discriminate|].
        now injection Hr as <-. }
    assert (Hm : y mod 2 = 1).
    { apply orb_false_iff in M26 as [E1 E2].
      apply Z.eqb_neq in E1, E2. Z.div_mod_to_equations; lia. }
    assert (Hp3 : 0 <= p3 <= h) by (Z.div_mod_to_equations; lia).
    destruct (range inter (u32 (p3 * w)) (u32 (u32 (p3 + 1) * w)))
      as [row|msg] eqn:Hr.
    + cbn [mbind outcome_bind rbind].
      rewrite (u32_small (p3 + 1)) by lia.
      assert (Hnot : y <> 2 * (h / 2) - 1).
      { intros Heq. 
        assert (Hp3h : p3 = h) by (Z.div_mod_to_equations; lia).
        rewrite Hp3h in Hr. unfold range in Hr.
        rewrite (u32_small (h * w)), (u32_small (h + 1)) in Hr by nia.
        rewrite (u32_small ((h + 1) * w)) in Hr by nia.
        destruct (Z.leb_spec ((h + 1) * w) (size_ inter)) as [Hle|_];
          [nia|]. rewrite andb_false_r in Hr. discriminate. }
      apply IH; try assumption; try lia; Z.div_mod_to_equations; lia.
    + unfold range in Hr. destruct (_ && _); [discriminate|].
      now injection Hr as <-.
Qed.

(** X18 -- The loop of the de-interlacing branch of [setInterlacing],
    run on rows stored in the order of the four passes: for a height
    that leaves remainder 0 or 3 modulo 4 it returns the rows in their
    natural order.  For a height of at least 2 that leaves remainder 1
    or 2 modulo 4 (and a width of at least 1) the offset of the fourth
    pass is computed one row too high ([(m_height + 4 - 1) / 4] rows
    for the third pass instead of [(m_height + 1) / 4]), and the loop
    reads a row that lies outside the pixel vector, which is undefined
    in the source. *)
Theorem deinterlacing_restores_or_overruns (img inter : list Z) (w h : Z) :
  0 <= w <= 65535 -> 2 <= h <= 65535 ->
  size_ img = h * w ->
  inter = concat (map (rowOf img w) (interlacedOrder h)) ->
  (h mod 4 = 0 \/ h mod 4 = 3 -> deinterlaceRows w h inter = Ok img)
  /\ (1 <= w -> h mod 4 = 1 \/ h mod 4 = 2 ->
      deinterlaceRows w h inter = Err "undefined: read outside the image").
Proof.
  intros Hw Hh Himg Hpix.
  assert (Hpasses :
            deinterlaceRows w h inter
            = restoreRows (Z.to_nat h) w h inter 0 0 ((h + 8 - 1) / 8)
                ((h + 8 - 1) / 8 + (h + 8 - 5) / 8)
                ((h + 8 - 1) / 8 + (h + 8 - 5) / 8 + (h + 4 - 1) / 4) []).
  { unfold deinterlaceRows. cbv zeta.
    rewrite (u32_small (h + 8 - 1)), (u32_small (h + 8 - 5)),
      (u32_small (h + 4 - 1)) by lia.
    rewrite (u32_small ((h + 8 - 1) / 8 + (h + 8 - 5) / 8))
      by (Z.div_mod_to_equations; lia).
    rewrite (u32_small ((h + 8 - 1) / 8 + (h + 8 - 5) / 8 + (h + 4 - 1) / 4))
      by (Z.div_mod_to_equations; lia).
    reflexivity. }
  rewrite Hpasses. split.
  - intros Hgood. rewrite Hpix.
    rewrite (restoreRows_rows img w h ltac:(lia) ltac:(lia) Himg (Z.to_nat h))
      by (try lia; Z.div_mod_to_equations; lia).
    cbn [app]. f_equal.
    rewrite concat_rows by lia.
    change (Z.to_nat (0 * w)) with 0%nat. rewrite drop_0.
    apply take_ge. unfold size_ in Himg. nia.
  - intros Hw1 Hbad.
    assert (Hs : size_ inter = h * w).
    { rewrite Hpix, (size_inter img w h) by (try lia; exact Himg).
      reflexivity. }
    apply (restoreRows_overrun inter w h (Z.to_nat h));
      try lia; try exact Hs; Z.div_mod_to_equations; lia.
Qed.

(** Four rows of one pixel. *)
Lemma interlacing_orders_rows_witness :
  interlaceRows 1 4 [0; 1; 2; 3] = Ok [0; 2; 1; 3].
Proof.
  destruct (interlacing_orders_rows [0; 1; 2; 3] 1 4)
    as (inter & Hset & Hpix & _); [lia | lia | reflexivity|].
  rewrite Hset, Hpix. reflexivity.
Defined.

(** Four interlaced rows of one pixel come back; of two interlaced
    rows of one pixel the second is read at offset 2 of a vector of 2
    pixels. *)
Lemma deinterlacing_restores_or_overruns_witness :
  deinterlaceRows 1 4 [0; 2; 1; 3] = Ok [0; 1; 2; 3]
  /\ deinterlaceRows 1 2 [7; 9] = Err "undefined: read outside the image".
Proof.
  split.
  - apply (deinterlacing_restores_or_overruns [0; 1; 2; 3] [0; 2; 1; 3] 1 4);
      [lia | lia | reflexivity | reflexivity | left; reflexivity].
  - apply (deinterlacing_restores_or_overruns [7; 9] [7; 9] 1 2);
      [lia | lia | reflexivity | reflexivity | lia | right; reflexivity].
Defined.

End InterlacingProps.

(** ** The header of the first frame *)

Module GifHeaderProps.

Import BinaryInputBuffer GifImage GifHeader Statements.

(** Take successful steps of the [outcome] monad apart. *)
Ltac ok_bind H :=
  match type of H with
  | mbind _ ?r = Ok _ =>
      let E := fresh "E" in
      destruct r as [?|?] eqn:E;
      [ repeat match goal with x : (_ * _)%type |- _ => destruct x end;
        cbn [mbind outcome_bind rbind] in H
      | discriminate H ]
  end.

Section Counting.

(** The size of the file. *)
Variable N : Z.
Hypothesis HN : N < 4294967296.


Lemma later_refl b : later N b b.
Proof. intros H. split; [exact H | lia]. Qed.

Lemma later_trans b1 b2 b3 : later N b1 b2 -> later N b2 b3 -> later N b1 b3.
Proof.
  intros H12 H23 H1. destruct (H12 H1) as [H2 Hle].
  destruct (H23 H2) as [H3 Hle']. split; [exact H3 | lia].
Qed.

Lemma later_getBufferedByte b v b' :
  getBufferedByte b = Ok (v, b') -> later N b b'.
Proof.
  unfold getBufferedByte. intros H [Hc H0].
  destruct (m_stream b) as [|x rest] eqn:Hs; [discriminate H|].
  injection H as <- <-. unfold counted. cbn [m_read m_stream].
  unfold size_ in *. cbn [length] in Hc.
  rewrite u32_small by lia. lia.
Qed.

Lemma later_fillBitBuffer fuel n : forall b b',
  fillBitBuffer fuel n b = Ok b' -> later N b b'.
Proof.
  induction fuel as [|fuel IH]; intros b b' H; cbn [fillBitBuffer] in H.
  - injection H as <-. apply later_refl.
  - destruct (_ <? _).
    + ok_bind H. apply later_getBufferedByte in E. apply IH in H.
      eapply later_trans; [exact E|].
      intros Hc. apply H. exact Hc.
    + injection H as <-. apply later_refl.
Qed.

Lemma later_peekBits n b v b' : peekBits n b = Ok (v, b') -> later N b b'.
Proof.
  unfold peekBits. intros H.
  destruct (negb _); [discriminate H|].
  destruct (negb _); [discriminate H|].
  ok_bind H. injection H as _ <-. eapply later_fillBitBuffer. exact E.
Qed.

Lemma later_removeBits n b b' : removeBits n b = Ok b' -> later N b b'.
Proof.
  unfold removeBits. intros H.
  destruct (if m_bitBufferSize b <? n
            then '(_, b1) ← peekBits n b; Ok b1 else Ok b)
    as [b1|] eqn:E; [|discriminate H].
  cbn [mbind outcome_bind rbind] in H. injection H as <-.
  assert (Hl : later N b b1).
  { destruct (_ <? _).
    - ok_bind E. injection E as <-. eapply later_peekBits. exact E0.
    - injection E as <-. apply later_refl. }
  intros Hc. destruct (Hl Hc) as [Hc' Hle]. split; [exact Hc' | exact Hle].
Qed.

Lemma later_getBits n b v b' : getBits n b = Ok (v, b') -> later N b b'.
Proof.
  unfold getBits. intros H. ok_bind H. ok_bind H. injection H as _ <-.
  eapply later_trans; [eapply later_peekBits | eapply later_removeBits];
    eassumption.
Qed.

Lemma later_getByte b v b' : getByte b = Ok (v, b') -> later N b b'.
Proof.
  unfold getByte. intros H. ok_bind H. injection H as _ <-.
  eapply later_getBits. exact E.
Qed.

Lemma later_getBool b v b' : getBool b = Ok (v, b') -> later N b b'.
Proof.
  unfold getBool. intros H. ok_bind H. injection H as _ <-.
  eapply later_getBits. exact E.
Qed.

Lemma later_getWord b v b' : getWord b = Ok (v, b') -> later N b b'.
Proof.
  unfold getWord. intros H. ok_bind H. ok_bind H. injection H as _ <-.
  eapply later_trans; eapply later_getByte; eassumption.
Qed.

Lemma later_readBytes n : forall b v b',
  readBytes n b = Ok (v, b') -> later N b b'.
Proof.
  induction n as [|n IH]; intros b v b' H; cbn [readBytes] in H.
  - injection H as _ <-. apply later_refl.
  - ok_bind H. ok_bind H. injection H as _ <-.
    eapply later_trans; [eapply later_getByte | eapply IH]; eassumption.
Qed.

Lemma later_readColors n : forall b v b',
  readColors n b = Ok (v, b') -> later N b b'.
Proof.
  induction n as [|n IH]; intros b v b' H; cbn [readColors] in H.
  - injection H as _ <-. apply later_refl.
  - ok_bind H. ok_bind H. ok_bind H. ok_bind H. injection H as _ <-.
    eapply later_trans; [eapply later_getByte; eassumption|].
    eapply later_trans; [eapply later_getByte; eassumption|].
    eapply later_trans; [eapply later_getByte; eassumption|].
    eapply IH; eassumption.
Qed.

Lemma later_parseSignature b v b' :
  parseSignature b = Ok (v, b') -> later N b b'.
Proof.
  unfold parseSignature. intros H. ok_bind H.
  destruct (_ || _); [discriminate H|].
  destruct (_ || _); [discriminate H|].
  injection H as _ <-. eapply later_readBytes. exact E.
Qed.

Lemma later_parseGlobalDescriptor b v b' :
  parseGlobalDescriptor b = Ok (v, b') -> later N b b'.
Proof.
  unfold parseGlobalDescriptor. intros H.
  ok_bind H. ok_bind H. ok_bind H. cbv zeta in H.
  ok_bind H. ok_bind H. ok_bind H.
  ok_bind H. ok_bind H. ok_bind H. injection H as _ <-.
  eapply later_trans; [eapply later_getWord; eassumption|].
  eapply later_trans; [eapply later_getWord; eassumption|].
  eapply later_trans; [eapply later_getBits; eassumption|].
  eapply later_trans; [eapply later_getBool; eassumption|].
  eapply later_trans; [eapply later_removeBits; eassumption|].
  eapply later_trans; [eapply later_getBool; eassumption|].
  eapply later_trans; [eapply later_getByte; eassumption|].
  eapply later_trans; [eapply later_getByte; eassumption|].
  eapply later_readColors; eassumption.
Qed.

Lemma later_readParts fuel : forall data b v b',
  readParts fuel data b = Ok (v, b') -> later N b b'.
Proof.
  induction fuel as [|fuel IH]; intros data b v b' H; cbn [readParts] in H.
  - discriminate H.
  - ok_bind H. destruct (_ =? 0).
    + injection H as _ <-. eapply later_getByte. exact E.
    + ok_bind H.
      eapply later_trans; [eapply later_getByte; eassumption|].
      eapply later_trans; [eapply later_readBytes; eassumption|].
      eapply IH; eassumption.
Qed.

Lemma later_parseExtensions fuel : forall isAnimated exts b v b',
  parseExtensions fuel isAnimated exts b = Ok (v, b') -> later N b b'.
Proof.
  induction fuel as [|fuel IH]; intros isAnimated exts b v b' H;
    cbn [parseExtensions] in H.
  - discriminate H.
  - ok_bind H. destruct (negb _).
    + injection H as _ _ <-. eapply later_peekBits. exact E.
    + ok_bind H. ok_bind H. cbv zeta in H. ok_bind H.
      eapply later_trans; [eapply later_peekBits; eassumption|].
      eapply later_trans; [eapply later_removeBits; eassumption|].
      eapply later_trans; [eapply later_getBits; eassumption|].
      eapply later_trans; [eapply later_readParts; eassumption|].
      eapply IH; eassumption.
Qed.

(** The position recorded by [parseLocalDescriptor] is that of a
    reader that comes after the one it starts with. *)
Lemma parseLocalDescriptor_position b fr b' :
  parseLocalDescriptor b = Ok (fr, b') -> counted N b ->
  m_read b <= f_posInterlaced fr.
Proof.
  unfold parseLocalDescriptor. intros H Hc.
  ok_bind H. destruct (negb _); [discriminate H|].
  ok_bind H. ok_bind H. ok_bind H. ok_bind H. cbv zeta in H.
  ok_bind H. ok_bind H. ok_bind H. ok_bind H. ok_bind H. ok_bind H.
  injection H as <- _. cbn [f_posInterlaced].
  assert (Hl : later N b b4).
  { eapply later_trans; [eapply later_getByte; eassumption|].
    eapply later_trans; [eapply later_getWord; eassumption|].
    eapply later_trans; [eapply later_getWord; eassumption|].
    eapply later_trans; [eapply later_getWord; eassumption|].
    eapply later_getWord; eassumption. }
  apply Hl in Hc. lia.
Qed.

End Counting.

(** The reader of a file below 4 GB starts counting at 0, and has
    counted a byte when the signature is read. *)
Lemma counted_open file :
  size_ file < 4294967296 -> counted (size_ file) (open file).
Proof. intros H. unfold counted, open. cbn [m_read m_stream]. lia. Qed.

Lemma getByte_open file v b' :
  getByte (open file) = Ok (v, b') -> 1 <= m_read b'.
Proof.
  unfold getByte. intros H. ok_bind H. injection H as _ <-.
  unfold getBits in E. ok_bind E. ok_bind E. injection E as _ <-.
  unfold peekBits in E0. change (negb (8 <=? 16)) with false in E0.
  cbv iota in E0.
  destruct (negb _) in E0; [discriminate E0|].
  cbn [fillBitBuffer open m_bitBufferSize] in E0.
  change (0 <? 8) with true in E0. cbv iota in E0.
  unfold getBufferedByte in E0. cbn [m_stream] in E0.
  destruct file as [|x rest]; [discriminate E0|].
  cbn [mbind outcome_bind rbind m_stream m_read m_bitsLeft m_bitBuffer
       m_bitBufferSize] in E0.
  change (u8 (0 + 8) <? 8) with false in E0. cbv iota in E0.
  injection E0 as _ <-.
  unfold removeBits in E1. cbn [m_bitBufferSize] in E1.
  change (u8 (0 + 8) <? 8) with false in E1. cbv iota in E1.
  cbn [mbind outcome_bind rbind] in E1. injection E1 as <-.
  cbn [m_read]. change (u32 (0 + 1)) with 1. lia.
Qed.

Lemma parseSignature_open file v b :
  size_ file < 4294967296 ->
  parseSignature (open file) = Ok (v, b) ->
  counted (size_ file) b /\ 1 <= m_read b.
Proof.
  intros Hsize H.
  pose proof (counted_open file Hsize) as Hc0.
  pose proof (later_parseSignature (size_ file) Hsize _ _ _ H Hc0) as [Hc _].
  split; [exact Hc|].
  unfold parseSignature in H.
  destruct (readBytes 6 (open file)) as [[bytes b1]|] eqn:Hr;
    [|discriminate H].
  cbn [mbind outcome_bind rbind] in H.
  destruct (_ || _) in H; [discriminate H|].
  destruct (_ || _) in H; [discriminate H|].
  injection H as _ <-.
  change (readBytes 6 (open file))
    with ('(x, b1) ← getByte (open file);
          '(rest, b2) ← readBytes 5 b1; Ok (x :: rest, b2)) in Hr.
  destruct (getByte (open file)) as [[x bx]|] eqn:Hx; [|discriminate Hr].
  cbn [mbind outcome_bind rbind] in Hr.
  destruct (readBytes 5 bx) as [[rest by_]|] eqn:Hrest; [|discriminate Hr].
  cbn [mbind outcome_bind rbind] in Hr. injection Hr as _ <-.
  pose proof (getByte_open _ _ _ Hx) as Hone.
  pose proof (later_getByte (size_ file) Hsize _ _ _ Hx Hc0) as [Hc1 _].
  pose proof (later_readBytes (size_ file) Hsize _ _ _ _ Hrest Hc1)
    as [_ Hle].
  lia.
Qed.

(** X16 -- In every object that the constructor builds from a GIF
    file of less than 4 GB with at least one frame, the position
    [posInterlaced] that the first frame records for its flag byte is
    at or beyond the size of [m_rawHeader]: [m_rawHeader] holds the
    [numBytesHeader] bytes of the global header only, and the frame's
    local descriptor is read after them.  Hence [setInterlacing], when
    it gets as far as the flag (one frame, not animated, at least two
    rows), reads [m_rawHeader[posInterlaced]] outside the vector,
    which is undefined in the source. *)
Theorem setInterlacing_reads_outside_rawHeader
        (file : list Z) (global : GlobalDescriptor) (numBytesHeader : Z)
        (isAnimated : bool) (frame : LocalDescriptor)
        (g : Image) (makeInterlaced : bool) :
  size_ file < 4294967296 ->
  firstFrameHeader file = Ok (Some (global, numBytesHeader, isAnimated, frame)) ->
  size_ (m_rawHeader g) = numBytesHeader ->
  posInterlaced g = f_posInterlaced frame ->
  1 <= numBytesHeader <= f_posInterlaced frame
  /\ (m_numFrames g = 1 -> m_isAnimated g = false -> 2 <= m_height g ->
      setInterlacing g makeInterlaced
      = Err "undefined: read outside m_rawHeader").
Proof.
  intros Hsize H Hraw Hpos. unfold firstFrameHeader in H. cbv zeta in H.
  destruct (_ =? 0) in H; [discriminate H|].
  ok_bind H. ok_bind H. cbv zeta in H. ok_bind H.
  destruct (_ =? 59) in H; [discriminate H|].
  ok_bind H. ok_bind H. injection H as _ Hn _ Hfr.
  rewrite <- Hn in *. rewrite <- Hfr in *. clear Hn Hfr.
  pose proof (parseSignature_open file _ _ Hsize E) as [Hc1 H1].
  pose proof (later_parseGlobalDescriptor (size_ file) Hsize _ _ _ E0 Hc1)
    as [Hc2 Hle2].
  pose proof (later_peekBits (size_ file) Hsize _ _ _ _ E1 Hc2)
    as [Hc3 Hle3].
  pose proof (later_parseExtensions (size_ file) Hsize _ _ _ _ _ _ E2 Hc3)
    as [Hc4 Hle4].
  pose proof (parseLocalDescriptor_position (size_ file) Hsize _ _ _ E3 Hc4)
    as Hle5.
  split; [lia|].
  intros Hf Ha Hh. unfold setInterlacing.
  rewrite Hf, Ha, Hpos. change (negb (1 =? 1)) with false. cbv iota.
  destruct (Z.eqb_spec (f_posInterlaced l1) 0) as [?|_]; [lia|].
  destruct (Z.leb_spec (m_height g) 1) as [?|_]; [lia|].
  rewrite lookup_ge_None_2; [reflexivity|].
  unfold size_ in Hraw. lia.
Qed.

(** A file that starts with the header of a GIF of 1 x 2 pixels: the
    global header has 13 bytes and the flag byte of the frame is byte
    22 of the file. *)
Lemma setInterlacing_reads_outside_rawHeader_witness :
  let file := [71; 73; 70; 56; 57; 97; 1; 0; 2; 0; 0; 0; 0;
               44; 0; 0; 0; 0; 1; 0; 2; 0; 64; 2; 2; 68; 1; 0; 59] in
  let g := mkImage 1 2 1 false 22 (take 13 file) [0; 1] in
  exists global frame,
    firstFrameHeader file = Ok (Some (global, 13, false, frame))
    /\ f_posInterlaced frame = 22
    /\ setInterlacing g false = Err "undefined: read outside m_rawHeader".
Proof.
  intros file g.
  destruct (firstFrameHeader file) as [[[[[global n] anim] frame]|]|] eqn:H;
    try (vm_compute in H; discriminate H).
  assert (Hn : n = 13 /\ anim = false /\ f_posInterlaced frame = 22).
  { vm_compute in H. injection H as _ <- <- <-. repeat split. }
  destruct Hn as (-> & -> & Hp).
  exists global, frame. split; [first [exact H | reflexivity]|].
  split; [exact Hp|].
  destruct (setInterlacing_reads_outside_rawHeader file global 13 false frame
              g false) as [_ Herr];
    [vm_compute; reflexivity | exact H | reflexivity | symmetry; exact Hp |].
  apply Herr; [reflexivity | reflexivity | cbn; lia].
Defined.

End GifHeaderProps.

(** ** The output of the decoder *)

Module DecoderOutputProps.

Import BinaryInputBuffer LzwDecoder Statements DecoderInvariant DecoderProps.

(** One successful step of the [outcome] monad, with names. *)
Tactic Notation "bind_step" hyp(H) "as" simple_intropattern(pat)
       "eqn" ident(E) :=
  match type of H with
  | mbind _ ?r = Ok _ =>
      destruct r as [pat|?] eqn:E;
      [cbn [mbind outcome_bind rbind] in H | discriminate H]
  end.

Lemma peekBits_nonneg n b v b' : peekBits n b = Ok (v, b') -> 0 <= v.
Proof.
  unfold peekBits. intros H.
  destruct (negb (n <=? 16)); [discriminate H|].
  destruct (negb (n <=? m_bitsLeft b)); [discriminate H|].
  ok_step H. cbv zeta in H. apply Ok_inj in H. injection H as <- _.
  apply Z.land_nonneg. right. apply u32_range.
Qed.

Lemma getBits_nonneg n b v b' : getBits n b = Ok (v, b') -> 0 <= v.
Proof.
  unfold getBits. intros H. ok_step H. ok_step H.
  apply Ok_inj in H. injection H as <- _.
  now apply peekBits_nonneg in E.
Qed.

Lemma inputBits_frame n d v d' :
  inputBits n d = Ok (v, d') ->
  0 <= v /\ m_bytes d' = m_bytes d
  /\ m_bitsLeftInCurrentBlock d' = m_bitsLeftInCurrentBlock d.
Proof.
  unfold inputBits. intros H. ok_step H.
  apply getBits_nonneg in E. apply Ok_inj in H. injection H as <- <-.
  auto.
Qed.

Lemma inputByte_frame d v d' :
  inputByte d = Ok (v, d') -> m_bytes d' = m_bytes d.
Proof.
  unfold inputByte, getByte. intros H. ok_step H. ok_step E.
  apply Ok_inj in E. injection E as <- <-.
  apply Ok_inj in H. injection H as _ <-. reflexivity.
Qed.

(** [getLzwBits] returns a number that is not negative and leaves the
    output alone. *)
Lemma getLzwBits_frame n d v d' :
  getLzwBits n d = Ok (v, d') -> 0 <= v /\ m_bytes d' = m_bytes d.
Proof.
  unfold getLzwBits. intros H.
  destruct (n =? 0).
  { apply Ok_inj in H. injection H as <- <-. split; [lia | reflexivity]. }
  cbv zeta in H.
  set (d0 := setNumBitsOriginalLZW d (u32 (m_numBitsOriginalLZW d + n))) in H.
  change (m_bytes d) with (m_bytes d0). clearbody d0.
  destruct (negb (LzwDecoder.m_isGif d0)).
  { apply inputBits_frame in H. tauto. }
  destruct (n <=? m_bitsLeftInCurrentBlock d0).
  { apply inputBits_frame in H. cbn in H. tauto. }
  destruct (0 <? m_bitsLeftInCurrentBlock d0).
  - ok_step H. ok_step E. apply inputBits_frame in E0 as (Hlow & Hb0 & _).
    apply Ok_inj in E. injection E as <- <- <- <-.
    ok_step H. apply inputByte_frame in E.
    destruct (_ <? _); [discriminate H|].
    ok_step H. apply inputBits_frame in E0 as (Hv & Hb1 & _).
    apply Ok_inj in H. injection H as <- <-.
    split.
    + apply Z.lor_nonneg. split; [exact Hlow | apply u32_range].
    + cbn in *. congruence.
  - cbn [mbind outcome_bind rbind] in H.
    ok_step H. apply inputByte_frame in E.
    destruct (_ <? _); [discriminate H|].
    ok_step H. apply inputBits_frame in E0 as (Hv & Hb1 & _).
    apply Ok_inj in H. injection H as <- <-.
    split.
    + apply Z.lor_nonneg. split; [lia | apply u32_range].
    + cbn in *. congruence.
Qed.

Lemma skipGap_frame codeSize gap : forall d d',
  skipGap gap codeSize d = Ok d' -> m_bytes d' = m_bytes d.
Proof.
  induction gap as [|gap IH]; intros d d' H; cbn [skipGap] in H.
  - apply Ok_inj in H. now subst.
  - ok_step H. apply inputBits_frame in E as (_ & E & _).
    apply IH in H. congruence.
Qed.

Lemma skipWasted_frame fuel : forall unused d u d',
  skipWasted fuel unused d = Ok (u, d') -> m_bytes d' = m_bytes d.
Proof.
  induction fuel as [|fuel IH]; intros unused d u d' H; cbn [skipWasted] in H.
  - apply Ok_inj in H. injection H as _ <-. reflexivity.
  - destruct (8 <? unused).
    + ok_step H. apply getLzwBits_frame in E as (_ & E).
      apply IH in H. congruence.
    + apply Ok_inj in H. injection H as _ <-. reflexivity.
Qed.

Lemma skipClear_frame p fuel codeSize : forall token d t d',
  0 <= token ->
  skipClear p fuel codeSize token d = Ok (t, d') ->
  0 <= t /\ t <> clearCode p /\ m_bytes d' = m_bytes d.
Proof.
  induction fuel as [|fuel IH]; intros token d t d' Htok H; cbn [skipClear] in H.
  - destruct (Z.eqb_spec token (clearCode p)); [discriminate H|].
    apply Ok_inj in H. injection H as <- <-. auto.
  - destruct (Z.eqb_spec token (clearCode p)).
    + ok_step H. apply getLzwBits_frame in E as (Hz & E).
      apply IH in H as (H1 & H2 & H3); [|exact Hz].
      split; [exact H1|]. split; [exact H2 | congruence].
    + apply Ok_inj in H. injection H as <- <-. auto.
Qed.

Lemma lutAt_last c lut code :
  0 < c -> literalLut c lut -> 0 <= br_last (lutAt lut code) < c.
Proof.
  intros Hc Hl. unfold lutAt.
  destruct (code <? 0); [cbn; lia|].
  destruct (lut !! Z.to_nat code) as [r|] eqn:E; cbn; [|lia].
  unfold literalLut in Hl. rewrite Forall_forall in Hl. apply Hl.
  eapply list_elem_of_lookup_2. exact E.
Qed.

Lemma walkBack_literal c lut n : forall code written,
  0 < c -> literalLut c lut -> literalBytes c written ->
  literalBytes c (walkBack lut n code written).
Proof.
  induction n as [|n IH]; intros code written Hc Hl Hw; cbn [walkBack].
  - exact Hw.
  - apply IH; try assumption. constructor; [|exact Hw].
    now apply lutAt_last.
Qed.

Lemma decode_literal c buffer code lut :
  0 < c -> literalLut c lut -> literalBytes c buffer ->
  literalBytes c (decode buffer code lut).
Proof.
  intros Hc Hl Hb. unfold decode.
  destruct (br_length (lutAt lut code) =? 1); apply Forall_app; split;
    try exact Hb.
  - constructor; [now apply lutAt_last | constructor].
  - apply walkBack_literal; try assumption. constructor.
Qed.

Lemma at_literal c bytes i :
  0 < c -> literalBytes c bytes -> 0 <= at_ bytes i < c.
Proof.
  intros Hc Hb.
  apply (EncoderLoopProps.at_valid bytes (fun b => 0 <= b < c) i Hb). lia.
Qed.

Lemma lookUpToken_literal c p lut prev token bytes bytes' addLast :
  0 < c -> literalLut c lut -> literalBytes c bytes ->
  lookUpToken p lut prev token bytes = Ok (bytes', addLast) ->
  literalBytes c bytes' /\ 0 <= addLast < c.
Proof.
  intros Hc Hl Hb H. unfold lookUpToken in H. cbv zeta in H.
  destruct (Z.of_nat (length lut) <=? token).
  - destruct (negb (token =? Z.of_nat (length lut))); [discriminate H|].
    destruct (MaxToken p <=? Z.of_nat (length lut)); [discriminate H|].
    apply Ok_inj in H. injection H as <- <-.
    pose proof (decode_literal c bytes prev lut Hc Hl Hb) as Hd.
    pose proof (at_literal c _ (u32 (size_ bytes)) Hc Hd) as Ha.
    split; [|exact Ha]. apply Forall_app. split; [exact Hd|].
    constructor; [exact Ha | constructor].
  - apply Ok_inj in H. injection H as <- <-.
    pose proof (decode_literal c bytes token lut Hc Hl Hb) as Hd.
    split; [exact Hd | now apply at_literal].
Qed.

Lemma resize_literal c n lut :
  0 < c -> literalLut c lut -> literalLut c (resize n lut).
Proof.
  intros Hc Hl. unfold resize, literalLut. apply Forall_app. split.
  - now apply Forall_take.
  - apply Forall_forall. intros r Hr. apply list_elem_of_In, repeat_spec in Hr.
    subst r. cbn. lia.
Qed.

Section Literals.

Variable p : Params.
Hypothesis Hmin : 0 <= p_minCodeSize p < 32.

Let c := clearCode p.

Lemma clear_pow : c = 2 ^ p_minCodeSize p /\ 1 <= c <= 2147483648.
Proof.
  unfold c, clearCode. rewrite Z.shiftl_1_l.
  assert (H1 : 2 ^ p_minCodeSize p <= 2 ^ 31) by (apply Z.pow_le_mono_r; lia).
  assert (H0 : 0 < 2 ^ p_minCodeSize p) by (apply Z.pow_pos_nonneg; lia).
  change (2 ^ 31) with 2147483648 in H1.
  rewrite u32_small by lia. lia.
Qed.

Lemma maxColor_eq : maxColor p = c - 1.
Proof. pose proof clear_pow. unfold maxColor. fold c. apply u32_small. lia. Qed.

Lemma u8_le x : 0 <= x -> 0 <= u8 x <= x.
Proof.
  intros Hx. unfold u8. split; [apply Z.mod_pos_bound; lia|].
  apply Z.mod_le; lia.
Qed.

Lemma initialLut_literal isGif : literalLut c (initialLut p isGif).
Proof.
  pose proof clear_pow as (_ & Hc).
  unfold initialLut, literalLut. rewrite maxColor_eq.
  apply Forall_app. split.
  - apply Forall_map. apply Forall_forall. intros i Hi.
    apply elem_of_seq in Hi. cbn [br_last].
    pose proof (u8_le (Z.of_nat i) ltac:(lia)). lia.
  - apply Forall_forall. intros r Hr. apply list_elem_of_In, repeat_spec in Hr.
    subst r. cbn. lia.
Qed.

Lemma restart_literal st st' :
  literalState c st -> restart p st = Ok st' -> literalState c st'.
Proof.
  intros (Hb & Hl) H. pose proof clear_pow as (_ & Hc).
  unfold restart in H. cbv zeta in H.
  ok_step H.
  assert (Hl1 : literalLut c l /\ m_bytes d = m_bytes (l_dec st)).
  { destruct (LzwDecoder.m_isGif (l_dec st)).
    - apply Ok_inj in E. injection E as <- <-.
      split; [apply resize_literal; [lia | exact Hl] | reflexivity].
    - cbv zeta in E. ok_step E. ok_step E.
      apply Ok_inj in E. injection E as <- <-.
      split; [apply resize_literal; [lia | exact Hl]|].
      apply skipGap_frame in E1. rewrite E1.
      destruct (negb (_ =? 0)).
      + ok_step E0. apply getLzwBits_frame in E as (_ & E).
        apply Ok_inj in E0. now subst.
      + apply Ok_inj in E0. now subst. }
  destruct Hl1 as (Hl1 & Hb1).
  ok_step H. apply getLzwBits_frame in E0 as (Hz & Hb2).
  destruct (Z.ltb_spec (maxColor p) z) as [|Hle]; [discriminate H|].
  apply Ok_inj in H. subst st'. split; cbn; [|exact Hl1].
  apply Forall_app. split; [rewrite Hb2, Hb1; exact Hb|].
  rewrite maxColor_eq in Hle. pose proof (u8_le z Hz).
  constructor; [lia | constructor].
Qed.

Lemma iteration_literal st r :
  literalState c st -> iteration p st = Ok r ->
  match r with inl st' | inr st' => literalState c st' end.
Proof.
  intros (Hb & Hl) H. pose proof clear_pow as (_ & Hc).
  unfold iteration in H. cbv zeta in H.
  destruct (negb _ && _).
  { apply Ok_inj in H. subst r. split; assumption. }
  ok_step H. apply getLzwBits_frame in E as (Hz & Hb1).
  destruct (_ <? z); [discriminate H|].
  destruct (z =? clearCode p).
  { ok_step H. apply Ok_inj in H. subst r.
    eapply restart_literal; [|exact E].
    split; cbn; [rewrite Hb1; exact Hb | exact Hl]. }
  destruct (z =? endOfStreamCode p _).
  { apply Ok_inj in H. subst r. split; cbn; [rewrite Hb1; exact Hb | exact Hl]. }
  ok_step H.
  apply (lookUpToken_literal c) in E as (Hb' & Ha);
    [|lia|exact Hl|rewrite Hb1; exact Hb].
  apply Ok_inj in H. subst r. split; cbn; [exact Hb'|].
  destruct (_ <? MaxToken p); [|exact Hl].
  apply Forall_app. split; [exact Hl|]. constructor; [exact Ha | constructor].
Qed.

Lemma mainLoop_literal fuel : forall st st',
  literalState c st -> mainLoop p fuel st = Ok st' -> literalState c st'.
Proof.
  induction fuel as [|fuel IH]; intros st st' Hinv H; cbn [mainLoop] in H.
  - destruct (_ =? _); [|discriminate H]. apply Ok_inj in H. now subst.
  - destruct (_ =? _); [apply Ok_inj in H; now subst|].
    ok_step H. pose proof (iteration_literal st _ Hinv E) as Hi.
    match goal with x : (Loop + Loop)%type |- _ => destruct x as [st1|st1] end.
    + now apply IH in H.
    + apply Ok_inj in H. now subst.
Qed.

Lemma firstToken_literal input isGif maxCodeSize st :
  firstToken input isGif (p_minCodeSize p) maxCodeSize = Ok st ->
  literalBytes c (m_bytes (l_dec st))
  /\ l_lut st = initialLut p isGif.
Proof.
  intros H. pose proof clear_pow as (_ & Hc).
  unfold firstToken in H. cbv zeta in H.
  ok_step H. apply getLzwBits_frame in E as (Hz0 & Hb0).
  ok_step H. apply skipClear_frame in E as (Hz & Hne & Hb1); [|exact Hz0].
  cbn [m_bytes] in Hb0.
  set (lut := initialLut _ isGif) in H.
  assert (Hlut : lut = initialLut p isGif).
  { unfold lut. destruct p. reflexivity. }
  assert (Hlen : Z.of_nat (length lut) = c + (if isGif then 2 else 1)).
  { rewrite Hlut. unfold initialLut.
    rewrite length_app, length_map, length_seq, repeat_length, maxColor_eq.
    destruct isGif; lia. }
  destruct (Z.leb_spec (Z.of_nat (length lut)) z0) as [|Hlt]; [discriminate H|].
  apply Ok_inj in H. subst st. cbn [l_dec l_lut]. split; [|exact Hlut].
  assert (Hc' : clearCode {| p_minCodeSize := p_minCodeSize p;
                            p_maxCodeSize := maxCodeSize |} = c)
    by reflexivity.
  rewrite Hc' in *.
  match goal with
  | |- context [z0 =? ?e] => destruct (Z.eqb_spec z0 e) as [Heos|Hneos]
  end; cbn [negb].
  - rewrite Hb1, Hb0. constructor.
  - cbn [m_bytes setBytes]. rewrite Hb1, Hb0. cbn [app].
    constructor; [|constructor].
    pose proof (u8_le z0 Hz). 
    unfold endOfStreamCode in Hneos. rewrite Hc' in Hneos.
    destruct isGif.
    + rewrite u32_small in Hneos by lia. lia.
    + lia.
Qed.

End Literals.

(** X19 -- Every byte that [decompress] puts out is a literal: it is
    below the clear code [2^minCodeSize].  The pixels that the GIF
    reader hands to the encoder therefore never collide with the clear
    or end-of-stream code of the frame's code size. *)
Theorem decompress_outputs_literals input isGif minCodeSize maxCodeSize d :
  0 <= minCodeSize < 32 ->
  decompress input isGif minCodeSize maxCodeSize = Ok d ->
  Forall (fun b => 0 <= b < 2 ^ minCodeSize) (m_bytes d).
Proof.
  intros Hmin H. unfold decompress in H. cbv zeta in H.
  set (p := mkParams minCodeSize maxCodeSize) in *.
  pose proof (clear_pow p Hmin) as (Hpow & Hc).
  change (p_minCodeSize p) with minCodeSize in Hpow. rewrite <- Hpow.
  bind_step H as st0 eqn E0.
  apply (firstToken_literal p Hmin) in E0 as (Hb0 & Hl0).
  bind_step H as st eqn E1.
  apply (mainLoop_literal p Hmin) in E1 as (Hb & _);
    [|split; [exact Hb0 | rewrite Hl0; apply initialLut_literal; exact Hmin]].
  bind_step H as [unused d5] eqn E2.
  assert (Hd5 : m_bytes d5 = m_bytes (l_dec st)).
  { destruct (8 <=? _).
    - now apply skipWasted_frame in E2.
    - apply Ok_inj in E2. injection E2 as _ <-. reflexivity. }
  bind_step H as [v d6] eqn E3. apply getLzwBits_frame in E3 as (_ & Hd6).
  bind_step H as d7 eqn E4.
  assert (Hd7 : m_bytes d7 = m_bytes d6).
  { destruct isGif.
    - bind_step E4 as [b d'] eqn E5. apply inputByte_frame in E5.
      destruct (negb _); [discriminate E4|].
      apply Ok_inj in E4. now subst.
    - apply Ok_inj in E4. now subst. }
  apply Ok_inj in H. subst d. cbn [m_bytes setNumBitsOriginalLZW].
  rewrite Hd7, Hd6, Hd5. exact Hb.
Qed.


(** A frame of two pixels with code size 2. *)
Lemma decompress_outputs_literals_witness :
  exists d,
    decompress (open [3; 68; 108; 5; 0; 59]) true 2 12 = Ok d
    /\ Forall (fun b => 0 <= b < 2 ^ 2) (m_bytes d).
Proof.
  destruct (decompress (open [3; 68; 108; 5; 0; 59]) true 2 12) as [d|msg]
    eqn:E; [|vm_compute in E; discriminate E].
  exists d. split; [reflexivity|].
  apply (decompress_outputs_literals (open [3; 68; 108; 5; 0; 59]) true 2 12 d);
    [lia | exact E].
Defined.

End DecoderOutputProps.

(** ** The matches of a block *)

Module BlockCoverProps.

Import LzwEncoder Statements EncoderLoopProps.

(** With both limits off no iteration leaves the loop, and the match
    in progress never reaches beyond the block. *)
Lemma iteration_covers s from len emit fromAligned i st :
  maxDictionary s = 0 -> maxTokens s = 0 ->
  0 <= from -> from + len < 4294967296 -> from <= i < from + len ->
  0 <= l_matchLength st <= from + len - i ->
  exists st',
    iteration s from len emit fromAligned i st = Some st'
    /\ 0 <= l_matchLength st' <= from + len - (i + 1).
Proof.
  intros Hd Ht Hfrom Hsmall Hi Hm. unfold iteration.
  assert (Hst1 : exists st1,
            (if l_matchLength st =? 0
             then emitToken s from len emit i st else Some st) = Some st1
            /\ 1 <= l_matchLength st1 <= from + len - i).
  { destruct (Z.eqb_spec (l_matchLength st) 0) as [H0|Hne];
      [|exists st; split; [reflexivity | lia]].
    unfold emitToken. cbv zeta. rewrite Hd, Ht. cbn [Z.ltb Z.compare andb].
    rewrite (u32_small (len + from - i)) by lia.
    pose proof (chooseMatch_bounds (l_enc st) s i (len + from - i) ltac:(lia))
      as Hcm.
    pose proof (TrieProps.findMatch_range (l_enc st) i (len + from - i)
                  ltac:(lia)) as HL.
    destruct (chooseMatch (l_enc st) s i (len + from - i)) as [ml ng].
    cbn [fst] in Hcm.
    destruct (addCode (l_enc st) i ml) as [code e'].
    eexists. split; [reflexivity|]. loop_fields. lia. }
  destruct Hst1 as (st1 & Heq & Hm1). rewrite Heq. cbn.
  eexists. split; [reflexivity|]. loop_fields.
  rewrite u32_small by lia. lia.
Qed.

Lemma processInput_covers s from len emit fromAligned n : forall i st,
  maxDictionary s = 0 -> maxTokens s = 0 ->
  0 <= from -> from + len < 4294967296 ->
  from <= i -> i + Z.of_nat n <= from + len ->
  0 <= l_matchLength st <= from + len - i ->
  0 <= l_matchLength (processInput s from len emit fromAligned n i st)
    <= from + len - (i + Z.of_nat n).
Proof.
  induction n as [|n IH]; intros i st Hd Ht Hfrom Hsmall Hi Hn Hm.
  - cbn [processInput]. lia.
  - cbn [processInput].
    destruct (iteration_covers s from len emit fromAligned i st Hd Ht Hfrom
                Hsmall ltac:(lia) Hm) as (st' & Hit & Hm').
    rewrite Hit. rewrite u32_small by lia.
    specialize (IH (i + 1) st' Hd Ht Hfrom Hsmall ltac:(lia) ltac:(lia) Hm').
    lia.
Qed.

(** What one iteration does to the match in progress and to the token
    count: with no match in progress it emits a token, whose match
    then is in progress; otherwise it passes one byte of the match. *)
Lemma iteration_token_or_byte s from len emit fromAligned i st st' :
  iteration s from len emit fromAligned i st = Some st' ->
  (l_matchLength st = 0 -> l_numTokens st' = u32 (l_numTokens st + 1))
  /\ (l_matchLength st <> 0 ->
      l_numTokens st' = l_numTokens st
      /\ l_matchLength st' = u32 (l_matchLength st - 1)).
Proof.
  unfold iteration. intros H.
  destruct (Z.eqb_spec (l_matchLength st) 0) as [H0|Hne].
  - destruct (emitToken s from len emit i st) as [st1|] eqn:He;
      [|discriminate H].
    cbn in H. injection H as <-. split; [intros _|contradiction].
    unfold emitToken in He. cbv zeta in He.
    destruct (_ && _) in He; [discriminate He|].
    destruct (_ && _) in He; [discriminate He|].
    destruct (chooseMatch _ _ _ _) as [ml ng].
    destruct (addCode _ _ _) as [code e']. injection He as <-. reflexivity.
  - cbn in H. injection H as <-. split; [contradiction|].
    intros _. split; reflexivity.
Qed.

(** With both limits off the iteration after [n] iterations is
    reached and does not leave the loop. *)
Lemma processInput_continues s from len emit fromAligned n : forall i st,
  maxDictionary s = 0 -> maxTokens s = 0 ->
  0 <= from -> from + len < 4294967296 ->
  from <= i -> i + Z.of_nat n < from + len ->
  0 <= l_matchLength st <= from + len - i ->
  exists st',
    iteration s from len emit fromAligned (i + Z.of_nat n)
              (processInput s from len emit fromAligned n i st) = Some st'
    /\ processInput s from len emit fromAligned (S n) i st = st'.
Proof.
  induction n as [|n IH]; intros i st Hd Ht Hfrom Hsmall Hi Hn Hm.
  - cbn [processInput]. rewrite Z.add_0_r.
    destruct (iteration_covers s from len emit fromAligned i st Hd Ht Hfrom
                Hsmall ltac:(lia) Hm) as (st' & Hit & _).
    exists st'. rewrite Hit. split; reflexivity.
  - destruct (iteration_covers s from len emit fromAligned i st Hd Ht Hfrom
                Hsmall ltac:(lia) Hm) as (st1 & Hit & Hm1).
    destruct (IH (i + 1) st1 Hd Ht Hfrom Hsmall ltac:(lia) ltac:(lia) Hm1)
      as (st' & Hnext & Hrun).
    exists st'.
    change (processInput s from len emit fromAligned (S n) i st)
      with (match iteration s from len emit fromAligned i st with
            | None => st
            | Some st0 =>
                processInput s from len emit fromAligned n (u32 (i + 1)) st0
            end).
    change (processInput s from len emit fromAligned (S (S n)) i st)
      with (match iteration s from len emit fromAligned i st with
            | None => st
            | Some st0 =>
                processInput s from len emit fromAligned (S n) (u32 (i + 1)) st0
            end).
    rewrite Hit, (u32_small (i + 1)) by lia.
    replace (i + Z.of_nat (S n)) with (i + 1 + Z.of_nat n) by lia.
    split; [exact Hnext | exact Hrun].
Qed.

(** X20 -- With the limits on dictionary size and token count off,
    the main loop of [optimizePartial] never breaks early and its
    tokens cover the block: the iteration for every byte of the block
    is reached and goes on to the next; the match in progress never
    reaches beyond the block; at a byte with no match in progress a
    token is emitted, whose match stays inside the block, and at any
    other byte no token is emitted and one byte of the match in
    progress is passed; and when the loop is done no byte of a match
    is left over.  [run n] is the state after [n] iterations. *)
Theorem runBlock_tokens_cover_block e s from len emit (k : nat) :
  maxDictionary s = 0 -> maxTokens s = 0 ->
  0 <= from -> 1 <= len -> from + len < 4294967296 ->
  Z.of_nat k < len ->
  let run n := processInput s from len emit (from / alignment s) n from
                            (initLoop e s) in
  run (Z.to_nat len) = runBlock e s from len emit
  /\ l_matchLength (runBlock e s from len emit) = 0
  /\ iteration s from len emit (from / alignment s) (from + Z.of_nat k) (run k)
     = Some (run (S k))
  /\ 0 <= l_matchLength (run k) <= len - Z.of_nat k
  /\ (l_matchLength (run k) = 0 ->
      l_numTokens (run (S k)) = u32 (l_numTokens (run k) + 1)
      /\ 0 <= l_matchLength (run (S k)) < len - Z.of_nat k)
  /\ (l_matchLength (run k) <> 0 ->
      l_numTokens (run (S k)) = l_numTokens (run k)
      /\ l_matchLength (run (S k)) = l_matchLength (run k) - 1).
Proof.
  intros Hd Ht Hfrom Hlen Hsmall Hk run.
  assert (Hrun : run (Z.to_nat len) = runBlock e s from len emit).
  { unfold run, runBlock. cbv zeta.
    rewrite (u32_small (from + len - 1)) by lia.
    f_equal. lia. }
  split; [exact Hrun|].
  assert (Hinit : 0 <= l_matchLength (initLoop e s) <= from + len - from)
    by (change (l_matchLength (initLoop e s)) with 0; lia).
  assert (Hbound : forall n, Z.of_nat n <= len ->
            0 <= l_matchLength (run n) <= len - Z.of_nat n).
  { intros n Hn.
    pose proof (processInput_covers s from len emit (from / alignment s) n
                  from (initLoop e s) Hd Ht Hfrom Hsmall ltac:(lia) ltac:(lia)
                  Hinit) as H.
    fold (run n) in H. lia. }
  split.
  { rewrite <- Hrun. pose proof (Hbound (Z.to_nat len) ltac:(lia)). lia. }
  destruct (processInput_continues s from len emit (from / alignment s) k
              from (initLoop e s) Hd Ht Hfrom Hsmall ltac:(lia) ltac:(lia)
              Hinit) as (st' & Hit & Hnext).
  fold (run k) in Hit. fold (run (S k)) in Hnext. subst st'.
  split; [exact Hit|].
  pose proof (Hbound k ltac:(lia)) as Hbk.
  pose proof (Hbound (S k) ltac:(lia)) as Hbk1.
  split; [exact Hbk|].
  apply iteration_token_or_byte in Hit as [Hemit Hpass].
  split.
  - intros H0. split; [now apply Hemit | lia].
  - intros Hne. destruct (Hpass Hne) as [Hn Hm]. split; [exact Hn|].
    rewrite Hm. apply u32_small. lia.
Qed.

(** The block 0,1,0,1,0,1 with the limits off: the third byte starts
    the third token, a match of two bytes. *)
Lemma runBlock_tokens_cover_block_witness :
  let e := new [0; 1; 0; 1; 0; 1] true in
  let s := mkSettings 2 true false true 2 1 0 0 false 1 false false in
  let run n := processInput s 0 6 true 0 n 0 (initLoop e s) in
  l_matchLength (runBlock e s 0 6 true) = 0
  /\ l_matchLength (run 2%nat) = 0
  /\ l_numTokens (run 3%nat) = 3
  /\ l_matchLength (run 3%nat) = 1.
Proof.
  intros e s run.
  destruct (runBlock_tokens_cover_block e s 0 6 true 2)
    as (_ & Hend & _ & _ & Hemit & _);
    [reflexivity | reflexivity | lia | lia | lia | lia |].
  split; [exact Hend|].
  assert (H2 : l_matchLength (run 2%nat) = 0) by (vm_compute; reflexivity).
  split; [exact H2|].
  destruct (Hemit H2) as [Hn _].
  split; [|vm_compute; reflexivity].
  change (l_numTokens (run 3%nat) = 3).
  change (l_numTokens (run 3%nat) = u32 (l_numTokens (run 2%nat) + 1)) in Hn.
  rewrite Hn. vm_compute. reflexivity.
Defined.

End BlockCoverProps.

(** ** The header of a .Z file *)

Module CompressProps.

Import BinaryInputBuffer Compress Container Values ReaderContent.
Import ReaderContentProps WriterProps.

(** One byte from a consistent reader. *)
Lemma getByte_content b x rest :
  goodBuffer b -> 0 <= x < 256 -> content b = x + 256 * rest ->
  8 <= m_bitsLeft b ->
  exists b2,
    getByte b = Ok (x, b2) /\ goodBuffer b2 /\ content b2 = rest
    /\ m_bitsLeft b2 = m_bitsLeft b - 8.
Proof.
  intros Hg Hx Hc Hle.
  destruct (getBits_content b 8 Hg ltac:(lia) Hle) as (b2 & Hget & H1 & H2 & H3).
  change (2 ^ 8) with 256 in *.
  assert (Hmod : content b mod 256 = x).
  { rewrite Hc. replace (x + 256 * rest) with (x + rest * 256) by ring.
    rewrite Z.mod_add by lia. apply Z.mod_small. lia. }
  assert (Hdiv : content b / 256 = rest).
  { rewrite Hc. replace (x + 256 * rest) with (x + rest * 256) by ring.
    rewrite Z.div_add by lia. rewrite Z.div_small by lia. lia. }
  exists b2. unfold getByte. rewrite Hget, Hmod.
  cbn [mbind outcome_bind rbind]. rewrite u8_small by lia.
  repeat split; try assumption; try lia; apply Hg || apply H2.
Qed.

(** X21 -- The constructor takes a file for a .Z file as soon as one
    of its first two bytes is the expected magic byte (the two
    comparisons are joined with "or").  For such a file whose settings
    byte has the block-mode bit set and the two unused bits clear, the
    maximum code size is the low five bits of the settings byte and
    the reader stands at the first byte after the header. *)
Theorem load_accepts_either_magic_byte
        (byte1 byte2 settings : Z) (body : list Z) (flag : bool) :
  0 <= byte1 < 256 -> 0 <= byte2 < 256 -> 0 <= settings < 256 ->
  Forall (fun x => 0 <= x < 256) body ->
  8 * size_ (byte1 :: byte2 :: settings :: body) < 4294967296 ->
  byte1 = MagicByte1 \/ byte2 = MagicByte2 ->
  Z.land settings 128 <> 0 -> Z.land settings 96 = 0 ->
  exists input,
    load (byte1 :: byte2 :: settings :: body) flag
    = Ok (Compressed settings (Z.land settings 31) input)
    /\ goodBuffer input
    /\ content input = bytesVal body
    /\ m_bitsLeft input = 8 * size_ body.
Proof.
  intros H1 H2 H3 Hbody Hsize Hmagic Hblock Hunused.
  set (file := byte1 :: byte2 :: settings :: body) in *.
  assert (Hfile : Forall (fun x => 0 <= x < 256) file)
    by (repeat constructor; assumption || lia).
  destruct (goodBuffer_open file Hfile Hsize) as (Hg & Hc & Hl).
  assert (Hsz : size_ file = 3 + size_ body)
    by (unfold size_, file; cbn [length]; lia).
  assert (Hsb : 0 <= size_ body) by (unfold size_; lia).
  destruct (getByte_content (open file) byte1
              (bytesVal (byte2 :: settings :: body)) Hg H1)
    as (in1 & Hget1 & Hg1 & Hc1 & Hl1); [rewrite Hc; reflexivity | lia |].
  destruct (getByte_content in1 byte2 (bytesVal (settings :: body)) Hg1 H2)
    as (in2 & Hget2 & Hg2 & Hc2 & Hl2); [rewrite Hc1; reflexivity | lia |].
  destruct (getByte_content in2 settings (bytesVal body) Hg2 H3)
    as (in3 & Hget3 & Hg3 & Hc3 & Hl3); [rewrite Hc2; reflexivity | lia |].
  exists in3. unfold load. cbv zeta.
  destruct (Z.eqb_spec (m_bitsLeft (open file)) 0) as [H0|_]; [lia|].
  rewrite Hget1. cbn [mbind outcome_bind rbind].
  rewrite Hget2. cbn [mbind outcome_bind rbind].
  assert (Hor : (byte1 =? MagicByte1) || (byte2 =? MagicByte2) = true).
  { apply orb_true_iff.
    destruct Hmagic as [->| ->]; [left | right]; apply Z.eqb_refl. }
  rewrite Hor, Hget3. cbn [mbind outcome_bind rbind].
  destruct (Z.eqb_spec (Z.land settings 128) 0) as [|_]; [contradiction|].
  rewrite Hunused. cbn [Z.eqb negb].
  repeat split; try assumption; try apply Hg3. lia.
Qed.

(** A file that starts with 1F 00 instead of 1F 9D. *)
Lemma load_accepts_either_magic_byte_witness :
  exists input,
    load [31; 0; 144; 65; 66] false = Ok (Compressed 144 16 input)
    /\ content input = 65 + 256 * 66.
Proof.
  destruct (load_accepts_either_magic_byte 31 0 144 [65; 66] false)
    as (input & Hload & _ & Hc & _); try lia.
  - repeat constructor; lia.
  - vm_compute. reflexivity.
  - left. reflexivity.
  - vm_compute. discriminate.
  - reflexivity.
  - exists input. split; [exact Hload | exact Hc].
Defined.

End CompressProps.

(** ** Block lengths in the cost table *)

Module TableFitProps.

Import LzwEncoder Driver Statements EncoderInvariant EncoderLoopProps.
Import BestTableProps RestartProps.

Lemma tableFits_record a size fa best (c : bool) x :
  tableFits a size best -> 0 <= fa ->
  0 < bb_length x -> fa * a + bb_length x <= size ->
  tableFits a size (if c then <[Z.to_nat fa := x]> best else best).
Proof.
  intros Hfit Hfa Hx Hend. destruct c; [|exact Hfit].
  intros k b Hl.
  destruct (decide (Z.to_nat fa = k)) as [<-|Hne].
  - destruct (decide (Z.to_nat fa < length best)%nat) as [Hin|Hout].
    + rewrite list_lookup_insert_eq in Hl by exact Hin.
      injection Hl as <-. right. rewrite Z2Nat.id by lia. lia.
    + rewrite list_insert_ge in Hl by lia. now apply Hfit in Hl.
  - rewrite list_lookup_insert_ne in Hl by exact Hne. now apply Hfit in Hl.
Qed.

Lemma costEvaluation_fits s from fa i st a size :
  tableFits a size (m_best (l_enc st)) ->
  0 <= fa -> from = fa * a -> from <= i -> i + 1 <= size ->
  size < 4294967296 -> 0 <= from ->
  tableFits a size (costEvaluation s from fa i st).
Proof.
  intros Hfit Hfa Hfrom Hi Hend Hsize H0.
  assert (Hn : u32 (i - from + 1) = i - from + 1) by (apply u32_small; lia).
  unfold costEvaluation. cbv zeta. rewrite Hn.
  destruct (readOnlyBest s); [exact Hfit|].
  destruct (negb _ && (bb_totalBits _ =? 0)); [exact Hfit|].
  destruct ((1 <? alignment s) && _ && _); [exact Hfit|].
  destruct (m_isGif (l_enc st)).
  { apply tableFits_record; cbn [bb_length]; try assumption; lia. }
  destruct (negb _ && (l_codeSize st <? 16)); [exact Hfit|].
  apply tableFits_record; cbn [bb_length]; try assumption; lia.
Qed.

Lemma iteration_fits s from len emit fa i st st' a size :
  iteration s from len emit fa i st = Some st' ->
  tableFits a size (m_best (l_enc st)) ->
  0 <= fa -> from = fa * a -> from <= i -> i + 1 <= size ->
  size < 4294967296 -> 0 <= from ->
  tableFits a size (m_best (l_enc st')).
Proof.
  unfold iteration. intros H Hfit Hfa Hfrom Hi Hend Hsize H0.
  assert (Hst1 : exists st1,
            (if l_matchLength st =? 0 then emitToken s from len emit i st
             else Some st) = Some st1
            /\ m_best (l_enc st1) = m_best (l_enc st)).
  { destruct (l_matchLength st =? 0).
    - destruct (emitToken s from len emit i st) as [st1|] eqn:He;
        [|discriminate H].
      exists st1. split; [reflexivity|]. now apply emitToken_best in He.
    - exists st. auto. }
  destruct Hst1 as (st1 & Heq & Hb). rewrite Heq in H. cbn in H.
  injection H as <-. loop_fields.
  apply (costEvaluation_fits s from fa i
           (setMatchLength st1 (u32 (l_matchLength st1 - 1))) a size);
    try assumption.
  loop_fields. now rewrite Hb.
Qed.

Lemma processInput_fits s from len emit fa a size n : forall i st,
  tableFits a size (m_best (l_enc st)) ->
  0 <= fa -> from = fa * a -> from <= i -> i + Z.of_nat n <= size ->
  size < 4294967296 -> 0 <= from ->
  tableFits a size (m_best (l_enc (processInput s from len emit fa n i st))).
Proof.
  induction n as [|n IH]; intros i st Hfit Hfa Hfrom Hi Hend Hsize H0;
    cbn [processInput]; [exact Hfit|].
  destruct (iteration s from len emit fa i st) as [st1|] eqn:Hit; [|exact Hfit].
  rewrite u32_small by lia.
  apply IH; try assumption; try lia.
  apply (iteration_fits s from len emit fa i st st1 a size Hit);
    try assumption; lia.
Qed.

Lemma allocateBest_fits e s e1 a size :
  tableFits a size (m_best e) -> allocateBest e s = Ok e1 ->
  tableFits a size (m_best e1) /\ m_data e1 = m_data e.
Proof.
  unfold allocateBest. intros Hfit H.
  destruct (m_best e) eqn:Hb.
  - destruct (alignment s =? 0); [discriminate H|].
    apply Ok_inj in H. subst e1. cbn. split; [|reflexivity].
    intros k b Hl. left.
    apply list_elem_of_lookup_2, list_elem_of_In, repeat_spec in Hl. now subst b.
  - apply Ok_inj in H. subst e1. rewrite Hb. auto.
Qed.

(** A scoring call leaves a table in which no block reaches beyond the
    data. *)
Lemma optimizePartial_fits e from isFinal s bits e' :
  1 <= alignment s ->
  tableFits (alignment s) (size_ (m_data e)) (m_best e) ->
  0 <= from < size_ (m_data e) -> size_ (m_data e) < 4294967296 ->
  optimizePartial e from 0 false isFinal s = Ok (bits, e') ->
  tableFits (alignment s) (size_ (m_data e')) (m_best e')
  /\ m_data e' = m_data e.
Proof.
  intros Ha Hfit Hfrom Hsize H. unfold optimizePartial in H.
  destruct (allocateBest e s) as [e1|] eqn:Halloc; [|discriminate H].
  cbn [mbind outcome_bind rbind] in H.
  apply (allocateBest_fits e s e1 _ _ Hfit) in Halloc as (Hfit1 & Hd1).
  assert (Hfix : fixAlignment s = s).
  { unfold fixAlignment. destruct (Z.eqb_spec (alignment s) 0); [lia|reflexivity]. }
  cbv zeta in H. rewrite Hfix in H.
  destruct (Z.eqb_spec (from mod alignment s) 0) as [Hmod|]; [|discriminate H].
  cbn [negb] in H.
  match type of H with
  | (if ?c then _ else _) = _ => destruct c
  end.
  { apply Ok_inj in H. injection H as _ <-. rewrite Hd1. auto. }
  destruct (u32 _ =? 0); [discriminate H|].
  apply Ok_inj in H. injection H as _ <-.
  unfold blockLength. rewrite Hd1.
  rewrite (u32_small (size_ (m_data e) - from)) by lia.
  destruct (Z.ltb_spec 0 (size_ (m_data e) - from)); [|lia].
  cbn [andb Z.eqb negb].
  destruct (runBlock_frame e1 s from (size_ (m_data e) - from) false)
    as (_ & Hd).
  rewrite Hd, Hd1. split; [|reflexivity].
  unfold runBlock. cbv zeta.
  rewrite (u32_small (from + (size_ (m_data e) - from) - 1)) by lia.
  apply processInput_fits; try assumption; try lia.
  - apply Z.div_pos; lia.
  - pose proof (Z.div_mod from (alignment s) ltac:(lia)). lia.
Qed.

Lemma alignment_setGreedy s g : alignment (setGreedy s g) = alignment s.
Proof. reflexivity. Qed.

Lemma estimateCosts_fits s smartGreedy n : forall e e1,
  1 <= alignment s ->
  tableFits (alignment s) (size_ (m_data e)) (m_best e) ->
  Z.of_nat n <= size_ (m_data e) -> size_ (m_data e) < 4294967296 ->
  estimateCosts e s smartGreedy n = Ok e1 ->
  tableFits (alignment s) (size_ (m_data e1)) (m_best e1)
  /\ m_data e1 = m_data e.
Proof.
  induction n as [|n IH]; intros e e1 Ha Hfit Hn Hsize H;
    cbn [estimateCosts] in H.
  - apply Ok_inj in H. subst e1. auto.
  - destruct (match negb (Z.of_nat n mod alignment s =? 0) with
              | true => Ok e
              | false => _
              end) as [e2|] eqn:Hstep; [|discriminate H].
    cbn [mbind outcome_bind rbind] in H.
    assert (Hfit2 : tableFits (alignment s) (size_ (m_data e2)) (m_best e2)
                    /\ m_data e2 = m_data e).
    { destruct (negb _).
      - apply Ok_inj in Hstep. subst e2. auto.
      - destruct (optimizePartial e (Z.of_nat n) 0 false true s)
          as [[bits1 ea]|] eqn:Hop1; [|discriminate Hstep].
        cbn [mbind outcome_bind rbind] in Hstep.
        apply optimizePartial_fits in Hop1 as (Hfa & Hda);
          [|assumption|assumption|lia|assumption].
        destruct (smartGreedy && negb (greedy s)).
        + destruct (optimizePartial ea (Z.of_nat n) 0 false true
                      (setGreedy s true)) as [[bits2 eb]|] eqn:Hop2;
            [|discriminate Hstep].
          cbn [mbind outcome_bind rbind] in Hstep.
          apply Ok_inj in Hstep. subst e2.
          apply optimizePartial_fits in Hop2 as (Hfb & Hdb);
            rewrite ?alignment_setGreedy, ?Hda;
            try assumption; try lia.
          * rewrite alignment_setGreedy in Hfb. split; [exact Hfb | congruence].
          * rewrite <- Hda. exact Hfa.
        + apply Ok_inj in Hstep. subst e2. auto. }
    destruct Hfit2 as (Hfit2 & Hd2).
    apply IH in H as (Hf1 & Hd1); try assumption; try (rewrite Hd2; lia).
    split; [exact Hf1 | congruence].
Qed.

(** With blocks that stay inside the data the restart search never
    steps beyond the end. *)
Lemma findRestarts_inside e s fuel : forall pos aligned acc,
  alignment s = 1 ->
  tableFits 1 (size_ (m_data e)) (m_best e) ->
  size_ (m_data e) < 4294967296 ->
  aligned = pos -> 0 <= pos ->
  Forall (fun r => r <= size_ (m_data e)) acc ->
  match findRestarts e s fuel pos aligned acc with
  | Ok rs => Forall (fun r => r <= size_ (m_data e)) rs
  | Err _ => True
  end.
Proof.
  induction fuel as [|fuel IH]; intros pos aligned acc Ha Hfit Hsize -> Hpos Hacc;
    cbn [findRestarts].
  - destruct (size_ (m_data e) <=? pos); [exact Hacc | exact I].
  - destruct (Z.leb_spec (size_ (m_data e)) pos) as [|Hmore]; [exact Hacc|].
    cbv zeta.
    destruct (Z.eqb_spec (bb_length (bestAt (m_best e) pos)) 0) as [|Hne];
      [exact I|].
    assert (Hin : 0 < bb_length (bestAt (m_best e) pos)
                  /\ pos + bb_length (bestAt (m_best e) pos)
                     <= size_ (m_data e)).
    { unfold bestAt in *.
      destruct (m_best e !! Z.to_nat pos) as [b|] eqn:Hl; cbn in *; [|lia].
      destruct (Hfit _ _ Hl) as [H0|(Hp & He)]; [lia|].
      rewrite Z2Nat.id in He by lia. lia. }
    rewrite (u32_small (pos + _)) by lia. rewrite Ha.
    change (1 =? 0) with false. cbv iota.
    apply IH; try assumption; try lia.
    + now rewrite Z.div_1_r.
    + apply Forall_app. split; [exact Hacc|]. constructor; [lia | constructor].
Qed.

Lemma tableFits_lengths size best :
  size < 2147483648 -> tableFits 1 size best ->
  Forall (fun b => 0 <= bb_length b < 2147483648) best.
Proof.
  intros Hsize Hfit. apply Forall_forall. intros b Hb.
  apply list_elem_of_lookup_1 in Hb as (k & Hk).
  destruct (Hfit k b Hk) as [H0|(Hp & He)]; lia.
Qed.

Lemma increasing_last lo rs :
  increasingFrom lo rs -> rs <> [] -> In (List.last rs 0) rs.
Proof.
  intros _ Hne. destruct rs as [|r rs]; [contradiction|].
  clear Hne. revert r. induction rs as [|x rs IH]; intros r.
  - left. reflexivity.
  - right. change (List.last (r :: x :: rs) 0) with (List.last (x :: rs) 0).
    apply IH.
Qed.

(** X22 -- After the cost estimation of [main] (alignment 1) no block
    recorded in the cost table reaches beyond the data, and the data
    is unchanged.  The restart search of [optimize] then either stops
    with the error about a gap, or returns strictly increasing restart
    offsets that all lie inside the data and end exactly at its end,
    so that [merge] never asks for a block outside the data. *)
Theorem estimated_blocks_stay_inside e s smartGreedy e1 :
  alignment s = 1 ->
  size_ (m_data e) < 2147483648 ->
  tableFits 1 (size_ (m_data e)) (m_best e) ->
  estimateCosts e s smartGreedy (length (m_data e)) = Ok e1 ->
  m_data e1 = m_data e
  /\ tableFits 1 (size_ (m_data e)) (m_best e1)
  /\ match findRestarts e1 s (length (m_data e1)) 0 0 [] with
     | Ok rs =>
         increasingFrom 0 rs
         /\ Forall (fun r => r <= size_ (m_data e)) rs
         /\ List.last rs 0 = size_ (m_data e)
     | Err msg =>
         msg = "you need to choose a smaller alignment value or increase the token limit because there is a gap between two blocks"%string
     end.
Proof.
  intros Ha Hsize Hfit Hest.
  apply estimateCosts_fits in Hest as (Hfit1 & Hd1);
    rewrite ?Ha; try assumption; try lia; [|unfold size_; lia].
  rewrite Ha, Hd1 in Hfit1. split; [exact Hd1|]. split; [exact Hfit1|].
  pose proof (findRestarts_steps e1 s (length (m_data e1)) 0 0 []) as Hsteps.
  pose proof (findRestarts_inside e1 s (length (m_data e1)) 0 0 []) as Hin.
  rewrite Hd1 in Hsteps, Hin |- *.
  specialize (Hsteps Hsize (tableFits_lengths _ _ Hsize Hfit1) ltac:(lia)
                     ltac:(unfold size_; lia)).
  specialize (Hin Ha Hfit1 ltac:(lia) eq_refl ltac:(lia) ltac:(constructor)).
  destruct (findRestarts e1 s (length (m_data e)) 0 0 []) as [rs|msg];
    [|destruct Hsteps as [Hm|[Ha0 _]];
      [exact Hm | rewrite Ha in Ha0; discriminate Ha0]].
  destruct Hsteps as (new & -> & Hinc & Hlast & _). cbn [app] in *.
  split; [exact Hinc|]. split; [exact Hin|].
  destruct new as [|r new].
  - cbn in Hlast |- *. assert (0 <= size_ (m_data e)) by (unfold size_; lia). lia.
  - pose proof (increasing_last 0 (r :: new) Hinc ltac:(discriminate)) as Hl.
    rewrite Forall_forall in Hin.
    specialize (Hin _ (proj2 (list_elem_of_In _ _) Hl)). lia.
Qed.

(** The cost estimation for the pixels 0,1,0,1,0,1. *)
Lemma estimated_blocks_stay_inside_witness :
  exists e1,
    estimateCosts (new [0; 1; 0; 1; 0; 1] true) (gifSettings 2) false 6 = Ok e1
    /\ m_data e1 = [0; 1; 0; 1; 0; 1].
Proof.
  destruct (estimateCosts (new [0; 1; 0; 1; 0; 1] true) (gifSettings 2) false 6)
    as [e1|msg] eqn:E; [|vm_compute in E; discriminate E].
  exists e1. split; [reflexivity|].
  apply (estimated_blocks_stay_inside (new [0; 1; 0; 1; 0; 1] true)
           (gifSettings 2) false e1).
  - reflexivity.
  - vm_compute. reflexivity.
  - intros k b Hl. cbn in Hl. rewrite lookup_nil in Hl. discriminate Hl.
  - exact E.
Defined.

End TableFitProps.

(** ** The strings of the decoder's table *)

Module LzwStringProps.

Import LzwDecoder LzwStrings.

Lemma lutAt_lookup lut code :
  0 <= code < Z.of_nat (length lut) ->
  lut !! Z.to_nat code = Some (lutAt lut code).
Proof.
  intros H. unfold lutAt. destruct (Z.ltb_spec code 0); [lia|].
  assert (Hlt : (Z.to_nat code < length lut)%nat) by lia.
  destruct (lookup_lt_is_Some_2 lut (Z.to_nat code) Hlt) as (r & Hr).
  rewrite Hr. reflexivity.
Qed.

Lemma lutAt_app lut ext code :
  code < Z.of_nat (length lut) -> lutAt (lut ++ ext) code = lutAt lut code.
Proof.
  intros H. unfold lutAt. destruct (Z.ltb_spec code 0); [reflexivity|].
  rewrite lookup_app_l by lia. reflexivity.
Qed.

Lemma lutAt_snoc lut x :
  lutAt (lut ++ [x]) (Z.of_nat (length lut)) = x.
Proof.
  unfold lutAt. destruct (Z.ltb_spec (Z.of_nat (length lut)) 0); [lia|].
  rewrite Nat2Z.id. rewrite lookup_app_r by lia.
  rewrite Nat.sub_diag. reflexivity.
Qed.

Lemma walkBack_app lut n : forall code w,
  walkBack lut n code w = walkBack lut n code [] ++ w.
Proof.
  induction n as [|n IH]; intros code w; cbn [walkBack]; [reflexivity|].
  rewrite IH. rewrite (IH _ [_]). rewrite <- app_assoc. reflexivity.
Qed.

Lemma length_walkBack lut n : forall code w,
  length (walkBack lut n code w) = (n + length w)%nat.
Proof.
  induction n as [|n IH]; intros code w; cbn [walkBack]; [reflexivity|].
  rewrite IH. cbn [length]. lia.
Qed.

Lemma decode_strOf buffer code lut :
  decode buffer code lut = buffer ++ strOf lut code.
Proof.
  unfold decode, strOf.
  destruct (Z.eqb_spec (br_length (lutAt lut code)) 1) as [H1|]; [|reflexivity].
  rewrite H1. change (Z.to_nat 1) with 1%nat. reflexivity.
Qed.

Section Table.

Variables c f : Z.
Hypothesis Hc : 0 <= c.
Hypothesis Hf : 0 <= f.

Lemma dataCode_entry lut code :
  wfLut c f lut -> dataCode c f lut code ->
  (code < c /\ br_length (lutAt lut code) = 1 /\ br_last (lutAt lut code) = code)
  \/ (c + f <= code
      /\ dataCode c f lut (br_previous (lutAt lut code))
      /\ br_previous (lutAt lut code) < code
      /\ br_length (lutAt lut code)
         = br_length (lutAt lut (br_previous (lutAt lut code))) + 1
      /\ 2 <= br_length (lutAt lut code)).
Proof.
  intros (Hlen & Hwf) Hd.
  assert (Hin : 0 <= code < Z.of_nat (length lut)) by (destruct Hd; lia).
  pose proof (Hwf _ _ (lutAt_lookup lut code Hin)) as He.
  rewrite Z2Nat.id in He by lia.
  destruct (Z.ltb_spec code c) as [Hlit|Hge].
  - left. split; [lia | exact He].
  - destruct (Z.ltb_spec code (c + f)); [destruct Hd; lia|].
    right. split; [lia | exact He].
Qed.

Lemma dataCode_length lut code :
  wfLut c f lut -> dataCode c f lut code -> 1 <= br_length (lutAt lut code).
Proof.
  intros Hwf Hd.
  destruct (dataCode_entry lut code Hwf Hd) as [(_ & H & _)|(_ & _ & _ & _ & H)];
    lia.
Qed.

Lemma strOf_literal lut code :
  wfLut c f lut -> 0 <= code < c -> strOf lut code = [code].
Proof.
  intros Hwf Hl.
  destruct (dataCode_entry lut code Hwf (or_introl Hl))
    as [(_ & Hlen & Hlast)|(? & _)]; [|lia].
  unfold strOf. rewrite Hlen. change (Z.to_nat 1) with 1%nat.
  cbn [walkBack]. now rewrite Hlast.
Qed.

Lemma strOf_step lut code :
  wfLut c f lut -> c + f <= code < Z.of_nat (length lut) ->
  strOf lut code
  = strOf lut (br_previous (lutAt lut code)) ++ [br_last (lutAt lut code)].
Proof.
  intros Hwf Hcode.
  destruct (dataCode_entry lut code Hwf (or_intror Hcode))
    as [(? & _)|(_ & Hprev & _ & Hlen & _)]; [lia|].
  pose proof (dataCode_length lut _ Hwf Hprev) as Hp.
  unfold strOf at 1. rewrite Hlen.
  replace (Z.to_nat (br_length (lutAt lut (br_previous (lutAt lut code))) + 1))
    with (S (Z.to_nat (br_length (lutAt lut (br_previous (lutAt lut code))))))
    by lia.
  cbn [walkBack]. now rewrite walkBack_app.
Qed.

Lemma strOf_nonempty lut code :
  wfLut c f lut -> dataCode c f lut code -> strOf lut code <> [].
Proof.
  intros Hwf Hd Hnil. pose proof (dataCode_length lut code Hwf Hd) as Hl.
  apply (f_equal (@length Z)) in Hnil. unfold strOf in Hnil.
  rewrite length_walkBack in Hnil. cbn in Hnil. lia.
Qed.

(** More entries at the end do not change the string of a code. *)
Lemma walkBack_ext lut ext n : forall code w,
  wfLut c f lut -> dataCode c f lut code ->
  br_length (lutAt lut code) = Z.of_nat n ->
  walkBack (lut ++ ext) n code w = walkBack lut n code w.
Proof.
  induction n as [|n IH]; intros code w Hwf Hd Hlen; [reflexivity|].
  cbn [walkBack].
  assert (Hin : code < Z.of_nat (length lut))
    by (pose proof (proj1 Hwf); destruct Hd; lia).
  rewrite (lutAt_app lut ext code Hin).
  destruct n as [|n]; [reflexivity|].
  destruct (dataCode_entry lut code Hwf Hd)
    as [(_ & H1 & _)|(_ & Hprev & _ & Hl & _)]; [lia|].
  apply IH; [exact Hwf | exact Hprev | lia].
Qed.

Lemma strOf_ext lut ext code :
  wfLut c f lut -> dataCode c f lut code ->
  strOf (lut ++ ext) code = strOf lut code.
Proof.
  intros Hwf Hd. unfold strOf.
  assert (Hin : code < Z.of_nat (length lut))
    by (pose proof (proj1 Hwf); destruct Hd; lia).
  rewrite (lutAt_app lut ext code Hin).
  apply walkBack_ext; [exact Hwf | exact Hd|].
  pose proof (dataCode_length lut code Hwf Hd). lia.
Qed.

Lemma dataCode_ext lut ext code :
  dataCode c f lut code -> dataCode c f (lut ++ ext) code.
Proof.
  intros [H|H]; [left; exact H | right]. rewrite length_app. lia.
Qed.

(** A new entry for a data code keeps the table well formed. *)
Lemma wfLut_push lut prev last pos :
  wfLut c f lut -> dataCode c f lut prev ->
  wfLut c f (lut ++ [mkRef (br_length (lutAt lut prev) + 1) prev last pos]).
Proof.
  intros Hwf Hd. pose proof (dataCode_length lut prev Hwf Hd) as Hl.
  destruct Hwf as (Hlen & Hwf).
  split; [rewrite length_app; lia|].
  intros v r Hv.
  assert (Hprev : prev < Z.of_nat (length lut)) by (destruct Hd; lia).
  destruct (decide (v < length lut)%nat) as [Hin|Hout].
  - rewrite lookup_app_l in Hv by exact Hin.
    specialize (Hwf v r Hv).
    destruct (Z.of_nat v <? c); [exact Hwf|].
    destruct (Z.of_nat v <? c + f); [exact Hwf|].
    destruct Hwf as (H1 & H2 & H3 & H4).
    split; [now apply dataCode_ext|]. split; [exact H2|].
    split; [|exact H4].
    rewrite lutAt_app; [exact H3 | destruct H1; lia].
  - rewrite lookup_app_r in Hv by lia.
    destruct (v - length lut)%nat as [|k] eqn:Hk; [|destruct k; discriminate Hv].
    cbn in Hv. injection Hv as <-. cbn [br_previous br_length br_last].
    destruct (Z.ltb_spec (Z.of_nat v) c); [lia|].
    destruct (Z.ltb_spec (Z.of_nat v) (c + f)); [lia|].
    split; [now apply dataCode_ext|]. split; [lia|].
    split; [|lia]. now rewrite lutAt_app.
Qed.

End Table.

End LzwStringProps.


(** ** The walk of addCode and the strings it stands for *)

Module LzwParseProps.

Import LzwEncoder LzwDecoder LzwStrings LzwParse LzwStringProps.

Lemma at_nth (data : list Z) i :
  0 <= i < size_ data -> data !! Z.to_nat i = Some (at_ data i).
Proof.
  intros Hi. unfold at_. destruct (Z.ltb_spec i 0); [lia|].
  rewrite nth_lookup.
  destruct (lookup_lt_is_Some_2 data (Z.to_nat i)) as (x & Hx);
    [unfold size_ in Hi; lia|].
  rewrite Hx. reflexivity.
Qed.

Lemma slice_snoc data a b :
  0 <= a <= b -> b < size_ data ->
  slice data a (b + 1) = slice data a b ++ [at_ data b].
Proof.
  intros Hab Hb. unfold slice.
  replace (Z.to_nat (b + 1 - a)) with (S (Z.to_nat (b - a))) by lia.
  apply take_S_r. rewrite lookup_drop.
  replace (Z.to_nat a + Z.to_nat (b - a))%nat with (Z.to_nat b) by lia.
  apply at_nth. lia.
Qed.

Lemma slice_empty data a : slice data a a = [].
Proof. unfold slice. now rewrite Z.sub_diag. Qed.

Lemma slice_single data a :
  0 <= a < size_ data -> slice data a (a + 1) = [at_ data a].
Proof.
  intros Ha. rewrite slice_snoc by lia. now rewrite slice_empty.
Qed.

Lemma take_slice data a b :
  0 <= a <= b ->
  take (Z.to_nat b) data = take (Z.to_nat a) data ++ slice data a b.
Proof.
  intros Hab. unfold slice.
  rewrite take_take_drop. f_equal. lia.
Qed.

Lemma child_lookup (trie : gmap (Z * Z) Z) code b :
  child trie code b <> Unknown ->
  trie !! (code, b) = Some (child trie code b).
Proof.
  unfold child. destruct (trie !! (code, b)) as [v|]; cbn; [reflexivity|].
  intros H. contradiction.
Qed.

(** The walk of [addCode] through a sound trie ends at the code whose
    string is the bytes walked over. *)
Lemma walk_string c f data lut trie maxLength m :
  forall n from code len start,
  0 <= c -> 0 <= f -> wfLut c f lut -> trieSound c f lut trie ->
  dataCode c f lut code -> strOf lut code = slice data start from ->
  0 <= start <= from -> from + Z.of_nat m <= size_ data ->
  size_ data < 4294967296 ->
  len + Z.of_nat n = maxLength ->
  Z.of_nat m <= findMatchLoop data trie maxLength n from code len - len ->
  dataCode c f lut (snd (addCodeWalk data trie m from code))
  /\ strOf lut (snd (addCodeWalk data trie m from code))
     = slice data start (from + Z.of_nat m).
Proof.
  induction m as [|m IH];
    intros n from code len start Hc Hf Hwf Hts Hd Hstr Hs Hend Hsize Hlen Hm.
  - cbn [addCodeWalk snd]. rewrite Z.add_0_r. auto.
  - destruct n as [|n]; cbn [findMatchLoop] in Hm; [lia|].
    cbn [addCodeWalk].
    destruct (Z.eqb_spec (child trie code (at_ data from)) Unknown) as [|Hne];
      [lia|].
    pose proof (Hts _ _ _ (child_lookup trie code _ Hne))
      as (_ & Hv & Hprev & Hlast).
    rewrite (u32_small (from + 1)) in * by lia.
    replace (from + Z.of_nat (S m)) with (from + 1 + Z.of_nat m) by lia.
    apply (IH n (from + 1) _ (len + 1) start); try assumption; try lia.
    + right. exact Hv.
    + rewrite (strOf_step c f Hc Hf lut _ Hwf Hv), Hprev, Hlast, Hstr.
      symmetry. apply slice_snoc; lia.
Qed.

End LzwParseProps.


(** ** The decoder on the tokens of a GIF frame *)

Module DecoderStepProps.

Import BinaryInputBuffer LzwDecoder Container Statements Values.
Import ReaderContent GifFraming LzwStrings LzwParse Synchrony.
Import BitOutputProps ReaderContentProps WriterProps GifFramingProps.
Import LzwStringProps LzwParseProps.

Lemma at_app_head (bytes : list Z) x rest :
  at_ (bytes ++ x :: rest) (size_ bytes) = x.
Proof.
  unfold at_, size_. destruct (Z.ltb_spec (Z.of_nat (length bytes)) 0); [lia|].
  rewrite Nat2Z.id, nth_lookup, lookup_app_r by lia.
  now rewrite Nat.sub_diag.
Qed.

Lemma length_pending M lut tok x pos :
  Z.of_nat (length (pending M lut tok x pos))
  = if Z.of_nat (length lut) <? M then Z.of_nat (length lut) + 1
    else Z.of_nat (length lut).
Proof.
  unfold pending. destruct (_ <? _); [|reflexivity].
  rewrite length_app. cbn [length]. lia.
Qed.

(** "look up token in dictionary" for a token that stands for a
    string in the table with its pending entry: the string is
    appended, and its first byte is the last byte of the new entry. *)
Lemma lookUpToken_data p c f lut tok code bytes x str :
  0 <= c -> 0 <= f ->
  wfLut c f lut -> dataCode c f lut tok ->
  size_ bytes < 4294967296 ->
  let Lv := pending (MaxToken p) lut tok x (size_ bytes) in
  dataCode c f Lv code -> strOf Lv code = x :: str ->
  lookUpToken p lut tok code bytes = Ok (bytes ++ x :: str, x).
Proof.
  intros Hc0 Hf0 Hwf Htok Hsize Lv Hcode Hstr.
  assert (Hpos : u32 (size_ bytes) = size_ bytes)
    by (apply u32_small; unfold size_ in *; lia).
  pose proof (length_pending (MaxToken p) lut tok x (size_ bytes)) as HlenLv.
  fold Lv in HlenLv.
  pose proof (proj1 Hwf) as HlenL.
  unfold lookUpToken. cbv zeta. rewrite Hpos.
  destruct (Z.leb_spec (Z.of_nat (length lut)) code) as [Hnew|Hold].
  - assert (Hnotfull : Z.of_nat (length lut) < MaxToken p).
    { destruct (Z.ltb_spec (Z.of_nat (length lut)) (MaxToken p)); [lia|].
      destruct Hcode; lia. }
    destruct (Z.ltb_spec (Z.of_nat (length lut)) (MaxToken p)); [|lia].
    assert (Hceq : code = Z.of_nat (length lut)) by (destruct Hcode; lia).
    destruct (Z.eqb_spec code (Z.of_nat (length lut))) as [_|]; [|lia].
    cbn [negb].
    destruct (Z.leb_spec (MaxToken p) (Z.of_nat (length lut))); [lia|].
    rewrite decode_strOf.
    assert (HLv : Lv = lut ++ [mkRef (br_length (lutAt lut tok) + 1) tok x
                                     (size_ bytes)]).
    { unfold Lv, pending.
      destruct (Z.ltb_spec (Z.of_nat (length lut)) (MaxToken p));
        [reflexivity | lia]. }
    pose proof (wfLut_push c f Hc0 Hf0 lut tok x (size_ bytes) Hwf Htok)
      as HwfLv.
    rewrite <- HLv in HwfLv.
    assert (Hstep : strOf Lv code = strOf lut tok ++ [x]).
    { assert (Hat : lutAt Lv code
                    = mkRef (br_length (lutAt lut tok) + 1) tok x (size_ bytes))
        by (rewrite Hceq, HLv; apply lutAt_snoc).
      rewrite (strOf_step c f Hc0 Hf0 Lv code HwfLv) by (destruct Hcode; lia).
      rewrite Hat. cbn [br_previous br_last]. rewrite HLv.
      now rewrite (strOf_ext c f Hc0 Hf0 _ _ _ Hwf Htok). }
    rewrite Hstr in Hstep.
    pose proof (strOf_nonempty c f Hc0 Hf0 _ _ Hwf Htok) as Hne.
    destruct (strOf lut tok) as [|y s'] eqn:Hs; [contradiction|].
    cbn [app] in Hstep. injection Hstep as -> Hrest.
    rewrite at_app_head. rewrite <- app_assoc. cbn [app].
    rewrite Hrest. reflexivity.
  - assert (Hd : dataCode c f lut code)
      by (destruct Hcode; [left | right]; lia).
    rewrite decode_strOf.
    assert (HsL : strOf Lv code = strOf lut code).
    { unfold Lv, pending. destruct (_ <? _); [|reflexivity].
      apply (strOf_ext c f Hc0 Hf0 _ _ _ Hwf Hd). }
    rewrite <- HsL, Hstr, at_app_head. reflexivity.
Qed.

Lemma inFrames_setBytes d r low blocks tail bytes :
  inFrames d r low blocks tail -> inFrames (setBytes d bytes) r low blocks tail.
Proof.
  intros (H1 & H2 & H3 & H4 & H5 & H6 & H7 & H8).
  unfold inFrames. dec_fields. auto 10.
Qed.

(** With fewer bits left in the blocks than the token has, the
    reader runs into the empty block. *)
Lemma getLzwBits_short d r low blocks tail n :
  inFrames d r low blocks (0 :: tail) -> 1 <= n <= 16 ->
  payloadBits r blocks < n ->
  getLzwBits n d = Err "too few bits available in unlzw".
Proof.
  intros (Hgif & Hgood & Hr & Hr0 & Hlow & Hcont & Hleft & Hblocks) Hn Hbits.
  destruct d as [inp bytes gif cs r0 num].
  cbn [m_input m_bytes m_isGif m_codeSize m_bitsLeftInCurrentBlock
       m_numBitsOriginalLZW] in *.
  subst gif r0.
  unfold getLzwBits, payloadBits in *.
  assert (Hcat : 0 <= size_ (concat blocks)) by (unfold size_; lia).
  destruct (Z.eqb_spec n 0) as [|_]; [lia|].
  cbv zeta. dec_fields. cbn [negb].
  destruct (Z.leb_spec n r) as [Hin|Hcross]; [lia|].
  (* the next byte in the file: a block length or the empty block *)
  assert (Hnext : exists nb more,
             frames blocks ++ 0 :: tail = nb :: more
             /\ 0 <= nb <= 255 /\ r + 8 * nb < n).
  { destruct blocks as [|blk rest].
    - exists 0, tail. split; [reflexivity|].
      change (size_ (concat [])) with 0 in Hbits. lia.
    - cbn [goodBlocks] in Hblocks. destruct Hblocks as (Hblk & Hsz & Hrest).
      rewrite frames_cons. eexists _, _. split; [reflexivity|].
      cbn [concat] in Hbits. rewrite size_app in Hbits.
      assert (0 <= size_ (concat rest)) by (unfold size_; lia).
      destruct rest; lia. }
  destruct Hnext as (nb & more & Hfile & Hnb & Hshort).
  rewrite Hfile in Hcont, Hleft.
  set (X := bytesVal (nb :: more)) in *.
  assert (Hmore : 0 <= size_ more) by (unfold size_; lia).
  assert (Hsz : size_ (nb :: more) = 1 + size_ more)
    by (unfold size_; cbn [length]; lia).
  assert (Hfirst : exists d1,
    (if 0 <? r
     then '(low0, d') ← inputBits (u8 r)
                        (mkDecoder inp bytes true cs r (u32 (num + n)));
          Ok (low0, u8 r, u8 (n - r), d')
     else Ok (0, 0, n, mkDecoder inp bytes true cs r (u32 (num + n))))
    = Ok (low, r, n - r, d1)
    /\ goodBuffer (m_input d1) /\ content (m_input d1) = X
    /\ m_bitsLeft (m_input d1) = 8 * size_ (nb :: more)).
  { destruct (Z.ltb_spec 0 r) as [Hpos|Hzero].
    - rewrite (u8_small r), (u8_small (n - r)) by lia.
      assert (Hle : r <= m_bitsLeft inp) by lia.
      destruct (inputBits_content r
                  (mkDecoder inp bytes true cs r (u32 (num + n)))
                  Hgood ltac:(lia) Hle)
        as (b1 & Hget & Hc1 & Hg1 & Hl1).
      rewrite Hget. cbn [m_input] in *.
      destruct (split_low low X r r Hlow ltac:(lia)) as (Hm & Hd).
      rewrite Hcont, Hm, Hd in *.
      rewrite Z.mod_small, Z.div_small, Z.sub_diag in * by lia.
      exists (mkDecoder b1 bytes true cs r (u32 (num + n))). dec_fields.
      split; [reflexivity|]. split; [exact Hg1|].
      change (2 ^ 0) with 1 in *. split; lia.
    - assert (r = 0) by lia. subst r.
      change (2 ^ 0) with 1 in *. assert (low = 0) by lia. subst low.
      exists (mkDecoder inp bytes true cs 0 (u32 (num + n))). dec_fields.
      rewrite Z.sub_0_r. split; [reflexivity|]. split; [exact Hgood|].
      split; lia. }
  destruct Hfirst as (d1 & Hfirst & Hg1 & Hc1 & Hl1).
  rewrite Hfirst. clear Hfirst. cbn [mbind outcome_bind rbind].
  destruct (inputByte_content d1 Hg1 ltac:(lia)) as (b2 & Hbyte & _).
  assert (Hmod : content (m_input d1) mod 256 = nb).
  { rewrite Hc1. unfold X. cbn [bytesVal].
    replace (nb + 256 * bytesVal more) with (nb + bytesVal more * 256) by ring.
    rewrite Z.mod_add by lia. apply Z.mod_small. lia. }
  rewrite Hmod in Hbyte. rewrite Hbyte. cbn [mbind outcome_bind rbind].
  dec_fields. rewrite (u32_small (8 * nb)) by lia.
  destruct (Z.ltb_spec (8 * nb) (n - r)); [reflexivity | lia].
Qed.

Lemma resize_take c0 (lut : list BackReference) :
  0 <= c0 -> c0 <= Z.of_nat (length lut) ->
  resize c0 lut = take (Z.to_nat c0) lut.
Proof.
  intros H0 Hle. unfold resize.
  replace (Z.to_nat c0 - length lut)%nat with 0%nat by lia.
  apply app_nil_r.
Qed.

(** The table after a reset. *)
Lemma wfLut_take c0 lut :
  0 <= c0 -> wfLut c0 2 lut -> wfLut c0 2 (take (Z.to_nat (c0 + 2)) lut)
  /\ Z.of_nat (length (take (Z.to_nat (c0 + 2)) lut)) = c0 + 2.
Proof.
  intros H0 (Hlen & Hwf).
  assert (Hl : Z.of_nat (length (take (Z.to_nat (c0 + 2)) lut)) = c0 + 2)
    by (rewrite length_take; lia).
  split; [|exact Hl]. split; [lia|].
  intros v r Hv.
  assert (Hlt : (v < Z.to_nat (c0 + 2))%nat).
  { apply lookup_lt_Some in Hv. rewrite length_take in Hv. lia. }
  rewrite lookup_take_lt in Hv by exact Hlt.
  specialize (Hwf v r Hv).
  destruct (Z.ltb_spec (Z.of_nat v) c0); [exact Hwf|].
  destruct (Z.ltb_spec (Z.of_nat v) (c0 + 2)); [exact I | lia].
Qed.

Section Step.

Variable k : Z.
Hypothesis Hmin : 2 <= k <= 8.

Let p := mkParams k 12.
Let c := 2 ^ k.

Lemma clear_eq : clearCode p = c /\ 4 <= c <= 256.
Proof.
  unfold clearCode, c, p. cbn [p_minCodeSize]. rewrite Z.shiftl_1_l.
  assert (2 ^ 2 <= 2 ^ k) by (apply Z.pow_le_mono_r; lia).
  assert (2 ^ k <= 2 ^ 8) by (apply Z.pow_le_mono_r; lia).
  change (2 ^ 2) with 4 in *. change (2 ^ 8) with 256 in *.
  rewrite u32_small by lia. lia.
Qed.

Lemma eos_eq : endOfStreamCode p true = c + 1.
Proof.
  pose proof clear_eq as (Hc & Hb). unfold endOfStreamCode. rewrite Hc.
  apply u32_small. lia.
Qed.

Lemma maxToken_eq : MaxToken p = 4096.
Proof. reflexivity. Qed.

Lemma readCodeSize_bounds st :
  1 <= l_codeSize st <= 12 ->
  l_codeSize st <= readCodeSize p st <= 12.
Proof.
  intros Hcs. unfold readCodeSize. cbn [p p_maxCodeSize].
  destruct (_ && _) eqn:Hcond; [|lia].
  apply andb_true_iff in Hcond as [_ Hlt]. apply Z.ltb_lt in Hlt.
  rewrite u8_small by lia. lia.
Qed.

(** One iteration of the main loop on a data token: the string of the
    token is appended, the table gets its pending entry. *)
Lemma iteration_data_token st r low blocks tail code rest x str :
  inFrames (l_dec st) r low blocks tail ->
  payload r low blocks
  = bitsVal (tokenBits (code, readCodeSize p st) ++ rest) ->
  readCodeSize p st <= payloadBits r blocks ->
  1 <= l_codeSize st <= 12 ->
  wfLut c 2 (l_lut st) -> dataCode c 2 (l_lut st) (l_token st) ->
  Z.of_nat (length (l_lut st)) <= 4096 ->
  size_ (m_bytes (l_dec st)) < 4294967296 ->
  let Lv := pending 4096 (l_lut st) (l_token st) x (size_ (m_bytes (l_dec st))) in
  dataCode c 2 Lv code -> strOf Lv code = x :: str ->
  code < 2 ^ readCodeSize p st ->
  exists d' r' low' blocks',
    iteration p st
    = Ok (inl (mkLoop d' Lv (readCodeSize p st) (l_token st) code
                      (u32 (l_numTokensBlock st + 1))))
    /\ m_bytes d' = m_bytes (l_dec st) ++ x :: str
    /\ inFrames d' r' low' blocks' tail
    /\ payload r' low' blocks' = bitsVal rest
    /\ payloadBits r' blocks' = payloadBits r blocks - readCodeSize p st.
Proof.
  intros Hin Hpay Hbits Hcs Hwf Htok Hroom Hsize Lv Hcode Hstr Hfit.
  pose proof clear_eq as (Hclear & Hcb). pose proof eos_eq as Heos.
  assert (Hc0 : 0 <= c) by lia.
  pose proof (readCodeSize_bounds st Hcs) as Hw.
  set (w := readCodeSize p st) in *.
  assert (Hcode0 : 0 <= code) by (destruct Hcode; lia).
  destruct (getLzwBits_inFrames (l_dec st) r low blocks tail w Hin
              ltac:(lia) Hbits)
    as (d1 & r1 & low1 & blocks1 & Hget & Hin1 & Hp1 & Hb1 & _ & Hbytes1).
  destruct (content_tokenBits code w (payload r low blocks) rest
              ltac:(lia) ltac:(lia) Hpay) as (Hmod & Hdiv).
  rewrite Hmod in Hget. rewrite Hdiv in Hp1.
  pose proof (length_pending 4096 (l_lut st) (l_token st) x
                (size_ (m_bytes (l_dec st)))) as HlenLv.
  fold Lv in HlenLv.
  assert (Hgif : m_isGif (l_dec st) = true) by exact (proj1 Hin).
  pose proof (proj1 Hwf) as HlenL.
  assert (Hle : code <= Z.of_nat (length (l_lut st))).
  { destruct (Z.of_nat (length (l_lut st)) <? 4096); destruct Hcode; lia. }
  unfold iteration. cbv zeta. fold (readCodeSize p st). fold w.
  rewrite Hgif. cbn [negb andb].
  rewrite Hget. cbn [mbind outcome_bind rbind].
  destruct (Z.ltb_spec (Z.of_nat (length (l_lut st))) code) as [Hbad|_]; [lia|].
  rewrite Hclear, Heos.
  destruct (Z.eqb_spec code c) as [Hbad|_]; [destruct Hcode; lia|].
  destruct (Z.eqb_spec code (c + 1)) as [Hbad|_]; [destruct Hcode; lia|].
  rewrite Hbytes1.
  assert (Hpos : u32 (size_ (m_bytes (l_dec st))) = size_ (m_bytes (l_dec st))).
  { apply u32_small. unfold size_ in *. lia. }
  assert (Hlook : lookUpToken p (l_lut st) (l_token st) code (m_bytes (l_dec st))
                  = Ok (m_bytes (l_dec st) ++ x :: str, x))
    by (apply (lookUpToken_data p c 2 (l_lut st) (l_token st) code
                 (m_bytes (l_dec st)) x str Hc0 ltac:(lia) Hwf Htok Hsize
                 Hcode Hstr)).
  rewrite Hlook. cbn [mbind outcome_bind rbind].
  rewrite maxToken_eq, Hpos. fold (pending 4096 (l_lut st) (l_token st) x
                                     (size_ (m_bytes (l_dec st)))). fold Lv.
  exists (setBytes d1 (m_bytes (l_dec st) ++ x :: str)), r1, low1, blocks1.
  split; [reflexivity|].
  split; [reflexivity|].
  split; [now apply inFrames_setBytes|].
  split; [exact Hp1 | exact Hb1].
Qed.

(** The iteration that reads the end-of-stream code leaves the loop
    with the output untouched. *)
Lemma iteration_eos st r low blocks tail :
  inFrames (l_dec st) r low blocks tail ->
  payload r low blocks = c + 1 ->
  readCodeSize p st <= payloadBits r blocks ->
  1 <= l_codeSize st <= 12 ->
  c + 2 <= Z.of_nat (length (l_lut st)) ->
  c + 1 < 2 ^ readCodeSize p st ->
  exists d' r' low' blocks',
    iteration p st
    = Ok (inr (mkLoop d' (l_lut st) (readCodeSize p st) (l_token st) (c + 1)
                      (u32 (l_numTokensBlock st + 1))))
    /\ m_bytes d' = m_bytes (l_dec st)
    /\ inFrames d' r' low' blocks' tail
    /\ payloadBits r' blocks' = payloadBits r blocks - readCodeSize p st.
Proof.
  intros Hin Hpay Hbits Hcs HlenL Hfit.
  pose proof clear_eq as (Hclear & Hcb). pose proof eos_eq as Heos.
  pose proof (readCodeSize_bounds st Hcs) as Hw.
  set (w := readCodeSize p st) in *.
  destruct (getLzwBits_inFrames (l_dec st) r low blocks tail w Hin
              ltac:(lia) Hbits)
    as (d1 & r1 & low1 & blocks1 & Hget & Hin1 & Hp1 & Hb1 & _ & Hbytes1).
  rewrite Hpay, Z.mod_small in Hget by lia.
  assert (Hgif : m_isGif (l_dec st) = true) by exact (proj1 Hin).
  unfold iteration. cbv zeta. fold (readCodeSize p st). fold w.
  rewrite Hgif. cbn [negb andb].
  rewrite Hget. cbn [mbind outcome_bind rbind].
  destruct (Z.ltb_spec (Z.of_nat (length (l_lut st))) (c + 1)) as [Hbad|_]; [lia|].
  rewrite Hclear, Heos.
  destruct (Z.eqb_spec (c + 1) c) as [Hbad|_]; [lia|].
  rewrite Z.eqb_refl.
  exists d1, r1, low1, blocks1. auto.
Qed.

Lemma length_initialLut_gif : Z.of_nat (length (initialLut p true)) = c + 2.
Proof.
  pose proof clear_eq as (Hclear & Hcb).
  unfold initialLut, maxColor. rewrite Hclear.
  rewrite length_app, length_map, length_seq, repeat_length.
  rewrite u32_small by lia. lia.
Qed.

Lemma wfLut_initialLut : wfLut c 2 (initialLut p true).
Proof.
  pose proof clear_eq as (Hclear & Hcb).
  split; [rewrite length_initialLut_gif; lia|].
  intros v r Hv.
  assert (Hlt : (v < length (initialLut p true))%nat)
    by (apply lookup_lt_is_Some; eauto).
  pose proof length_initialLut_gif as Hlen.
  destruct (Z.ltb_spec (Z.of_nat v) c) as [Hlit|Hge].
  - unfold initialLut, maxColor in Hv. rewrite Hclear in Hv.
    rewrite u32_small in Hv by lia.
    rewrite lookup_app_l in Hv by (rewrite length_map, length_seq; lia).
    rewrite list_lookup_fmap in Hv.
    rewrite lookup_seq_lt in Hv by lia. cbn in Hv. injection Hv as <-.
    cbn [br_length br_last]. split; [reflexivity|]. apply u8_small. lia.
  - destruct (Z.ltb_spec (Z.of_nat v) (c + 2)); [exact I | lia].
Qed.

Lemma skipClear_data fuel cs token d :
  token <> c -> skipClear p fuel cs token d = Ok (token, d).
Proof.
  intros Hne. pose proof clear_eq as (Hclear & _).
  destruct fuel; cbn [skipClear]; rewrite Hclear;
    (destruct (Z.eqb_spec token c); [contradiction | reflexivity]).
Qed.

(** The part of [decompress] before the main loop, on a stream that
    starts with a literal, after a clear code or not. *)
Lemma firstToken_data input blocks tail pre code rest :
  inFrames (mkDecoder input [] true k 0 0) 0 0 blocks tail ->
  pre = [] \/ pre = tokenBits (c, k + 1) ->
  payload 0 0 blocks = bitsVal (pre ++ tokenBits (code, k + 1) ++ rest) ->
  Z.of_nat (length pre) + (k + 1) <= payloadBits 0 blocks ->
  0 <= code < c ->
  exists d r low blocks',
    firstToken input true k 12
    = Ok (mkLoop d (initialLut p true) (k + 1) NoPrevious code 1)
    /\ m_bytes d = [code]
    /\ inFrames d r low blocks' tail
    /\ payload r low blocks' = bitsVal rest
    /\ payloadBits r blocks' = payloadBits 0 blocks - Z.of_nat (length pre) - (k + 1).
Proof.
  intros Hin Hpre Hpay Hbits Hcode.
  pose proof clear_eq as (Hclear & Hcb). pose proof eos_eq as Heos.
  pose proof length_initialLut_gif as Hlen.
  assert (Hpow : 2 ^ (k + 1) = 2 * c)
    by (unfold c; rewrite Z.pow_add_r by lia; change (2 ^ 1) with 2; lia).
  unfold firstToken. cbv zeta. fold p. rewrite (u8_small (k + 1)) by lia.
  set (d0 := mkDecoder input [] true k 0 0) in *.
  assert (Hfirst : exists (d1 : Decoder) r1 low1 blocks1,
            ('(token0, d') ← getLzwBits (k + 1) d0;
             skipClear p (S (Z.to_nat (getNumBitsLeft input))) (k + 1) token0 d')
            = Ok (code, d1)
            /\ m_bytes d1 = []
            /\ inFrames d1 r1 low1 blocks1 tail
            /\ payload r1 low1 blocks1 = bitsVal rest
            /\ payloadBits r1 blocks1
               = payloadBits 0 blocks - Z.of_nat (length pre) - (k + 1)).
  { destruct Hpre as [->| ->].
    - cbn [app length] in *.
      destruct (getLzwBits_inFrames d0 0 0 blocks tail (k + 1) Hin
                  ltac:(lia) ltac:(lia))
        as (d1 & r1 & low1 & blocks1 & Hget & Hin1 & Hp1 & Hb1 & _ & Hbytes1).
      destruct (content_tokenBits code (k + 1) (payload 0 0 blocks) rest
                  ltac:(lia) ltac:(lia) Hpay) as (Hmod & Hdiv).
      rewrite Hmod in Hget. rewrite Hdiv in Hp1.
      exists d1, r1, low1, blocks1.
      rewrite Hget. cbn [mbind outcome_bind rbind].
      rewrite skipClear_data by lia.
      split; [reflexivity|]. split; [exact Hbytes1|].
      split; [exact Hin1|]. split; [exact Hp1 | lia].
    - assert (Hl : length (tokenBits (c, k + 1)) = Z.to_nat (k + 1))
        by (unfold tokenBits; apply length_addBits').
      rewrite Hl in *.
      destruct (getLzwBits_inFrames d0 0 0 blocks tail (k + 1) Hin
                  ltac:(lia) ltac:(lia))
        as (d1 & r1 & low1 & blocks1 & Hget & Hin1 & Hp1 & Hb1 & _ & Hbytes1).
      destruct (content_tokenBits c (k + 1) (payload 0 0 blocks) _
                  ltac:(lia) ltac:(lia) Hpay) as (Hmod & Hdiv).
      rewrite Hmod in Hget. rewrite Hdiv in Hp1.
      destruct (getLzwBits_inFrames d1 r1 low1 blocks1 tail (k + 1) Hin1
                  ltac:(lia) ltac:(lia))
        as (d2 & r2 & low2 & blocks2 & Hget2 & Hin2 & Hp2 & Hb2 & _ & Hbytes2).
      destruct (content_tokenBits code (k + 1) (payload r1 low1 blocks1) rest
                  ltac:(lia) ltac:(lia) Hp1) as (Hmod2 & Hdiv2).
      rewrite Hmod2 in Hget2. rewrite Hdiv2 in Hp2.
      exists d2, r2, low2, blocks2.
      rewrite Hget. cbn [mbind outcome_bind rbind].
      cbn [skipClear]. rewrite Hclear, Z.eqb_refl.
      rewrite Hget2. cbn [mbind outcome_bind rbind].
      rewrite skipClear_data by lia.
      split; [reflexivity|].
      split; [rewrite Hbytes2, Hbytes1; reflexivity|].
      split; [exact Hin2|]. split; [exact Hp2 | lia]. }
  destruct Hfirst as (d1 & r1 & low1 & blocks1 & Hrun & Hb & Hin1 & Hp1 & Hbits1).
  destruct (getLzwBits (k + 1) d0) as [[token0 dd]|] eqn:Hg;
    cbn [mbind outcome_bind rbind] in Hrun |- *; [|discriminate Hrun].
  rewrite Hrun. cbn [mbind outcome_bind rbind].
  rewrite Hlen, Heos.
  destruct (Z.leb_spec (c + 2) code); [lia|].
  destruct (Z.eqb_spec code (c + 1)); [lia|]. cbn [negb].
  exists (setBytes d1 (m_bytes d1 ++ [u8 code])), r1, low1, blocks1.
  split; [reflexivity|].
  split; [dec_fields; rewrite Hb, u8_small by lia; reflexivity|].
  split; [now apply inFrames_setBytes|].
  split; assumption.
Qed.

Lemma readCodeSize_nextWidth st :
  1 <= l_codeSize st <= 12 ->
  readCodeSize p st = nextWidth 12 (Z.of_nat (length (l_lut st))) (l_codeSize st).
Proof.
  intros Hcs. unfold readCodeSize, nextWidth. cbn [p p_maxCodeSize].
  rewrite Z.shiftl_1_l.
  assert (2 ^ l_codeSize st <= 2 ^ 12) by (apply Z.pow_le_mono_r; lia).
  assert (0 < 2 ^ l_codeSize st) by (apply Z.pow_pos_nonneg; lia).
  change (2 ^ 12) with 4096 in *.
  rewrite u32_small by lia.
  destruct (_ && _) eqn:Hcond; [|reflexivity].
  apply andb_true_iff in Hcond as [_ Hlt]. apply Z.ltb_lt in Hlt.
  apply u8_small. lia.
Qed.

Lemma consumed_first pre code :
  pre = [] \/ pre = tokenBits (c, k + 1) -> 0 <= code < c ->
  consumed k 0 (pre ++ tokenBits (code, k + 1)) (initialLut p true)
           (k + 1) code [code].
Proof.
  intros Hpre Hcode input blocks tail rest Hin Hpay Hbits.
  rewrite <- app_assoc in Hpay.
  assert (Hl : length (tokenBits (code, k + 1)) = Z.to_nat (k + 1))
    by (unfold tokenBits; apply length_addBits').
  rewrite !length_app, Hl in Hbits.
  destruct (firstToken_data input blocks tail pre code rest Hin Hpre Hpay
              ltac:(lia) Hcode)
    as (d & r & low & blocks' & Hft & Hb & Hin' & Hp' & Hbits').
  exists (mkLoop d (initialLut p true) (k + 1) NoPrevious code 1),
         (mkLoop d (initialLut p true) (k + 1) NoPrevious code 1),
         r, low, blocks'.
  split; [exact Hft|]. split; [reflexivity|].
  cbn [l_lut l_codeSize l_token l_dec].
  rewrite length_app, Hl.
  repeat (split; [first [reflexivity | assumption]|]). lia.
Qed.

Lemma consumed_step n bits L cs tok bytes code x str :
  consumed k n bits L cs tok bytes ->
  1 <= cs <= 12 -> wfLut c 2 L -> dataCode c 2 L tok ->
  Z.of_nat (length L) <= 4096 -> size_ bytes < 4294967296 ->
  let w := nextWidth 12 (Z.of_nat (length L)) cs in
  let Lv := pending 4096 L tok x (size_ bytes) in
  dataCode c 2 Lv code -> strOf Lv code = x :: str -> code < 2 ^ w ->
  consumed k (S n) (bits ++ tokenBits (code, w)) Lv w code (bytes ++ x :: str).
Proof.
  intros Hcon Hcs Hwf Htok Hroom Hsize w Lv Hcode Hstr Hfit
         input blocks tail rest Hin Hpay Hbits.
  pose proof eos_eq as Heos.
  rewrite <- app_assoc in Hpay, Hbits.
  destruct (Hcon input blocks tail (tokenBits (code, w) ++ rest) Hin Hpay Hbits)
    as (st0 & dst & r & low & blocks' & Hft & Hrun & HL & Hc & Ht & Hb
        & Hin' & Hp' & Hbits').
  subst L cs tok bytes.
  assert (Hw : readCodeSize p dst = w) by (now apply readCodeSize_nextWidth).
  assert (Hl : length (tokenBits (code, w)) = Z.to_nat w)
    by (unfold tokenBits; apply length_addBits').
  pose proof (readCodeSize_bounds dst Hcs) as Hwb. rewrite Hw in Hwb.
  rewrite !length_app, Hl in Hbits.
  destruct (iteration_data_token dst r low blocks' tail code rest x str Hin'
              ltac:(rewrite Hw; exact Hp') ltac:(rewrite Hw; lia) Hcs Hwf Htok
              Hroom Hsize Hcode Hstr ltac:(rewrite Hw; exact Hfit))
    as (d' & r' & low' & blocks'' & Hit & Hb' & Hin'' & Hp'' & Hbits'').
  rewrite Hw in Hit, Hbits''.
  eexists st0, _, r', low', blocks''.
  split; [exact Hft|].
  split.
  { intros fuel. replace (S n + fuel)%nat with (n + S fuel)%nat by lia.
    rewrite Hrun. cbn [mainLoop]. fold p. rewrite (proj1 Hin'), Heos.
    destruct (Z.eqb_spec (l_token dst) (c + 1)) as [Hbad|_];
      [destruct Htok; lia|].
    rewrite Hit. cbn [mbind outcome_bind rbind]. reflexivity. }
  cbn [l_lut l_codeSize l_token l_dec].
  rewrite length_app, Hl.
  repeat (split; [first [reflexivity | assumption]|]). lia.
Qed.

Lemma size_concat_frames blocks : size_ (concat blocks) <= size_ (frames blocks).
Proof.
  induction blocks as [|blk rest IH]; [reflexivity|].
  unfold frames. cbn [concat flat_map]. fold (frames rest).
  rewrite !size_app. unfold size_ in *. cbn [length]. lia.
Qed.

Lemma goodBlocks_concat_nil blocks :
  goodBlocks blocks -> size_ (concat blocks) = 0 -> blocks = [].
Proof.
  destruct blocks as [|blk rest]; [reflexivity|].
  cbn [goodBlocks concat]. intros (_ & Hsz & _) Hnil.
  rewrite size_app in Hnil. unfold size_ in *. destruct rest; lia.
Qed.

(** The bits that pad the last byte are skipped. *)
Lemma closing_bits d r low blocks tail :
  inFrames d r low blocks tail -> payloadBits r blocks < 8 ->
  exists v d6,
    getLzwBits (u8 r) d = Ok (v, d6)
    /\ m_bytes d6 = m_bytes d
    /\ inFrames d6 0 0 [] tail.
Proof.
  intros Hin Hpad.
  assert (Hr : 0 <= r <= 2040) by (destruct Hin as (_ & _ & _ & H & _); exact H).
  assert (Hg : goodBlocks blocks)
    by (destruct Hin as (_ & _ & _ & _ & _ & _ & _ & H); exact H).
  unfold payloadBits in Hpad.
  assert (Hs : 0 <= size_ (concat blocks)) by (unfold size_; lia).
  assert (Hnil : blocks = []) by (apply goodBlocks_concat_nil; [exact Hg | lia]).
  subst blocks. cbn [concat] in Hpad. change (size_ []) with 0 in Hpad.
  rewrite u8_small by lia.
  destruct (Z.eq_dec r 0) as [->|Hne].
  - exists 0, d. split; [reflexivity|]. split; [reflexivity|].
    destruct Hin as (H1 & H2 & H3 & H4 & H5 & H6 & H7 & H8).
    change (2 ^ 0) with 1 in H5. assert (low = 0) by lia. subst low.
    unfold inFrames. auto 10.
  - destruct (getLzwBits_inFrames d r low [] tail r Hin ltac:(lia)
                ltac:(unfold payloadBits, size_; cbn [concat length]; lia))
      as (d' & r' & low' & blocks' & Hget & Hin' & _ & Hb' & _ & Hbytes').
    unfold payloadBits in Hb'. cbn [concat] in Hb'.
    change (size_ []) with 0 in Hb'.
    assert (Hr' : 0 <= r' <= 2040)
      by (destruct Hin' as (_ & _ & _ & H & _); exact H).
    assert (Hg' : goodBlocks blocks')
      by (destruct Hin' as (_ & _ & _ & _ & _ & _ & _ & H); exact H).
    assert (Hs' : 0 <= size_ (concat blocks')) by (unfold size_; lia).
    assert (r' = 0) by lia. subst r'.
    assert (Hnil' : blocks' = []) by (apply goodBlocks_concat_nil; [exact Hg' | lia]).
    subst blocks'.
    eexists _, d'. split; [exact Hget|]. split; [exact Hbytes'|].
    destruct Hin' as (H1 & H2 & H3 & H4 & H5 & H6 & H7 & H8).
    change (2 ^ 0) with 1 in H5. assert (low' = 0) by lia. subst low'.
    unfold inFrames. auto 10.
Qed.

(** The empty block that ends the frame. *)
Lemma terminator d tail :
  inFrames d 0 0 [] (0 :: tail) ->
  exists d', inputByte d = Ok (0, d') /\ m_bytes d' = m_bytes d.
Proof.
  intros (H1 & H2 & H3 & H4 & H5 & H6 & H7 & H8).
  cbn [frames flat_map app] in H6, H7. change (2 ^ 0) with 1 in H6.
  cbn [bytesVal] in H6.
  assert (Hs : 0 <= size_ tail) by (unfold size_; lia).
  assert (Hsz : size_ (0 :: tail) = 1 + size_ tail)
    by (unfold size_; cbn [length]; lia).
  destruct (inputByte_content d H2 ltac:(lia)) as (b2 & Hget & _).
  rewrite H6 in Hget.
  replace ((0 + 1 * (0 + 256 * bytesVal tail)) mod 256) with 0 in Hget.
  2:{ replace (0 + 1 * (0 + 256 * bytesVal tail)) with (bytesVal tail * 256)
        by ring.
      now rewrite Z.mod_mul by lia. }
  exists (setInput d b2). split; [exact Hget | reflexivity].
Qed.

(** The iteration that reads a clear code: the table is reset and the
    first token of the next block goes to the output. *)
Lemma iteration_clear st r low blocks tail code rest :
  inFrames (l_dec st) r low blocks tail ->
  payload r low blocks
  = bitsVal (tokenBits (c, readCodeSize p st)
             ++ tokenBits (code, k + 1) ++ rest) ->
  readCodeSize p st + (k + 1) <= payloadBits r blocks ->
  1 <= l_codeSize st <= 12 ->
  c + 2 <= Z.of_nat (length (l_lut st)) ->
  c < 2 ^ readCodeSize p st -> 0 <= code < c ->
  exists d' r' low' blocks',
    iteration p st
    = Ok (inl (mkLoop d' (take (Z.to_nat (c + 2)) (l_lut st)) (k + 1)
                      NoPrevious code 1))
    /\ m_bytes d' = m_bytes (l_dec st) ++ [code]
    /\ inFrames d' r' low' blocks' tail
    /\ payload r' low' blocks' = bitsVal rest
    /\ payloadBits r' blocks'
       = payloadBits r blocks - readCodeSize p st - (k + 1).
Proof.
  intros Hin Hpay Hbits Hcs HlenL Hfit Hcode.
  pose proof clear_eq as (Hclear & Hcb). pose proof eos_eq as Heos.
  pose proof (readCodeSize_bounds st Hcs) as Hw.
  set (w := readCodeSize p st) in *.
  assert (Hpow : 2 ^ (k + 1) = 2 * c)
    by (unfold c; rewrite Z.pow_add_r by lia; change (2 ^ 1) with 2; lia).
  destruct (getLzwBits_inFrames (l_dec st) r low blocks tail w Hin
              ltac:(lia) ltac:(lia))
    as (d1 & r1 & low1 & blocks1 & Hget & Hin1 & Hp1 & Hb1 & _ & Hbytes1).
  destruct (content_tokenBits c w (payload r low blocks) _
              ltac:(lia) ltac:(lia) Hpay) as (Hmod & Hdiv).
  rewrite Hmod in Hget. rewrite Hdiv in Hp1.
  destruct (getLzwBits_inFrames d1 r1 low1 blocks1 tail (k + 1) Hin1
              ltac:(lia) ltac:(lia))
    as (d2 & r2 & low2 & blocks2 & Hget2 & Hin2 & Hp2 & Hb2 & _ & Hbytes2).
  destruct (content_tokenBits code (k + 1) (payload r1 low1 blocks1) rest
              ltac:(lia) ltac:(lia) Hp1) as (Hmod2 & Hdiv2).
  rewrite Hmod2 in Hget2. rewrite Hdiv2 in Hp2.
  assert (Hgif : m_isGif (l_dec st) = true) by exact (proj1 Hin).
  unfold iteration. cbv zeta. fold (readCodeSize p st). fold w.
  rewrite Hgif. cbn [negb andb].
  rewrite Hget. cbn [mbind outcome_bind rbind].
  destruct (Z.ltb_spec (Z.of_nat (length (l_lut st))) c) as [Hbad|_]; [lia|].
  rewrite Hclear, Z.eqb_refl.
  unfold restart. cbv zeta. cbn [l_dec l_lut l_codeSize l_numTokensBlock].
  rewrite (proj1 Hin1). cbn [mbind outcome_bind rbind].
  change (p_minCodeSize p) with k.
  rewrite Hclear, (u32_small (c + 2)), (u8_small (k + 1)) by lia.
  rewrite Hget2. cbn [mbind outcome_bind rbind].
  unfold maxColor. rewrite Hclear, (u32_small (c - 1)) by lia.
  destruct (Z.ltb_spec (c - 1) code); [lia|].
  rewrite resize_take by lia. rewrite (u8_small code) by lia.
  exists (setBytes d2 (m_bytes d2 ++ [code])), r2, low2, blocks2.
  split; [reflexivity|].
  split; [dec_fields; congruence|].
  split; [now apply inFrames_setBytes|].
  split; [exact Hp2 | lia].
Qed.

(** From the end of one block into the next. *)
Lemma consumed_restart n bits L cs tok bytes code :
  consumed k n bits L cs tok bytes ->
  1 <= cs <= 12 -> c + 2 <= Z.of_nat (length L) -> dataCode c 2 L tok ->
  let w := nextWidth 12 (Z.of_nat (length L)) cs in
  c < 2 ^ w -> 0 <= code < c ->
  consumed k (S n) ((bits ++ tokenBits (c, w)) ++ tokenBits (code, k + 1))
           (take (Z.to_nat (c + 2)) L) (k + 1) code (bytes ++ [code]).
Proof.
  intros Hcon Hcs HlenL Htok w Hfit Hcode input blocks tail rest Hin Hpay Hbits.
  pose proof eos_eq as Heos.
  rewrite <- !app_assoc in Hpay, Hbits.
  destruct (Hcon input blocks tail
              (tokenBits (c, w) ++ tokenBits (code, k + 1) ++ rest)
              Hin Hpay Hbits)
    as (st0 & dst & r & low & blocks' & Hft & Hrun & HL & Hc & Ht & Hb
        & Hin' & Hp' & Hbits').
  subst L cs tok bytes.
  assert (Hw : readCodeSize p dst = w) by (now apply readCodeSize_nextWidth).
  assert (Hl : length (tokenBits (c, w)) = Z.to_nat w)
    by (unfold tokenBits; apply length_addBits').
  assert (Hl2 : length (tokenBits (code, k + 1)) = Z.to_nat (k + 1))
    by (unfold tokenBits; apply length_addBits').
  pose proof (readCodeSize_bounds dst Hcs) as Hwb. rewrite Hw in Hwb.
  rewrite !length_app, Hl, Hl2 in Hbits.
  destruct (iteration_clear dst r low blocks' tail code rest Hin'
              ltac:(rewrite Hw; exact Hp') ltac:(rewrite Hw; lia) Hcs HlenL
              ltac:(rewrite Hw; exact Hfit) Hcode)
    as (d' & r' & low' & blocks'' & Hit & Hb' & Hin'' & Hp'' & Hbits'').
  rewrite Hw in Hbits''.
  eexists st0, _, r', low', blocks''.
  split; [exact Hft|].
  split.
  { intros fuel. replace (S n + fuel)%nat with (n + S fuel)%nat by lia.
    rewrite Hrun. cbn [mainLoop]. fold p. rewrite (proj1 Hin'), Heos.
    destruct (Z.eqb_spec (l_token dst) (c + 1)) as [Hbad|_];
      [destruct Htok; lia|].
    rewrite Hit. cbn [mbind outcome_bind rbind]. reflexivity. }
  cbn [l_lut l_codeSize l_token l_dec].
  rewrite !length_app, Hl, Hl2.
  repeat (split; [first [reflexivity | assumption]|]). lia.
Qed.

Section Frame.

Variables (n : nat) (bits : list bool) (L : list BackReference).
Variables (cs tok : Z) (bytes tail : list Z) (wE : Z).

Hypothesis Hcon : consumed k n bits L cs tok bytes.
Hypothesis Hcs : 1 <= cs <= 12.
Hypothesis HlenL : c + 2 <= Z.of_nat (length L).
Hypothesis Htok : dataCode c 2 L tok.
Hypothesis Hn : (n <= length bits)%nat.
Hypothesis Htail : Forall (fun x => 0 <= x < 256) tail.
Hypothesis HwE : 1 <= wE /\ c + 1 < 2 ^ wE.

Let w := nextWidth 12 (Z.of_nat (length L)) cs.
Let all := bits ++ tokenBits (c + 1, wE).

Hypothesis Hsize : 8 * size_ (gifFrameData all ++ tail) < 4294967296.

(** The decoder in front of the closing code of the frame. *)
Lemma before_closing :
  exists st0 dst r low blocks',
    firstToken (open (gifFrameData all ++ tail)) true k 12 = Ok st0
    /\ (exists f, S (Z.to_nat (getNumBitsLeft (open (gifFrameData all ++ tail))))
                  = (n + S f)%nat)
    /\ (forall fuel, mainLoop p (n + fuel) st0 = mainLoop p fuel dst)
    /\ l_lut dst = L /\ l_codeSize dst = cs /\ l_token dst = tok
    /\ m_bytes (l_dec dst) = bytes
    /\ inFrames (l_dec dst) r low blocks' ([0] ++ tail)
    /\ payload r low blocks' = c + 1
    /\ payloadBits r blocks'
       = 8 * ((Z.of_nat (length all) + 7) / 8) - Z.of_nat (length bits).
Proof.
  pose proof clear_eq as (Hclear & Hcb).
  destruct (compressBody_bytes all) as (Hlen & Hbytes & Hval).
  set (blocks := chunks (length all) (compressBody all)).
  pose proof (Z.div_mod (Z.of_nat (length all) + 7) 8 ltac:(lia)) as Hdm.
  pose proof (Z.mod_pos_bound (Z.of_nat (length all) + 7) 8 ltac:(lia)) as Hmb.
  assert (Hcount : (length (compressBody all) <= length all)%nat) by lia.
  assert (Hfile : gifFrameData all ++ tail = frames blocks ++ ([0] ++ tail)).
  { unfold gifFrameData. rewrite gifBlocks_frames by lia.
    now rewrite <- app_assoc. }
  assert (Hgood : goodBlocks blocks) by now apply goodBlocks_chunks.
  assert (Hcat : concat blocks = compressBody all) by now apply concat_chunks.
  rewrite Hfile in *.
  assert (Hfb : Forall (fun x => 0 <= x < 256) (frames blocks ++ [0] ++ tail)).
  { apply Forall_app. split; [now apply frames_bytes|].
    constructor; [lia | exact Htail]. }
  destruct (goodBuffer_open _ Hfb Hsize) as (Hg & Hc & Hl).
  set (input := open (frames blocks ++ [0] ++ tail)) in *.
  assert (Hin : inFrames (mkDecoder input [] true k 0 0) 0 0 blocks ([0] ++ tail)).
  { unfold inFrames. cbn [m_input m_isGif m_bitsLeftInCurrentBlock].
    split; [reflexivity|]. split; [exact Hg|].
    change (2 ^ 0) with 1. repeat split; try lia; assumption. }
  assert (Hpb : payloadBits 0 blocks = 8 * ((Z.of_nat (length all) + 7) / 8)).
  { unfold payloadBits. rewrite Hcat. unfold size_. rewrite Hlen. lia. }
  destruct (Hcon input blocks ([0] ++ tail) (tokenBits (c + 1, wE)) Hin)
    as (st0 & dst & r & low & blocks' & Hft & Hrun & HL & Hcsd & Ht & Hb
        & Hin' & Hp' & Hbits').
  { unfold payload. rewrite Hcat, Hval. change (2 ^ 0) with 1. fold all. lia. }
  { fold all. lia. }
  exists st0, dst, r, low, blocks'.
  split; [exact Hft|].
  split.
  { assert (HB : Z.of_nat (length all)
                 <= 8 * size_ (frames blocks ++ [0] ++ tail)).
    { rewrite size_app.
      assert (0 <= size_ ([0] ++ tail)) by (unfold size_; lia).
      assert (size_ (concat blocks) <= size_ (frames blocks))
        by (apply size_concat_frames).
      unfold payloadBits in Hpb. lia. }
    unfold getNumBitsLeft. rewrite Hl.
    set (B := Z.to_nat (8 * size_ (frames blocks ++ [0] ++ tail))) in *.
    assert (Hall : (length bits <= length all)%nat)
      by (unfold all; rewrite length_app; lia).
    exists (B - n)%nat. lia. }
  split; [exact Hrun|].
  repeat (split; [assumption|]).
  split.
  { rewrite Hp'. unfold tokenBits. cbn [fst snd].
    rewrite bitsVal_addBits, Z2Nat.id by lia. apply Z.mod_small. lia. }
  rewrite Hbits', Hpb. reflexivity.
Qed.

(** A frame whose bits are consumed up to the end-of-stream code is
    decompressed to the output reached, if the decoder's width for
    that code is the width written or a bit of padding makes up for
    it. *)
Lemma consumed_decompress :
  c + 1 < 2 ^ w -> wE <= w ->
  Z.of_nat (length bits) + w <= 8 * ((Z.of_nat (length all) + 7) / 8) ->
  exists d,
    decompress (open (gifFrameData all ++ tail)) true k 12 = Ok d
    /\ m_bytes d = bytes.
Proof.
  intros Hfit Hle Henough.
  pose proof eos_eq as Heos. pose proof clear_eq as (Hclear & Hcb).
  destruct before_closing
    as (st0 & dst & r & low & blocks' & Hft & (f & Hfuel) & Hrun & HL & Hcsd
        & Ht & Hb & Hin' & Hp' & Hbits').
  pose proof (Z.div_mod (Z.of_nat (length all) + 7) 8 ltac:(lia)) as Hdm.
  pose proof (Z.mod_pos_bound (Z.of_nat (length all) + 7) 8 ltac:(lia)) as Hmb.
  assert (Hlw : length (tokenBits (c + 1, wE)) = Z.to_nat wE)
    by (unfold tokenBits; apply length_addBits').
  assert (Hall : Z.of_nat (length all) = Z.of_nat (length bits) + wE)
    by (unfold all; rewrite length_app, Hlw; lia).
  assert (Hcsd' : 1 <= l_codeSize dst <= 12) by (rewrite Hcsd; exact Hcs).
  assert (Hw : readCodeSize p dst = w).
  { rewrite (readCodeSize_nextWidth dst Hcsd'), HL, Hcsd. reflexivity. }
  destruct (iteration_eos dst r low blocks' ([0] ++ tail) Hin' Hp'
              ltac:(rewrite Hw; lia) Hcsd' ltac:(rewrite HL; exact HlenL)
              ltac:(rewrite Hw; exact Hfit))
    as (d4 & r4 & low4 & blocks4 & Hit & Hb4 & Hin4 & Hbits4).
  rewrite Hw in Hit, Hbits4.
  assert (Hr4 : m_bitsLeftInCurrentBlock d4 = r4)
    by (destruct Hin4 as (_ & _ & H & _); exact H).
  destruct (closing_bits d4 r4 low4 blocks4 ([0] ++ tail) Hin4 ltac:(lia))
    as (v & d6 & Hclose & Hb6 & Hin6).
  destruct (terminator d6 tail Hin6) as (d7 & Hterm & Hb7).
  assert (Hr4b : 0 <= r4 < 8).
  { destruct Hin4 as (_ & _ & _ & H & _).
    assert (0 <= size_ (concat blocks4)) by (unfold size_; lia).
    unfold payloadBits in *. lia. }
  unfold decompress. cbv zeta. rewrite Hft. cbn [mbind outcome_bind rbind].
  fold p. rewrite Hfuel, Hrun. cbn [mainLoop]. fold p.
  rewrite (proj1 Hin'), Heos, Ht.
  destruct (Z.eqb_spec tok (c + 1)) as [Hbad|_]; [destruct Htok; lia|].
  rewrite Hit. cbn [mbind outcome_bind rbind l_dec].
  rewrite Hr4.
  destruct (Z.leb_spec 8 r4); [lia|].
  cbn [mbind outcome_bind rbind]. rewrite Hclose.
  cbn [mbind outcome_bind rbind]. rewrite Hterm.
  cbn [mbind outcome_bind rbind Z.eqb negb].
  eexists. split; [reflexivity|]. dec_fields. congruence.
Qed.

(** If the decoder's width for the closing code is more than the
    frame has left, decompression runs into the empty block. *)
Lemma consumed_short :
  8 * ((Z.of_nat (length all) + 7) / 8) < Z.of_nat (length bits) + w ->
  decompress (open (gifFrameData all ++ tail)) true k 12
  = Err "too few bits available in unlzw".
Proof.
  intros Hshort.
  pose proof eos_eq as Heos. pose proof clear_eq as (Hclear & Hcb).
  destruct before_closing
    as (st0 & dst & r & low & blocks' & Hft & (f & Hfuel) & Hrun & HL & Hcsd
        & Ht & Hb & Hin' & Hp' & Hbits').
  assert (Hcsd' : 1 <= l_codeSize dst <= 12) by (rewrite Hcsd; exact Hcs).
  assert (Hw : readCodeSize p dst = w).
  { rewrite (readCodeSize_nextWidth dst Hcsd'), HL, Hcsd. reflexivity. }
  pose proof (readCodeSize_bounds dst Hcsd') as Hwb. rewrite Hw in Hwb.
  pose proof (getLzwBits_short (l_dec dst) r low blocks' tail w Hin'
                ltac:(lia) ltac:(lia)) as Hget.
  unfold decompress. cbv zeta. rewrite Hft. cbn [mbind outcome_bind rbind].
  fold p. rewrite Hfuel, Hrun. cbn [mainLoop]. fold p.
  rewrite (proj1 Hin'), Heos, Ht.
  destruct (Z.eqb_spec tok (c + 1)) as [Hbad|_]; [destruct Htok; lia|].
  unfold iteration. cbv zeta. fold (readCodeSize p dst). rewrite Hw.
  rewrite (proj1 Hin'). cbn [negb andb]. rewrite Hget. reflexivity.
Qed.

End Frame.

End Step.

(** X23 -- One iteration of the decoder's main loop on a token that is
    neither the clear nor the end-of-stream code, for a table whose
    entries extend earlier entries by one byte: the token is read with
    the width the table asks for, its string is appended to the
    output -- for the token that is not in the table yet, the string of
    the previous token and its first byte again --, the table gets the
    entry of the previous token's string and the first byte of this
    one unless it has 4096 entries, and the loop goes on. *)
Theorem data_token_appends_its_string k st r low blocks tail code rest x str :
  2 <= k <= 8 ->
  inFrames (l_dec st) r low blocks tail ->
  payload r low blocks
  = bitsVal (tokenBits (code, readCodeSize (mkParams k 12) st) ++ rest) ->
  readCodeSize (mkParams k 12) st <= payloadBits r blocks ->
  1 <= l_codeSize st <= 12 ->
  wfLut (2 ^ k) 2 (l_lut st) -> dataCode (2 ^ k) 2 (l_lut st) (l_token st) ->
  Z.of_nat (length (l_lut st)) <= 4096 ->
  size_ (m_bytes (l_dec st)) < 4294967296 ->
  let Lv := pending 4096 (l_lut st) (l_token st) x (size_ (m_bytes (l_dec st))) in
  dataCode (2 ^ k) 2 Lv code -> strOf Lv code = x :: str ->
  code < 2 ^ readCodeSize (mkParams k 12) st ->
  exists d' r' low' blocks',
    iteration (mkParams k 12) st
    = Ok (inl (mkLoop d' Lv (readCodeSize (mkParams k 12) st) (l_token st)
                      code (u32 (l_numTokensBlock st + 1))))
    /\ m_bytes d' = m_bytes (l_dec st) ++ x :: str
    /\ inFrames d' r' low' blocks' tail
    /\ payload r' low' blocks' = bitsVal rest
    /\ payloadBits r' blocks'
       = payloadBits r blocks - readCodeSize (mkParams k 12) st.
Proof.
  intros Hk. exact (iteration_data_token k Hk st r low blocks tail code rest x str).
Qed.

(** After the pixel 0 the token 6, which the table does not hold yet:
    the output becomes 0,0,0 and the table gets the string 0,0. *)
Lemma data_token_appends_its_string_witness :
  let st := mkLoop (mkDecoder (open [1; 6; 0]) [0] true 2 0 0)
                   (initialLut (mkParams 2 12) true) 3 NoPrevious 0 1 in
  exists d',
    iteration (mkParams 2 12) st
    = Ok (inl (mkLoop d' (initialLut (mkParams 2 12) true ++ [mkRef 2 0 0 1])
                      3 0 6 2))
    /\ m_bytes d' = [0; 0; 0].
Proof.
  intros st.
  destruct (goodBuffer_open [1; 6; 0]) as (Hg & Hc & Hl);
    [repeat constructor; lia | vm_compute; reflexivity |].
  destruct (data_token_appends_its_string 2 st 0 0 [[6]] [0] 6 [] 0 [0])
    as (d' & r' & low' & blocks' & Hit & Hb & _).
  - lia.
  - unfold inFrames.
    cbn [st l_dec m_isGif m_input m_bitsLeftInCurrentBlock goodBlocks].
    split; [reflexivity|]. split; [exact Hg|]. split; [reflexivity|].
    split; [lia|]. split; [change (2 ^ 0) with 1; lia|].
    split; [rewrite Hc; vm_compute; reflexivity|].
    split; [rewrite Hl; vm_compute; reflexivity|].
    split; [repeat constructor; lia|].
    split; [unfold size_; cbn; lia | exact I].
  - vm_compute. reflexivity.
  - vm_compute. discriminate.
  - cbn. lia.
  - apply (wfLut_initialLut 2). lia.
  - left. cbn. lia.
  - vm_compute. discriminate.
  - vm_compute. reflexivity.
  - right. vm_compute. split; [discriminate | reflexivity].
  - vm_compute. reflexivity.
  - vm_compute. reflexivity.
  - exists d'. split; [exact Hit | exact Hb].
Defined.

(** X27 -- When the sub-blocks of a frame hold fewer bits than
    [getLzwBits] is asked for, the reader takes the bits that are left,
    reads the next length byte -- that of a last block too short for
    the rest, or the empty block that ends the frame -- and throws
    "too few bits available in unlzw". *)
Theorem getLzwBits_throws_at_end_of_frame d r low blocks tail n :
  inFrames d r low blocks (0 :: tail) -> 1 <= n <= 16 ->
  payloadBits r blocks < n ->
  getLzwBits n d = Err "too few bits available in unlzw".
Proof. exact (getLzwBits_short d r low blocks tail n). Qed.

(** Thirteen bits asked for in front of the last block AB. *)
Lemma getLzwBits_throws_at_end_of_frame_witness :
  getLzwBits 13 (mkDecoder (open [1; 171; 0; 59]) [] true 2 0 0)
  = Err "too few bits available in unlzw".
Proof.
  destruct (goodBuffer_open [1; 171; 0; 59]) as (Hg & Hc & Hl);
    [repeat constructor; lia | vm_compute; reflexivity |].
  apply (getLzwBits_throws_at_end_of_frame _ 0 0 [[171]] [59] 13).
  - unfold inFrames.
    cbn [m_isGif m_input m_bitsLeftInCurrentBlock goodBlocks].
    split; [reflexivity|]. split; [exact Hg|]. split; [reflexivity|].
    split; [lia|]. split; [change (2 ^ 0) with 1; lia|].
    split; [rewrite Hc; vm_compute; reflexivity|].
    split; [rewrite Hl; vm_compute; reflexivity|].
    split; [repeat constructor; lia|].
    split; [unfold size_; cbn; lia | exact I].
  - lia.
  - vm_compute. reflexivity.
Defined.

End DecoderStepProps.


(** ** The decoder on the tokens of a .Z file *)

Module ZDecoderStepProps.

Import BinaryInputBuffer LzwDecoder Container Statements Values.
Import ReaderContent LzwStrings LzwParse Synchrony ZSynchrony.
Import BitOutputProps ReaderContentProps WriterProps GifFramingProps.
Import LzwStringProps LzwParseProps DecoderStepProps.

(** [getLzwBits] in the body of a .Z file is [getBits]. *)
Lemma getLzwBits_body d bits v n :
  inBody d bits v -> 1 <= n <= 16 -> n <= bits ->
  exists d',
    getLzwBits n d = Ok (v mod 2 ^ n, d')
    /\ m_bytes d' = m_bytes d
    /\ inBody d' (bits - n) (v / 2 ^ n).
Proof.
  intros (Hgif & Hblock & Hgood & Hv & Hbits) Hn Hle.
  unfold getLzwBits. destruct (Z.eqb_spec n 0); [lia|]. cbv zeta.
  set (d1 := setNumBitsOriginalLZW d _).
  change (m_isGif d1) with (m_isGif d). rewrite Hgif. cbn [negb].
  destruct (inputBits_content n d1 Hgood ltac:(lia)
              ltac:(change (m_input d1) with (m_input d); lia))
    as (b2 & Hget & Hc2 & Hg2 & Hb2).
  change (m_input d1) with (m_input d) in *.
  rewrite Hget, Hv. eexists. split; [reflexivity|].
  split; [reflexivity|].
  unfold inBody. cbn [setInput m_isGif m_bitsLeftInCurrentBlock m_input].
  change (m_isGif d1) with (m_isGif d).
  change (m_bitsLeftInCurrentBlock d1) with (m_bitsLeftInCurrentBlock d).
  rewrite Hc2, Hb2, Hv, Hbits. auto.
Qed.

Lemma inBody_setBytes d bits v bytes :
  inBody d bits v -> inBody (setBytes d bytes) bits v.
Proof. intros H. exact H. Qed.

Lemma readCodeSize_boundsZ st :
  1 <= l_codeSize st <= 16 ->
  l_codeSize st <= readCodeSize pZ st <= 16.
Proof.
  intros Hcs. unfold readCodeSize. cbn [pZ p_maxCodeSize].
  destruct (_ && _) eqn:Hcond; [|lia].
  apply andb_true_iff in Hcond as [_ Hlt]. apply Z.ltb_lt in Hlt.
  rewrite u8_small by lia. lia.
Qed.

Lemma readCodeSize_nextWidthZ st :
  1 <= l_codeSize st <= 16 ->
  readCodeSize pZ st
  = nextWidth 16 (Z.of_nat (length (l_lut st))) (l_codeSize st).
Proof.
  intros Hcs. unfold readCodeSize, nextWidth. cbn [pZ p_maxCodeSize].
  rewrite Z.shiftl_1_l.
  assert (2 ^ l_codeSize st <= 2 ^ 16) by (apply Z.pow_le_mono_r; lia).
  assert (0 < 2 ^ l_codeSize st) by (apply Z.pow_pos_nonneg; lia).
  change (2 ^ 16) with 65536 in *.
  rewrite u32_small by lia.
  destruct (_ && _) eqn:Hcond; [|reflexivity].
  apply andb_true_iff in Hcond as [_ Hlt]. apply Z.ltb_lt in Hlt.
  apply u8_small. lia.
Qed.

(** One iteration of the main loop on a data token of a .Z body. *)
Lemma iteration_data_tokenZ st bits code rest x str :
  inBody (l_dec st) bits
         (bitsVal (tokenBits (code, readCodeSize pZ st) ++ rest)) ->
  readCodeSize pZ st <= bits ->
  1 <= l_codeSize st <= 16 ->
  wfLut 256 1 (l_lut st) -> dataCode 256 1 (l_lut st) (l_token st) ->
  size_ (m_bytes (l_dec st)) < 4294967296 ->
  let Lv := pending 65536 (l_lut st) (l_token st) x
                    (size_ (m_bytes (l_dec st))) in
  dataCode 256 1 Lv code -> strOf Lv code = x :: str ->
  code < 2 ^ readCodeSize pZ st ->
  exists d',
    iteration pZ st
    = Ok (inl (mkLoop d' Lv (readCodeSize pZ st) (l_token st) code
                      (u32 (l_numTokensBlock st + 1))))
    /\ m_bytes d' = m_bytes (l_dec st) ++ x :: str
    /\ inBody d' (bits - readCodeSize pZ st) (bitsVal rest).
Proof.
  intros Hin Hbits Hcs Hwf Htok Hsize Lv Hcode Hstr Hfit.
  pose proof (readCodeSize_boundsZ st Hcs) as Hw.
  set (w := readCodeSize pZ st) in *.
  assert (Hcode0 : 0 <= code) by (destruct Hcode; lia).
  destruct (getLzwBits_body (l_dec st) bits _ w Hin ltac:(lia) Hbits)
    as (d1 & Hget & Hbytes1 & Hin1).
  destruct (content_tokenBits code w _ rest ltac:(lia) ltac:(lia) eq_refl)
    as (Hmod & Hdiv).
  rewrite Hmod in Hget. rewrite Hdiv in Hin1.
  pose proof (length_pending 65536 (l_lut st) (l_token st) x
                (size_ (m_bytes (l_dec st)))) as HlenLv.
  fold Lv in HlenLv.
  destruct Hin as (Hgif & Hblock & Hgood & Hv & Hleft).
  pose proof (proj1 Hwf) as HlenL.
  assert (Hle : code <= Z.of_nat (length (l_lut st))).
  { destruct (Z.of_nat (length (l_lut st)) <? 65536); destruct Hcode; lia. }
  assert (Hfit16 : code < 65536).
  { assert (2 ^ w <= 2 ^ 16) by (apply Z.pow_le_mono_r; lia).
    change (2 ^ 16) with 65536 in *. lia. }
  unfold iteration. cbv zeta. fold (readCodeSize pZ st). fold w.
  rewrite Hgif. cbn [negb andb]. unfold getNumBitsLeft. rewrite Hleft.
  destruct (Z.ltb_spec bits w); [lia|].
  rewrite Hget. cbn [mbind outcome_bind rbind].
  destruct (Z.ltb_spec (Z.of_nat (length (l_lut st))) code) as [Hbad|_]; [lia|].
  change (clearCode pZ) with 256.
  change (endOfStreamCode pZ false) with 4294967295.
  destruct (Z.eqb_spec code 256) as [Hbad|_]; [destruct Hcode; lia|].
  destruct (Z.eqb_spec code 4294967295) as [Hbad|_]; [lia|].
  rewrite Hbytes1.
  assert (Hpos : u32 (size_ (m_bytes (l_dec st))) = size_ (m_bytes (l_dec st))).
  { apply u32_small. unfold size_ in *. lia. }
  rewrite (lookUpToken_data pZ 256 1 (l_lut st) (l_token st) code
             (m_bytes (l_dec st)) x str ltac:(lia) ltac:(lia) Hwf Htok Hsize
             Hcode Hstr).
  cbn [mbind outcome_bind rbind].
  change (MaxToken pZ) with 65536. rewrite Hpos.
  fold (pending 65536 (l_lut st) (l_token st) x
                (size_ (m_bytes (l_dec st)))). fold Lv.
  exists (setBytes d1 (m_bytes (l_dec st) ++ x :: str)).
  split; [reflexivity|].
  split; [reflexivity|].
  now apply inBody_setBytes.
Qed.

Lemma length_initialLutZ : Z.of_nat (length (initialLut pZ false)) = 257.
Proof. reflexivity. Qed.

Lemma wfLut_initialLutZ : wfLut 256 1 (initialLut pZ false).
Proof.
  split; [rewrite length_initialLutZ; lia|].
  intros v r Hv.
  assert (Hlt : (v < length (initialLut pZ false))%nat)
    by (apply lookup_lt_is_Some; eauto).
  pose proof length_initialLutZ as Hlen.
  destruct (Z.ltb_spec (Z.of_nat v) 256) as [Hlit|Hge].
  - unfold initialLut in Hv. change (maxColor pZ) with 255 in Hv.
    rewrite lookup_app_l in Hv by (rewrite length_map, length_seq; lia).
    rewrite list_lookup_fmap in Hv.
    rewrite lookup_seq_lt in Hv by lia. cbn in Hv. injection Hv as <-.
    cbn [br_length br_last]. split; [reflexivity|]. apply u8_small. lia.
  - destruct (Z.ltb_spec (Z.of_nat v) (256 + 1)); [exact I | lia].
Qed.

(** The part of [decompress] before the main loop, on a .Z body that
    starts with a literal. *)
Lemma firstToken_dataZ input code rest :
  goodBuffer input ->
  content input = bitsVal (tokenBits (code, 9) ++ rest) ->
  m_bitsLeft input = Z.of_nat (length (tokenBits (code, 9) ++ rest)) ->
  0 <= code < 256 ->
  exists d,
    firstToken input false 8 16
    = Ok (mkLoop d (initialLut pZ false) 9 NoPrevious code 1)
    /\ m_bytes d = [code]
    /\ inBody d (Z.of_nat (length rest)) (bitsVal rest).
Proof.
  intros Hgood Hval Hleft Hcode.
  assert (Hl : length (tokenBits (code, 9)) = 9%nat)
    by (unfold tokenBits; apply length_addBits').
  rewrite length_app, Hl in Hleft.
  unfold firstToken. cbv zeta. fold pZ. change (u8 (8 + 1)) with 9.
  set (d0 := mkDecoder input [] false 8 0 0).
  assert (Hin0 : inBody d0 (9 + Z.of_nat (length rest))
                        (bitsVal (tokenBits (code, 9) ++ rest))).
  { unfold inBody, d0. cbn. repeat split; try assumption; try apply Hgood. lia. }
  destruct (getLzwBits_body d0 _ _ 9 Hin0 ltac:(lia) ltac:(lia))
    as (d1 & Hget & Hbytes1 & Hin1).
  destruct (content_tokenBits code 9 _ rest ltac:(lia)
              ltac:(change (2 ^ 9) with 512; lia) eq_refl) as (Hmod & Hdiv).
  rewrite Hmod in Hget. rewrite Hdiv in Hin1.
  rewrite Hget. cbn [mbind outcome_bind rbind].
  assert (Hskip : skipClear pZ (S (Z.to_nat (getNumBitsLeft input))) 9 code d1
                  = Ok (code, d1)).
  { cbn [skipClear]. change (clearCode pZ) with 256.
    destruct (Z.eqb_spec code 256); [lia | reflexivity]. }
  rewrite Hskip. cbn [mbind outcome_bind rbind].
  rewrite length_initialLutZ.
  change (endOfStreamCode pZ false) with 4294967295.
  destruct (Z.leb_spec 257 code); [lia|].
  destruct (Z.eqb_spec code 4294967295); [lia|]. cbn [negb].
  exists (setBytes d1 (m_bytes d1 ++ [u8 code])).
  split; [reflexivity|].
  split; [cbn [setBytes m_bytes]; rewrite Hbytes1, u8_small by lia; reflexivity|].
  replace (9 + Z.of_nat (length rest) - 9) with (Z.of_nat (length rest))
    in Hin1 by lia.
  now apply inBody_setBytes.
Qed.

Lemma consumedZ_first code :
  0 <= code < 256 ->
  consumedZ 0 (tokenBits (code, 9)) (initialLut pZ false) 9 code [code].
Proof.
  intros Hcode input rest Hgood Hval Hleft.
  destruct (firstToken_dataZ input code rest Hgood Hval Hleft Hcode)
    as (d & Hft & Hb & Hin).
  exists (mkLoop d (initialLut pZ false) 9 NoPrevious code 1),
         (mkLoop d (initialLut pZ false) 9 NoPrevious code 1).
  split; [exact Hft|]. split; [reflexivity|].
  cbn [l_lut l_codeSize l_token l_dec]. auto.
Qed.

Lemma consumedZ_step n bits L cs tok bytes code x str :
  consumedZ n bits L cs tok bytes ->
  1 <= cs <= 16 -> wfLut 256 1 L -> dataCode 256 1 L tok ->
  Z.of_nat (length L) <= 65536 -> size_ bytes < 4294967296 ->
  let w := nextWidth 16 (Z.of_nat (length L)) cs in
  let Lv := pending 65536 L tok x (size_ bytes) in
  dataCode 256 1 Lv code -> strOf Lv code = x :: str -> code < 2 ^ w ->
  consumedZ (S n) (bits ++ tokenBits (code, w)) Lv w code (bytes ++ x :: str).
Proof.
  intros Hcon Hcs Hwf Htok Hroom Hsize w Lv Hcode Hstr Hfit
         input rest Hgood Hval Hleft.
  rewrite <- app_assoc in Hval, Hleft.
  destruct (Hcon input (tokenBits (code, w) ++ rest) Hgood Hval Hleft)
    as (st0 & dst & Hft & Hrun & HL & Hc & Ht & Hb & Hin).
  subst L cs tok bytes.
  assert (Hw : readCodeSize pZ dst = w) by (now apply readCodeSize_nextWidthZ).
  assert (Hl : length (tokenBits (code, w)) = Z.to_nat w)
    by (unfold tokenBits; apply length_addBits').
  pose proof (readCodeSize_boundsZ dst Hcs) as Hwb. rewrite Hw in Hwb.
  rewrite length_app, Hl in Hin.
  destruct (iteration_data_tokenZ dst _ code rest x str
              ltac:(rewrite Hw; exact Hin) ltac:(rewrite Hw; lia) Hcs Hwf Htok
              Hsize Hcode Hstr ltac:(rewrite Hw; exact Hfit))
    as (d' & Hit & Hb' & Hin').
  rewrite Hw in Hit, Hin'.
  eexists st0, _.
  split; [exact Hft|].
  split.
  { intros fuel. replace (S n + fuel)%nat with (n + S fuel)%nat by lia.
    rewrite Hrun. cbn [mainLoop]. fold pZ. rewrite (proj1 Hin).
    change (endOfStreamCode pZ false) with 4294967295.
    destruct (Z.eqb_spec (l_token dst) 4294967295) as [Hbad|_].
    { pose proof (proj1 Hwf). destruct Htok; lia. }
    rewrite Hit. cbn [mbind outcome_bind rbind]. reflexivity. }
  cbn [l_lut l_codeSize l_token l_dec].
  repeat (split; [first [reflexivity | assumption]|]).
  replace (Z.of_nat (Z.to_nat w + length rest) - w)
    with (Z.of_nat (length rest)) in Hin' by lia.
  exact Hin'.
Qed.

(** After the last token only the bits that fill the last byte are
    left, fewer than a code has: the main loop stops, and [decompress]
    returns what has been written. *)
Lemma consumedZ_decompress n bits L cs tok bytes pad :
  consumedZ n bits L cs tok bytes ->
  9 <= cs <= 16 -> dataCode 256 1 L tok ->
  Z.of_nat (length L) <= 65536 ->
  (n <= length bits)%nat ->
  (length pad < 8)%nat -> Z.of_nat (length (bits ++ pad)) mod 8 = 0 ->
  Z.of_nat (length (bits ++ pad)) < 4294967296 ->
  exists d,
    decompress (BinaryInputBuffer.open (compressBody (bits ++ pad)))
               false 8 16 = Ok d
    /\ m_bytes d = bytes.
Proof.
  intros Hcon Hcs Htok Hroom Hn Hpad Hfull Hsize.
  destruct (compressBody_bytes (bits ++ pad)) as (Hlen & Hall & Hval).
  assert (Hsz : 8 * size_ (compressBody (bits ++ pad))
                = Z.of_nat (length (bits ++ pad))).
  { unfold size_. rewrite Hlen.
    pose proof (Z.div_mod (Z.of_nat (length (bits ++ pad)) + 7) 8 ltac:(lia)).
    pose proof (Z.div_mod (Z.of_nat (length (bits ++ pad))) 8 ltac:(lia)).
    pose proof (Z.mod_pos_bound (Z.of_nat (length (bits ++ pad)) + 7) 8
                  ltac:(lia)).
    lia. }
  destruct (goodBuffer_open (compressBody (bits ++ pad)) Hall ltac:(lia))
    as (Hgood & Hcont & Hleft).
  set (input := BinaryInputBuffer.open (compressBody (bits ++ pad))) in *.
  rewrite Hval in Hcont. rewrite Hsz in Hleft.
  destruct (Hcon input pad Hgood Hcont Hleft)
    as (st0 & dst & Hft & Hrun & HL & Hc & Ht & Hb & Hin).
  unfold decompress. cbv zeta. rewrite Hft. cbn [mbind outcome_bind rbind].
  unfold getNumBitsLeft. rewrite Hleft. fold pZ.
  replace (S (Z.to_nat (Z.of_nat (length (bits ++ pad)))))
    with (n + S (length (bits ++ pad) - n))%nat
    by (rewrite length_app in *; lia).
  fold pZ in Hrun. rewrite Hrun.
  destruct Hin as (Hgif & Hblock & Hgood' & Hv' & Hleft').
  assert (Hstop : mainLoop pZ (S (length (bits ++ pad) - n)) dst
                  = Ok (mkLoop (l_dec dst) (l_lut dst) (readCodeSize pZ dst)
                               (l_prevToken dst) (l_token dst)
                               (l_numTokensBlock dst))).
  { cbn [mainLoop]. rewrite Hgif.
    change (endOfStreamCode pZ false) with 4294967295.
    destruct (Z.eqb_spec (l_token dst) 4294967295) as [Hbad|_].
    { rewrite Ht in Hbad. rewrite HL in *. destruct Htok; lia. }
    unfold iteration. cbv zeta. fold (readCodeSize pZ dst).
    rewrite Hgif. cbn [negb andb]. unfold getNumBitsLeft. rewrite Hleft'.
    pose proof (readCodeSize_boundsZ dst ltac:(lia)) as Hw.
    destruct (Z.ltb_spec (Z.of_nat (length pad)) (readCodeSize pZ dst)); [|lia].
    reflexivity. }
  rewrite Hstop. cbn [mbind outcome_bind rbind l_dec].
  rewrite Hblock. cbn [Z.leb mbind outcome_bind rbind].
  change (u8 0) with 0. cbn [getLzwBits Z.eqb mbind outcome_bind rbind].
  eexists. split; [reflexivity|]. exact Hb.
Qed.

End ZDecoderStepProps.


(** ** The encoder and the decoder on a block *)

Module EncoderParseProps.

Import LzwDecoder LzwEncoder Statements Values EncoderInvariant.
Import LzwStrings LzwParse Synchrony ParseSync.
Import TrieProps EncoderLoopProps LzwStringProps LzwParseProps DecoderStepProps.

Lemma trieSound_ext c f lut ext trie :
  trieSound c f lut trie -> trieSound c f (lut ++ ext) trie.
Proof.
  intros Hts c0 b v Hl. destruct (Hts c0 b v Hl) as (H1 & H2 & H3 & H4).
  split; [now apply dataCode_ext|].
  split; [rewrite length_app; lia|].
  rewrite lutAt_app by lia. auto.
Qed.

Lemma trieSound_pending c f M lut tok x pos trie :
  trieSound c f lut trie -> trieSound c f (pending M lut tok x pos) trie.
Proof.
  intros Hts. unfold pending. destruct (_ <? _); [|exact Hts].
  now apply trieSound_ext.
Qed.

Lemma isPowerOfTwo_between x k :
  1 <= k -> 2 ^ (k - 1) < x <= 2 ^ k -> isPowerOfTwo x = true -> x = 2 ^ k.
Proof.
  intros Hk Hx Hp. unfold isPowerOfTwo in Hp. apply Z.eqb_eq in Hp.
  destruct (Z.eq_dec x (2 ^ k)) as [|Hne]; [assumption|exfalso].
  assert (H0 : 0 < 2 ^ (k - 1)) by (apply Z.pow_pos_nonneg; lia).
  assert (H2 : 2 ^ k = 2 * 2 ^ (k - 1)).
  { rewrite <- Z.pow_succ_r by lia. f_equal. lia. }
  assert (Hl1 : Z.log2 x = k - 1).
  { apply Z.log2_unique; [lia|].
    replace (Z.succ (k - 1)) with k by lia. lia. }
  assert (Hl2 : Z.log2 (x - 1) = k - 1).
  { apply Z.log2_unique; [lia|].
    replace (Z.succ (k - 1)) with k by lia. lia. }
  assert (Hb1 : Z.testbit x (k - 1) = true)
    by (rewrite <- Hl1; apply Z.bit_log2; lia).
  assert (Hb2 : Z.testbit (x - 1) (k - 1) = true)
    by (rewrite <- Hl2; apply Z.bit_log2; lia).
  assert (Hb : Z.testbit (Z.land x (x - 1)) (k - 1) = true)
    by (rewrite Z.land_spec, Hb1, Hb2; reflexivity).
  rewrite Hp, Z.bits_0 in Hb. discriminate.
Qed.

(** In a table between two powers of two, the encoder's test for one
    more bit is the decoder's. *)
Lemma isPowerOfTwo_width len cs :
  1 <= cs -> 2 ^ (cs - 1) < len <= 2 ^ cs ->
  isPowerOfTwo len = (len =? 2 ^ cs).
Proof.
  intros Hcs Hlen. destruct (Z.eqb_spec len (2 ^ cs)) as [->|Hne].
  - apply isPowerOfTwo_pow2. lia.
  - destruct (isPowerOfTwo len) eqn:Hp; [|reflexivity].
    exfalso. apply Hne. now apply isPowerOfTwo_between.
Qed.

Lemma pow2_double n : 1 <= n -> 2 ^ n = 2 * 2 ^ (n - 1).
Proof.
  intros Hn. rewrite <- Z.pow_succ_r by lia. f_equal. lia.
Qed.

(** The table stays between the two powers of two of the code
    size. *)
Lemma width_step mx len cs :
  1 <= cs <= mx -> 2 ^ (cs - 1) < len <= 2 ^ cs -> len <= 2 ^ mx ->
  let w := nextWidth mx len cs in
  let len' := if len <? 2 ^ mx then len + 1 else len in
  2 ^ (w - 1) < len' <= 2 ^ w /\ cs <= w <= mx.
Proof.
  intros Hcs Hlen Hroom. cbv zeta. unfold nextWidth.
  pose proof (pow2_double cs ltac:(lia)) as H2.
  pose proof (pow2_double (cs + 1) ltac:(lia)) as H3.
  replace (cs + 1 - 1) with cs in H3 by lia.
  assert (H0 : 0 < 2 ^ (cs - 1)) by (apply Z.pow_pos_nonneg; lia).
  destruct (Z.eqb_spec len (2 ^ cs)) as [Heq|Hne];
    destruct (Z.ltb_spec cs mx) as [Hlt|Hge]; cbn [andb].
  - replace (cs + 1 - 1) with cs by lia.
    assert (2 ^ (cs + 1) <= 2 ^ mx) by (apply Z.pow_le_mono_r; lia).
    destruct (Z.ltb_spec len (2 ^ mx)); lia.
  - assert (cs = mx) by lia. subst cs.
    destruct (Z.ltb_spec len (2 ^ mx)); lia.
  - destruct (Z.ltb_spec len (2 ^ mx)); lia.
  - destruct (Z.ltb_spec len (2 ^ mx)); lia.
Qed.

Lemma slice_cons (data : list Z) a b :
  0 <= a < b -> a < size_ data ->
  slice data a b = at_ data a :: slice data (a + 1) b.
Proof.
  intros Hab Ha. unfold slice.
  rewrite (at_drop data a) by lia.
  replace (Z.to_nat (b - a)) with (S (Z.to_nat (b - (a + 1)))) by lia.
  replace (Z.to_nat (a + 1)) with (S (Z.to_nat a)) by lia. reflexivity.
Qed.

Lemma synced_fields R f mx data k pre e st st' :
  l_result st' = l_result st -> l_codeSize st' = l_codeSize st ->
  m_dictionary (l_enc st') = m_dictionary (l_enc st) ->
  m_dictSize (l_enc st') = m_dictSize (l_enc st) ->
  synced R f mx data k pre e st -> synced R f mx data k pre e st'.
Proof.
  intros H1 H2 H3 H4. unfold synced. rewrite H1, H2, H3, H4. auto.
Qed.

Lemma wfLut_pending c f M lut tok x pos :
  0 <= c -> 0 <= f -> wfLut c f lut -> dataCode c f lut tok ->
  wfLut c f (pending M lut tok x pos).
Proof.
  intros Hc Hf Hwf Hd. unfold pending. destruct (_ <? _); [|exact Hwf].
  now apply wfLut_push.
Qed.

Lemma size_take (data : list Z) n :
  0 <= n <= size_ data -> size_ (take (Z.to_nat n) data) = n.
Proof. intros Hn. unfold size_ in *. rewrite length_take. lia. Qed.

Section Parse.

Variables (e0 : Encoder) (s : OptimizationSettings) (from blen : Z).
Variables (gif : bool) (mx : Z).

Hypothesis Hgif : m_isGif e0 = gif.
Hypothesis Hlen : m_maxCodeLength e0 = mx.
Hypothesis Hdict : m_maxDictionary e0 = 2 ^ mx - 1.
Hypothesis Hmin : 2 <= minCodeSize s < mx.
Hypothesis Hmx : mx <= 16.
Hypothesis HminZ : gif = false -> minCodeSize s = 8.
Hypothesis Hdata : Forall (fun x => 0 <= x < 2 ^ minCodeSize s) (m_data e0).
Hypothesis Hsize : 1 <= size_ (m_data e0) < 4294967296.
Hypothesis HmaxD : maxDictionary s = 0 \/ 2 ^ mx - 1 < maxDictionary s.
Hypothesis Hfrom : 0 <= from.
Hypothesis Hlength : 1 <= blen.
Hypothesis Hend : from + blen <= size_ (m_data e0).
Hypothesis HmaxT : maxTokens s = 0 \/ blen <= maxTokens s.

Let f := if gif then 2 else 1.
Let c := 2 ^ minCodeSize s.
Let M := 2 ^ mx.
Let N := size_ (m_data e0).

(** The decoder: what it has read, and how it reads one more
    token. *)
Variable R : Reading.
Hypothesis Rstep : forall n bits L cs tok bytes code x str,
  R n bits L cs tok bytes ->
  1 <= cs <= mx -> wfLut c f L -> dataCode c f L tok ->
  Z.of_nat (length L) <= M -> size_ bytes < 4294967296 ->
  let w := nextWidth mx (Z.of_nat (length L)) cs in
  let Lv := pending M L tok x (size_ bytes) in
  dataCode c f Lv code -> strOf Lv code = x :: str -> code < 2 ^ w ->
  R (S n) (bits ++ tokenBits (code, w)) Lv w code (bytes ++ x :: str).

(** The decoder in front of the first token of the block. *)
Variable pre : list bool.
Variable n0 : nat.
Variable L0 : list BackReference.
Hypothesis Hn0 : (n0 <= length pre)%nat.
Hypothesis HwfL0 : wfLut c f L0.
Hypothesis HlenL0 : Z.of_nat (length L0) = c + f.
Hypothesis Hfirst : forall code, 0 <= code < c ->
  R n0 (pre ++ tokenBits (code, minCodeSize s + 1)) L0
    (minCodeSize s + 1) code (take (Z.to_nat from) (m_data e0) ++ [code]).

Lemma ready_min : 2 <= minCodeSize s < m_maxCodeLength e0.
Proof. rewrite Hlen. exact Hmin. Qed.

Lemma ready_len : m_maxCodeLength e0 <= 16.
Proof. rewrite Hlen. exact Hmx. Qed.

Lemma ready_dict : m_maxDictionary e0 = 2 ^ m_maxCodeLength e0 - 1.
Proof. rewrite Hlen. exact Hdict. Qed.

Lemma ready_z : m_isGif e0 = false -> 8 <= minCodeSize s.
Proof. rewrite Hgif. intros H. rewrite (HminZ H). lia. Qed.

Lemma cap_bounds :
  4 <= c /\ 2 * c <= M /\ M <= 65536 /\ 1 <= f <= 2.
Proof.
  unfold c, M, f.
  assert (2 ^ 2 <= 2 ^ minCodeSize s) by (apply Z.pow_le_mono_r; lia).
  assert (2 ^ (minCodeSize s + 1) <= 2 ^ mx) by (apply Z.pow_le_mono_r; lia).
  assert (2 ^ mx <= 2 ^ 16) by (apply Z.pow_le_mono_r; lia).
  rewrite Z.pow_add_r in * by lia.
  change (2 ^ 2) with 4 in *. change (2 ^ 16) with 65536 in *.
  change (2 ^ 1) with 2 in *.
  destruct gif; lia.
Qed.

Lemma fresh_eq : freshDictSize e0 s = c + f.
Proof. unfold freshDictSize. rewrite Hgif. reflexivity. Qed.

(** A token is emitted: its code stands for the bytes of the match in
    any table that the trie is sound for. *)
Lemma emitToken_parse i st Lv :
  blockInv e0 s from blen i st -> from <= i < from + blen ->
  0 <= l_numTokens st <= i - from ->
  wfLut c f Lv -> trieSound c f Lv (m_dictionary (l_enc st)) ->
  exists st' code,
    emitToken s from blen true i st = Some st'
    /\ blockInv e0 s from blen i st'
    /\ 1 <= l_matchLength st' <= from + blen - i
    /\ dataCode c f Lv code
    /\ 0 <= code < 2 ^ l_codeSize st'
    /\ strOf Lv code = slice (m_data e0) i (i + l_matchLength st')
    /\ l_codeSize st' = nextCodeSize (l_enc st) (l_codeSize st)
    /\ l_result st' = l_result st ++ tokenBits (code, l_codeSize st')
    /\ l_numTokens st' = l_numTokens st + 1
    /\ (if (i + l_matchLength st' <? N) && (m_dictSize (l_enc st) <? M - 1)
        then m_dictSize (l_enc st') = m_dictSize (l_enc st) + 1
             /\ m_dictionary (l_enc st')
                = (if child (m_dictionary (l_enc st)) code
                            (at_ (m_data e0) (i + l_matchLength st')) =? Unknown
                   then setChild (m_dictionary (l_enc st)) code
                                 (at_ (m_data e0) (i + l_matchLength st'))
                                 (m_dictSize (l_enc st))
                   else m_dictionary (l_enc st))
        else m_dictSize (l_enc st') = m_dictSize (l_enc st)
             /\ m_dictionary (l_enc st') = m_dictionary (l_enc st)).
Proof.
  intros Hinv Hi Hnum Hwf Hts.
  pose proof cap_bounds as (Hc4 & Hc2 & HM & Hf).
  pose proof (emitToken_inv e0 s from blen true ready_min ready_len ready_dict
                ready_z Hdata Hfrom Hend ltac:(lia) i st)
    as Hstep.
  destruct Hinv as [Hd Hg Hmd Hml Hsz Ht Hw Hcs Hz9 Hm Htok].
  assert (Hinv : blockInv e0 s from blen i st) by (constructor; assumption).
  rewrite Hdict in Hsz. fold M in Hsz.
  destruct (emitToken s from blen true i st) as [st'|] eqn:Hemit.
  2:{ exfalso. unfold emitToken in Hemit. cbv zeta in Hemit.
      fold M in HmaxD.
      destruct (Z.ltb_spec 0 (maxDictionary s));
        destruct (Z.leb_spec (maxDictionary s) (m_dictSize (l_enc st)));
        cbn [andb] in Hemit; try lia;
        destruct (Z.ltb_spec 0 (maxTokens s));
        destruct (Z.leb_spec (maxTokens s) (l_numTokens st));
        cbn [andb] in Hemit; try lia;
        destruct (chooseMatch _ _ _ _); destruct (addCode _ _ _);
        discriminate Hemit. }
  destruct (Hstep st' ltac:(lia) Hinv eq_refl) as (Hinv' & Hml1).
  unfold emitToken in Hemit. cbv zeta in Hemit.
  destruct ((0 <? maxDictionary s) && _); [discriminate|].
  destruct ((0 <? maxTokens s) && _); [discriminate|].
  rewrite (u32_small (blen + from - i)) in Hemit by lia.
  set (rem := blen + from - i) in *.
  pose proof (chooseMatch_bounds (l_enc st) s i rem ltac:(unfold rem; lia))
    as Hml_b.
  pose proof (findMatch_range (l_enc st) i rem ltac:(unfold rem; lia)) as HL.
  destruct (chooseMatch (l_enc st) s i rem) as [ml ng] eqn:Hcm.
  cbn [fst] in Hml_b.
  pose proof (addCode_code (l_enc st) i ml) as Hcode.
  pose proof (addCode_state (l_enc st) i ml) as Hstate. cbv zeta in Hstate.
  rewrite (followIndex_eq (l_enc st) i ml) in Hstate by (unfold rem in *; lia).
  rewrite Hd, Hmd, Hdict in Hstate. fold N M in Hstate.
  rewrite Hd in Hcode.
  destruct (addCode (l_enc st) i ml) as [code e'] eqn:Hac.
  cbn [fst snd] in Hcode, Hstate.
  injection Hemit as <-. loop_fields.
  assert (Hlit : 0 <= at_ (m_data e0) i < c).
  { rewrite Forall_forall in Hdata. apply Hdata.
    eapply list_elem_of_lookup_2. apply at_nth. lia. }
  destruct (walk_string c f (m_data e0) Lv (m_dictionary (l_enc st)) rem
              (Z.to_nat (ml - 1)) (Z.to_nat (rem - 1)) (i + 1)
              (at_ (m_data e0) i) 1 i) as (Hdc & Hstr); try assumption;
    try (unfold rem in *; lia).
  - left. exact Hlit.
  - rewrite (strOf_literal c f ltac:(lia) ltac:(lia) Lv _ Hwf Hlit).
    symmetry. apply slice_single. lia.
  - unfold findMatch in Hml_b. rewrite Hd in Hml_b.
    rewrite (u32_small (i + 1)) in Hml_b by lia. unfold rem in *. lia.
  - rewrite (u32_small (i + 1)) in Hcode by lia. rewrite <- Hcode in Hdc, Hstr.
    replace (i + 1 + Z.of_nat (Z.to_nat (ml - 1))) with (i + ml) in Hstr by lia.
    eexists. exists code. split; [reflexivity|]. loop_fields.
    split; [exact Hinv'|].
    split; [unfold rem in *; lia|]. split; [exact Hdc|].
    split.
    { destruct Hinv' as [_ _ _ _ _ _ _ _ _ _ Htok']. loop_fields.
      cbn [l_tokens] in Htok'.
      apply Forall_app in Htok' as [_ Hlast].
      inversion Hlast as [|? ? (H1 & H2 & H3) _]; subst. cbn [fst snd] in *. lia. }
    split; [exact Hstr|]. split; [reflexivity|].
    split; [reflexivity|].
    split; [apply u32_small; lia|].
    destruct ((i + ml <? N) && (m_dictSize (l_enc st) <? M - 1)) eqn:Hroom.
    + destruct Hstate as [Hn Hdd]. split; [|exact Hdd].
      apply andb_true_iff in Hroom as [_ Hr]. apply Z.ltb_lt in Hr.
      rewrite Hn. apply u32_small. rewrite fresh_eq in Hsz. lia.
    + rewrite Hstate. auto.
Qed.

(** The encoder's "one more bit per code ?" is the decoder's. *)
Lemma nextCodeSize_decoder i st len :
  blockInv e0 s from blen i st ->
  2 ^ (l_codeSize st - 1) < len <= 2 ^ l_codeSize st -> len <= M ->
  let len' := if len <? M then len + 1 else len in
  m_dictSize (l_enc st) <= len' ->
  (m_dictSize (l_enc st) < M - 1 -> len' = m_dictSize (l_enc st)) ->
  nextCodeSize (l_enc st) (l_codeSize st) = nextWidth mx len (l_codeSize st).
Proof.
  intros [Hd Hg Hmd Hml Hsz Ht Hw Hcs Hz9 Hm Htok] Hlen' Hroom len' HD HDeq.
  pose proof cap_bounds as (Hc4 & Hc2 & HM & Hf).
  unfold nextCodeSize, nextWidth. rewrite Hmd, Hml, Hg, Hdict, Hlen, Hgif.
  rewrite Hlen in Hcs. rewrite Hdict, fresh_eq in Hsz.
  fold M. fold M in Hsz. cbv zeta.
  pose proof (pow2_double (l_codeSize st) ltac:(lia)) as H2.
  assert (H0 : 0 < 2 ^ (l_codeSize st - 1)) by (apply Z.pow_pos_nonneg; lia).
  destruct (Z.ltb_spec (m_dictSize (l_enc st)) (M - 1)) as [Hlt|Hge].
  - specialize (HDeq Hlt). unfold len' in HDeq.
    destruct (Z.ltb_spec len M); [|lia].
    rewrite u32_small by lia.
    replace (m_dictSize (l_enc st) - 1) with len by lia.
    rewrite (isPowerOfTwo_width len (l_codeSize st)) by lia.
    destruct ((len =? 2 ^ l_codeSize st) && (l_codeSize st <? mx)) eqn:Hcond;
      [|reflexivity].
    apply andb_true_iff in Hcond as [_ Hc12]. apply Z.ltb_lt in Hc12.
    rewrite (u8_small (l_codeSize st + 1)) by lia.
    destruct gif; [reflexivity|]. cbn [negb andb].
    specialize (Hz9 Hgif).
    assert (2 ^ 8 <= 2 ^ (l_codeSize st - 1)) by (apply Z.pow_le_mono_r; lia).
    change (2 ^ 8) with 256 in *.
    destruct (Z.eqb_spec len 256); [lia | reflexivity].
  - assert (l_codeSize st = mx) as Hcmx.
    { destruct (Z.eq_dec (l_codeSize st) mx) as [|Hne]; [assumption|exfalso].
      assert (Hnext : 2 ^ (l_codeSize st + 1) <= 2 ^ mx)
        by (apply Z.pow_le_mono_r; lia).
      rewrite Z.pow_add_r in Hnext by lia. change (2 ^ 1) with 2 in Hnext.
      fold M in Hnext. unfold len' in HD.
      destruct (Z.ltb_spec len M); lia. }
    rewrite Hcmx, Z.ltb_irrefl. now rewrite andb_false_r.
Qed.

(** The width of the first token of a block. *)
Lemma first_width st :
  blockInv e0 s from blen from st -> fresh f (minCodeSize s) st ->
  nextCodeSize (l_enc st) (l_codeSize st) = minCodeSize s + 1.
Proof.
  intros [Hd Hg Hmd Hml Hsz Ht Hw Hcs Hz9 Hm Htok] (_ & HD & Hcs1 & _).
  pose proof cap_bounds as (Hc4 & Hc2 & HM & Hf).
  fold c in HD.
  unfold nextCodeSize. rewrite Hmd, Hml, Hg, Hdict, Hlen, Hgif, HD, Hcs1.
  fold M. cbv zeta.
  destruct (Z.ltb_spec (c + f) (M - 1)); [|lia].
  rewrite u32_small by lia.
  assert (Hpow : 2 ^ (minCodeSize s + 1) = 2 * c)
    by (unfold c; rewrite Z.pow_add_r by lia; change (2 ^ 1) with 2; lia).
  unfold f in *. destruct gif.
  - replace (c + 2 - 1) with (c + 1) by lia.
    rewrite (isPowerOfTwo_width (c + 1) (minCodeSize s + 1)) by
      (replace (minCodeSize s + 1 - 1) with (minCodeSize s) by lia;
       fold c; lia).
    rewrite Hpow. destruct (Z.eqb_spec (c + 1) (2 * c)); [lia | reflexivity].
  - pose proof (HminZ eq_refl) as Hk8. unfold c. rewrite Hk8.
    change (isPowerOfTwo (2 ^ 8 + 1 - 1)) with true. cbn [andb negb].
    change (2 ^ 8 + 1 - 1 =? 256) with true.
    destruct (Z.ltb_spec (8 + 1) mx); reflexivity.
Qed.

(** The trie after the token and the decoder's table after it. *)
Lemma afterMatch_sound i st st' L code :
  blockInv e0 s from blen i st -> 0 <= i ->
  wfLut c f L -> trieSound c f L (m_dictionary (l_enc st)) ->
  dataCode c f L code ->
  Z.of_nat (length L) <= M ->
  m_dictSize (l_enc st) <= Z.of_nat (length L) ->
  (m_dictSize (l_enc st) < M - 1 ->
   Z.of_nat (length L) = m_dictSize (l_enc st)) ->
  1 <= l_matchLength st' ->
  (if (i + l_matchLength st' <? N) && (m_dictSize (l_enc st) <? M - 1)
   then m_dictSize (l_enc st') = m_dictSize (l_enc st) + 1
        /\ m_dictionary (l_enc st')
           = (if child (m_dictionary (l_enc st)) code
                       (at_ (m_data e0) (i + l_matchLength st')) =? Unknown
              then setChild (m_dictionary (l_enc st)) code
                            (at_ (m_data e0) (i + l_matchLength st'))
                            (m_dictSize (l_enc st))
              else m_dictionary (l_enc st))
   else m_dictSize (l_enc st') = m_dictSize (l_enc st)
        /\ m_dictionary (l_enc st') = m_dictionary (l_enc st)) ->
  let Lv := afterMatch M (m_data e0) L code (i + l_matchLength st') in
  trieSound c f Lv (m_dictionary (l_enc st'))
  /\ m_dictSize (l_enc st') <= Z.of_nat (length Lv)
  /\ (m_dictSize (l_enc st') < M - 1 ->
      Z.of_nat (length Lv) = m_dictSize (l_enc st')).
Proof.
  intros [Hd Hg Hmd Hml Hsz Ht Hw Hcs Hz9 Hm Htok] Hi Hwf Hts Hdc Hroom HD HDeq
         Hml1 Hstate Lv.
  pose proof cap_bounds as (Hc4 & Hc2 & HM & Hf).
  rewrite Hdict, fresh_eq in Hsz. fold M in Hsz.
  unfold Lv, afterMatch. fold N.
  set (e' := i + l_matchLength st') in *.
  pose proof (length_pending M L code (at_ (m_data e0) e') e') as Hlp.
  destruct (Z.ltb_spec e' N) as [He|He]; cbn [andb] in Hstate.
  - destruct (Z.ltb_spec (m_dictSize (l_enc st)) (M - 1)) as [Hlt|Hge].
    + destruct Hstate as (HD' & Htrie'). specialize (HDeq Hlt).
      destruct (Z.ltb_spec (Z.of_nat (length L)) M); [|lia].
      split; [|lia].
      rewrite Htrie'.
      destruct (child (m_dictionary (l_enc st)) code (at_ (m_data e0) e')
                =? Unknown); [|now apply trieSound_pending].
      intros c0 b v Hl. unfold setChild in Hl.
      destruct (decide ((code, at_ (m_data e0) e') = (c0, b))) as [Heq|Hne].
      * rewrite Heq, lookup_insert_eq in Hl. injection Hl as <-.
        injection Heq as <- <-.
        unfold pending.
        destruct (Z.ltb_spec (Z.of_nat (length L)) M); [|lia].
        split; [now apply dataCode_ext|].
        split; [rewrite length_app; cbn [length]; lia|].
        rewrite <- HDeq, lutAt_snoc. cbn [br_previous br_last]. auto.
      * rewrite lookup_insert_ne in Hl by exact Hne.
        now apply (trieSound_pending c f M L code _ e' _ Hts).
    + destruct Hstate as (HD' & Htrie'). rewrite HD', Htrie'.
      split; [now apply trieSound_pending|].
      split; [destruct (Z.of_nat (length L) <? M); lia | lia].
  - destruct Hstate as (HD' & Htrie'). rewrite HD', Htrie'. auto.
Qed.

(** The first token of the block. *)
Lemma emit_first st :
  blockInv e0 s from blen from st -> fresh f (minCodeSize s) st ->
  l_numTokens st = 0 ->
  exists st1,
    emitToken s from blen true from st = Some st1
    /\ blockInv e0 s from blen from st1
    /\ 1 <= l_matchLength st1
    /\ l_numTokens st1 = 1
    /\ synced R f mx (m_data e0) (minCodeSize s) pre
              (from + l_matchLength st1) st1.
Proof.
  intros Hinv Hfresh Hnum.
  pose proof (first_width st Hinv Hfresh) as Hfw.
  destruct Hfresh as (Htrie & HD & Hcs & Hres & Hml0).
  pose proof cap_bounds as (Hc4 & Hc2 & HM & Hf).
  pose proof HwfL0 as Hwf. pose proof HlenL0 as HlenL.
  assert (Hts : trieSound c f L0 (m_dictionary (l_enc st))).
  { rewrite Htrie. intros c0 b v Hl. rewrite lookup_empty in Hl. discriminate. }
  destruct (emitToken_parse from st L0 Hinv ltac:(lia) ltac:(lia) Hwf Hts)
    as (st1 & code & Hemit & Hinv1 & Hml1 & Hdc & Hcode & Hstr & Hcs1 & Hres1
        & Hnum1 & Hstate).
  assert (Hpow : 2 ^ (minCodeSize s + 1) = 2 * c)
    by (unfold c; rewrite Z.pow_add_r by lia; change (2 ^ 1) with 2; lia).
  assert (Hw : l_codeSize st1 = minCodeSize s + 1) by congruence.
  assert (Hlit : 0 <= code < c) by (destruct Hdc; lia).
  exists st1. split; [exact Hemit|]. split; [exact Hinv1|].
  split; [lia|]. split; [lia|].
  assert (Hlw : length (tokenBits (code, l_codeSize st1))
                = Z.to_nat (l_codeSize st1))
    by (unfold tokenBits; apply BitOutputProps.length_addBits').
  exists n0, L0, code.
  split.
  { rewrite Hres1. intros Hnil. apply (f_equal (@length bool)) in Hnil.
    rewrite length_app, Hlw in Hnil. cbn [length] in Hnil. lia. }
  split; [rewrite length_app; lia|].
  split.
  { rewrite Hres1, Hres, Hw. cbn [app].
    rewrite (take_slice (m_data e0) from (from + l_matchLength st1)) by lia.
    rewrite <- Hstr, (strOf_literal c f ltac:(lia) ltac:(lia) L0 code Hwf Hlit).
    apply Hfirst. exact Hlit. }
  split; [exact Hwf|]. split; [exact Hdc|]. split; [fold M; lia|].
  split.
  { rewrite Hw. replace (minCodeSize s + 1 - 1) with (minCodeSize s) by lia.
    fold c. lia. }
  fold c in HD. fold M.
  apply (afterMatch_sound from st st1 L0 code Hinv); try assumption; try lia.
Qed.

(** A token after the first. *)
Lemma emit_next i st :
  blockInv e0 s from blen i st -> from < i < from + blen ->
  0 <= l_numTokens st <= i - from ->
  synced R f mx (m_data e0) (minCodeSize s) pre i st ->
  exists st1,
    emitToken s from blen true i st = Some st1
    /\ blockInv e0 s from blen i st1
    /\ 1 <= l_matchLength st1
    /\ l_numTokens st1 = l_numTokens st + 1
    /\ synced R f mx (m_data e0) (minCodeSize s) pre
              (i + l_matchLength st1) st1.
Proof.
  intros Hinv Hi Hnum
         (n & L & tok & _ & Hn & Hcon & Hwf & Htok & Hroom & Hwidth & Hts & HD
          & HDeq).
  pose proof cap_bounds as (Hc4 & Hc2 & HM & Hf).
  fold c in Hwf, Htok, Hts. fold M in Hroom, Hts, HD, HDeq.
  assert (Hcsb : 1 <= l_codeSize st <= mx)
    by (destruct Hinv; rewrite <- Hlen; assumption).
  unfold afterMatch in Hts, HD, HDeq. fold N in Hts, HD, HDeq.
  destruct (Z.ltb_spec i N) as [_|]; [|lia].
  set (Lv := pending M L tok (at_ (m_data e0) i) i) in *.
  pose proof (length_pending M L tok (at_ (m_data e0) i) i) as HlenLv.
  fold Lv in HlenLv.
  assert (HwfLv : wfLut c f Lv)
    by (apply wfLut_pending; [lia | lia | assumption..]).
  destruct (emitToken_parse i st Lv Hinv ltac:(lia) Hnum HwfLv Hts)
    as (st1 & code & Hemit & Hinv1 & Hml1 & Hdc & Hcode & Hstr & Hcs1 & Hres1
        & Hnum1 & Hstate).
  assert (Hw : l_codeSize st1
               = nextWidth mx (Z.of_nat (length L)) (l_codeSize st)).
  { rewrite Hcs1. apply (nextCodeSize_decoder i st _ Hinv Hwidth Hroom).
    - rewrite <- HlenLv. exact HD.
    - rewrite <- HlenLv. exact HDeq. }
  destruct (width_step mx (Z.of_nat (length L)) (l_codeSize st) Hcsb Hwidth
              Hroom) as (Hwidth1 & Hwb).
  fold M in Hwidth1.
  rewrite <- Hw, <- HlenLv in Hwidth1. rewrite <- Hw in Hwb.
  assert (Hsz : size_ (take (Z.to_nat i) (m_data e0)) = i)
    by (apply size_take; fold N; lia).
  pose proof (Rstep n (pre ++ l_result st) L
                (l_codeSize st) tok (take (Z.to_nat i) (m_data e0)) code
                (at_ (m_data e0) i)
                (slice (m_data e0) (i + 1) (i + l_matchLength st1))
                Hcon Hcsb Hwf Htok Hroom ltac:(lia)) as Hstep.
  cbv zeta in Hstep. rewrite Hsz, <- Hw in Hstep. fold Lv in Hstep.
  rewrite <- slice_cons in Hstep by (fold N; lia).
  specialize (Hstep Hdc Hstr ltac:(lia)).
  assert (Hlw : length (tokenBits (code, l_codeSize st1))
                = Z.to_nat (l_codeSize st1))
    by (unfold tokenBits; apply BitOutputProps.length_addBits').
  exists st1. split; [exact Hemit|]. split; [exact Hinv1|].
  split; [lia|]. split; [exact Hnum1|].
  exists (S n), Lv, code.
  split.
  { rewrite Hres1. intros Hnil. apply (f_equal (@length bool)) in Hnil.
    rewrite length_app, Hlw in Hnil. cbn [length] in Hnil. lia. }
  split; [rewrite Hres1, !length_app, Hlw; rewrite length_app in Hn; lia|].
  split.
  { rewrite Hres1, app_assoc.
    rewrite (take_slice (m_data e0) i (i + l_matchLength st1)) by lia.
    exact Hstep. }
  assert (HLvfull : Z.of_nat (length Lv) <= M)
    by (rewrite HlenLv; destruct (Z.ltb_spec (Z.of_nat (length L)) M); lia).
  split; [exact HwfLv|]. split; [exact Hdc|]. split; [exact HLvfull|].
  split; [exact Hwidth1|].
  apply (afterMatch_sound i st st1 Lv code Hinv); try assumption; try lia.
Qed.

(** One iteration of the main loop keeps encoder and decoder
    together and does not leave the loop. *)
Lemma iteration_sync fromAligned i st :
  syncInv R f mx e0 s from blen pre i st -> from <= i < from + blen ->
  exists st',
    iteration s from blen true fromAligned i st = Some st'
    /\ syncInv R f mx e0 s from blen pre (i + 1) st'.
Proof.
  intros (Hinv & Hnum & Hcase) Hi.
  assert (Hst1 : exists st1,
             (if l_matchLength st =? 0
              then emitToken s from blen true i st else Some st) = Some st1
             /\ blockInv e0 s from blen i st1
             /\ 1 <= l_matchLength st1
             /\ 0 <= l_numTokens st1 <= i + 1 - from
             /\ synced R f mx (m_data e0) (minCodeSize s) pre
                       (i + l_matchLength st1) st1).
  { destruct (Z.eqb_spec (l_matchLength st) 0) as [H0|Hne].
    - destruct Hcase as [(-> & Hfresh)|(Hpos & Hsync)].
      + assert (Hn0' : l_numTokens st = 0) by lia.
        destruct (emit_first st Hinv Hfresh Hn0')
          as (st1 & He & Hinv1 & Hml1 & Hnum1 & Hs1).
        exists st1. repeat (split; [first [assumption | lia]|]). exact Hs1.
      + rewrite H0, Z.add_0_r in Hsync.
        destruct (emit_next i st Hinv ltac:(lia) Hnum Hsync)
          as (st1 & He & Hinv1 & Hml1 & Hnum1 & Hs1).
        exists st1. repeat (split; [first [assumption | lia]|]). exact Hs1.
    - exists st. split; [reflexivity|]. split; [exact Hinv|].
      assert (Hml : 0 <= l_matchLength st) by (destruct Hinv; lia).
      split; [lia|]. split; [lia|].
      destruct Hcase as [(_ & Hfresh)|(_ & Hsync)]; [|exact Hsync].
      destruct Hfresh as (_ & _ & _ & _ & H0). lia. }
  destruct Hst1 as (st1 & Heq & Hinv1 & Hml1 & Hnum1 & Hs1).
  unfold iteration. rewrite Heq. cbn [mbind option_bind].
  eexists. split; [reflexivity|].
  assert (Hmlb : l_matchLength st1 <= from + blen - i) by (destruct Hinv1; lia).
  split.
  { apply (iteration_inv e0 s from blen true ready_min ready_len ready_dict
             ready_z Hdata Hfrom Hend ltac:(lia) fromAligned i st).
    - lia.
    - exact Hinv.
    - unfold iteration. rewrite Heq. reflexivity. }
  loop_fields. split; [lia|]. right. split; [lia|].
  rewrite (u32_small (l_matchLength st1 - 1)) by lia.
  replace (i + 1 + (l_matchLength st1 - 1)) with (i + l_matchLength st1) by lia.
  revert Hs1. apply synced_fields; reflexivity.
Qed.

(** The loop runs over all of the block. *)
Lemma processInput_sync fromAligned n : forall i st,
  syncInv R f mx e0 s from blen pre i st -> from <= i ->
  i + Z.of_nat n = from + blen ->
  syncInv R f mx e0 s from blen pre (from + blen)
          (processInput s from blen true fromAligned n i st).
Proof.
  induction n as [|n IH]; intros i st Hinv Hi Hn.
  - cbn [processInput]. replace (from + blen) with i by lia. exact Hinv.
  - cbn [processInput].
    destruct (iteration_sync fromAligned i st Hinv ltac:(lia))
      as (st' & Hit & Hinv').
    rewrite Hit. rewrite u32_small by lia.
    apply IH; [exact Hinv' | lia | lia].
Qed.

Lemma initLoop_sync :
  syncInv R f mx e0 s from blen pre from (initLoop e0 s).
Proof.
  pose proof cap_bounds as (Hc4 & Hc2 & HM & Hf).
  split.
  { apply (initLoop_inv e0 s from blen ready_min ready_len ready_dict ready_z).
    exact Hlength. }
  split; [cbn; lia|].
  left. split; [reflexivity|].
  assert (Hclear : u32 (Z.shiftl 1 (minCodeSize s)) = c).
  { rewrite Z.shiftl_1_l. apply u32_small. fold c. lia. }
  assert (Hpow : 2 ^ (minCodeSize s + 1) = 2 * c)
    by (unfold c; rewrite Z.pow_add_r by lia; change (2 ^ 1) with 2; lia).
  assert (Hbase : (if m_isGif e0 then u32 (c + 2) else u32 (c + 1)) = c + f).
  { rewrite Hgif. unfold f. destruct gif; apply u32_small; lia. }
  unfold fresh, initLoop. cbv zeta. rewrite Hclear, Hbase.
  loop_fields. fold c.
  repeat split.
  apply getMinBits_between; [lia|]. fold c. lia.
Qed.

Lemma runBlock_sync :
  syncInv R f mx e0 s from blen pre (from + blen)
          (runBlock e0 s from blen true).
Proof.
  unfold runBlock. cbv zeta.
  rewrite (u32_small (from + blen - 1)) by lia.
  apply processInput_sync; [exact initLoop_sync | lia | lia].
Qed.

End Parse.

(** The encoder after the block and the decoder that has read its
    tokens. *)
Lemma block_end (R : Reading) f mx e0 s from blen pre st :
  m_maxCodeLength e0 = mx -> 1 <= blen ->
  syncInv R f mx e0 s from blen pre (from + blen) st ->
  blockInv e0 s from blen (from + blen) st
  /\ l_result st <> []
  /\ exists (n : nat) L tok,
       (n <= length (pre ++ l_result st))%nat
       /\ R n (pre ++ l_result st) L (l_codeSize st) tok
            (take (Z.to_nat (from + blen)) (m_data e0))
       /\ wfLut (2 ^ minCodeSize s) f L
       /\ dataCode (2 ^ minCodeSize s) f L tok
       /\ Z.of_nat (length L) <= 2 ^ mx
       /\ 1 <= l_codeSize st <= mx
       /\ 2 ^ (l_codeSize st - 1) < Z.of_nat (length L) <= 2 ^ l_codeSize st
       /\ let len' := if from + blen <? size_ (m_data e0)
                      then if Z.of_nat (length L) <? 2 ^ mx
                           then Z.of_nat (length L) + 1
                           else Z.of_nat (length L)
                      else Z.of_nat (length L) in
          m_dictSize (l_enc st) <= len'
          /\ (m_dictSize (l_enc st) < 2 ^ mx - 1 ->
              len' = m_dictSize (l_enc st)).
Proof.
  intros Hlen Hlength (Hinv & Hnum & Hcase). split; [exact Hinv|].
  destruct Hcase as [(H0 & _)|(_ & Hsync)]; [lia|].
  assert (Hml : l_matchLength st = 0) by (destruct Hinv; lia).
  rewrite Hml, Z.add_0_r in Hsync.
  destruct Hsync
    as (n & L & tok & Hres & Hn & Hcon & Hwf & Htok & Hroom & Hwidth & Hts
        & HD & HDeq).
  assert (Hcsb : 1 <= l_codeSize st <= mx)
    by (destruct Hinv; rewrite <- Hlen; assumption).
  split; [exact Hres|].
  exists n, L, tok.
  repeat (split; [assumption|]). cbv zeta.
  unfold afterMatch in HD, HDeq.
  destruct (from + blen <? size_ (m_data e0)); [|auto].
  rewrite length_pending in HD, HDeq. auto.
Qed.

(** *** The blocks of a GIF frame *)

Section GifBlock.

Variables (e0 : Encoder) (s : OptimizationSettings) (from blen : Z).

Hypothesis Hgif : m_isGif e0 = true.
Hypothesis Hlen12 : m_maxCodeLength e0 = 12.
Hypothesis Hdict : m_maxDictionary e0 = 4095.
Hypothesis Hmin : 2 <= minCodeSize s <= 8.
Hypothesis Hlength : 1 <= blen.

Let c := 2 ^ minCodeSize s.
Let N := size_ (m_data e0).

Lemma clear_bounds : 4 <= c <= 256.
Proof.
  unfold c.
  assert (2 ^ 2 <= 2 ^ minCodeSize s) by (apply Z.pow_le_mono_r; lia).
  assert (2 ^ minCodeSize s <= 2 ^ 8) by (apply Z.pow_le_mono_r; lia).
  change (2 ^ 2) with 4 in *. change (2 ^ 8) with 256 in *. lia.
Qed.

(** The main loop of [optimizePartial] over a block of a GIF frame
    keeps encoder and decoder together. *)
Lemma gif_runBlock_sync pre :
  Forall (fun x => 0 <= x < 2 ^ minCodeSize s) (m_data e0) ->
  1 <= size_ (m_data e0) < 4294967296 ->
  maxDictionary s = 0 \/ 4095 < maxDictionary s ->
  maxTokens s = 0 \/ blen <= maxTokens s ->
  0 <= from -> from + blen <= size_ (m_data e0) ->
  blockStart (m_data e0) (minCodeSize s) pre from ->
  syncInv (consumed (minCodeSize s)) 2 12 e0 s from blen pre (from + blen)
          (runBlock e0 s from blen true).
Proof.
  intros Hdata Hsize HmaxD HmaxT Hfrom Hend
         (n0 & L0 & Hn0 & HwfL0 & HlenL0 & Hfirst).
  apply (runBlock_sync e0 s from blen true 12 Hgif Hlen12 Hdict
           ltac:(lia) ltac:(lia) ltac:(discriminate) Hdata Hsize HmaxD Hfrom
           Hlength Hend HmaxT (consumed (minCodeSize s))
           (consumed_step (minCodeSize s) Hmin) pre n0 L0 Hn0 HwfL0 HlenL0
           Hfirst).
Qed.

(** The width of the closing code at the end of the data is the
    decoder's, unless the dictionary size is a power of two: then it is
    one bit short. *)
Lemma closing_width_decoder i st len :
  blockInv e0 s from blen i st ->
  2 ^ (l_codeSize st - 1) < len <= 2 ^ l_codeSize st ->
  m_dictSize (l_enc st) <= len ->
  (m_dictSize (l_enc st) < 4095 -> len = m_dictSize (l_enc st)) ->
  let wE := getMinBits (u32 (m_dictSize (l_enc st) - 1)) in
  1 <= wE /\ c + 1 < 2 ^ wE
  /\ nextWidth 12 len (l_codeSize st)
     = if isPowerOfTwo (m_dictSize (l_enc st)) then wE + 1 else wE.
Proof.
  intros [Hd Hg Hmd Hml Hsz Ht Hw Hcs Hz9 Hm Htok] Hlen HD HDeq. cbv zeta.
  pose proof clear_bounds as Hcb.
  assert (Hfresh : c + 2 <= m_dictSize (l_enc st)).
  { unfold freshDictSize in Hsz. rewrite Hgif in Hsz. fold c in Hsz. lia. }
  rewrite Hdict in Hsz. rewrite Hlen12 in Hcs.
  rewrite u32_small by lia.
  set (cs := l_codeSize st) in *. set (D := m_dictSize (l_enc st)) in *.
  assert (H0 : 0 < 2 ^ (cs - 1)) by (apply Z.pow_pos_nonneg; lia).
  pose proof (pow2_double cs ltac:(lia)) as H2.
  unfold nextWidth.
  destruct (Z.ltb_spec D 4095) as [Hlt|Hge].
  - specialize (HDeq Hlt). subst len.
    destruct (Z.eqb_spec D (2 ^ cs)) as [Heq|Hne].
    + assert (Hc11 : cs < 12).
      { destruct (Z.lt_ge_cases cs 12) as [|Hge]; [assumption|exfalso].
        assert (2 ^ 12 <= 2 ^ cs) by (apply Z.pow_le_mono_r; lia).
        change (2 ^ 12) with 4096 in *. lia. }
      destruct (Z.ltb_spec cs 12); [|lia]. cbn [andb].
      rewrite Heq at 3. rewrite isPowerOfTwo_pow2 by lia.
      assert (HwE : getMinBits (D - 1) = cs).
      { transitivity (cs - 1 + 1); [|lia].
        apply getMinBits_between; [lia|].
        replace (cs - 1 + 1) with cs by lia. lia. }
      rewrite HwE. split; [lia|]. split; [lia | reflexivity].
    + cbn [andb].
      assert (Hnp : isPowerOfTwo D = false).
      { destruct (isPowerOfTwo D) eqn:Hp; [|reflexivity].
        exfalso. apply Hne. apply isPowerOfTwo_between; [lia | lia | exact Hp]. }
      rewrite Hnp.
      assert (HwE : getMinBits (D - 1) = cs).
      { transitivity (cs - 1 + 1); [|lia].
        apply getMinBits_between; [lia|].
        replace (cs - 1 + 1) with cs by lia. lia. }
      rewrite HwE. split; [lia|]. split; [lia | reflexivity].
  - assert (cs = 12) as Hc12.
    { destruct (Z.eq_dec cs 12) as [|Hne]; [assumption|exfalso].
      assert (2 ^ cs <= 2 ^ 11) by (apply Z.pow_le_mono_r; lia).
      change (2 ^ 11) with 2048 in *. lia. }
    rewrite Hc12. change (12 <? 12) with false. rewrite andb_false_r.
    assert (HD4095 : D = 4095) by lia. rewrite HD4095.
    change (isPowerOfTwo 4095) with false.
    change (getMinBits (4095 - 1)) with 12.
    change (2 ^ 12) with 4096. split; [lia|]. split; [lia | reflexivity].
Qed.

(** The width of the closing code before the end of the data is the
    decoder's. *)
Lemma restart_width_decoder i st len :
  blockInv e0 s from blen i st ->
  2 ^ (l_codeSize st - 1) < len <= 2 ^ l_codeSize st -> len <= 4096 ->
  let len' := if len <? 4096 then len + 1 else len in
  m_dictSize (l_enc st) <= len' ->
  (m_dictSize (l_enc st) < 4095 -> len' = m_dictSize (l_enc st)) ->
  let w := getMinBits (u32 (m_dictSize (l_enc st) - 1)) in
  1 <= w /\ c < 2 ^ w /\ nextWidth 12 len (l_codeSize st) = w.
Proof.
  intros [Hd Hg Hmd Hml Hsz Ht Hw Hcs Hz9 Hm Htok] Hlen Hroom len' HD HDeq.
  cbv zeta.
  pose proof clear_bounds as Hcb.
  assert (Hfresh : c + 2 <= m_dictSize (l_enc st)).
  { unfold freshDictSize in Hsz. rewrite Hgif in Hsz. fold c in Hsz. lia. }
  rewrite Hdict in Hsz. rewrite Hlen12 in Hcs.
  rewrite u32_small by lia.
  set (cs := l_codeSize st) in *. set (D := m_dictSize (l_enc st)) in *.
  assert (H0 : 0 < 2 ^ (cs - 1)) by (apply Z.pow_pos_nonneg; lia).
  pose proof (pow2_double cs ltac:(lia)) as H2.
  assert (H3 : 2 ^ (cs + 1) = 2 * 2 ^ cs)
    by (rewrite Z.pow_add_r by lia; change (2 ^ 1) with 2; lia).
  unfold nextWidth.
  destruct (Z.ltb_spec D 4095) as [Hlt|Hge].
  - specialize (HDeq Hlt). unfold len' in HDeq.
    destruct (Z.ltb_spec len 4096); [|lia].
    replace (D - 1) with len by lia.
    destruct (Z.eqb_spec len (2 ^ cs)) as [Heq|Hne].
    + assert (Hc11 : cs < 12).
      { destruct (Z.lt_ge_cases cs 12) as [|Hge]; [assumption|exfalso].
        assert (2 ^ 12 <= 2 ^ cs) by (apply Z.pow_le_mono_r; lia).
        change (2 ^ 12) with 4096 in *. lia. }
      destruct (Z.ltb_spec cs 12); [|lia]. cbn [andb].
      assert (HwE : getMinBits len = cs + 1)
        by (apply getMinBits_between; lia).
      rewrite HwE. split; [lia|]. split; [lia | reflexivity].
    + cbn [andb].
      assert (HwE : getMinBits len = cs).
      { transitivity (cs - 1 + 1); [|lia].
        apply getMinBits_between; [lia|].
        replace (cs - 1 + 1) with cs by lia. lia. }
      rewrite HwE. split; [lia|]. split; [lia | reflexivity].
  - assert (cs = 12) as Hc12.
    { destruct (Z.eq_dec cs 12) as [|Hne]; [assumption|exfalso].
      assert (2 ^ cs <= 2 ^ 11) by (apply Z.pow_le_mono_r; lia).
      change (2 ^ 11) with 2048 in *. unfold len' in HD.
      destruct (Z.ltb_spec len 4096); lia. }
    rewrite Hc12. change (12 <? 12) with false. rewrite andb_false_r.
    assert (HD4095 : D = 4095) by lia. rewrite HD4095.
    change (getMinBits (4095 - 1)) with 12.
    change (2 ^ 12) with 4096. split; [lia|]. split; [lia | reflexivity].
Qed.

(** After a block that ends before the data does, and its clear code,
    the decoder is about to read the first token of the next block. *)
Lemma next_blockStart pre st :
  syncInv (consumed (minCodeSize s)) 2 12 e0 s from blen pre (from + blen) st ->
  from + blen < N ->
  1 <= getMinBits (u32 (m_dictSize (l_enc st) - 1))
  /\ blockStart (m_data e0) (minCodeSize s)
       (pre ++ add (l_result st) c
                   (getMinBits (u32 (m_dictSize (l_enc st) - 1))))
       (from + blen).
Proof.
  intros Hsync Hmore.
  pose proof clear_bounds as Hcb.
  destruct (block_end _ _ _ _ _ _ _ _ _ Hlen12 Hlength Hsync)
    as (Hinv & _ & n & L & tok & Hn & Hcon & Hwf & Htok & Hroom & Hcsb
        & Hwidth & HD).
  cbv zeta in HD. fold N c in HD, Hwf, Htok.
  change (2 ^ 12) with 4096 in *.
  destruct (Z.ltb_spec (from + blen) N); [|lia].
  destruct HD as (HD & HDeq). change (4096 - 1) with 4095 in HDeq.
  destruct (restart_width_decoder _ st _ Hinv Hwidth Hroom HD HDeq)
    as (Hw1 & Hfit & Hw).
  set (w := getMinBits (u32 (m_dictSize (l_enc st) - 1))) in *.
  split; [exact Hw1|].
  destruct (wfLut_take c L ltac:(lia) Hwf) as (Hwf' & Hlen').
  exists (S n), (take (Z.to_nat (c + 2)) L).
  assert (Hlw : length (addBits (Z.to_nat w) c) = Z.to_nat w)
    by apply BitOutputProps.length_addBits'.
  split; [unfold add; rewrite !length_app, Hlw; rewrite length_app in Hn; lia|].
  split; [exact Hwf'|]. split; [exact Hlen'|].
  intros code Hcode.
  pose proof (consumed_restart (minCodeSize s) Hmin n (pre ++ l_result st) L
                (l_codeSize st) tok _ code Hcon Hcsb (proj1 Hwf) Htok) as Hre.
  cbv zeta in Hre. fold c in Hre. rewrite Hw in Hre.
  specialize (Hre Hfit Hcode).
  unfold add. rewrite app_assoc. exact Hre.
Qed.

(** The decoder in front of the closing code of the block that ends
    the data. *)
Lemma closing_state pre st :
  syncInv (consumed (minCodeSize s)) 2 12 e0 s from blen pre (from + blen) st ->
  from + blen = N ->
  let wE := getMinBits (u32 (m_dictSize (l_enc st) - 1)) in
  exists (n : nat) L tok,
    consumed (minCodeSize s) n (pre ++ l_result st) L (l_codeSize st) tok
             (m_data e0)
    /\ 1 <= l_codeSize st <= 12
    /\ c + 2 <= Z.of_nat (length L)
    /\ dataCode c 2 L tok
    /\ (n <= length (pre ++ l_result st))%nat
    /\ (1 <= wE /\ c + 1 < 2 ^ wE)
    /\ m_dictSize (l_enc st) <= Z.of_nat (length L)
    /\ (m_dictSize (l_enc st) < 4095 ->
        Z.of_nat (length L) = m_dictSize (l_enc st))
    /\ nextWidth 12 (Z.of_nat (length L)) (l_codeSize st)
       = if isPowerOfTwo (m_dictSize (l_enc st)) then wE + 1 else wE.
Proof.
  intros Hsync Hlast. cbv zeta.
  pose proof clear_bounds as Hcb.
  destruct (block_end _ _ _ _ _ _ _ _ _ Hlen12 Hlength Hsync)
    as (Hinv & _ & n & L & tok & Hn & Hcon & Hwf & Htok & Hroom & Hcsb
        & Hwidth & HD).
  cbv zeta in HD. fold N c in HD, Hwf, Htok.
  change (2 ^ 12) with 4096 in *.
  rewrite Hlast, Z.ltb_irrefl in HD.
  destruct HD as (HD & HDeq). change (4096 - 1) with 4095 in HDeq.
  destruct (closing_width_decoder _ st _ Hinv Hwidth HD HDeq)
    as (HwE1 & HwE2 & Hw).
  assert (Hdata_eq : take (Z.to_nat (from + blen)) (m_data e0) = m_data e0).
  { apply take_ge. rewrite Hlast. unfold N, size_. lia. }
  rewrite Hdata_eq in Hcon.
  exists n, L, tok.
  split; [exact Hcon|]. split; [exact Hcsb|].
  split; [exact (proj1 Hwf)|]. split; [exact Htok|].
  split; [exact Hn|].
  split; [split; assumption|].
  split; [exact HD|]. split; [exact HDeq | exact Hw].
Qed.

(** The frame whose last block ends the data is decompressed to the
    data, unless the dictionary size is a power of two and the bits
    fill their last byte. *)
Lemma closing_sync pre st tail :
  syncInv (consumed (minCodeSize s)) 2 12 e0 s from blen pre (from + blen) st ->
  from + blen = N ->
  Forall (fun x => 0 <= x < 256) tail ->
  let bits := pre ++ add (l_result st) (c + 1)
                         (getMinBits (u32 (m_dictSize (l_enc st) - 1))) in
  isPowerOfTwo (m_dictSize (l_enc st)) = false
  \/ Z.of_nat (length bits) mod 8 <> 0 ->
  8 * size_ (Container.gifFrameData bits ++ tail) < 4294967296 ->
  exists d,
    decompress (BinaryInputBuffer.open (Container.gifFrameData bits ++ tail))
               true (minCodeSize s) 12 = Ok d
    /\ m_bytes d = m_data e0.
Proof.
  intros Hsync Hlast Htail bits Hpow Hfile.
  destruct (closing_state pre st Hsync Hlast)
    as (n & L & tok & Hcon & Hcsb & HlenL & Htok & Hn & HwE & _ & _ & Hw).
  set (wE := getMinBits (u32 (m_dictSize (l_enc st) - 1))) in *.
  assert (Hbits : bits = (pre ++ l_result st) ++ tokenBits (c + 1, wE)).
  { unfold bits, add, tokenBits. cbn [fst snd]. now rewrite app_assoc. }
  rewrite Hbits in Hfile, Hpow |- *.
  assert (Hlw : length (tokenBits (c + 1, wE)) = Z.to_nat wE)
    by (unfold tokenBits; apply BitOutputProps.length_addBits').
  set (all := (pre ++ l_result st) ++ tokenBits (c + 1, wE)) in *.
  assert (Hall : Z.of_nat (length all)
                 = Z.of_nat (length (pre ++ l_result st)) + wE)
    by (unfold all; rewrite length_app, Hlw; lia).
  pose proof (Z.div_mod (Z.of_nat (length all) + 7) 8 ltac:(lia)) as Hdm.
  pose proof (Z.mod_pos_bound (Z.of_nat (length all) + 7) 8 ltac:(lia)) as Hmb.
  apply (consumed_decompress (minCodeSize s) Hmin n (pre ++ l_result st) L
           (l_codeSize st) tok (m_data e0) tail wE Hcon Hcsb HlenL Htok Hn
           Htail HwE Hfile).
  - fold c. rewrite Hw. destruct (isPowerOfTwo _); [|lia].
    rewrite Z.pow_add_r by lia. change (2 ^ 1) with 2. lia.
  - rewrite Hw. destruct (isPowerOfTwo _); lia.
  - fold c all. rewrite Hw.
    destruct (isPowerOfTwo (m_dictSize (l_enc st))); [|lia].
    destruct Hpow as [Hp|Hp]; [discriminate Hp|].
    pose proof (Z.div_mod (Z.of_nat (length all)) 8 ltac:(lia)) as Hdm2.
    pose proof (Z.mod_pos_bound (Z.of_nat (length all)) 8 ltac:(lia)) as Hmb2.
    lia.
Qed.

(** With a dictionary size that is a power of two and bits that fill
    their last byte the decoder asks for one bit more than the frame
    holds. *)
Lemma closing_short pre st tail :
  syncInv (consumed (minCodeSize s)) 2 12 e0 s from blen pre (from + blen) st ->
  from + blen = N ->
  Forall (fun x => 0 <= x < 256) tail ->
  let bits := pre ++ add (l_result st) (c + 1)
                         (getMinBits (u32 (m_dictSize (l_enc st) - 1))) in
  isPowerOfTwo (m_dictSize (l_enc st)) = true ->
  Z.of_nat (length bits) mod 8 = 0 ->
  8 * size_ (Container.gifFrameData bits ++ tail) < 4294967296 ->
  decompress (BinaryInputBuffer.open (Container.gifFrameData bits ++ tail))
             true (minCodeSize s) 12
  = Err "too few bits available in unlzw".
Proof.
  intros Hsync Hlast Htail bits Hpow Hfull Hfile.
  destruct (closing_state pre st Hsync Hlast)
    as (n & L & tok & Hcon & Hcsb & HlenL & Htok & Hn & HwE & _ & _ & Hw).
  set (wE := getMinBits (u32 (m_dictSize (l_enc st) - 1))) in *.
  assert (Hbits : bits = (pre ++ l_result st) ++ tokenBits (c + 1, wE)).
  { unfold bits, add, tokenBits. cbn [fst snd]. now rewrite app_assoc. }
  rewrite Hbits in Hfile, Hfull |- *.
  assert (Hlw : length (tokenBits (c + 1, wE)) = Z.to_nat wE)
    by (unfold tokenBits; apply BitOutputProps.length_addBits').
  set (all := (pre ++ l_result st) ++ tokenBits (c + 1, wE)) in *.
  assert (Hall : Z.of_nat (length all)
                 = Z.of_nat (length (pre ++ l_result st)) + wE)
    by (unfold all; rewrite length_app, Hlw; lia).
  apply (consumed_short (minCodeSize s) Hmin n (pre ++ l_result st) L
           (l_codeSize st) tok (m_data e0) tail wE Hcon Hcsb Htok Hn
           Htail HwE Hfile).
  fold c all. rewrite Hw, Hpow.
  pose proof (Z.div_mod (Z.of_nat (length all)) 8 ltac:(lia)) as Hdm2.
  pose proof (Z.div_mod (Z.of_nat (length all) + 7) 8 ltac:(lia)) as Hdm.
  pose proof (Z.mod_pos_bound (Z.of_nat (length all) + 7) 8 ltac:(lia)) as Hmb.
  lia.
Qed.

End GifBlock.

(** The decoder in front of the first token of the frame. *)
Lemma first_blockStart data k pre :
  2 <= k <= 8 ->
  pre = [] \/ pre = tokenBits (2 ^ k, k + 1) ->
  blockStart data k pre 0.
Proof.
  intros Hk Hpre.
  exists 0%nat, (initialLut (mkParams k 12) true).
  split; [lia|].
  split; [apply (wfLut_initialLut k Hk)|].
  split; [apply (length_initialLut_gif k Hk)|].
  intros code Hcode. cbn [Z.to_nat take app].
  apply (consumed_first k Hk pre code Hpre Hcode).
Qed.

(** X24 -- The decoder follows the encoder through a block that covers
    all of the data.  Whatever bits come after the tokens of the main
    loop of [optimizePartial] in the sub-blocks of the frame (the
    tokens may follow a clear code), [decompress] gets through them
    with its first token and some iterations of its main loop; it has
    then written all of the data, reads with the encoder's code size
    and has a table of [m_dictSize] entries (at least that many once
    the dictionary is full).  The width with which it reads its next
    code is the width of the closing code, [getMinBits(m_dictSize -
    1)], unless [m_dictSize] is a power of two: then it is one bit
    more. *)
Theorem block_is_decoded_up_to_closing_code (e : Encoder)
        (s : OptimizationSettings) (pre : list bool) :
  m_isGif e = true -> m_maxCodeLength e = 12 -> m_maxDictionary e = 4095 ->
  2 <= minCodeSize s <= 8 ->
  Forall (fun x => 0 <= x < 2 ^ minCodeSize s) (m_data e) ->
  1 <= size_ (m_data e) < 4294967296 ->
  maxDictionary s = 0 \/ 4095 < maxDictionary s ->
  maxTokens s = 0 \/ size_ (m_data e) <= maxTokens s ->
  pre = [] \/ pre = tokenBits (2 ^ minCodeSize s, minCodeSize s + 1) ->
  let st := runBlock e s 0 (size_ (m_data e)) true in
  let wE := getMinBits (u32 (m_dictSize (l_enc st) - 1)) in
  exists (n : nat) L tok,
    consumed (minCodeSize s) n (pre ++ l_result st) L (l_codeSize st) tok
             (m_data e)
    /\ m_dictSize (l_enc st) <= Z.of_nat (length L)
    /\ (m_dictSize (l_enc st) < 4095 ->
        Z.of_nat (length L) = m_dictSize (l_enc st))
    /\ nextWidth 12 (Z.of_nat (length L)) (l_codeSize st)
       = if isPowerOfTwo (m_dictSize (l_enc st)) then wE + 1 else wE.
Proof.
  intros Hgif Hlen Hdict Hmin Hdata Hsize HmaxD HmaxT Hpre. cbv zeta.
  pose proof (first_blockStart (m_data e) (minCodeSize s) pre Hmin Hpre)
    as Hstart.
  assert (Hlength : 1 <= size_ (m_data e)) by lia.
  pose proof (gif_runBlock_sync e s 0 (size_ (m_data e)) Hgif Hlen Hdict Hmin
                Hlength pre Hdata Hsize HmaxD HmaxT ltac:(lia) ltac:(lia)
                Hstart) as Hsync.
  destruct (closing_state e s 0 (size_ (m_data e)) Hgif Hlen Hdict Hmin
              Hlength pre _ Hsync ltac:(lia))
    as (n & L & tok & Hcon & _ & _ & _ & _ & _ & HD & HDeq & Hw).
  exists n, L, tok. auto.
Qed.

(** The pixels 0,1,0,1,0,1 with code size 2. *)
Lemma block_is_decoded_up_to_closing_code_witness :
  let e := new [0; 1; 0; 1; 0; 1] true in
  let st := runBlock e (gifSettings 2) 0 6 true in
  exists (n : nat) L tok,
    consumed 2 n (l_result st) L (l_codeSize st) tok [0; 1; 0; 1; 0; 1]
    /\ Z.of_nat (length L) = m_dictSize (l_enc st).
Proof.
  intros e st.
  destruct (block_is_decoded_up_to_closing_code e (gifSettings 2) [])
    as (n & L & tok & Hcon & _ & HD & _).
  - reflexivity.
  - reflexivity.
  - reflexivity.
  - cbn. lia.
  - repeat constructor; cbn; lia.
  - vm_compute. split; [discriminate | reflexivity].
  - left. reflexivity.
  - right. vm_compute. discriminate.
  - left. reflexivity.
  - exists n, L, tok. split; [exact Hcon|]. apply HD. vm_compute. reflexivity.
Defined.

(** X28 -- A block that does not end the data leaves the decoder at
    the start of the next block.  When the decoder that has read the
    bits [pre] is about to read the first token of the block at
    [from], then after the tokens that the main loop of
    [optimizePartial] writes for the block and the clear code, written
    with [getMinBits(m_dictSize - 1)] bits, it is about to read the
    first token of the block at [from + blen]: the clear code has the
    width the decoder reads with, its table is cut back to the
    literals and the two special codes, and it has written the data up
    to [from + blen]. *)
Theorem block_with_clear_code_restarts_decoder (e : Encoder)
        (s : OptimizationSettings) (from blen : Z) (pre : list bool) :
  m_isGif e = true -> m_maxCodeLength e = 12 -> m_maxDictionary e = 4095 ->
  2 <= minCodeSize s <= 8 ->
  Forall (fun x => 0 <= x < 2 ^ minCodeSize s) (m_data e) ->
  size_ (m_data e) < 4294967296 ->
  maxDictionary s = 0 \/ 4095 < maxDictionary s ->
  maxTokens s = 0 \/ blen <= maxTokens s ->
  0 <= from -> 1 <= blen -> from + blen < size_ (m_data e) ->
  blockStart (m_data e) (minCodeSize s) pre from ->
  let st := runBlock e s from blen true in
  blockStart (m_data e) (minCodeSize s)
    (pre ++ add (l_result st) (2 ^ minCodeSize s)
                (getMinBits (u32 (m_dictSize (l_enc st) - 1))))
    (from + blen).
Proof.
  intros Hgif Hlen Hdict Hmin Hdata Hsize HmaxD HmaxT Hfrom Hblen Hend
         Hstart. cbv zeta.
  assert (Hsize' : 1 <= size_ (m_data e) < 4294967296) by lia.
  assert (Hend' : from + blen <= size_ (m_data e)) by lia.
  pose proof (gif_runBlock_sync e s from blen Hgif Hlen Hdict Hmin Hblen pre
                Hdata Hsize' HmaxD HmaxT Hfrom Hend' Hstart) as Hsync.
  exact (proj2 (next_blockStart e s from blen Hgif Hlen Hdict Hmin Hblen
                  pre _ Hsync Hend)).
Qed.

(** The first three of the pixels 0,1,0,1,0,1 with code size 2, at the
    start of the frame. *)
Lemma block_with_clear_code_restarts_decoder_witness :
  let e := new [0; 1; 0; 1; 0; 1] true in
  let st := runBlock e (gifSettings 2) 0 3 true in
  blockStart [0; 1; 0; 1; 0; 1] 2
    (add (l_result st) 4 (getMinBits (u32 (m_dictSize (l_enc st) - 1)))) 3.
Proof.
  intros e st.
  apply (block_with_clear_code_restarts_decoder e (gifSettings 2) 0 3 []).
  - reflexivity.
  - reflexivity.
  - reflexivity.
  - cbn. lia.
  - repeat constructor; cbn; lia.
  - vm_compute. reflexivity.
  - left. reflexivity.
  - right. vm_compute. discriminate.
  - lia.
  - lia.
  - vm_compute. reflexivity.
  - apply first_blockStart; [cbn; lia | left; reflexivity].
Defined.

End EncoderParseProps.


(** ** A GIF frame of blocks through the file and back *)

Module MergeRoundTrip.

Import LzwDecoder LzwEncoder Statements Values EncoderInvariant.
Import LzwStrings LzwParse Synchrony ParseSync Restarts.
Import BitOutputProps TrieProps EncoderLoopProps EncoderParseProps.

Lemma addBits_pow2 n :
  addBits (S n) (2 ^ Z.of_nat n) = repeat false n ++ [true].
Proof.
  induction n as [|n IH]; [reflexivity|].
  change (addBits (S (S n)) (2 ^ Z.of_nat (S n)))
    with (negb (Z.land (2 ^ Z.of_nat (S n)) 1 =? 0)
          :: addBits (S n) (Z.shiftr (2 ^ Z.of_nat (S n)) 1)).
  rewrite land1_mod2, shiftr1_div2.
  rewrite Nat2Z.inj_succ, Z.pow_succ_r by lia.
  rewrite (Z.mul_comm 2), Z.mod_mul, Z.div_mul by lia.
  rewrite IH. reflexivity.
Qed.

Lemma blocksFrom_le a mt N rest : forall pos,
  blocksFrom a mt N pos rest = true -> pos <= N.
Proof.
  induction rest as [|r rest IH]; intros pos H; cbn [blocksFrom] in H.
  - apply Z.eqb_eq in H. lia.
  - destruct (r =? 0).
    + apply andb_true_iff in H as [_ H]. now apply IH.
    + repeat (apply andb_true_iff in H as [H ?]).
      apply Z.ltb_lt in H. specialize (IH r ltac:(assumption)). lia.
Qed.

Lemma blocksFrom_lt a mt N rest : forall pos,
  rest <> [] -> blocksFrom a mt N pos rest = true -> pos < N.
Proof.
  induction rest as [|r rest IH]; intros pos Hne H; [contradiction|].
  cbn [blocksFrom] in H. destruct (r =? 0).
  - apply andb_true_iff in H as [Hr H].
    apply IH; [|exact H]. destruct rest; [discriminate Hr | discriminate].
  - repeat (apply andb_true_iff in H as [H ?]).
    apply Z.ltb_lt in H.
    pose proof (blocksFrom_le a mt N rest r ltac:(assumption)). lia.
Qed.

Lemma blocksFrom_last a mt N rest : forall pos,
  rest <> [] -> blocksFrom a mt N pos rest = true -> 0 < N ->
  List.last rest 0 = N.
Proof.
  induction rest as [|r rest IH]; intros pos Hne H HN; [contradiction|].
  cbn [blocksFrom] in H. destruct (Z.eqb_spec r 0) as [Hr|Hr].
  - apply andb_true_iff in H as [Hrest H].
    destruct rest as [|r' rest']; [discriminate Hrest|].
    change (List.last (r :: r' :: rest') 0) with (List.last (r' :: rest') 0).
    apply (IH pos); [discriminate | exact H | exact HN].
  - repeat (apply andb_true_iff in H as [H ?]).
    destruct rest as [|r' rest'].
    + cbn [blocksFrom] in *. cbn [List.last].
      apply Z.eqb_eq. assumption.
    + change (List.last (r :: r' :: rest') 0) with (List.last (r' :: rest') 0).
      apply (IH r); [discriminate | assumption | exact HN].
Qed.

Lemma blocksFrom_open a mt N rest : forall pos,
  rest <> [] -> blocksFrom a mt N pos (rest ++ [N]) = true -> 0 < N ->
  List.last rest 0 < N.
Proof.
  induction rest as [|r rest IH]; intros pos Hne H HN; [contradiction|].
  cbn [app blocksFrom] in H. destruct (Z.eqb_spec r 0) as [Hr|Hr].
  - apply andb_true_iff in H as [_ H].
    destruct rest as [|r' rest']; [cbn [List.last]; lia|].
    change (List.last (r :: r' :: rest') 0) with (List.last (r' :: rest') 0).
    apply (IH pos); [discriminate | exact H | exact HN].
  - repeat (apply andb_true_iff in H as [H ?]).
    destruct rest as [|r' rest'].
    + cbn [List.last].
      refine (blocksFrom_lt a mt N [N] r _ _); [discriminate | assumption].
    + change (List.last (r :: r' :: rest') 0) with (List.last (r' :: rest') 0).
      apply (IH r); [discriminate | assumption | exact HN].
Qed.

(** The emitting call of [merge] for the block from [pos] to [r]. *)
Lemma optimizePartial_block e s pos r isFinal :
  0 <= pos < r -> r <= size_ (m_data e) < 4294967296 ->
  1 <= alignment s -> pos mod alignment s = 0 ->
  exists e1,
    m_data e1 = m_data e /\ m_isGif e1 = m_isGif e
    /\ m_maxCodeLength e1 = m_maxCodeLength e
    /\ m_maxDictionary e1 = m_maxDictionary e
    /\ optimizePartial e pos (r - pos) true isFinal s
       = (let st := runBlock e1 s pos (r - pos) true in
          bits ← endOfBlock (l_enc st) (u32 (Z.shiftl 1 (minCodeSize s)))
                            (u32 (u32 (Z.shiftl 1 (minCodeSize s)) + 1))
                            isFinal (l_numTokens st) (l_result st);
          Ok (bits, l_enc st)).
Proof.
  intros Hpos Hsize Halign Hmod.
  assert (Hfix : fixAlignment s = s).
  { unfold fixAlignment. destruct (Z.eqb_spec (alignment s) 0); [lia | reflexivity]. }
  assert (Halloc : exists e1,
             allocateBest e s = Ok e1 /\ m_data e1 = m_data e
             /\ m_isGif e1 = m_isGif e
             /\ m_maxCodeLength e1 = m_maxCodeLength e
             /\ m_maxDictionary e1 = m_maxDictionary e).
  { unfold allocateBest. destruct (m_best e).
    - destruct (Z.eqb_spec (alignment s) 0); [lia|].
      eexists. split; [reflexivity|]. cbn. auto.
    - exists e. auto. }
  destruct Halloc as (e1 & Ha & Hd & Hg & Hl & Hm).
  exists e1. repeat (split; [assumption|]).
  unfold optimizePartial. rewrite Ha. cbn [mbind outcome_bind rbind].
  cbv zeta. rewrite Hfix.
  assert (Hbl : blockLength e1 pos (r - pos) = r - pos).
  { unfold blockLength. cbv zeta. rewrite Hd.
    rewrite u32_small by lia.
    destruct (Z.ltb_spec (r - pos) (size_ (m_data e) - pos));
      destruct (Z.eqb_spec (r - pos) 0); cbn [negb andb]; lia. }
  rewrite Hbl, Hmod. cbn [Z.eqb negb andb].
  rewrite andb_false_r. cbn [andb].
  rewrite (u32_small (pos + (r - pos))) by lia.
  destruct (Z.eqb_spec (pos + (r - pos)) 0); [lia|].
  reflexivity.
Qed.

(** What [merge] does to the settings before a block. *)
Lemma merge_settings e s pos :
  1 <= alignment s ->
  exists s1,
    (match m_best e with
     | [] => Ok s
     | _ =>
         if alignment s =? 0 then Err "undefined: division by zero"
         else
           let g := bb_nongreedy (bestAt (m_best e) (pos / alignment s)) =? 0 in
           let s' := setGreedy s g in
           Ok (if g then setAvoidNonGreedyAgain s' true else s')
     end) = Ok s1
    /\ sameLimits s (setReadOnlyBest s1 true).
Proof.
  intros Halign. unfold sameLimits.
  destruct (m_best e); [exists s; cbn; auto|].
  destruct (Z.eqb_spec (alignment s) 0); [lia|]. cbv zeta.
  destruct (bb_nongreedy _ =? 0); eexists; (split; [reflexivity|]); cbn; auto.
Qed.

Section Merge.

Variables (data : list Z) (s0 : OptimizationSettings).

Hypothesis Hmin : 2 <= minCodeSize s0 <= 8.
Hypothesis Hdata : Forall (fun x => 0 <= x < 2 ^ minCodeSize s0) data.
Hypothesis Hsize : 1 <= size_ data < 4294967296.
Hypothesis Halign : 1 <= alignment s0.
Hypothesis HmaxD : maxDictionary s0 = 0 \/ 4095 < maxDictionary s0.

Let k := minCodeSize s0.
Let c := 2 ^ minCodeSize s0.
Let N := size_ data.

(** The block from [pos] to [r], written after the bits [result]:
    the state in which its main loop ends, and the bits of the
    block. *)
Lemma block_sync e s pos r isFinal result :
  gifEncoder data e -> sameLimits s0 s ->
  0 <= pos < r -> r <= N -> pos mod alignment s0 = 0 ->
  maxTokens s0 = 0 \/ r - pos <= maxTokens s0 ->
  blockStart data k result pos ->
  exists e1 st,
    gifEncoder data e1 /\ gifEncoder data (l_enc st)
    /\ syncInv (consumed (minCodeSize s)) 2 12 e1 s pos (r - pos) result
               (pos + (r - pos)) st
    /\ c + 2 <= m_dictSize (l_enc st) <= 4095
    /\ optimizePartial e pos (r - pos) true isFinal s
       = Ok (add (l_result st) (if isFinal then c + 1 else c)
                 (getMinBits (u32 (m_dictSize (l_enc st) - 1))),
             l_enc st).
Proof.
  intros (Hgif & Hlen & Hdict & Hd) (Hk & Ha & HD & HT) Hpos Hr Hmod HmaxT
         Hstart.
  destruct (optimizePartial_block e s pos r isFinal Hpos
              ltac:(rewrite Hd; fold N; lia) ltac:(lia)
              ltac:(rewrite Ha; exact Hmod))
    as (e1 & Hdata1 & Hgif1 & Hlen1 & Hdict1 & Hopt).
  cbv zeta in Hopt.
  set (st := runBlock e1 s pos (r - pos) true) in *.
  assert (He1 : gifEncoder data e1)
    by (unfold gifEncoder; repeat split; congruence).
  destruct He1 as (Hg1 & Hl1 & Hm1 & Hd1).
  assert (Hsync : syncInv (consumed (minCodeSize s)) 2 12 e1 s pos (r - pos)
                          result (pos + (r - pos)) st).
  { unfold st.
    apply (gif_runBlock_sync e1 s pos (r - pos) Hg1 Hl1 Hm1);
      rewrite ?Hd1, ?Hk, ?HD, ?HT; fold N; try assumption; try lia. }
  assert (Hinv : blockInv e1 s pos (r - pos) (pos + (r - pos)) st)
    by apply Hsync.
  assert (Hc : 4 <= c <= 256).
  { unfold c.
    assert (2 ^ 2 <= 2 ^ minCodeSize s0) by (apply Z.pow_le_mono_r; lia).
    assert (2 ^ minCodeSize s0 <= 2 ^ 8) by (apply Z.pow_le_mono_r; lia).
    change (2 ^ 2) with 4 in *. change (2 ^ 8) with 256 in *. lia. }
  assert (Hclear : u32 (Z.shiftl 1 (minCodeSize s)) = c).
  { rewrite Hk, Z.shiftl_1_l. apply u32_small. fold c. lia. }
  assert (HDs : c + 2 <= m_dictSize (l_enc st) <= 4095).
  { destruct Hinv as [_ _ _ _ Hsz _ _ _ _ _ _].
    unfold freshDictSize in Hsz. rewrite Hg1, Hm1, Hk in Hsz. exact Hsz. }
  assert (Hst : gifEncoder data (l_enc st)).
  { destruct Hinv as [Hd' Hg' Hmd' Hml' _ _ _ _ _ _ _].
    unfold gifEncoder. repeat split; congruence. }
  exists e1, st.
  split; [unfold gifEncoder; auto|]. split; [exact Hst|].
  split; [exact Hsync|]. split; [exact HDs|].
  rewrite Hopt. unfold endOfBlock. cbv zeta.
  rewrite (proj1 Hst), Hclear, (u32_small (c + 1)) by lia.
  reflexivity.
Qed.

Lemma add_nonempty result token w : 1 <= w -> add result token w <> [].
Proof.
  intros Hw Hnil. apply (f_equal (@length bool)) in Hnil.
  unfold add in Hnil.
  rewrite length_app, length_addBits' in Hnil. cbn [length] in Hnil. lia.
Qed.

(** The frame that the loop of [merge] writes, read by the decoder. *)
Lemma mergeLoop_cases count tail :
  Forall (fun x => 0 <= x < 256) tail ->
  forall rest e s idx pos result,
  gifEncoder data e -> sameLimits s0 s ->
  blocksFrom (alignment s0) (maxTokens s0) N pos rest = true ->
  rest <> [] -> idx + Z.of_nat (length rest) = count -> 0 <= pos ->
  blockStart data k result pos ->
  exists bits e',
    mergeLoop e s count rest idx pos result = Ok (bits, e')
    /\ (8 * size_ (Container.gifFrameData bits ++ tail) < 4294967296 ->
        (isPowerOfTwo (m_dictSize e') = false
         \/ Z.of_nat (length bits) mod 8 <> 0 ->
         exists d,
           decompress (BinaryInputBuffer.open
                         (Container.gifFrameData bits ++ tail))
                      true k 12 = Ok d
           /\ m_bytes d = data)
        /\ (isPowerOfTwo (m_dictSize e') = true ->
            Z.of_nat (length bits) mod 8 = 0 ->
            decompress (BinaryInputBuffer.open
                          (Container.gifFrameData bits ++ tail))
                       true k 12
            = Err "too few bits available in unlzw")).
Proof.
  intros Htail.
  induction rest as [|r rest IH];
    intros e s idx pos result He Hs Hblocks Hne Hcount Hpos Hstart;
    [contradiction|].
  cbn [mergeLoop]. cbn [blocksFrom] in Hblocks.
  destruct (Z.eqb_spec r 0) as [Hr0|Hr0].
  { apply andb_true_iff in Hblocks as [Hrest Hblocks].
    apply (IH e s (idx + 1) pos result He Hs Hblocks); try assumption.
    - destruct rest; [discriminate Hrest | discriminate].
    - cbn [length] in Hcount. lia. }
  apply andb_true_iff in Hblocks as [Hblocks Hnext].
  apply andb_true_iff in Hblocks as [Hblocks Htok].
  apply andb_true_iff in Hblocks as [Hlt Hmod].
  apply Z.ltb_lt in Hlt. apply Z.eqb_eq in Hmod.
  assert (HmaxT : maxTokens s0 = 0 \/ r - pos <= maxTokens s0).
  { apply orb_true_iff in Htok as [H|H];
      [left; now apply Z.eqb_eq | right; now apply Z.leb_le]. }
  pose proof (blocksFrom_le _ _ _ _ _ Hnext) as HrN.
  destruct (merge_settings e s pos ltac:(destruct Hs as (_ & -> & _); lia))
    as (s1 & Hs1 & Hs2).
  cbv zeta in Hs1. cbv zeta. rewrite Hs1. cbn [mbind outcome_bind rbind].
  set (s2 := setReadOnlyBest s1 true) in *.
  assert (Hs02 : sameLimits s0 s2).
  { destruct Hs as (A1 & A2 & A3 & A4), Hs2 as (B1 & B2 & B3 & B4).
    unfold sameLimits. repeat split; congruence. }
  rewrite (u32_small (r - pos)) by (unfold N in HrN; lia).
  destruct (block_sync e s2 pos r (idx =? count - 1) result He Hs02
              ltac:(lia) HrN Hmod HmaxT Hstart)
    as (e1 & st & He1 & Hst & Hsync & HDs & Hopt).
  rewrite Hopt. cbn [mbind outcome_bind rbind].
  set (w := getMinBits (u32 (m_dictSize (l_enc st) - 1))) in *.
  assert (Hw : 1 <= w <= 16).
  { apply (BlockReadBack.closing_width (m_dictSize (l_enc st)) (minCodeSize s0));
      fold c; lia. }
  destruct He1 as (Hg1 & Hl1 & Hm1 & Hd1).
  assert (Hk2 : minCodeSize s2 = minCodeSize s0) by apply Hs02.
  set (block := add (l_result st) (if idx =? count - 1 then c + 1 else c) w).
  assert (Hblock : block <> []) by (apply add_nonempty; lia).
  destruct block as [|b0 block'] eqn:Hb; [contradiction|].
  rewrite <- Hb. cbn [andb].
  destruct rest as [|r' rest'].
  - (* the block that ends the data *)
    cbn [blocksFrom] in Hnext. apply Z.eqb_eq in Hnext.
    cbn [length] in Hcount.
    destruct (Z.eqb_spec idx (count - 1)); [|lia].
    cbn [mergeLoop]. exists (result ++ block), (l_enc st).
    split; [reflexivity|].
    intros Hfile.
    pose proof (closing_sync e1 s2 pos (r - pos) Hg1 Hl1 Hm1
                  ltac:(rewrite Hk2; exact Hmin) ltac:(lia) result
                  st tail Hsync
                  ltac:(rewrite Hd1; fold N; lia) Htail) as Hclose.
    pose proof (closing_short e1 s2 pos (r - pos) Hg1 Hl1 Hm1
                  ltac:(rewrite Hk2; exact Hmin) ltac:(lia) result
                  st tail Hsync
                  ltac:(rewrite Hd1; fold N; lia) Htail) as Hshort.
    cbv zeta in Hclose, Hshort.
    rewrite Hk2 in Hclose, Hshort. rewrite Hd1 in Hclose.
    fold c w in Hclose, Hshort.
    split.
    + intros Hpow. exact (Hclose Hpow Hfile).
    + intros Hpow Hfull. exact (Hshort Hpow Hfull Hfile).
  - (* a block that a clear code ends *)
    assert (HrltN : r < N)
      by (apply (blocksFrom_lt (alignment s0) (maxTokens s0) N (r' :: rest') r);
          [discriminate | exact Hnext]).
    cbn [length] in Hcount.
    destruct (Z.eqb_spec idx (count - 1)); [lia|].
    destruct (next_blockStart e1 s2 pos (r - pos) Hg1 Hl1 Hm1
                ltac:(rewrite Hk2; exact Hmin) ltac:(lia) result
                st Hsync ltac:(rewrite Hd1; fold N; lia))
      as (_ & Hnextstart).
    rewrite Hk2, Hd1 in Hnextstart. fold c w k in Hnextstart.
    replace (pos + (r - pos)) with r in Hnextstart by lia.
    apply (IH (l_enc st) s2 (idx + 1) r (result ++ block) Hst Hs02 Hnext);
      try assumption; try discriminate.
    + cbn [length]. lia.
    + lia.
Qed.

End Merge.

(** The frame that [merge] writes, read by the decoder. *)
Lemma merge_cases (e : Encoder) (s : OptimizationSettings)
      (restarts : list Z) :
  m_isGif e = true -> m_maxCodeLength e = 12 -> m_maxDictionary e = 4095 ->
  2 <= minCodeSize s <= 8 ->
  Forall (fun x => 0 <= x < 2 ^ minCodeSize s) (m_data e) ->
  1 <= size_ (m_data e) < 4294967296 ->
  1 <= alignment s ->
  maxDictionary s = 0 \/ 4095 < maxDictionary s ->
  restarts <> [] ->
  blocksFrom (alignment s) (maxTokens s) (size_ (m_data e)) 0 restarts = true
  \/ blocksFrom (alignment s) (maxTokens s) (size_ (m_data e)) 0
                (restarts ++ [size_ (m_data e)]) = true ->
  exists bits e',
    merge e restarts s = Ok (bits, e')
    /\ (8 * size_ (Container.gifFrameData bits ++ [59]) < 4294967296 ->
        (isPowerOfTwo (m_dictSize e') = false
         \/ Z.of_nat (length bits) mod 8 <> 0 ->
         Driver.readBackFrame bits (minCodeSize s) = Ok (m_data e))
        /\ (isPowerOfTwo (m_dictSize e') = true ->
            Z.of_nat (length bits) mod 8 = 0 ->
            Driver.readBackFrame bits (minCodeSize s)
            = Err "too few bits available in unlzw")).
Proof.
  intros Hgif Hlen Hdict Hmin Hdata Hsize Halign HmaxD Hne Hblocks.
  set (N := size_ (m_data e)) in *.
  set (pre := if startWithClearCode s && m_isGif e
              then repeat false (Z.to_nat (minCodeSize s)) ++ [true]
              else []).
  assert (Hpre : pre = []
                 \/ pre = tokenBits (2 ^ minCodeSize s, minCodeSize s + 1)).
  { unfold pre. destruct (startWithClearCode s && m_isGif e); [right | now left].
    unfold tokenBits. cbn [fst snd].
    replace (Z.to_nat (minCodeSize s + 1)) with (S (Z.to_nat (minCodeSize s)))
      by lia.
    rewrite <- (addBits_pow2 (Z.to_nat (minCodeSize s))).
    rewrite Z2Nat.id by lia. reflexivity. }
  set (restarts' := if List.last restarts 0 <? N
                    then restarts ++ [u32 N] else restarts).
  assert (Hblocks' : blocksFrom (alignment s) (maxTokens s) N 0 restarts' = true
                     /\ restarts' <> []).
  { unfold restarts'. destruct Hblocks as [H|H].
    - rewrite (blocksFrom_last _ _ _ _ 0 Hne H ltac:(lia)), Z.ltb_irrefl. auto.
    - pose proof (blocksFrom_open _ _ _ _ 0 Hne H ltac:(lia)) as Hl.
      destruct (Z.ltb_spec (List.last restarts 0) N); [|lia].
      rewrite u32_small by lia. split; [exact H|].
      destruct restarts; discriminate. }
  destruct Hblocks' as (Hb & Hne').
  assert (Htail : Forall (fun x => 0 <= x < 256) [59])
    by (repeat constructor; lia).
  destruct (mergeLoop_cases (m_data e) s Hmin Hdata Hsize Halign HmaxD
              (Z.of_nat (length restarts')) [59] Htail restarts' e s 0 0 pre)
    as (bits & e' & Hm & Hrt); try assumption; try lia.
  - unfold gifEncoder. auto.
  - unfold sameLimits. auto.
  - apply first_blockStart; assumption.
  - exists bits, e'. split.
    + unfold merge. fold pre N restarts'.
      destruct restarts; [contradiction | exact Hm].
    + intros Hfile. destruct (Hrt Hfile) as (Hok & Hbad).
      unfold Driver.readBackFrame. split.
      * intros Hpow. destruct (Hok Hpow) as (d & Hdec & Hbytes).
        rewrite Hdec. cbn [mbind outcome_bind rbind]. now rewrite Hbytes.
      * intros Hpow Hfull. rewrite (Hbad Hpow Hfull). reflexivity.
Qed.

(** X25 -- A GIF frame written by [merge] comes back.  For an encoder
    over pixels below [2^minCodeSize], settings whose dictionary limit
    does not end a block, and restarts that cut the pixels into blocks
    (increasing, aligned, none longer than the token limit; with or
    without the end of the data as the last restart, zeros skipped),
    [merge] succeeds; and when its bits, framed by
    [GifImage::writeOptimized] and followed by the trailer, are read
    by [LzwDecoder], the result is the pixels -- provided that the
    final [m_dictSize] is not a power of two, or that the bits do not
    fill their last byte.  The clear code that ends a block before the
    last has the width the decoder reads with; it resets the decoder's
    table as the encoder's next call resets its dictionary. *)
Theorem merge_round_trip (e : Encoder) (s : OptimizationSettings)
        (restarts : list Z) :
  m_isGif e = true -> m_maxCodeLength e = 12 -> m_maxDictionary e = 4095 ->
  2 <= minCodeSize s <= 8 ->
  Forall (fun x => 0 <= x < 2 ^ minCodeSize s) (m_data e) ->
  1 <= size_ (m_data e) < 4294967296 ->
  1 <= alignment s ->
  maxDictionary s = 0 \/ 4095 < maxDictionary s ->
  restarts <> [] ->
  blocksFrom (alignment s) (maxTokens s) (size_ (m_data e)) 0 restarts = true
  \/ blocksFrom (alignment s) (maxTokens s) (size_ (m_data e)) 0
                (restarts ++ [size_ (m_data e)]) = true ->
  exists bits e',
    merge e restarts s = Ok (bits, e')
    /\ (8 * size_ (Container.gifFrameData bits ++ [59]) < 4294967296 ->
        isPowerOfTwo (m_dictSize e') = false
        \/ Z.of_nat (length bits) mod 8 <> 0 ->
        Driver.readBackFrame bits (minCodeSize s) = Ok (m_data e)).
Proof.
  intros Hgif Hlen Hdict Hmin Hdata Hsize Halign HmaxD Hne Hblocks.
  destruct (merge_cases e s restarts Hgif Hlen Hdict Hmin Hdata Hsize Halign
              HmaxD Hne Hblocks) as (bits & e' & Hm & Hrt).
  exists bits, e'. split; [exact Hm|].
  intros Hfile Hpow. exact (proj1 (Hrt Hfile) Hpow).
Qed.

(** The pixels 0,1,0,1,0,1 with code size 2 and the default settings,
    cut into the blocks 0,1,0 and 1,0,1 by the restarts 0 and 3. *)
Lemma merge_round_trip_witness :
  exists bits e',
    merge (new [0; 1; 0; 1; 0; 1] true) [0; 3] (gifSettings 2) = Ok (bits, e')
    /\ Driver.readBackFrame bits 2 = Ok [0; 1; 0; 1; 0; 1].
Proof.
  destruct (merge_round_trip (new [0; 1; 0; 1; 0; 1] true) (gifSettings 2)
              [0; 3])
    as (bits & e' & Hm & Hrt).
  - reflexivity.
  - reflexivity.
  - reflexivity.
  - cbn. lia.
  - repeat constructor; cbn; lia.
  - vm_compute. split; [discriminate | reflexivity].
  - cbn. lia.
  - left. reflexivity.
  - discriminate.
  - right. vm_compute. reflexivity.
  - exists bits, e'. split; [exact Hm|].
    vm_compute in Hm. apply Ok_inj in Hm. injection Hm as <- <-.
    apply Hrt; [vm_compute; reflexivity | right; vm_compute; discriminate].
Defined.

(** X26 -- A GIF frame written by [merge] does not come back when the
    final [m_dictSize] is a power of two and the bits fill their last
    byte: the end-of-stream code is written with the width of
    [m_dictSize - 1], the decoder, whose table has [m_dictSize]
    entries by then, asks for one bit more, finds the empty block
    instead and throws "too few bits available in unlzw". *)
Theorem merge_fails_on_full_byte (e : Encoder) (s : OptimizationSettings)
        (restarts : list Z) :
  m_isGif e = true -> m_maxCodeLength e = 12 -> m_maxDictionary e = 4095 ->
  2 <= minCodeSize s <= 8 ->
  Forall (fun x => 0 <= x < 2 ^ minCodeSize s) (m_data e) ->
  1 <= size_ (m_data e) < 4294967296 ->
  1 <= alignment s ->
  maxDictionary s = 0 \/ 4095 < maxDictionary s ->
  restarts <> [] ->
  blocksFrom (alignment s) (maxTokens s) (size_ (m_data e)) 0 restarts = true
  \/ blocksFrom (alignment s) (maxTokens s) (size_ (m_data e)) 0
                (restarts ++ [size_ (m_data e)]) = true ->
  exists bits e',
    merge e restarts s = Ok (bits, e')
    /\ (8 * size_ (Container.gifFrameData bits ++ [59]) < 4294967296 ->
        isPowerOfTwo (m_dictSize e') = true ->
        Z.of_nat (length bits) mod 8 = 0 ->
        Driver.readBackFrame bits (minCodeSize s)
        = Err "too few bits available in unlzw").
Proof.
  intros Hgif Hlen Hdict Hmin Hdata Hsize Halign HmaxD Hne Hblocks.
  destruct (merge_cases e s restarts Hgif Hlen Hdict Hmin Hdata Hsize Halign
              HmaxD Hne Hblocks) as (bits & e' & Hm & Hrt).
  exists bits, e'. split; [exact Hm|].
  intros Hfile Hpow Hfull. exact (proj2 (Hrt Hfile) Hpow Hfull).
Qed.

(** The fifteen pixels 0,0,0,0,0,0,1,1,2,2,3,3,0,2,0 with code size 2
    and a restart after each of the first four: [m_dictSize] ends at
    16 and the stream has 72 bits. *)
Lemma merge_fails_on_full_byte_witness :
  exists bits e',
    merge (new [0; 0; 0; 0; 0; 0; 1; 1; 2; 2; 3; 3; 0; 2; 0] true) [1; 2; 3; 4]
          (gifSettings 2)
    = Ok (bits, e')
    /\ m_dictSize e' = 16 /\ Z.of_nat (length bits) = 72
    /\ Driver.readBackFrame bits 2 = Err "too few bits available in unlzw".
Proof.
  destruct (merge_fails_on_full_byte
              (new [0; 0; 0; 0; 0; 0; 1; 1; 2; 2; 3; 3; 0; 2; 0] true)
              (gifSettings 2) [1; 2; 3; 4])
    as (bits & e' & Hm & Hrt).
  - reflexivity.
  - reflexivity.
  - reflexivity.
  - cbn. lia.
  - repeat constructor; cbn; lia.
  - vm_compute. split; [discriminate | reflexivity].
  - cbn. lia.
  - left. reflexivity.
  - discriminate.
  - right. vm_compute. reflexivity.
  - exists bits, e'. split; [exact Hm|].
    vm_compute in Hm. apply Ok_inj in Hm. injection Hm as <- <-.
    split; [reflexivity|]. split; [reflexivity|].
    apply Hrt; vm_compute; reflexivity.
Defined.

End MergeRoundTrip.


(** ** A recompressed GIF frame through the file and back *)

Module FrameRoundTrip.

Import LzwDecoder LzwEncoder Statements Values EncoderInvariant.
Import Restarts.
Import TrieProps EncoderLoopProps RestartProps TableFitProps MergeRoundTrip.

Lemma sameKind_refl e : sameKind e e.
Proof. unfold sameKind. auto. Qed.

Lemma sameKind_trans a b c : sameKind a b -> sameKind b c -> sameKind a c.
Proof. unfold sameKind. intros (? & ? & ?) (? & ? & ?). repeat split; congruence. Qed.

Lemma emitToken_kind s from len emit i st st' :
  emitToken s from len emit i st = Some st' ->
  sameKind (l_enc st) (l_enc st').
Proof.
  unfold emitToken. cbv zeta. intros H.
  destruct ((0 <? maxDictionary s) && _); [discriminate H|].
  destruct ((0 <? maxTokens s) && _); [discriminate H|].
  destruct (chooseMatch _ _ _ _) as [ml ng].
  pose proof (addCode_fields (l_enc st) i ml) as Hf. cbv zeta in Hf.
  destruct (addCode (l_enc st) i ml) as [code e'].
  injection H as <-. loop_fields. cbn [snd] in Hf. unfold sameKind. tauto.
Qed.

Lemma iteration_kind s from len emit fa i st st' :
  iteration s from len emit fa i st = Some st' ->
  sameKind (l_enc st) (l_enc st').
Proof.
  unfold iteration. intros H.
  destruct (l_matchLength st =? 0).
  - destruct (emitToken s from len emit i st) as [st1|] eqn:He;
      [|discriminate H].
    cbn in H. injection H as <-. apply emitToken_kind in He.
    unfold sameKind in *. loop_fields. exact He.
  - cbn in H. injection H as <-. unfold sameKind. loop_fields. auto.
Qed.

Lemma processInput_kind s from len emit fa n : forall i st,
  sameKind (l_enc st) (l_enc (processInput s from len emit fa n i st)).
Proof.
  induction n as [|n IH]; intros i st; cbn [processInput].
  - apply sameKind_refl.
  - destruct (iteration s from len emit fa i st) as [st1|] eqn:Hit.
    + apply iteration_kind in Hit.
      eapply sameKind_trans; [exact Hit | apply IH].
    + apply sameKind_refl.
Qed.

Lemma runBlock_kind e s from len emit :
  sameKind e (l_enc (runBlock e s from len emit)).
Proof.
  unfold runBlock. cbv zeta.
  apply (sameKind_trans e (l_enc (initLoop e s))); [|apply processInput_kind].
  unfold sameKind, initLoop. cbv zeta. loop_fields. auto.
Qed.

(** A call of [optimizePartial] leaves the kind of the encoder and
    its limits as they are. *)
Lemma optimizePartial_kind e from maxLength emit isFinal s bits e' :
  optimizePartial e from maxLength emit isFinal s = Ok (bits, e') ->
  sameKind e e'.
Proof.
  unfold optimizePartial. intros H.
  destruct (allocateBest e s) as [e1|] eqn:Halloc; [|discriminate H].
  cbn [mbind outcome_bind rbind] in H. cbv zeta in H.
  assert (H1 : sameKind e e1).
  { unfold allocateBest in Halloc. destruct (m_best e).
    - destruct (alignment s =? 0); [discriminate Halloc|].
      apply Ok_inj in Halloc. subst e1. unfold sameKind. cbn. auto.
    - apply Ok_inj in Halloc. subst e1. apply sameKind_refl. }
  destruct (negb _); [discriminate H|].
  match type of H with
  | (if ?c then _ else _) = _ => destruct c
  end.
  { apply Ok_inj in H. injection H as _ <-. exact H1. }
  destruct (u32 _ =? 0); [discriminate H|].
  apply (sameKind_trans e e1); [exact H1|].
  destruct emit.
  - destruct (endOfBlock _ _ _ _ _ _) as [b|]; [|discriminate H].
    cbn [mbind outcome_bind rbind] in H.
    apply Ok_inj in H. injection H as _ <-. apply runBlock_kind.
  - apply Ok_inj in H. injection H as _ <-. apply runBlock_kind.
Qed.

Lemma estimateCosts_kind s smartGreedy n : forall e e1,
  Driver.estimateCosts e s smartGreedy n = Ok e1 -> sameKind e e1.
Proof.
  induction n as [|n IH]; intros e e1 H; cbn [Driver.estimateCosts] in H.
  - apply Ok_inj in H. subst e1. apply sameKind_refl.
  - destruct (match negb (Z.of_nat n mod alignment s =? 0) with
              | true => Ok e
              | false => _
              end) as [e2|] eqn:Hstep; [|discriminate H].
    cbn [mbind outcome_bind rbind] in H.
    apply (sameKind_trans e e2); [|now apply IH].
    destruct (negb _).
    + apply Ok_inj in Hstep. subst e2. apply sameKind_refl.
    + destruct (optimizePartial e (Z.of_nat n) 0 false true s)
        as [[bits1 ea]|] eqn:Hop1; [|discriminate Hstep].
      cbn [mbind outcome_bind rbind] in Hstep.
      apply optimizePartial_kind in Hop1.
      destruct (smartGreedy && negb (greedy s)).
      * destruct (optimizePartial ea (Z.of_nat n) 0 false true
                    (setGreedy s true)) as [[bits2 eb]|] eqn:Hop2;
          [|discriminate Hstep].
        cbn [mbind outcome_bind rbind] in Hstep.
        apply Ok_inj in Hstep. subst e2.
        apply optimizePartial_kind in Hop2.
        eapply sameKind_trans; eassumption.
      * apply Ok_inj in Hstep. subst e2. exact Hop1.
Qed.

(** Restarts that increase up to the end of the data cut it into
    blocks, when neither the alignment nor the token limit is in the
    way. *)
Lemma increasing_blocksFrom mt N rs : forall pos,
  0 <= pos -> increasingFrom pos rs ->
  Forall (fun r => r <= N) rs -> rs <> [] -> List.last rs 0 = N ->
  mt = 0 \/ N <= mt ->
  blocksFrom 1 mt N pos rs = true.
Proof.
  induction rs as [|r rs IH]; intros pos Hpos Hinc Hall Hne Hlast Hmt;
    [contradiction|].
  destruct Hinc as (Hlt & Hinc). apply Forall_cons_1 in Hall as (HrN & Hall').
  cbn [blocksFrom].
  destruct (Z.eqb_spec r 0); [lia|].
  rewrite Z.mod_1_r.
  destruct (Z.ltb_spec pos r); [|lia]. cbn [Z.eqb andb].
  assert (Htok : (mt =? 0) || (r - pos <=? mt) = true).
  { apply orb_true_iff. destruct Hmt; [left; now apply Z.eqb_eq|].
    right. apply Z.leb_le. lia. }
  rewrite Htok. cbn [andb].
  destruct rs as [|r' rs'].
  - cbn [List.last] in Hlast. cbn [blocksFrom]. now apply Z.eqb_eq.
  - apply IH; try assumption; [lia | discriminate].
Qed.

(** The restarts that [optimize] finds after the cost estimation of
    [main] with alignment 1. *)
Lemma estimated_restarts e s smartGreedy e1 rs :
  alignment s = 1 ->
  1 <= size_ (m_data e) < 2147483648 ->
  m_best e = [] ->
  Driver.estimateCosts e s smartGreedy (length (m_data e)) = Ok e1 ->
  findRestarts e1 s (length (m_data e1)) 0 0 [] = Ok rs ->
  m_data e1 = m_data e /\ sameKind e e1
  /\ increasingFrom 0 rs /\ Forall (fun r => r <= size_ (m_data e)) rs
  /\ rs <> [] /\ List.last rs 0 = size_ (m_data e).
Proof.
  intros Ha Hsize Hbest Hest Hfr.
  pose proof (estimateCosts_kind _ _ _ _ _ Hest) as Hkind.
  assert (Hfit : tableFits 1 (size_ (m_data e)) (m_best e)).
  { rewrite Hbest. intros j b Hl. rewrite lookup_nil in Hl. discriminate Hl. }
  apply estimateCosts_fits in Hest as (Hfit1 & Hd1);
    rewrite ?Ha; try assumption; try lia; try (unfold size_; lia).
  rewrite Ha, Hd1 in Hfit1. split; [exact Hd1|]. split; [exact Hkind|].
  pose proof (findRestarts_steps e1 s (length (m_data e1)) 0 0 []) as Hsteps.
  pose proof (findRestarts_inside e1 s (length (m_data e1)) 0 0 []) as Hin.
  rewrite Hfr in Hsteps, Hin. rewrite Hd1 in Hsteps, Hin.
  assert (Hs31 : size_ (m_data e) < 2147483648) by lia.
  specialize (Hsteps Hs31 (tableFits_lengths _ _ Hs31 Hfit1)
                     ltac:(lia) ltac:(unfold size_; lia)).
  specialize (Hin Ha Hfit1 ltac:(lia) eq_refl ltac:(lia) ltac:(constructor)).
  destruct Hsteps as (new & -> & Hinc & Hlast & _). cbn [app] in *.
  split; [exact Hinc|]. split; [exact Hin|].
  destruct new as [|r new]; [cbn in Hlast; lia|].
  split; [discriminate|].
  pose proof (increasing_last 0 (r :: new) Hinc ltac:(discriminate)) as Hl.
  rewrite Forall_forall in Hin.
  specialize (Hin _ (proj2 (list_elem_of_In _ _) Hl)). lia.
Qed.

(** X29 -- A GIF frame that [main] recompresses comes back.  With
    alignment 1, a dictionary limit that does not end a block and a
    token limit of at least the number of pixels (the defaults, for a
    frame of up to 20000 pixels), whatever the greedy settings: when
    the cost estimation and [optimize] succeed, the bits that
    [optimize] returns, framed by [GifImage::writeOptimized] and read
    by [LzwDecoder], give the pixels whenever the bits do not fill
    their last byte; and when they do, the decoder either gives the
    pixels or throws "too few bits available in unlzw". *)
Theorem recompressed_frame_reads_back (pixels : list Z) (codeSize : Z)
        (s : OptimizationSettings) (smartGreedy : bool) (bits : list bool) :
  2 <= codeSize <= 8 ->
  Forall (fun x => 0 <= x < 2 ^ codeSize) pixels ->
  1 <= size_ pixels < 2147483648 ->
  alignment s = 1 ->
  maxDictionary s = 0 \/ 4095 < maxDictionary s ->
  maxTokens s = 0 \/ size_ pixels <= maxTokens s ->
  Driver.recompressFrame pixels codeSize s smartGreedy = Ok bits ->
  8 * size_ (Container.gifFrameData bits ++ [59]) < 4294967296 ->
  (Z.of_nat (length bits) mod 8 <> 0 ->
   Driver.readBackFrame bits codeSize = Ok pixels)
  /\ (Driver.readBackFrame bits codeSize = Ok pixels
      \/ Driver.readBackFrame bits codeSize
         = Err "too few bits available in unlzw").
Proof.
  intros Hmin Hdata Hsize Ha HmaxD HmaxT Hrun Hfile.
  unfold Driver.recompressFrame in Hrun. cbv zeta in Hrun.
  set (e := new pixels true) in *.
  set (s' := mkSettings codeSize (startWithClearCode s) (verbose s) (greedy s)
                        (minNonGreedyMatch s) (minImprovement s)
                        (maxDictionary s) (maxTokens s) (splitRuns s)
                        (alignment s) (readOnlyBest s)
                        (avoidNonGreedyAgain s)) in *.
  destruct (Driver.estimateCosts e s' smartGreedy (length pixels))
    as [e1|] eqn:Hest; [|discriminate Hrun].
  cbn [mbind outcome_bind rbind] in Hrun.
  destruct (optimize e1 s') as [[bits0 e']|] eqn:Hopt; [|discriminate Hrun].
  cbn [mbind outcome_bind rbind] in Hrun.
  apply Ok_inj in Hrun. subst bits0.
  unfold optimize in Hopt.
  destruct (findRestarts e1 s' (length (m_data e1)) 0 0 []) as [rs|] eqn:Hfr;
    [|discriminate Hopt].
  cbn [mbind outcome_bind rbind] in Hopt.
  destruct (estimated_restarts e s' smartGreedy e1 rs Ha Hsize eq_refl Hest Hfr)
    as (Hd1 & (Hg1 & Hl1 & Hm1) & Hinc & Hall & Hne & Hlast).
  change (m_data e) with pixels in *.
  change (m_isGif e) with true in Hg1.
  change (m_maxCodeLength e) with 12 in Hl1.
  change (m_maxDictionary e) with 4095 in Hm1.
  destruct (merge_cases e1 s' rs Hg1 Hl1 Hm1 Hmin
              ltac:(rewrite Hd1; exact Hdata) ltac:(rewrite Hd1; lia)
              ltac:(change (alignment s') with (alignment s); lia) HmaxD Hne)
    as (bits' & e'' & Hm & Hrt).
  { left. rewrite Hd1. change (alignment s') with (alignment s). rewrite Ha.
    apply increasing_blocksFrom; try assumption; lia. }
  rewrite Hopt in Hm. apply Ok_inj in Hm. injection Hm as <- <-.
  change (minCodeSize s') with codeSize in Hrt. rewrite Hd1 in Hrt.
  destruct (Hrt Hfile) as (Hok & Hbad).
  split.
  - intros Hfull. apply Hok. now right.
  - destruct (isPowerOfTwo (m_dictSize e')) eqn:Hpow.
    + destruct (Z.eq_dec (Z.of_nat (length bits) mod 8) 0) as [H0|H0].
      * right. now apply Hbad.
      * left. apply Hok. now right.
    + left. apply Hok. now left.
Qed.

(** The pixels 0,1,0,1,0,1 with code size 2 and the default
    settings: 20 bits. *)
Lemma recompressed_frame_reads_back_witness :
  exists bits,
    Driver.recompressFrame [0; 1; 0; 1; 0; 1] 2 Driver.defaultSettings false
    = Ok bits
    /\ Driver.readBackFrame bits 2 = Ok [0; 1; 0; 1; 0; 1].
Proof.
  destruct (Driver.recompressFrame [0; 1; 0; 1; 0; 1] 2
              Driver.defaultSettings false) as [bits|] eqn:E;
    [|vm_compute in E; discriminate E].
  exists bits. split; [reflexivity|].
  pose proof E as E'. vm_compute in E'. apply Ok_inj in E'.
  apply (recompressed_frame_reads_back [0; 1; 0; 1; 0; 1] 2
           Driver.defaultSettings false bits).
  - lia.
  - repeat constructor; lia.
  - vm_compute. split; [discriminate | reflexivity].
  - reflexivity.
  - left. reflexivity.
  - right. vm_compute. discriminate.
  - exact E.
  - subst bits. vm_compute. reflexivity.
  - subst bits. vm_compute. discriminate.
Defined.

End FrameRoundTrip.


(** ** A .Z file of one block through the file and back *)

Module ZRoundTrip.

Import LzwDecoder LzwEncoder Statements Values EncoderInvariant.
Import LzwStrings LzwParse Synchrony ParseSync Restarts ZSynchrony.
Import BitOutputProps BlockProps TrieProps EncoderLoopProps EncoderParseProps.
Import MergeRoundTrip ZDecoderStepProps.

(** The main loop of [optimizePartial] over a .Z body that is one
    block keeps encoder and decoder together. *)
Lemma z_runBlock_sync e0 s :
  m_isGif e0 = false -> m_maxCodeLength e0 = 16 ->
  m_maxDictionary e0 = 65535 -> minCodeSize s = 8 ->
  Forall (fun x => 0 <= x < 256) (m_data e0) ->
  1 <= size_ (m_data e0) < 4294967296 ->
  maxDictionary s = 0 \/ 65535 < maxDictionary s ->
  maxTokens s = 0 \/ size_ (m_data e0) <= maxTokens s ->
  syncInv consumedZ 1 16 e0 s 0 (size_ (m_data e0)) []
          (0 + size_ (m_data e0))
          (runBlock e0 s 0 (size_ (m_data e0)) true).
Proof.
  intros Hgif Hlen Hdict Hk Hdata Hsize HmaxD HmaxT.
  apply (runBlock_sync e0 s 0 (size_ (m_data e0)) false 16 Hgif Hlen Hdict
           ltac:(lia) ltac:(lia) ltac:(intros _; exact Hk)
           ltac:(rewrite Hk; exact Hdata) Hsize HmaxD ltac:(lia) ltac:(lia)
           ltac:(lia) HmaxT consumedZ) with (n0 := 0%nat)
                                            (L0 := initialLut pZ false).
  - rewrite Hk. exact consumedZ_step.
  - cbn [length]. lia.
  - rewrite Hk. exact wfLut_initialLutZ.
  - rewrite Hk. reflexivity.
  - rewrite Hk. intros code Hcode. cbn [app Z.to_nat take].
    now apply consumedZ_first.
Qed.

(** A .Z body that [merge] writes as one block, read by the
    decoder. *)
Lemma z_single_block (e : Encoder) (s : OptimizationSettings) :
  m_isGif e = false -> m_maxCodeLength e = 16 -> m_maxDictionary e = 65535 ->
  minCodeSize s = 8 ->
  Forall (fun x => 0 <= x < 256) (m_data e) ->
  1 <= size_ (m_data e) < 4294967296 ->
  1 <= alignment s ->
  maxDictionary s = 0 \/ 65535 < maxDictionary s ->
  maxTokens s = 0 \/ size_ (m_data e) <= maxTokens s ->
  exists st,
    merge e [size_ (m_data e)] s
    = Ok (l_result st ++ zeros (padding (bitLength (l_result st))), l_enc st)
    /\ l_result st <> []
    /\ (bitLength (l_result st) + 8 <= 4294967296 ->
        Driver.readBackZ
          (l_result st ++ zeros (padding (bitLength (l_result st)))) 16
        = Ok (m_data e)).
Proof.
  intros Hgif Hlen Hdict Hk Hdata Hsize Halign HmaxD HmaxT.
  set (N := size_ (m_data e)) in *.
  destruct (merge_settings e s 0 Halign) as (s1 & Hs1 & Hk2 & Ha2 & Hd2 & Ht2).
  cbv zeta in Hs1.
  set (s2 := setReadOnlyBest s1 true) in *.
  destruct (optimizePartial_block e s2 0 N true ltac:(lia) ltac:(fold N; lia)
              ltac:(lia) ltac:(apply Z.mod_0_l; lia))
    as (e1 & Hdata1 & Hgif1 & Hlen1 & Hdict1 & Hopt).
  rewrite Z.sub_0_r in Hopt. cbv zeta in Hopt.
  set (st := runBlock e1 s2 0 N true) in *.
  pose proof (z_runBlock_sync e1 s2 ltac:(congruence) ltac:(congruence)
                ltac:(congruence) ltac:(congruence)
                ltac:(rewrite Hdata1; exact Hdata)
                ltac:(rewrite Hdata1; exact Hsize)
                ltac:(rewrite Hd2; exact HmaxD)
                ltac:(rewrite Hdata1, Ht2; exact HmaxT)) as Hsync.
  rewrite Hdata1 in Hsync. fold N st in Hsync.
  destruct (block_end consumedZ 1 16 e1 s2 0 N [] st ltac:(congruence)
              ltac:(lia) Hsync)
    as (Hinv & Hres & n & L & tok & Hn & Hcon & Hwf & Htok & Hroom & Hcsb
        & Hwidth & _).
  cbn [app] in Hn, Hcon. rewrite Z.add_0_l in Hcon, Hinv.
  assert (Htake : take (Z.to_nat N) (m_data e1) = m_data e).
  { rewrite Hdata1. apply take_ge. unfold N, size_. lia. }
  rewrite Htake in Hcon.
  assert (Hcs9 : 9 <= l_codeSize st).
  { destruct Hinv as [_ _ _ _ _ _ _ _ Hz9 _ _]. apply Hz9. congruence. }
  assert (Hend : endOfBlock (l_enc st) (u32 (Z.shiftl 1 (minCodeSize s2)))
                   (u32 (u32 (Z.shiftl 1 (minCodeSize s2)) + 1)) true
                   (l_numTokens st) (l_result st)
                 = Ok (l_result st ++ zeros (padding (bitLength (l_result st))))).
  { unfold endOfBlock. cbv zeta.
    destruct Hinv as [_ Hg _ _ _ _ _ _ _ _ _]. rewrite Hg, Hgif1, Hgif.
    rewrite fillByte_8. reflexivity. }
  rewrite Hend in Hopt. cbn [mbind outcome_bind rbind] in Hopt.
  exists st. split; [|split; [exact Hres|]].
  - unfold merge. rewrite Hgif, andb_false_r. fold N.
    change (List.last [N] 0) with N. rewrite Z.ltb_irrefl.
    cbn [mergeLoop length].
    destruct (Z.eqb_spec N 0); [lia|].
    rewrite Hs1. cbn [mbind outcome_bind rbind].
    change (Z.of_nat 1 - 1) with 0. cbn [Z.eqb].
    rewrite Z.sub_0_r, (u32_small N) by lia.
    fold s2. rewrite Hopt. cbn [mbind outcome_bind rbind].
    destruct (l_result st) as [|b0 r0] eqn:Hr; [contradiction|].
    cbn [app andb]. reflexivity.
  - intros Hbits. unfold Driver.readBackZ.
    pose proof (padding_range (bitLength (l_result st))) as Hpad.
    assert (Hlz : Z.of_nat (length (zeros (padding (bitLength (l_result st)))))
                  = padding (bitLength (l_result st)))
      by (unfold zeros; rewrite repeat_length; lia).
    destruct (consumedZ_decompress n (l_result st) L (l_codeSize st) tok
                (m_data e) (zeros (padding (bitLength (l_result st))))
                Hcon ltac:(lia)
                ltac:(rewrite Hk2, Hk in Htok; exact Htok)
                Hroom Hn ltac:(lia))
      as (d & Hdec & Hbytes).
    + rewrite length_app, Nat2Z.inj_add, Hlz. unfold padding, bitLength.
      pose proof (Z.mod_pos_bound (Z.of_nat (length (l_result st))) 8
                    ltac:(lia)) as Hm.
      rewrite <- Zplus_mod_idemp_l.
      assert (Hcases : forall r, 0 <= r < 8 -> (r + (8 - r) mod 8) mod 8 = 0).
      { intros r Hr.
        assert (Hc : r = 0 \/ r = 1 \/ r = 2 \/ r = 3 \/ r = 4 \/ r = 5
                     \/ r = 6 \/ r = 7) by lia.
        destruct Hc as [->|[->|[->|[->|[->|[->|[->| ->]]]]]]]; reflexivity. }
      apply Hcases. exact Hm.
    + rewrite length_app, Nat2Z.inj_add, Hlz. unfold bitLength in *. lia.
    + rewrite Hdec. cbn [mbind outcome_bind rbind]. now rewrite Hbytes.
Qed.

(** X30 -- A .Z file that is written as one block comes back.  For an
    encoder as [main] sets it up for a .Z file (code sizes 9 to 16,
    dictionary of 65535 codes) over any bytes, and settings whose
    limits do not end the block, greedy or not, [merge] with the one
    restart at the end of the data succeeds; its bits fill whole
    bytes; and when they are written by [Compress::writeOptimized]
    and read by [LzwDecoder], which has no end-of-stream code to stop
    at and stops when fewer bits are left than a code has, the result
    is the bytes. *)
Theorem z_file_round_trip (e : Encoder) (s : OptimizationSettings) :
  m_isGif e = false -> m_maxCodeLength e = 16 -> m_maxDictionary e = 65535 ->
  minCodeSize s = 8 ->
  Forall (fun x => 0 <= x < 256) (m_data e) ->
  1 <= size_ (m_data e) < 4294967296 ->
  1 <= alignment s ->
  maxDictionary s = 0 \/ 65535 < maxDictionary s ->
  maxTokens s = 0 \/ size_ (m_data e) <= maxTokens s ->
  exists bits e',
    merge e [size_ (m_data e)] s = Ok (bits, e')
    /\ bits <> [] /\ bitLength bits mod 8 = 0
    /\ (bitLength bits < 4294967296 ->
        Driver.readBackZ bits 16 = Ok (m_data e)).
Proof.
  intros Hgif Hlen Hdict Hk Hdata Hsize Halign HmaxD HmaxT.
  destruct (z_single_block e s Hgif Hlen Hdict Hk Hdata Hsize Halign HmaxD
              HmaxT) as (st & Hm & Hres & Hrt).
  pose proof (padding_range (bitLength (l_result st))) as Hpad.
  assert (Hlz : Z.of_nat (length (zeros (padding (bitLength (l_result st)))))
                = padding (bitLength (l_result st)))
    by (unfold zeros; rewrite repeat_length; lia).
  assert (Hlen' : bitLength (l_result st
                             ++ zeros (padding (bitLength (l_result st))))
                  = bitLength (l_result st)
                    + padding (bitLength (l_result st))).
  { unfold bitLength at 1. rewrite length_app, Nat2Z.inj_add, Hlz.
    reflexivity. }
  assert (Hfull : (bitLength (l_result st)
                   + padding (bitLength (l_result st))) mod 8 = 0).
  { unfold padding.
    pose proof (Z.mod_pos_bound (bitLength (l_result st)) 8 ltac:(lia)) as Hm8.
    rewrite <- Zplus_mod_idemp_l.
    assert (Hc : bitLength (l_result st) mod 8 = 0
                 \/ bitLength (l_result st) mod 8 = 1
                 \/ bitLength (l_result st) mod 8 = 2
                 \/ bitLength (l_result st) mod 8 = 3
                 \/ bitLength (l_result st) mod 8 = 4
                 \/ bitLength (l_result st) mod 8 = 5
                 \/ bitLength (l_result st) mod 8 = 6
                 \/ bitLength (l_result st) mod 8 = 7) by lia.
    destruct Hc as [H|[H|[H|[H|[H|[H|[H|H]]]]]]]; rewrite H; reflexivity. }
  eexists _, _. split; [exact Hm|].
  split.
  { intros Hnil. apply app_eq_nil in Hnil as [Hnil _]. contradiction. }
  split; [rewrite Hlen'; exact Hfull|].
  intros Hbits. apply Hrt. rewrite Hlen' in Hbits.
  pose proof (Z.div_mod (bitLength (l_result st)
                         + padding (bitLength (l_result st))) 8 ltac:(lia)).
  lia.
Qed.

(** The bytes "ABABAB" with the default settings. *)
Lemma z_file_round_trip_witness :
  exists bits e',
    merge (new [65; 66; 65; 66; 65; 66] false) [6] (gifSettings 8)
    = Ok (bits, e')
    /\ Driver.readBackZ bits 16 = Ok [65; 66; 65; 66; 65; 66].
Proof.
  destruct (z_file_round_trip (new [65; 66; 65; 66; 65; 66] false)
              (gifSettings 8))
    as (bits & e' & Hm & _ & _ & Hrt).
  - reflexivity.
  - reflexivity.
  - reflexivity.
  - reflexivity.
  - repeat constructor; cbn; lia.
  - vm_compute. split; [discriminate | reflexivity].
  - cbn. lia.
  - left. reflexivity.
  - right. vm_compute. discriminate.
  - exists bits, e'. split; [exact Hm|].
    change (size_ (m_data (new [65; 66; 65; 66; 65; 66] false))) with 6 in Hm.
    vm_compute in Hm. apply Ok_inj in Hm. injection Hm as <- <-.
    apply Hrt. vm_compute. reflexivity.
Defined.

End ZRoundTrip.

(** ** The segments of a .Z stream *)

Module CompressStreamProps.
Import LzwEncoder Statements CompressStream TrieProps BlockProps
       EncoderLoopProps BestTableProps.

Lemma gapOf_range n : 0 <= gapOf n < 8.
Proof. unfold gapOf. apply Z.mod_pos_bound. lia. Qed.

Lemma gapOf_fills n : (n + 1 + gapOf n) mod 8 = 0.
Proof.
  unfold gapOf.
  pose proof (Z.mod_pos_bound (n + 1) 8 ltac:(lia)) as Hb.
  rewrite <- Z.add_mod_idemp_l by lia.
  destruct (Z.eq_dec ((n + 1) mod 8) 0) as [H0|Hn0].
  - rewrite H0. reflexivity.
  - rewrite (Z.mod_small (8 - (n + 1) mod 8)) by lia.
    replace ((n + 1) mod 8 + (8 - (n + 1) mod 8)) with 8 by lia. reflexivity.
Qed.

(** One emitting call for a .Z segment returns the closed segment of
    its run. *)
Lemma optimizePartial_closedSegment e from maxLength isFinal s bits e' :
  m_isGif e = false ->
  optimizePartial e from maxLength true isFinal s = Ok (bits, e') ->
  exists st,
    blockRun e from maxLength s = Ok st
    /\ e' = l_enc st
    /\ (isFinal = false -> getMinBits (u32 (m_dictSize (l_enc st) - 1)) = 16)
    /\ bits = closedSegment (u32 (Z.shiftl 1 (minCodeSize s))) isFinal st.
Proof.
  intros Hz H.
  apply optimizePartial_blockRun in H as (st & Hrun & He' & Hgif & Hend).
  exists st. split; [exact Hrun|]. split; [exact He'|].
  unfold endOfBlock in Hend. rewrite Hgif, Hz in Hend.
  unfold closedSegment.
  destruct isFinal; cbv zeta iota in Hend |- *.
  - rewrite fillByte_8 in Hend. split; [discriminate|]. now inversion Hend.
  - destruct (Z.eqb_spec (getMinBits (u32 (m_dictSize (l_enc st) - 1))) 16)
      as [H16|Hne].
    2:{ change (negb false) with true in Hend. discriminate Hend. }
    split; [intros _; exact H16|].
    rewrite H16 in Hend. change (negb true) with false in Hend.
    cbv iota in Hend.
    set (mod8 := Z.land (u32 (l_numTokens st + 1)) 7) in *.
    assert (Hmod : mod8 = (l_numTokens st + 1) mod 8).
    { unfold mod8. now rewrite land7_mod8, u32_mod8. }
    pose proof (Z.mod_pos_bound (l_numTokens st + 1) 8 ltac:(lia)) as Hb.
    assert (Hgap : (if mod8 =? 0 then 0 else 8 - mod8) = gapOf (l_numTokens st)).
    { unfold gapOf. rewrite <- Hmod.
      destruct (Z.eqb_spec mod8 0) as [H0|Hn0]; [rewrite H0; reflexivity|].
      rewrite Z.mod_small by lia. reflexivity. }
    rewrite Hgap in Hend.
    pose proof (gapOf_range (l_numTokens st)) as Hg.
    set (gap := gapOf (l_numTokens st)) in *.
    rewrite fillByte_8 in Hend. unfold pushZeros, add in Hend.
    apply Ok_inj in Hend. rewrite <- Hend.
    rewrite (u32_small (16 * gap)) by lia.
    replace (16 * gap / 8) with (2 * gap)
      by (apply (Z.div_unique (16 * gap) 8 (2 * gap) 0); lia).
    rewrite (u32_small (8 * (2 * gap))) by lia.
    replace (8 * (2 * gap)) with (16 * gap) by lia.
    change (Z.to_nat 16) with 16%nat.
    unfold bitLength. rewrite length_app, length_addBits.
    replace (Z.of_nat (length (l_result st) + 16))
      with (Z.of_nat (length (l_result st)) + 16) by lia.
    unfold zeros. now rewrite <- !app_assoc.
Qed.

Lemma optimizePartial_data e from maxLength isFinal s bits e' :
  optimizePartial e from maxLength true isFinal s = Ok (bits, e') ->
  m_data e' = m_data e /\ m_isGif e' = m_isGif e.
Proof.
  intros H.
  pose proof H as H2.
  apply optimizePartial_blockRun in H2 as (st & Hrun & -> & Hgif & _).
  split; [|exact Hgif].
  unfold blockRun in Hrun.
  destruct (allocateBest e s) as [e1|] eqn:Ha; [|discriminate Hrun].
  cbn in Hrun. apply Ok_inj in Hrun. subst st.
  destruct (runBlock_frame e1 (fixAlignment s) from
              (blockLength e1 from maxLength) true) as (_ & Hd).
  rewrite Hd. unfold allocateBest in Ha.
  destruct (m_best e).
  - destruct (alignment s =? 0); [discriminate Ha|].
    apply Ok_inj in Ha. now subst e1.
  - apply Ok_inj in Ha. now subst e1.
Qed.

Lemma mergeLoop_segments rest : forall e s count idx pos result bits e',
  m_isGif e = false ->
  mergeLoop e s count rest idx pos result = Ok (bits, e') ->
  exists runs,
    Forall2 (segmentRun e s count) (segmentsOf idx pos rest) runs
    /\ bits = result ++ streamOf (u32 (Z.shiftl 1 (minCodeSize s))) count
                                 (segmentsOf idx pos rest) runs.
Proof.
  induction rest as [|r rest IH]; intros e s count idx pos result bits e' Hz H.
  - cbn in H. apply Ok_inj in H. injection H as <- _.
    exists []. cbn. split; [constructor | now rewrite app_nil_r].
  - cbn [mergeLoop segmentsOf] in H |- *.
    destruct (r =? 0); [now apply IH in H|].
    cbv zeta in H.
    destruct (match m_best e with
              | [] => Ok s
              | _ => _
              end) as [s1|msg] eqn:Hs1; [|discriminate H].
    cbn [mbind outcome_bind rbind] in H.
    assert (Hmcs : minCodeSize (setReadOnlyBest s1 true) = minCodeSize s).
    { destruct (m_best e).
      - apply Ok_inj in Hs1. now subst s1.
      - destruct (alignment s =? 0); [discriminate Hs1|].
        apply Ok_inj in Hs1. subst s1.
        destruct (bb_nongreedy _ =? 0); reflexivity. }
    destruct (optimizePartial e pos (u32 (r - pos)) true (idx =? count - 1)
                (setReadOnlyBest s1 true)) as [[block e1]|msg] eqn:Hop;
      [|discriminate H].
    cbn [mbind outcome_bind rbind] in H.
    destruct ((match block with [] => true | _ => false end) && _);
      [discriminate H|].
    pose proof (optimizePartial_data _ _ _ _ _ _ _ Hop) as (Hd1 & Hg1).
    apply optimizePartial_closedSegment in Hop as (st & Hrun & _ & H16 & Hbits);
      [|exact Hz].
    apply IH in H as (runs & Hall & ->); [|congruence].
    exists (st :: runs). split.
    + constructor.
      * exists e, (setReadOnlyBest s1 true).
        split; [reflexivity|]. split; [reflexivity|].
        split; [exact Hmcs|]. split; [exact Hrun|].
        intros Hidx. apply H16. now apply Z.eqb_neq.
      * eapply Forall2_impl; [exact Hall|].
        intros [[i p] q] st' (ek & sk & Hdk & Hgk & Hmk & Hrk & Hk).
        exists ek, sk. repeat split; try congruence. exact Hk.
    + cbn [streamOf]. rewrite Hbits, Hmcs, <- !app_assoc. reflexivity.
Qed.

(** C4 (amended) -- For .Z output, the bit stream that [merge]
    returns is the concatenation of its segments, one for every
    restart that is not 0, each made by an emitting run of the main
    loop over the block of the segment.  A segment that does not
    belong to the last restart consists of the bits of its tokens
    followed by the clear code in 16 bits, zero bits up to the next
    byte boundary and [16 * gap] further zero bits, where
    [gap = (8 - (tokens + 1) mod 8) mod 8] completes the number of
    tokens including the clear code to a multiple of 8; its run ends
    with a dictionary whose codes take 16 bits.  The segment of the
    last restart consists of the bits of its tokens followed by zero
    bits up to the next byte boundary only -- neither a clear code nor
    gap bits. *)
Theorem merge_compress_segments (e : Encoder) (restarts : list Z)
        (s : OptimizationSettings) (bits : list bool) (e' : Encoder) :
  m_isGif e = false ->
  merge e restarts s = Ok (bits, e') ->
  let rs := mergeRestarts e restarts in
  let count := Z.of_nat (length rs) in
  let clear := u32 (Z.shiftl 1 (minCodeSize s)) in
  exists runs : list Loop,
    Forall2 (segmentRun e s count) (segmentsOf 0 0 rs) runs
    /\ bits = streamOf clear count (segmentsOf 0 0 rs) runs.
Proof.
  intros Hz H rs count clear. unfold merge in H. rewrite Hz in H.
  rewrite andb_false_r in H.
  destruct restarts as [|r0 rest0].
  - apply Ok_inj in H. injection H as <- _. exists []. split; constructor.
  - apply mergeLoop_segments in H as (runs & Hall & Hbits); [|exact Hz].
    exists runs. split; [exact Hall | exact Hbits].
Qed.


(** *** A block of single bytes *)

Lemma nextCodeSize_grows e cs :
  m_maxCodeLength e = 16 -> 1 <= cs <= 16 ->
  1 <= nextCodeSize e cs <= 16.
Proof.
  intros HL Hcs. unfold nextCodeSize. rewrite HL.
  destruct (m_dictSize e <? m_maxDictionary e); [|lia].
  destruct (isPowerOfTwo _); cbn [andb]; [|lia].
  destruct (Z.ltb_spec cs 16); [|lia].
  rewrite (u8_small (cs + 1)) by lia.
  destruct (negb (m_isGif e) && _); [|lia].
  rewrite u8_small by lia. lia.
Qed.

Lemma length_add_pos result code cs :
  1 <= cs -> add result code cs <> [].
Proof.
  intros Hcs. unfold add.
  destruct (Z.to_nat cs) as [|n] eqn:Hn; [lia|].
  cbn [addBits]. destruct result; discriminate.
Qed.

(** The windows of a block, by offset. *)
Lemma window_drop (data : list Z) from n k :
  0 <= from -> 0 <= k -> k + 1 < n -> from + k + 1 < size_ data ->
  exists tl,
    drop (Z.to_nat k) (take (Z.to_nat n) (drop (Z.to_nat from) data))
    = at_ data (from + k) :: at_ data (from + k + 1) :: tl.
Proof.
  intros Hf Hk Hn Hs.
  rewrite skipn_firstn_comm, drop_drop.
  replace (Z.to_nat from + Z.to_nat k)%nat with (Z.to_nat (from + k)) by lia.
  rewrite (at_drop data (from + k)) by lia.
  replace (S (Z.to_nat (from + k))) with (Z.to_nat (from + k + 1)) by lia.
  rewrite (at_drop data (from + k + 1)) by lia.
  replace (Z.to_nat n - Z.to_nat k)%nat with (S (S (Z.to_nat (n - k - 2))))
    by lia.
  cbn [take]. eexists. reflexivity.
Qed.

Section LiteralBlock.

Variables (e0 : Encoder) (s : OptimizationSettings) (from blen : Z)
          (emit : bool).

Hypothesis Hgif : m_isGif e0 = false.
Hypothesis HmaxD : m_maxDictionary e0 = 65535.
Hypothesis HmaxL : m_maxCodeLength e0 = 16.
Hypothesis Hmin : minCodeSize s = 8.
Hypothesis Hro : readOnlyBest s = true.
Hypothesis Hdict : maxDictionary s = 0.
Hypothesis Htok : maxTokens s = 0 \/ blen <= maxTokens s.
Hypothesis Hfrom : 0 <= from.
Hypothesis Hlen : 1 <= blen <= 65278.
Hypothesis Hend : from + blen <= size_ (m_data e0).
Hypothesis Hsize : size_ (m_data e0) < 4294967296.
Hypothesis Hfresh :
  freshPairs ∅ (take (Z.to_nat (blen + 1)) (drop (Z.to_nat from) (m_data e0)))
  = true.

Let blk := take (Z.to_nat (blen + 1)) (drop (Z.to_nat from) (m_data e0)).

(** The state before the iteration for index [i]: one token and one
    dictionary entry for every byte so far, and a trie that holds
    windows of the bytes so far only. *)
Let Inv (i : Z) (st : Loop) : Prop :=
  m_data (l_enc st) = m_data e0
  /\ m_best (l_enc st) = m_best e0
  /\ m_isGif (l_enc st) = false
  /\ m_maxDictionary (l_enc st) = 65535
  /\ m_maxCodeLength (l_enc st) = 16
  /\ l_matchLength st = 0
  /\ l_numTokens st = i - from
  /\ m_dictSize (l_enc st)
     = 257 + (i - from) - (if size_ (m_data e0) <=? i then 1 else 0)
  /\ 1 <= l_codeSize st <= 16
  /\ (emit = true -> from < i -> l_result st <> [])
  /\ (i < from + blen ->
      exists seen : gmap (Z * Z) unit,
        (forall c b, m_dictionary (l_enc st) !! (c, b) <> None ->
                     seen !! (c, b) <> None)
        /\ freshPairs seen (drop (Z.to_nat (i - from)) blk) = true).

Lemma literal_init : Inv from (initLoop e0 s).
Proof.
  unfold Inv, initLoop. rewrite Hgif, Hmin.
  cbn [l_enc l_matchLength l_numTokens l_codeSize l_result withDict
       m_data m_best m_isGif m_maxDictionary m_maxCodeLength m_dictSize
       m_dictionary].
  destruct (Z.leb_spec (size_ (m_data e0)) from); [lia|].
  repeat split; try assumption; try reflexivity; try (vm_compute; congruence).
  - lia.
  - change (u32 (u32 (Z.shiftl 1 8) + 1)) with 257. lia.
  - intros _ Hlt. lia.
  - intros _. exists ∅. split.
    + intros c b Hl. now rewrite lookup_empty in Hl.
    + replace (from - from) with 0 by lia. exact Hfresh.
Qed.

Lemma literal_step fa i st :
  from <= i < from + blen -> Inv i st ->
  exists st', iteration s from blen emit fa i st = Some st'
              /\ Inv (i + 1) st'.
Proof.
  intros Hi (Hd & Hb & Hg & HD & HL & Hml & Hnt & Hds & Hcs & Hres & Htrie).
  destruct (Z.leb_spec (size_ (m_data e0)) i) as [?|Hin]; [lia|].
  unfold iteration. rewrite Hml. change (0 =? 0) with true. cbv iota.
  unfold emitToken. cbv zeta.
  rewrite Hdict. change (0 <? 0) with false. cbn [andb].
  assert (Hlimit : (0 <? maxTokens s) && (maxTokens s <=? l_numTokens st)
                   = false).
  { destruct Htok as [->|Hle]; [reflexivity|].
    apply andb_false_iff. right. apply Z.leb_gt. lia. }
  rewrite Hlimit.
  set (remaining := u32 (blen + from - i)).
  assert (Hrem : remaining = blen + from - i)
    by (unfold remaining; apply u32_small; lia).
  (* the match is one byte long *)
  assert (Hfm : findMatch (l_enc st) i remaining = 1).
  { unfold findMatch. rewrite Hrem.
    destruct (Z.to_nat (blen + from - i - 1)) as [|n] eqn:Hn.
    - cbn [findMatchLoop]. lia.
    - cbn [findMatchLoop]. rewrite u32_small by lia.
      destruct Htrie as (seen & Hkeys & Hfr); [lia|].
      destruct (window_drop (m_data e0) from (blen + 1) (i - from))
        as (tl & Hw); try lia.
      fold blk in Hw. rewrite Hw in Hfr. cbn [freshPairs] in Hfr.
      replace (from + (i - from)) with i in Hfr by lia.
      destruct (seen !! (at_ (m_data e0) i, at_ (m_data e0) (i + 1)))
        as [u|] eqn:Hseen; [discriminate Hfr|].
      rewrite Hd. unfold child.
      destruct (m_dictionary (l_enc st)
                  !! (at_ (m_data e0) i, at_ (m_data e0) (i + 1)))
        as [v|] eqn:Hl.
      + exfalso. apply (Hkeys _ _) in Hseen; [exact Hseen|].
        rewrite Hl. discriminate.
      + reflexivity. }
  pose proof (chooseMatch_bounds (l_enc st) s i remaining ltac:(lia)) as Hcm.
  rewrite Hfm in Hcm.
  destruct (chooseMatch (l_enc st) s i remaining) as [ml ng].
  cbn [fst] in Hcm. assert (ml = 1) by lia. subst ml.
  pose proof (addCode_fields (l_enc st) i 1) as Hf. cbv zeta in Hf.
  pose proof (addCode_state (l_enc st) i 1) as Hst. cbv zeta in Hst.
  rewrite (followIndex_eq (l_enc st) i 1) in Hst by lia.
  rewrite Hd, Hds, HD in Hst.
  destruct (Z.leb_spec (size_ (m_data e0)) i) as [?|_]; [lia|].
  pose proof (addCode_code (l_enc st) i 1) as Hcode.
  change (Z.to_nat (1 - 1)) with 0%nat in Hcode. cbn [addCodeWalk snd] in Hcode.
  destruct (addCode (l_enc st) i 1) as [code e'].
  cbn [fst snd] in Hf, Hst, Hcode.
  destruct Hf as (Hd' & Hb' & HD' & HL' & Hg').
  cbn [mbind option_bind].
  eexists. split; [reflexivity|].
  unfold Inv.
  cbn [l_enc l_matchLength l_numTokens l_codeSize l_result setEnc
       setMatchLength withBest m_data m_best m_isGif m_maxDictionary
       m_maxCodeLength m_dictSize m_dictionary].
  pose proof (nextCodeSize_grows (l_enc st) (l_codeSize st) HL Hcs) as Hncs.
  assert (Hbest : costEvaluation s from fa i
                    (setMatchLength
                       (mkLoop e' (u32 (l_numBits st + nextCodeSize (l_enc st) (l_codeSize st)))
                               (u32 (l_numTokens st + 1))
                               (if ng then u32 (l_numNonGreedyMatches st + 1)
                                else l_numNonGreedyMatches st)
                               1 (nextCodeSize (l_enc st) (l_codeSize st))
                               (if emit
                                then add (l_result st) code
                                         (nextCodeSize (l_enc st) (l_codeSize st))
                                else l_result st)
                               (if emit
                                then l_tokens st
                                     ++ [(code, nextCodeSize (l_enc st) (l_codeSize st))]
                                else l_tokens st))
                       (u32 (1 - 1)))
                  = m_best e').
  { unfold costEvaluation. cbv zeta. rewrite Hro. reflexivity. }
  rewrite Hbest.
  split; [congruence|]. split; [congruence|]. split; [congruence|].
  split; [congruence|]. split; [congruence|].
  split; [reflexivity|].
  split; [rewrite Hnt, u32_small by lia; lia|].
  split.
  { (* the dictionary size *)
    destruct (Z.ltb_spec (i + 1) (size_ (m_data e0))) as [Hnext|Hlast].
    - destruct (Z.ltb_spec (257 + (i - from) - 0) 65535) as [_|?]; [|lia].
      cbn [andb] in Hst. destruct Hst as [Hn _]. rewrite Hn.
      destruct (Z.leb_spec (size_ (m_data e0)) (i + 1)); [lia|].
      rewrite u32_small by lia. lia.
    - cbn [andb] in Hst. rewrite Hst, Hds.
      destruct (Z.leb_spec (size_ (m_data e0)) i); [lia|].
      destruct (Z.leb_spec (size_ (m_data e0)) (i + 1)); [|lia]. lia. }
  split; [exact Hncs|].
  split.
  { intros -> _. apply length_add_pos. lia. }
  (* the trie *)
  intros Hmore.
  destruct Htrie as (seen & Hkeys & Hfr); [lia|].
  destruct (window_drop (m_data e0) from (blen + 1) (i - from))
    as (tl & Hw); try lia.
  fold blk in Hw.
  assert (Hnext : drop (Z.to_nat (i + 1 - from)) blk
                  = at_ (m_data e0) (i + 1) :: tl).
  { replace (Z.to_nat (i + 1 - from)) with (Z.to_nat (i - from) + 1)%nat by lia.
    rewrite <- drop_drop, Hw. replace (from + (i - from) + 1) with (i + 1) by lia.
    reflexivity. }
  rewrite Hw in Hfr. cbn [freshPairs] in Hfr.
  replace (from + (i - from)) with i in Hfr by lia.
  destruct (seen !! (at_ (m_data e0) i, at_ (m_data e0) (i + 1)))
    as [u|] eqn:Hseen; [discriminate Hfr|].
  exists (<[ (at_ (m_data e0) i, at_ (m_data e0) (i + 1)) := tt ]> seen).
  split; [|rewrite Hnext; exact Hfr].
  destruct (Z.ltb_spec (i + 1) (size_ (m_data e0))) as [_|?]; [|lia].
  destruct (Z.ltb_spec (257 + (i - from) - 0) 65535) as [_|?]; [|lia].
  cbn [andb] in Hst. destruct Hst as [_ Hdic]. rewrite Hdic.
  intros c b Hl.
  destruct (child _ _ _ =? Unknown).
  - unfold setChild in Hl.
    destruct (decide ((code, at_ (m_data e0) (i + 1)) = (c, b))) as [Heq|Hne].
    + rewrite <- Heq, Hcode, Hd, lookup_insert_eq. discriminate.
    + rewrite lookup_insert_ne in Hl by exact Hne.
      apply Hkeys in Hl.
      destruct (decide ((at_ (m_data e0) i, at_ (m_data e0) (i + 1)) = (c, b)))
        as [<-|Hne']; [rewrite lookup_insert_eq; discriminate|].
      now rewrite lookup_insert_ne by exact Hne'.
  - apply Hkeys in Hl.
    destruct (decide ((at_ (m_data e0) i, at_ (m_data e0) (i + 1)) = (c, b)))
      as [<-|Hne']; [rewrite lookup_insert_eq; discriminate|].
    now rewrite lookup_insert_ne by exact Hne'.
Qed.

Lemma literal_loop fa n : forall i st,
  from <= i -> i + Z.of_nat n = from + blen -> Inv i st ->
  Inv (from + blen) (processInput s from blen emit fa n i st).
Proof.
  induction n as [|n IH]; intros i st Hi Hn HI; cbn [processInput].
  - replace (from + blen) with i by lia. exact HI.
  - destruct (literal_step fa i st ltac:(lia) HI) as (st' & Hit & HI').
    rewrite Hit. rewrite u32_small by lia. apply IH; [lia | lia | exact HI'].
Qed.

(** The block is emitted as [blen] single bytes. *)
Lemma literal_block :
  let st := runBlock e0 s from blen emit in
  m_data (l_enc st) = m_data e0
  /\ m_best (l_enc st) = m_best e0
  /\ m_isGif (l_enc st) = false
  /\ m_maxDictionary (l_enc st) = 65535
  /\ m_maxCodeLength (l_enc st) = 16
  /\ l_numTokens st = blen
  /\ m_dictSize (l_enc st)
     = 257 + blen - (if size_ (m_data e0) <=? from + blen then 1 else 0)
  /\ (emit = true -> l_result st <> []).
Proof.
  cbv zeta. unfold runBlock. cbv zeta.
  rewrite (u32_small (from + blen - 1)) by lia.
  pose proof (literal_loop (from / alignment s)
                (Z.to_nat (from + blen - 1 - from + 1)) from (initLoop e0 s)
                ltac:(lia) ltac:(lia) literal_init) as HI.
  destruct HI as (Hd & Hb & Hg & HD & HL & _ & Hnt & Hds & _ & Hres & _).
  split; [exact Hd|]. split; [exact Hb|]. split; [exact Hg|].
  split; [exact HD|]. split; [exact HL|]. split; [lia|].
  split; [rewrite Hds; f_equal; lia|].
  intros He. apply Hres; [exact He | lia].
Qed.

End LiteralBlock.


(** An emitting call for a .Z segment with alignment 1 succeeds when
    the segment is the final one, or when its run ends with codes of
    16 bits. *)
Lemma optimizePartial_compress_ok e from maxLength isFinal s :
  m_isGif e = false -> alignment s = 1 -> m_best e <> [] ->
  u32 (from + blockLength e from maxLength) <> 0 ->
  let st := runBlock e s from (blockLength e from maxLength) true in
  (isFinal = true -> l_result st <> []) ->
  (isFinal = false -> getMinBits (u32 (m_dictSize (l_enc st) - 1)) = 16) ->
  exists bits,
    optimizePartial e from maxLength true isFinal s = Ok (bits, l_enc st)
    /\ bits <> [].
Proof.
  intros Hz Ha Hbest Hlen st Hres Hclose. unfold optimizePartial.
  assert (Halloc : allocateBest e s = Ok e).
  { unfold allocateBest. destruct (m_best e); [contradiction | reflexivity]. }
  rewrite Halloc. cbn [mbind outcome_bind rbind]. cbv zeta.
  assert (Hfix : fixAlignment s = s).
  { unfold fixAlignment. rewrite Ha. reflexivity. }
  rewrite Hfix, Ha, Z.mod_1_r. change (negb (0 =? 0)) with false. cbv iota.
  rewrite !andb_false_r. cbn [andb].
  destruct (Z.eqb_spec (u32 (from + blockLength e from maxLength)) 0)
    as [?|_]; [contradiction|].
  unfold endOfBlock.
  rewrite (isGif_runBlock e s from (blockLength e from maxLength) true), Hz.
  fold st. cbv zeta iota.
  destruct isFinal.
  - cbn [mbind outcome_bind rbind]. eexists. split; [reflexivity|].
    rewrite fillByte_8. specialize (Hres eq_refl).
    destruct (l_result st); [contradiction | discriminate].
  - rewrite (Hclose eq_refl). change (negb (16 =? 16)) with false. cbv iota.
    cbn [mbind outcome_bind rbind]. eexists. split; [reflexivity|].
    unfold pushZeros. rewrite fillByte_8. unfold add.
    change (Z.to_nat 16) with 16%nat. cbn [addBits].
    destruct (l_result st); discriminate.
Qed.

(** Two segments of single bytes: [merge] returns a stream when the
    first segment has at least 32512 bytes. *)
Lemma merge_two_literal_segments (data : list Z) (R : Z)
      (s : OptimizationSettings) :
  minCodeSize s = 8 -> maxDictionary s = 0 -> alignment s = 1 ->
  maxTokens s = 0 \/ 65278 <= maxTokens s ->
  32512 <= R <= 65278 -> R < size_ data -> size_ data - R <= 65278 ->
  freshPairs ∅ (take (Z.to_nat (R + 1)) (drop (Z.to_nat 0) data)) = true ->
  freshPairs ∅ (take (Z.to_nat (size_ data - R + 1)) (drop (Z.to_nat R) data))
  = true ->
  exists bits e', merge (new data false) [R] s = Ok (bits, e').
Proof.
  intros Hmin Hdict Ha Htok HR Hin Htail Hfresh1 Hfresh2.
  assert (Hsize : size_ data < 4294967296) by lia.
  unfold merge. change (m_isGif (new data false)) with false.
  rewrite andb_false_r.
  cbn [List.last]. change (m_data (new data false)) with data.
  destruct (Z.ltb_spec R (size_ data)) as [_|?]; [|lia].
  cbn [app length]. change (Z.of_nat 2) with 2.
  set (rest2 := [u32 (size_ data)]).
  cbn [mergeLoop].
  destruct (Z.eqb_spec R 0) as [?|_]; [lia|].
  cbv zeta. change (m_best (new data false)) with (@nil BestBlock).
  cbn [mbind outcome_bind rbind].
  change (0 =? 2 - 1) with false.
  rewrite Z.sub_0_r, (u32_small R) by lia.
  set (e := new data false).
  set (s2 := setReadOnlyBest s true).
  (* the first segment *)
  unfold optimizePartial at 1.
  assert (Halloc : allocateBest e s2
                   = Ok (withBest e (repeat noBlock
                                       (Z.to_nat (size_ data / 1 + 1 + 1))))).
  { unfold allocateBest. cbn [m_best e new m_data alignment s2 setReadOnlyBest].
    rewrite Ha. reflexivity. }
  rewrite Halloc. cbn [mbind outcome_bind rbind]. cbv zeta.
  set (e1 := withBest e _).
  assert (Hfix : fixAlignment s2 = s2).
  { unfold fixAlignment. cbn [alignment s2 setReadOnlyBest]. rewrite Ha.
    reflexivity. }
  rewrite Hfix.
  assert (Hbl : blockLength e1 0 R = R).
  { unfold blockLength. cbn [m_data e1 withBest e new].
    rewrite Z.sub_0_r, (u32_small (size_ data)) by (unfold size_ in *; lia).
    destruct (Z.ltb_spec R (size_ data)); [|lia].
    destruct (Z.eqb_spec R 0); [lia | reflexivity]. }
  rewrite Hbl.
  cbn [alignment s2 setReadOnlyBest]. rewrite Ha, Z.mod_1_r.
  change (negb (0 =? 0)) with false. cbv iota.
  rewrite !andb_false_r. cbn [andb].
  rewrite (u32_small (0 + R)) by lia.
  destruct (Z.eqb_spec (0 + R) 0) as [?|_]; [lia|].
  assert (Hb1 : let st := runBlock e1 s2 0 R true in
                m_data (l_enc st) = m_data e1
                /\ m_best (l_enc st) = m_best e1
                /\ m_isGif (l_enc st) = false
                /\ m_maxDictionary (l_enc st) = 65535
                /\ m_maxCodeLength (l_enc st) = 16
                /\ l_numTokens st = R
                /\ m_dictSize (l_enc st)
                   = 257 + R - (if size_ (m_data e1) <=? 0 + R then 1 else 0)
                /\ (true = true -> l_result st <> [])).
  { apply literal_block; try reflexivity; try assumption; try lia.
    - change (maxTokens s2) with (maxTokens s).
      destruct Htok; [left; assumption | right; lia].
    - change (m_data e1) with data. lia. }
  cbv zeta in Hb1.
  set (st1 := runBlock e1 s2 0 R true) in *.
  destruct Hb1 as (Hd1 & Hbest1 & Hg1 & HD1 & HL1 & Hnt1 & Hds1 & _).
  cbn [m_data e1 withBest e new] in Hd1, Hds1.
  destruct (Z.leb_spec (size_ data) (0 + R)) as [?|_]; [lia|].
  unfold endOfBlock. rewrite Hg1. cbv zeta iota.
  assert (H16 : getMinBits (u32 (m_dictSize (l_enc st1) - 1)) = 16).
  { rewrite Hds1, u32_small by lia.
    apply (getMinBits_between 15); [lia|]. change (2 ^ 15) with 32768.
    change (2 ^ (15 + 1)) with 65536. lia. }
  rewrite H16. change (negb (16 =? 16)) with false. cbv iota.
  cbn [mbind outcome_bind rbind].
  set (block1 := pushZeros _ _).
  assert (Hne1 : block1 <> []).
  { unfold block1, pushZeros. rewrite fillByte_8. unfold add.
    change (Z.to_nat 16) with 16%nat. cbn [addBits].
    destruct (l_result st1); discriminate. }
  assert (Hm1 : match block1 with [] => true | _ => false end = false)
    by (destruct block1; [contradiction | reflexivity]).
  rewrite Hm1. cbn [andb]. clearbody block1.
  (* the final segment *)
  subst rest2. cbn [mergeLoop].
  assert (Hsz : u32 (size_ data) = size_ data)
    by (apply u32_small; unfold size_ in *; lia).
  rewrite Hsz.
  destruct (Z.eqb_spec (size_ data) 0) as [?|_]; [lia|].
  cbv zeta. change (0 + 1 =? 2 - 1) with true.
  assert (Hbne : m_best (l_enc st1) <> []).
  { rewrite Hbest1. cbn [m_best e1 withBest].
    destruct (Z.to_nat (size_ data / 1 + 1 + 1)) eqn:Hn; [|discriminate].
    rewrite Z.div_1_r in Hn. unfold size_ in *. lia. }
  destruct (m_best (l_enc st1)) as [|bb0 bbs] eqn:Hbb; [contradiction|].
  rewrite <- Hbb. cbn [alignment s2 setReadOnlyBest]. rewrite Ha.
  change (1 =? 0) with false. cbv iota. cbn [mbind outcome_bind rbind].
  set (s3 := setReadOnlyBest _ true).
  assert (Hs3 : minCodeSize s3 = 8 /\ readOnlyBest s3 = true
                /\ maxDictionary s3 = 0 /\ maxTokens s3 = maxTokens s
                /\ alignment s3 = 1).
  { unfold s3. destruct (bb_nongreedy _ =? 0); cbn; auto. }
  destruct Hs3 as (Hmin3 & Hro3 & Hdict3 & Htok3 & Ha3).
  clearbody s3.
  assert (Hbl2 : blockLength (l_enc st1) R (u32 (size_ data - R))
                 = size_ data - R).
  { unfold blockLength. rewrite Hd1, !(u32_small (size_ data - R)) by lia.
    rewrite Z.ltb_irrefl. reflexivity. }
  assert (Hb2 : let st := runBlock (l_enc st1) s3 R (size_ data - R) true in
                m_data (l_enc st) = m_data (l_enc st1)
                /\ m_best (l_enc st) = m_best (l_enc st1)
                /\ m_isGif (l_enc st) = false
                /\ m_maxDictionary (l_enc st) = 65535
                /\ m_maxCodeLength (l_enc st) = 16
                /\ l_numTokens st = size_ data - R
                /\ m_dictSize (l_enc st)
                   = 257 + (size_ data - R)
                     - (if size_ (m_data (l_enc st1)) <=? R + (size_ data - R)
                        then 1 else 0)
                /\ (true = true -> l_result st <> [])).
  { apply literal_block; try assumption; try lia.
    - rewrite Hd1. lia.
    - rewrite Hd1. lia.
    - rewrite Hd1. exact Hfresh2. }
  cbv zeta in Hb2.
  destruct Hb2 as (_ & _ & _ & _ & _ & _ & _ & Hres2).
  destruct (optimizePartial_compress_ok (l_enc st1) R (u32 (size_ data - R))
              true s3 Hg1 Ha3 ltac:(rewrite Hbb; discriminate))
    as (bits2 & Hop2 & Hne2).
  { rewrite Hbl2, u32_small by lia. lia. }
  { intros _. rewrite Hbl2. apply Hres2. reflexivity. }
  { discriminate. }
  rewrite Hop2. cbn [mbind outcome_bind rbind].
  assert (Hm2 : match bits2 with [] => true | _ => false end = false)
    by (destruct bits2; [contradiction | reflexivity]).
  rewrite Hm2. cbn [andb mergeLoop]. eexists _, _. reflexivity.
Qed.


(** A .Z stream of two segments with the settings of [main]: 32530
    bytes in which no two-byte window occurs twice, and one restart at
    offset 32512.  In such data every token is a single byte
    ([literal_block]), so that the codes take 16 bits after the 32512
    bytes of the first segment, which is closed by the clear code. *)
Lemma merge_compress_segments_witness :
  let e := new (sampleData 32530) false in
  let s := compressSettings in
  exists bits e' st1 st2,
    merge e [32512] s = Ok (bits, e')
    /\ segmentRun e s 2 (0, 0, 32512) st1
    /\ segmentRun e s 2 (1, 32512, 32530) st2
    /\ bits = closedSegment 256 false st1 ++ closedSegment 256 true st2.
Proof.
  intros e s.
  destruct (merge_two_literal_segments (sampleData 32530) 32512 s)
    as (bits & e' & Hm).
  { reflexivity. }
  { reflexivity. }
  { reflexivity. }
  { right. vm_compute. discriminate. }
  { lia. }
  { vm_compute. reflexivity. }
  { vm_compute. discriminate. }
  { vm_compute. reflexivity. }
  { vm_compute. reflexivity. }
  pose proof (merge_compress_segments e [32512] s bits e' eq_refl Hm) as H.
  cbv zeta in H.
  assert (Hrs : mergeRestarts e [32512] = [32512; 32530])
    by (vm_compute; reflexivity).
  rewrite Hrs in H. cbn [length segmentsOf] in H.
  change (32512 =? 0) with false in H. change (32530 =? 0) with false in H.
  cbv iota in H. change (Z.of_nat 2) with 2 in H.
  destruct H as (runs & Hall & Hbits).
  apply Forall2_cons_inv_l in Hall as (st1 & runs1 & H1 & Hall & ->).
  apply Forall2_cons_inv_l in Hall as (st2 & runs2 & H2 & Hall & ->).
  apply Forall2_nil_inv_l in Hall as ->.
  exists bits, e', st1, st2.
  split; [exact Hm|]. split; [exact H1|]. split; [exact H2|].
  rewrite Hbits. cbn [streamOf]. now rewrite app_nil_r.
Defined.

End CompressStreamProps.
